(** * GrafanaGridder: grid positions for groups of dashboard panels

    A shallow embedding of [grafana_gridder.py] and the properties of its
    layout engine: the width allocator [_create_width_units_array], the
    panel group ([PanelGroup]) and the vertical composition of groups
    ([PanelPositioning]).

    Conventions of the embedding.
    - Python integers are [Z]; lengths and list indices are [nat].
    - Python floats are IEEE 754 binary64 values, taken from the reference
      implementation [SpecFloat] of the standard library ([prec = 53],
      [emax = 1024]).  The allocator computes
      [floor(total_width / total_sum * elem)] in floating point, and the
      result is not always the floor of the exact quotient.
    - An exception is a value of [exn]; code that can raise returns [res].
    - Panels and row panels are external objects whose [gridPos] attribute
      is written by the code.  An object is named by an identifier of type
      [oid], and the attribute of every object lives in one shared store: a
      panel listed twice, or listed in two groups, is one entry of it.
    - Code that writes [gridPos] runs in the monad [M] of a store with
      exceptions; the store survives an exception, as the objects do.
    - The members of a [PanelPositioning] are objects as well: a
      [PanelGroup] or a [PanelPositioning] that is listed twice, or in two
      lists, is one object with one origin.  The attributes of these
      objects and the list objects live in a heap, and the code of
      [PanelPositioning] runs in the monad [HM] of the heap. *)

From Stdlib Require Import ZArith List Lia Bool String.
From Stdlib Require Import Floats.SpecFloat.
From stdpp Require Import base option list sorting gmap.

Local Open Scope Z_scope.

(** ** Exceptions *)

Inductive exn : Type :=
| AssertionError (msg : string)
| IndexError
| ZeroDivisionError
| OverflowError
| ValueError
| AttributeError
| RecursionError.

Inductive res (A : Type) : Type :=
| OK (a : A)
| Raise (e : exn).
Arguments OK {A} a.
Arguments Raise {A} e.

Definition res_bind {A B} (c : res A) (k : A -> res B) : res B :=
  match c with
  | OK a => k a
  | Raise e => Raise e
  end.

Declare Scope res_scope.
Delimit Scope res_scope with res.
Notation "'let?' x ':=' c 'in' k" := (res_bind c (fun x => k))
  (at level 10, x pattern, c at level 100, k at level 200) : res_scope.
Local Open Scope res_scope.

(** [assert cond, msg] *)
Definition assert (cond : bool) (msg : string) : res unit :=
  if cond then OK tt else Raise (AssertionError msg).

(** [l[i]] for a non-negative index. *)
Definition getitem {A} (l : list A) (i : nat) : res A :=
  match l !! i with
  | Some a => OK a
  | None => Raise IndexError
  end.

(** A list comprehension [[f x for x in l]] whose body can raise. *)
Fixpoint comprehension {A B} (f : A -> res B) (l : list A) : res (list B) :=
  match l with
  | [] => OK []
  | x :: l' =>
      let? y := f x in
      let? ys := comprehension f l' in
      OK (y :: ys)
  end.

(** A [for] loop over [l] whose body updates an accumulator and can raise. *)
Fixpoint for_each {A S} (body : S -> A -> res S) (l : list A) (s : S) : res S :=
  match l with
  | [] => OK s
  | x :: l' => let? s' := body s x in for_each body l' s'
  end.

(** The builtin [sum] on a list of integers. *)
Definition sum (l : list Z) : Z := foldr Z.add 0 l.

(** ** Floats *)

Module Float.

Definition prec : Z := 53.
Definition emax : Z := 1024.

(** [float(n)]: the nearest binary64 value, exact below [2^53].  Python
    raises [OverflowError] where the nearest value is infinite. *)
Definition of_int (n : Z) : res spec_float :=
  match binary_normalize prec emax n 0 false with
  | S754_infinity _ => Raise OverflowError
  | x => OK x
  end.

(** [a / b] on two integers (true division).  The quotient of the two
    integers is rounded once, to the nearest binary64 value, whatever the
    size of the operands; Python raises [OverflowError] where that value
    is infinite.  A zero dividend gives a zero of the sign of the divisor. *)
Definition int_truediv (a b : Z) : res spec_float :=
  if b =? 0 then Raise ZeroDivisionError
  else if a =? 0 then OK (S754_zero (b <? 0))
  else
    let '(q, e, l) := SFdiv_core_binary prec emax (Z.abs a) 0 (Z.abs b) 0 in
    match binary_round_aux prec emax (xorb (a <? 0) (b <? 0)) q e l with
    | S754_infinity _ => Raise OverflowError
    | x => OK x
    end.

(** [x * n] for a float [x] and an integer [n]. *)
Definition mul_int (x : spec_float) (n : Z) : res spec_float :=
  let? y := of_int n in
  OK (SFmul prec emax x y).

(** [math.floor(x)], an integer. *)
Definition floor (x : spec_float) : res Z :=
  match x with
  | S754_zero _ => OK 0
  | S754_finite s m e =>
      let v := if s then Zneg m else Zpos m in
      OK (match e with
          | Z0 => v
          | Zpos _ => Z.shiftl v e
          | Zneg p => Z.shiftr v (Zpos p)
          end)
  | S754_infinity _ => Raise OverflowError
  | S754_nan => Raise ValueError
  end.

End Float.

(** ** The relative sizes *)

Inductive PanelSize : Type := SMALL | MEDIUM | LARGE | XLARGE.

Definition value (size : PanelSize) : Z :=
  match size with
  | SMALL => 1
  | MEDIUM => 2
  | LARGE => 3
  | XLARGE => 4
  end.

Definition _MAX_WIDTH : Z := 24.

(** ** The width allocator *)

(** [sorted(l, key=key, reverse=True)].  Python's sort is stable, also with
    [reverse=True]: elements with equal keys keep their order.  A stable sort
    has one possible result, which insertion from the right computes. *)
Fixpoint insert_desc (key : nat -> Z) (i : nat) (l : list nat) : list nat :=
  match l with
  | [] => [i]
  | j :: l' => if key i <? key j then j :: insert_desc key i l' else i :: l
  end.

Definition sorted_desc (key : nat -> Z) (l : list nat) : list nat :=
  foldr (insert_desc key) [] l.

(** [floor(total_width / total_sum * elem)], computed in floating point. *)
Definition raw_floor (total_width total_sum elem : Z) : res Z :=
  let? q := Float.int_truediv total_width total_sum in
  let? p := Float.mul_int q elem in
  Float.floor p.

(** [max(1, floor(total_width / total_sum * elem))] *)
Definition raw_width (total_width total_sum elem : Z) : res Z :=
  let? f := raw_floor total_width total_sum elem in
  OK (Z.max 1 f).

(** The list [result] before the remainder is distributed. *)
Definition raw_widths (arr : list Z) (total_width : Z) : res (list Z) :=
  comprehension (raw_width total_width (sum arr)) arr.

(** The body of [for i in range(delta)]: [result[idx[i]] += 1]. *)
Definition bump (idx : list nat) (result : list Z) (i : nat) : res (list Z) :=
  let? j := getitem idx i in
  let? v := getitem result j in
  OK (<[j := v + 1]> result).

(** [sorted(range(len(result)), key=lambda i: result[i], reverse=True)] *)
Definition sorted_indices (result : list Z) : list nat :=
  sorted_desc (fun i => default 0 (result !! i)) (seq 0 (length result)).

Definition _create_width_units_array (arr : list Z) (total_width : Z) : res (list Z) :=
  let? result := raw_widths arr total_width in
  let delta := total_width - sum result in
  if 0 <? delta then
    let idx := sorted_indices result in
    for_each (bump idx) (seq 0 (Z.to_nat delta)) result
  else OK result.

(** ** Panels and the store of their positions *)

Module GridPos.

Record t : Type := mk { x : Z; y : Z; w : Z; h : Z }.

End GridPos.

(** The identity of a panel object, and the [gridPos] attribute of every
    panel object.  An object without an entry has [gridPos = None]. *)
Abbreviation oid := positive (only parsing).
Abbreviation store := (gmap positive GridPos.t) (only parsing).

Definition M (A : Type) : Type := store -> res A * store.

Definition ret {A} (a : A) : M A := fun st => (OK a, st).

Definition bind {A B} (c : M A) (k : A -> M B) : M B :=
  fun st =>
    match c st with
    | (OK a, st') => k a st'
    | (Raise e, st') => (Raise e, st')
    end.

Definition lift {A} (c : res A) : M A := fun st => (c, st).

Declare Scope M_scope.
Delimit Scope M_scope with M.
Notation "'let!' x ':=' c 'in' k" := (bind c (fun x => k))
  (at level 10, x pattern, c at level 100, k at level 200) : M_scope.
Local Open Scope M_scope.

(** A [for] loop whose body writes positions. *)
Fixpoint for_eachM {A S} (body : S -> A -> M S) (l : list A) (s : S) : M S :=
  match l with
  | [] => ret s
  | x :: l' => let! s' := body s x in for_eachM body l' s'
  end.

(** [enumerate(l)] *)
Definition enumerate {A} (l : list A) : list (nat * A) := zip (seq 0 (length l)) l.

(** [panel.gridPos = gp] *)
Definition set_gridPos (panel : oid) (gp : GridPos.t) : M unit :=
  fun st => (OK tt, <[panel := gp]> st).

(** The rectangle [gp] moved down by [delta]. *)
Definition move_down (delta : Z) (gp : GridPos.t) : GridPos.t :=
  GridPos.mk (GridPos.x gp) (GridPos.y gp + delta) (GridPos.w gp) (GridPos.h gp).

(** [panel.gridPos.y += delta]; [None] has no attribute [y]. *)
Definition add_gridPos_y (panel : oid) (delta : Z) : M unit :=
  fun st =>
    match st !! panel with
    | Some gp => (OK tt, <[panel := move_down delta gp]> st)
    | None => (Raise AttributeError, st)
    end.

(** ** The panel group *)

Module PanelGroup.

Record t : Type := mk {
  _layout : list (list PanelSize);
  row_heights : list Z;
  row : option oid;
  _y : Z;
  height : Z;
  panels : list oid
}.

(** The argument [layout]: a list of rows, or one row of sizes.  The empty
    list is [Rows []] as well as [Sizes []]. *)
Inductive layout_arg : Type :=
| Rows (rows : list (list PanelSize))
| Sizes (sizes : list PanelSize).

(** The argument [row_heights]: a list, or one height for every row. *)
Inductive row_heights_arg : Type :=
| Heights (l : list Z)
| Height (h : Z).

(** The normalised layout:
    [layout if isinstance(layout[0], list) else [layout] * (len(panels) // len(layout))] *)
Definition normalise (layout : layout_arg) (n_panels : nat) : res (list (list PanelSize)) :=
  match layout with
  | Rows [] | Sizes [] => Raise IndexError
  | Rows rows => OK rows
  | Sizes sizes => OK (replicate (n_panels / length sizes)%nat sizes)
  end.

(** The checks and the attributes of [__init__], up to the call of
    [_compute_grid_pos]. *)
Definition attributes (layout : option layout_arg) (panels : list oid) (y : Z)
    (row_heights : row_heights_arg) (row : option oid) : res t :=
  match layout with
  | None => Raise (AssertionError "layout cannot be None")
  | Some layout =>
      let? _layout := normalise layout (length panels) in
      let? _ := assert (sum_list (length <$> _layout) =? length panels)%nat
                  "Panel count does not match layout" in
      let? row_heights :=
        match row_heights with
        | Heights l =>
            let? _ := assert (length l =? length _layout)%nat
                        "Row height count does not match layout" in
            OK l
        | Height h => OK (replicate (length _layout) h)
        end in
      OK {| _layout := _layout;
            row_heights := row_heights;
            row := row;
            _y := y;
            height := sum row_heights + Z.of_nat (length row_heights)
                      + (if row is Some _ then 2 else 0);
            panels := panels |}
  end.

(** The body of [for width in panel_sizes_units], on [(current_x, panel_index)]. *)
Definition place (self : t) (row_index : nat) (current_y : Z)
    (s : Z * nat) (width : Z) : M (Z * nat) :=
  let '(current_x, panel_index) := s in
  let! panel := lift (getitem (panels self) panel_index) in
  let! hgt := lift (getitem (row_heights self) row_index) in
  let! _ := set_gridPos panel (GridPos.mk current_x current_y width hgt) in
  ret (current_x + width, S panel_index).

(** The body of [for row_index, panel_sizes in enumerate(self._layout)], on
    [(panel_index, current_y)]. *)
Definition place_row (self : t) (s : nat * Z) (item : nat * list PanelSize) : M (nat * Z) :=
  let '(panel_index, current_y) := s in
  let '(row_index, panel_sizes) := item in
  let current_x := 0 in
  let panel_sizes_values := value <$> panel_sizes in
  let! panel_sizes_units :=
    lift (_create_width_units_array panel_sizes_values _MAX_WIDTH) in
  let! s' := for_eachM (place self row_index current_y) panel_sizes_units
               (current_x, panel_index) in
  let! hgt := lift (getitem (row_heights self) row_index) in
  ret (snd s', current_y + hgt + 1).

Definition _compute_grid_pos (self : t) : M unit :=
  let panel_index := 0%nat in
  let current_y := _y self in
  let! current_y :=
    match row self with
    | Some r =>
        let! _ := set_gridPos r (GridPos.mk 0 (_y self) _MAX_WIDTH 1) in
        ret (current_y + 2)
    | None => ret current_y
    end in
  let! _ := for_eachM (place_row self) (enumerate (_layout self)) (panel_index, current_y) in
  ret tt.

(** [PanelGroup(layout, panels, y, row_heights, row)]; an omitted [y] is
    [None] here and 0 in the code, an omitted [row_heights] is 8. *)
Definition __init__ (layout : option layout_arg) (panels : list oid) (y : option Z)
    (row_heights : option row_heights_arg) (row : option oid) : M t :=
  let! self := lift (attributes layout panels (default 0 y)
                       (default (Height 8) row_heights) row) in
  let! _ := _compute_grid_pos self in
  ret self.

Definition with_y (self : t) (y : Z) : t :=
  {| _layout := _layout self;
     row_heights := row_heights self;
     row := row self;
     _y := y;
     height := height self;
     panels := panels self |}.

Definition set_y (self : t) (y : Z) : M t :=
  let! _ := lift (assert (0 <=? y) "y-axis position must be at least 0") in
  let delta := y - _y self in
  let! _ :=
    match row self with
    | Some r => add_gridPos_y r delta
    | None => ret tt
    end in
  let! _ := for_eachM (fun _ panel => add_gridPos_y panel delta) (panels self) tt in
  ret (with_y self y).

Definition get_height (self : t) : Z := height self.

End PanelGroup.

(** ** The vertical composition *)

(** A member of a [PanelPositioning] is an object, a [PanelGroup] or a
    [PanelPositioning].  The list [panel_groups] holds the objects
    themselves: an object that is listed twice, or in two lists, is one
    object with one origin.  An object is named by its identity. *)
Inductive member : Type :=
| Group (g : positive)
| Positioning (t : positive).

#[global] Instance member_eq_dec : EqDecision member.
Proof. solve_decision. Defined.

Module Heap.

(** The objects of a program: the [gridPos] of every panel, the attributes
    of every [PanelGroup], the attributes [(panel_groups, y)] of every
    [PanelPositioning], where [panel_groups] is a list object, and the
    members of every list object. *)
Record t : Type := mk {
  gridPos : gmap positive GridPos.t;
  groups : gmap positive PanelGroup.t;
  positionings : gmap positive (positive * Z);
  lists : gmap positive (list member)
}.

Definition empty : t := mk ∅ ∅ ∅ ∅.

End Heap.

(** A computation on the objects. *)
Definition HM (A : Type) : Type := Heap.t -> res A * Heap.t.

Definition retH {A} (a : A) : HM A := fun h => (OK a, h).

Definition bindH {A B} (c : HM A) (k : A -> HM B) : HM B :=
  fun h =>
    match c h with
    | (OK a, h') => k a h'
    | (Raise e, h') => (Raise e, h')
    end.

Declare Scope HM_scope.
Delimit Scope HM_scope with HM.
Notation "'let*' x ':=' c 'in' k" := (bindH c (fun x => k))
  (at level 10, x pattern, c at level 100, k at level 200) : HM_scope.
Local Open Scope HM_scope.

(** A computation that reads the objects and changes none. *)
Definition read {A} (f : Heap.t -> res A) : HM A := fun h => (f h, h).

(** A computation on the positions of the panels. *)
Definition on_gridPos {A} (c : M A) : HM A :=
  fun h =>
    let '(r, st) := c (Heap.gridPos h) in
    (r, Heap.mk st (Heap.groups h) (Heap.positionings h) (Heap.lists h)).

(** A [for] loop whose body works on the objects. *)
Fixpoint for_eachH {A S} (body : S -> A -> HM S) (l : list A) (s : S) : HM S :=
  match l with
  | [] => retH s
  | x :: l' => let* s' := body s x in for_eachH body l' s'
  end.

(** The object of a name.  In Python every name has its object; where a
    heap has none, the computation stops. *)
Definition the {A} (o : option A) : res A :=
  match o with
  | Some a => OK a
  | None => Raise AttributeError
  end.

(** A list display [[m1, m2, ...]]: a new list object. *)
Definition new_list (members : list member) : HM positive :=
  fun h =>
    let l := fresh (dom (Heap.lists h)) in
    (OK l, Heap.mk (Heap.gridPos h) (Heap.groups h) (Heap.positionings h)
             (<[l := members]> (Heap.lists h))).

(** The call [PanelGroup(layout, panels, y, row_heights, row)]: a new
    [PanelGroup] object with the attributes of [PanelGroup.__init__]. *)
Definition new_PanelGroup (layout : option PanelGroup.layout_arg) (panels : list oid)
    (y : option Z) (row_heights : option PanelGroup.row_heights_arg) (row : option oid) :
    HM positive :=
  let* self := on_gridPos (PanelGroup.__init__ layout panels y row_heights row) in
  fun h =>
    let g := fresh (dom (Heap.groups h)) in
    (OK g, Heap.mk (Heap.gridPos h) (<[g := self]> (Heap.groups h)) (Heap.positionings h)
             (Heap.lists h)).

Module PanelPositioning.

(** [PanelPositioning(panel_groups)]: [self.panel_groups = panel_groups or []],
    the list of the caller itself where one is given and it is not empty,
    and a new list otherwise; [self.y = 0]. *)
Definition __init__ (panel_groups : option positive) : HM positive :=
  let* given :=
    match panel_groups with
    | None => retH None
    | Some l =>
        let* members := read (fun h => the (Heap.lists h !! l)) in
        retH (if members is [] then None else Some l)
    end in
  let* l :=
    match given with
    | Some l => retH l
    | None => new_list []
    end in
  fun h =>
    let t := fresh (dom (Heap.positionings h)) in
    (OK t, Heap.mk (Heap.gridPos h) (Heap.groups h) (<[t := (l, 0)]> (Heap.positionings h))
             (Heap.lists h)).

(** [self.panel_groups.append(panel_group)] *)
Definition add_panel_group (self : positive) (panel_group : member) : HM unit :=
  let* p := read (fun h => the (Heap.positionings h !! self)) in
  let* members := read (fun h => the (Heap.lists h !! p.1)) in
  fun h =>
    (OK tt, Heap.mk (Heap.gridPos h) (Heap.groups h) (Heap.positionings h)
              (<[p.1 := members ++ [panel_group]]> (Heap.lists h))).

(** [group.get_height()], for a member of either class: [self.height] of a
    [PanelGroup], [sum(group.get_height() for group in self.panel_groups)]
    of a [PanelPositioning].  The method calls itself on the nested
    members; [fuel] bounds the depth of these calls. *)
Fixpoint get_height (fuel : nat) (self : member) (h : Heap.t) {struct fuel} : res Z :=
  match self with
  | Group g =>
      let? s := the (Heap.groups h !! g) in
      OK (PanelGroup.get_height s)
  | Positioning t =>
      match fuel with
      | O => Raise RecursionError
      | S fuel' =>
          let? p := the (Heap.positionings h !! t) in
          let? members := the (Heap.lists h !! p.1) in
          let? heights := comprehension (fun group => get_height fuel' group h) members in
          OK (sum heights)
      end
  end.

(** [group.set_y(y)], for a member of either class.  A [PanelGroup] moves
    its panels and keeps the new origin in the object; a
    [PanelPositioning] only keeps the new origin. *)
Definition set_y (self : member) (y : Z) : HM unit :=
  match self with
  | Group g =>
      let* s := read (fun h => the (Heap.groups h !! g)) in
      let* s' := on_gridPos (PanelGroup.set_y s y) in
      fun h =>
        (OK tt, Heap.mk (Heap.gridPos h) (<[g := s']> (Heap.groups h)) (Heap.positionings h)
                  (Heap.lists h))
  | Positioning t =>
      let* p := read (fun h => the (Heap.positionings h !! t)) in
      let* _ := read (fun _ => assert (0 <=? y) "y-axis position must be at least 0") in
      fun h =>
        (OK tt, Heap.mk (Heap.gridPos h) (Heap.groups h)
                  (<[t := (p.1, y)]> (Heap.positionings h)) (Heap.lists h))
  end.

(** The body of the first loop of the property [panels], on [current_y]. *)
Definition stack (fuel : nat) (current_y : Z) (group : member) : HM Z :=
  let* _ := set_y group current_y in
  let* hgt := read (get_height fuel group) in
  retH (current_y + hgt).

(** [[group.row]] when [hasattr(group, 'row') and group.row is not None]. *)
Definition header (group : member) (h : Heap.t) : res (list oid) :=
  match group with
  | Group g =>
      let? s := the (Heap.groups h !! g) in
      OK (if PanelGroup.row s is Some r then [r] else [])
  | Positioning _ => OK []
  end.

(** The body of the second loop, on [panels]; [read_panels] is [group.panels]. *)
Definition collect (read_panels : member -> HM (list oid)) (panels : list oid)
    (group : member) : HM (list oid) :=
  let* hd := read (header group) in
  let* ps := read_panels group in
  retH (panels ++ hd ++ ps).

(** [group.panels]: the attribute of a [PanelGroup], the property of a
    [PanelPositioning].  The property reads the property of the nested
    members; [fuel] bounds the depth of these calls. *)
Fixpoint panels (fuel : nat) (self : member) {struct fuel} : HM (list oid) :=
  match self with
  | Group g =>
      let* s := read (fun h => the (Heap.groups h !! g)) in
      retH (PanelGroup.panels s)
  | Positioning t =>
      match fuel with
      | O => read (fun _ => Raise RecursionError)
      | S fuel' =>
          let* p := read (fun h => the (Heap.positionings h !! t)) in
          let* panel_groups := read (fun h => the (Heap.lists h !! p.1)) in
          let* _ := for_eachH (stack fuel') panel_groups p.2 in
          let* panel_groups := read (fun h => the (Heap.lists h !! p.1)) in
          for_eachH (collect (panels fuel')) panel_groups []
      end
  end.

End PanelPositioning.
(** ** The vocabulary of the properties *)

(** The assignments [panel.gridPos = gp] of a list, made in its order. *)
Definition write_all (ws : list (positive * GridPos.t)) (st : store) : store :=
  foldl (fun st w => <[w.1 := w.2]> st) st ws.

(** The rectangle of every listed object moved down by [delta], once for
    each time the object is listed. *)
Definition shift_all (os : list oid) (delta : Z) (st : store) : store :=
  foldl (fun st o => alter (move_down delta) o st) st os.

(** The objects a group positions: its row header, then its panels. *)
Definition objects (self : PanelGroup.t) : list oid :=
  (if PanelGroup.row self is Some r then [r] else []) ++ PanelGroup.panels self.

(** Where the rows of a group begin, and where row [r] begins. *)
Definition first_row_y (self : PanelGroup.t) : Z :=
  PanelGroup._y self + (if PanelGroup.row self is Some _ then 2 else 0).

Definition row_y (self : PanelGroup.t) (r : nat) : Z :=
  first_row_y self + sum ((fun hgt => hgt + 1) <$> take r (PanelGroup.row_heights self)).

(** The rectangle of the panel in column [c] of a row at [y] of height
    [hgt] whose allocated widths are [ws]: it begins where the widths of
    the panels to its left end. *)
Definition rect_in_row (y hgt : Z) (ws : list Z) (c : nat) (width : Z) : GridPos.t :=
  GridPos.mk (sum (take c ws)) y width hgt.

Definition row_rects (self : PanelGroup.t) (r : nat) (ws : list Z) : list GridPos.t :=
  imap (rect_in_row (row_y self r) (default 0 (PanelGroup.row_heights self !! r)) ws) ws.

(** The rectangles of the panels of a group, row-major, for the allocated
    widths of its rows. *)
Definition positions (self : PanelGroup.t) (widths : list (list Z)) : list GridPos.t :=
  concat (imap (row_rects self) widths).

Definition header_writes (self : PanelGroup.t) : list (positive * GridPos.t) :=
  if PanelGroup.row self is Some r
  then [(r, GridPos.mk 0 (PanelGroup._y self) 24 1)]
  else [].

Definition writes (self : PanelGroup.t) (widths : list (list Z)) : list (positive * GridPos.t) :=
  header_writes self ++ zip (PanelGroup.panels self) (positions self widths).

(** The widths of all rows, when the allocator returns for each. *)
Definition row_widths (rows : list (list PanelSize)) : res (list (list Z)) :=
  comprehension (fun sizes => _create_width_units_array (value <$> sizes) 24) rows.

(** The allocated widths of the rows of a layout. *)
Definition allocated (rows : list (list PanelSize)) (widths : list (list Z)) : Prop :=
  Forall2 (fun sizes ws => _create_width_units_array (value <$> sizes) 24 = OK ws) rows widths.

(** The arguments that the checks of the constructor refuse: no layout, an
    empty layout, rows whose panel count is not the number of panels, a
    flat layout whose length does not divide the number of panels, a list
    of row heights that is not as long as the list of rows. *)
Definition refused (layout : option PanelGroup.layout_arg) (n_panels : nat)
    (row_heights : option PanelGroup.row_heights_arg) : Prop :=
  layout = None \/
  layout = Some (PanelGroup.Rows []) \/
  layout = Some (PanelGroup.Sizes []) \/
  (exists rows, layout = Some (PanelGroup.Rows rows) /\ rows <> [] /\
     sum_list (length <$> rows) <> n_panels) \/
  (exists sizes, layout = Some (PanelGroup.Sizes sizes) /\ sizes <> [] /\
     (n_panels mod length sizes <> 0)%nat) \/
  (exists lay rows l, layout = Some lay /\
     PanelGroup.normalise lay n_panels = OK rows /\
     row_heights = Some (PanelGroup.Heights l) /\
     length l <> length rows).

(** ** The vocabulary of the composition *)

(** A tree of groups: what a member unfolds to when the lists are followed
    down to the groups, with the attributes of each object.  A leaf is a
    [PanelGroup] with its attributes, a node a [PanelPositioning] with its
    [y] and the trees of its members. *)
Inductive tree : Type :=
| Leaf (self : PanelGroup.t)
| Node (members : list tree) (y : Z).

(** The objects of a tree, by name: the name of a group, or the name of a
    [PanelPositioning], the name of its list and the names in its members. *)
Inductive names : Type :=
| GroupAt (g : positive)
| PositioningAt (t l : positive) (members : list names).

Definition root (n : names) : member :=
  match n with
  | GroupAt g => Group g
  | PositioningAt t _ _ => Positioning t
  end.

(** The members of a tree at any depth, itself included; an object that is
    reached on two ways is listed twice. *)
Fixpoint ids (n : names) : list member :=
  match n with
  | GroupAt g => [Group g]
  | PositioningAt t _ members => Positioning t :: concat (map ids members)
  end.

(** The list objects of a tree. *)
Fixpoint lists_of (n : names) : list positive :=
  match n with
  | GroupAt _ => []
  | PositioningAt _ l members => l :: concat (map lists_of members)
  end.

Section Holds.

Variable h : Heap.t.

(** The heap holds the tree [tr] at the objects [n]: every object has the
    attributes the tree gives, and every list the members the names give. *)
Fixpoint holds (n : names) (tr : tree) {struct n} : Prop :=
  match n, tr with
  | GroupAt g, Leaf self => Heap.groups h !! g = Some self
  | PositioningAt t l ns, Node cs y =>
      Heap.positionings h !! t = Some (l, y) /\
      Heap.lists h !! l = Some (map root ns) /\
      (fix holds_all (ns : list names) (cs : list tree) {struct ns} : Prop :=
         match ns, cs with
         | [], [] => True
         | n' :: ns', c :: cs' => holds n' c /\ holds_all ns' cs'
         | _, _ => False
         end) ns cs
  | _, _ => False
  end.

Fixpoint holds_all (ns : list names) (cs : list tree) {struct ns} : Prop :=
  match ns, cs with
  | [], [] => True
  | n' :: ns', c :: cs' => holds n' c /\ holds_all ns' cs'
  | _, _ => False
  end.

End Holds.

(** The origin a member holds in the heap. *)
Definition origin_of (h : Heap.t) (m : member) : option Z :=
  match m with
  | Group g => PanelGroup._y <$> Heap.groups h !! g
  | Positioning t => snd <$> Heap.positionings h !! t
  end.

(** The objects outside [ms] are in [h'] as they are in [h], and so are
    all lists. *)
Definition kept (ms : list member) (h h' : Heap.t) : Prop :=
  Heap.lists h' = Heap.lists h /\
  (forall g, Group g ∉ ms -> Heap.groups h' !! g = Heap.groups h !! g) /\
  (forall t, Positioning t ∉ ms -> Heap.positionings h' !! t = Heap.positionings h !! t).

(** The height of a tree: the sum of the heights of its members. *)
Fixpoint tree_height (m : tree) : Z :=
  match m with
  | Leaf g => PanelGroup.get_height g
  | Node members _ => sum (map tree_height members)
  end.

(** The row header of a tree, where it is a group that has one. *)
Definition header (m : tree) : list oid :=
  match m with
  | Leaf g => if PanelGroup.row g is Some r then [r] else []
  | Node _ _ => []
  end.

(** The origin a tree holds. *)
Definition origin (m : tree) : Z :=
  match m with
  | Leaf g => PanelGroup._y g
  | Node _ y => y
  end.

(** What the property emits for a tree: its row header, then its panels,
    those of a nested [PanelPositioning] flattened in turn. *)
Fixpoint flatten (m : tree) : list oid :=
  match m with
  | Leaf g => PanelGroup.panels g
  | Node members _ =>
      concat (map (fun c => header c ++ flatten c) members)
  end.

Definition emitted (c : tree) : list oid := header c ++ flatten c.

(** The depth of the nesting, and the groups at any depth. *)
Fixpoint depth (m : tree) : nat :=
  match m with
  | Leaf _ => 0
  | Node members _ => S (foldr Nat.max 0%nat (map depth members))
  end.

Fixpoint groups_of (m : tree) : list PanelGroup.t :=
  match m with
  | Leaf g => [g]
  | Node members _ => concat (map groups_of members)
  end.

(** A tree whose origin was set, before its own members are stacked. *)
Definition with_origin (m : tree) (y : Z) : tree :=
  match m with
  | Leaf g => Leaf (PanelGroup.with_y g y)
  | Node members _ => Node members y
  end.

(** A tree placed at [y]: the members of a [PanelPositioning] are stacked
    from [y] on, each where the one before it ends. *)
Fixpoint place_at (m : tree) (y : Z) : tree :=
  match m with
  | Leaf g => Leaf (PanelGroup.with_y g y)
  | Node members _ =>
      Node
        ((fix stack_at (l : list tree) (cur : Z) : list tree :=
            match l with
            | [] => []
            | c :: l' => place_at c cur :: stack_at l' (cur + tree_height c)
            end) members y) y
  end.

Fixpoint stack_at (l : list tree) (cur : Z) : list tree :=
  match l with
  | [] => []
  | c :: l' => place_at c cur :: stack_at l' (cur + tree_height c)
  end.

(** The moves of the first loop: every group among the members goes from
    its origin to the cursor. *)
Fixpoint direct_moves (l : list tree) (cur : Z) : list (list positive * Z) :=
  match l with
  | [] => []
  | c :: l' =>
      match c with
      | Leaf g => [(objects g, cur - PanelGroup._y g)]
      | Node _ _ => []
      end ++ direct_moves l' (cur + tree_height c)
  end.

(** The moves of the property of a tree placed at [y], in the order of
    the code: those of its first loop, then those of the properties of its
    nested members. *)
Fixpoint moves_at (m : tree) (y : Z) : list (list positive * Z) :=
  match m with
  | Leaf _ => []
  | Node members _ =>
      direct_moves members y ++
      (fix nested (l : list tree) (cur : Z) : list (list positive * Z) :=
         match l with
         | [] => []
         | c :: l' => moves_at c cur ++ nested l' (cur + tree_height c)
         end) members y
  end.

Fixpoint nested_moves (l : list tree) (cur : Z) : list (list positive * Z) :=
  match l with
  | [] => []
  | c :: l' => moves_at c cur ++ nested_moves l' (cur + tree_height c)
  end.

Definition apply_moves (mv : list (list positive * Z)) (st : store) : store :=
  foldl (fun st m => shift_all m.1 m.2 st) st mv.

(** A tree is ready in a store: no group in it has a negative height, and
    every panel and row header of its groups has a position. *)
Definition ready (st : store) (m : tree) : Prop :=
  Forall (fun g => 0 <= PanelGroup.height g /\
                   Forall (fun o => is_Some (st !! o)) (objects g)) (groups_of m).

(** The members after the first loop: each holds the cursor as its origin. *)
Fixpoint with_origins (l : list tree) (cur : Z) : list tree :=
  match l with
  | [] => []
  | c :: l' => with_origin c cur :: with_origins l' (cur + tree_height c)
  end.

(** What the property returns and does, for a tree that is ready and whose
    members are all different objects: the list of the panels, the moves of
    the groups, and the tree with every member at its place in the stack;
    no other object is changed. *)
Definition panels_spec (fuel : nat) : Prop :=
  forall (t l : positive) (ns : list names) (cs : list tree) (y : Z) (h : Heap.t),
    (depth (Node cs y) <= fuel)%nat ->
    0 <= y ->
    holds h (PositioningAt t l ns) (Node cs y) ->
    NoDup (ids (PositioningAt t l ns)) ->
    ready (Heap.gridPos h) (Node cs y) ->
    exists h',
      PanelPositioning.panels fuel (Positioning t) h = (OK (concat (map emitted cs)), h') /\
      Heap.gridPos h' =
        apply_moves (direct_moves cs y ++ nested_moves cs y) (Heap.gridPos h) /\
      holds h' (PositioningAt t l ns) (Node (stack_at cs y) y) /\
      kept (concat (map ids ns)) h h'.

(** *** Trees whose members are shared *)

Section Shape.

Variable h : Heap.t.

(** The heap has the objects [n] with their lists, whatever the origins
    and the attributes of the groups are.  An object can be in the tree at
    several places. *)
Fixpoint shape (n : names) : Prop :=
  match n with
  | GroupAt g => is_Some (Heap.groups h !! g)
  | PositioningAt t l ns =>
      (exists y, Heap.positionings h !! t = Some (l, y)) /\
      Heap.lists h !! l = Some (map root ns) /\
      (fix shape_all (ns : list names) : Prop :=
         match ns with
         | [] => True
         | n' :: ns' => shape n' /\ shape_all ns'
         end) ns
  end.

Fixpoint shape_all (ns : list names) : Prop :=
  match ns with
  | [] => True
  | n' :: ns' => shape n' /\ shape_all ns'
  end.

End Shape.

(** The number of objects of a tree, counted at every place. *)
Fixpoint size (n : names) : nat :=
  match n with
  | GroupAt _ => 1
  | PositioningAt _ _ ns => S (sum_list (map size ns))
  end.

(** The members below a member. *)
Definition below (n : names) : list member :=
  match n with
  | GroupAt _ => []
  | PositioningAt _ _ ns => concat (map ids ns)
  end.

(** Two heaps with the same objects, up to the origins of the members and
    the rows of the panels. *)
Definition similar (h1 h2 : Heap.t) : Prop :=
  Heap.lists h1 = Heap.lists h2 /\
  (forall t, fst <$> Heap.positionings h1 !! t = fst <$> Heap.positionings h2 !! t) /\
  (forall g, (fun s => PanelGroup.with_y s 0) <$> Heap.groups h1 !! g =
             (fun s => PanelGroup.with_y s 0) <$> Heap.groups h2 !! g) /\
  (forall o, (fun gp => GridPos.mk (GridPos.x gp) 0 (GridPos.w gp) (GridPos.h gp)) <$>
               Heap.gridPos h1 !! o =
             (fun gp => GridPos.mk (GridPos.x gp) 0 (GridPos.w gp) (GridPos.h gp)) <$>
               Heap.gridPos h2 !! o).

(** How often an object is listed. *)
Definition occurrences (o : positive) (os : list positive) : Z :=
  Z.of_nat (length (filter (fun o' => o' = o) os)).

(** The origins of the groups that list an object, each as often as the
    group lists it: what [set_y] has added to the row of the object. *)
Definition weight (gs : gmap positive PanelGroup.t) (o : positive) : Z :=
  map_fold (fun _ s acc => occurrences o (objects s) * PanelGroup._y s + acc) 0 gs.

(** The row of an object relative to the origins of its groups: [set_y]
    does not change it. *)
Definition relative_row (h : Heap.t) (o : positive) : option Z :=
  (fun gp => GridPos.y gp - weight (Heap.groups h) o) <$> Heap.gridPos h !! o.

(** The members [ms] have the same origins in both heaps. *)
Definition agree (ms : list member) (h1 h2 : Heap.t) : Prop :=
  forall m, m ∈ ms -> origin_of h1 m = origin_of h2 m.

(** The members outside [ms] have kept their origins. *)
Definition untouched (ms : list member) (h h' : Heap.t) : Prop :=
  forall m, m ∉ ms -> origin_of h' m = origin_of h m.

(** What a reading leaves as it is: the objects up to the origins and the
    rows, and the row of every object relative to the origins of its
    groups. *)
Definition steady (h h' : Heap.t) : Prop :=
  similar h h' /\ forall o, relative_row h' o = relative_row h o.

(** Reading the panels of a member in two heaps with the same objects, in
    which the member has the same origin: both readings return the same
    list and give the members below the same origins. *)
Definition reads_alike (n : names) : Prop :=
  forall (fuel : nat) (ha hb : Heap.t) (ps : list positive) (ha' : Heap.t),
    shape ha n ->
    PanelPositioning.panels fuel (root n) ha = (OK ps, ha') ->
    similar ha hb ->
    origin_of ha (root n) = origin_of hb (root n) ->
    exists hb',
      PanelPositioning.panels fuel (root n) hb = (OK ps, hb') /\
      similar ha' hb' /\
      agree (below n) ha' hb' /\
      untouched (below n) ha ha' /\ untouched (below n) hb hb'.
(** ** The groups of the examples *)

Definition example_rows : list (list PanelSize) := [[LARGE; MEDIUM]; [SMALL; SMALL]].

(** The first group of [code.py]. *)
Definition example_group : PanelGroup.t :=
  PanelGroup.mk example_rows [8; 8] None 0 18 [1; 2; 3; 4]%positive.

(** The second group of [code.py], with its row header. *)
Definition header_group : PanelGroup.t :=
  PanelGroup.mk [[SMALL; MEDIUM; MEDIUM]] [8] (Some 8%positive) 0 11 [5; 6; 7]%positive.

(** The positions after both groups were built. *)
Definition example_store : store :=
  <[8%positive := GridPos.mk 0 0 24 1]>
  (<[7%positive := GridPos.mk 14 2 10 8]>
  (<[6%positive := GridPos.mk 4 2 10 8]>
  (<[5%positive := GridPos.mk 0 2 4 8]>
  (<[4%positive := GridPos.mk 12 9 12 8]>
  (<[3%positive := GridPos.mk 0 9 12 8]>
  (<[2%positive := GridPos.mk 15 0 9 8]>
  (<[1%positive := GridPos.mk 0 0 15 8]> ∅))))))).

Definition two_cells : PanelGroup.t :=
  PanelGroup.mk [[SMALL; SMALL]] [8] None 0 9 [1; 2]%positive.

Definition two_cells_store : store :=
  <[2%positive := GridPos.mk 12 0 12 8]> (<[1%positive := GridPos.mk 0 0 12 8]> ∅).

(** The objects after both groups were built and listed in a
    [PanelPositioning]: the groups 1 and 2, the list 1 and the
    [PanelPositioning] 1 that holds it.  The [PanelPositioning] 2 holds the
    second group alone, in the list 2; the [PanelPositioning] 3 holds the
    first group and the [PanelPositioning] 2, in the list 3. *)
Definition example_heap : Heap.t :=
  Heap.mk example_store
    (<[2%positive := header_group]> (<[1%positive := example_group]> ∅))
    (<[3%positive := (3%positive, 0)]>
     (<[2%positive := (2%positive, 3)]>
     (<[1%positive := (1%positive, 0)]> ∅)))
    (<[3%positive := [Group 1; Positioning 2]]>
     (<[2%positive := [Group 2]]>
     (<[1%positive := [Group 1; Group 2]]> ∅))).

Definition example_names : names := PositioningAt 1 1 [GroupAt 1; GroupAt 2].

Definition example_tree : tree := Node [Leaf example_group; Leaf header_group] 0.

Definition nested_names : names :=
  PositioningAt 3 3 ([GroupAt 1] ++ [PositioningAt 2 2 [GroupAt 2]] ++ []).

Definition nested_tree : tree :=
  Node ([Leaf example_group] ++ [Node [Leaf header_group] 3] ++ []) 0.

(** One group that is listed in several places: twice in the list of the
    [PanelPositioning] 1, whose origin is 5; alone in the list of the
    [PanelPositioning] 3; after the [PanelPositioning] 3 in the list of
    the [PanelPositioning] 2; and twice in the list of the
    [PanelPositioning] 4. *)
Definition shared_heap : Heap.t :=
  Heap.mk two_cells_store
    (<[1%positive := two_cells]> ∅)
    (<[4%positive := (4%positive, 0)]>
     (<[3%positive := (3%positive, 0)]>
     (<[2%positive := (2%positive, 0)]>
     (<[1%positive := (1%positive, 5)]> ∅))))
    (<[4%positive := [Group 1; Group 1]]>
     (<[3%positive := [Group 1]]>
     (<[2%positive := [Positioning 3; Group 1]]>
     (<[1%positive := [Group 1; Group 1]]> ∅)))).

(** The order of the sorted indices: a larger key first, and among equal
    keys the earlier index first. *)
Definition before (key : nat -> Z) (i j : nat) : Prop :=
  key j < key i \/ (key i = key j /\ (i < j)%nat).

(** *** The float computation against exact arithmetic

    [floor(24 / S * w)] is the floor of the exact quotient [24 * w / S], or
    one less where the quotient is an integer that the two roundings miss
    from below ([24 / 47 * 47] is [23.999999999999996]).  This holds while
    the two rounding errors, of [2^-53] each, stay below the distance [1 / S]
    of a quotient to the next integer: for totals up to [weight_bound]. *)
Definition weight_bound : Z := 2 ^ 47.

(** [located N D mrs]: the record [mrs] of a shifted mantissa holds the
    integer part of [N / D], its round bit says whether the remainder
    reaches half of [D], its sticky bit whether the remainder is neither
    zero nor that half. *)
Definition located (N D : Z) (mrs : shr_record) : Prop :=
  0 <= shr_m mrs /\
  0 <= N - shr_m mrs * D < D /\
  (shr_r mrs = true <-> D <= 2 * (N - shr_m mrs * D)) /\
  (shr_s mrs = true <-> N - shr_m mrs * D <> 0 /\ 2 * (N - shr_m mrs * D) <> D).

(** ** The vocabulary of the further properties *)

(** Two rectangles overlap when they share a cell of the grid: a rectangle
    covers the columns from [x] to [x + w - 1] and the rows from [y] to
    [y + h - 1]. *)
Definition overlap (a b : GridPos.t) : Prop :=
  GridPos.x a < GridPos.x b + GridPos.w b /\
  GridPos.x b < GridPos.x a + GridPos.w a /\
  GridPos.y a < GridPos.y b + GridPos.h b /\
  GridPos.y b < GridPos.y a + GridPos.h a.

(** The objects of a tree: those of its groups, in the order in which
    the property [panels] emits them. *)
Definition all_objects (m : tree) : list oid := concat (objects <$> groups_of m).

(** A group is tidy in a store: its height is not negative, every one of
    its objects has a rectangle between its origin and the end of its
    height, and no two of its objects overlap.  A group is tidy when it was
    built with row heights that are not negative. *)
Definition tidy (st : store) (g : PanelGroup.t) : Prop :=
  0 <= PanelGroup.height g /\
  Forall (fun o => exists gp, st !! o = Some gp /\
            PanelGroup._y g <= GridPos.y gp /\
            GridPos.y gp + GridPos.h gp <= PanelGroup._y g + PanelGroup.height g)
    (objects g) /\
  (forall o1 o2 gp1 gp2,
     o1 ∈ objects g -> o2 ∈ objects g -> o1 <> o2 ->
     st !! o1 = Some gp1 -> st !! o2 = Some gp2 -> ~ overlap gp1 gp2).

(** The groups of a stack that begins at [cur], each with the origin the
    stack gives it. *)
Fixpoint bands (gs : list PanelGroup.t) (cur : Z) : list (PanelGroup.t * Z) :=
  match gs with
  | [] => []
  | g :: gs' => (g, cur) :: bands gs' (cur + PanelGroup.height g)
  end.

(** The move of a group to its place in the stack. *)
Definition band_move (gc : PanelGroup.t * Z) : list positive * Z :=
  (objects gc.1, gc.2 - PanelGroup._y gc.1).

(** ** The example of [code.py]

    The script builds two groups, the second with a row header, lists them
    in a [PanelPositioning] and gives its [panels] to the dashboard.  The
    panel objects the script creates are numbered 1 to 7 in the order of
    their creation, the row panel is 8; a new object has no position. *)
Definition code_py : HM (list oid) :=
  let* panel_group1 :=
    new_PanelGroup (Some (PanelGroup.Rows [[LARGE; MEDIUM]; [SMALL; SMALL]]))
      [1; 2; 3; 4]%positive None None None in
  let* panel_group2 :=
    new_PanelGroup (Some (PanelGroup.Sizes [SMALL; MEDIUM; MEDIUM]))
      [5; 6; 7]%positive None None (Some 8%positive) in
  let* panel_groups := new_list [Group panel_group1; Group panel_group2] in
  let* positioning := PanelPositioning.__init__ (Some panel_groups) in
  PanelPositioning.panels 1 (Positioning positioning).
(** * Properties *)

(** ** Lists and loops *)

Lemma sum_cons (x : Z) (l : list Z) : sum (x :: l) = x + sum l.
Proof. reflexivity. Qed.

Lemma sum_app (l1 l2 : list Z) : sum (l1 ++ l2) = sum l1 + sum l2.
Proof. induction l1 as [|x l1 IH]; [reflexivity|]. cbn [app]. rewrite !sum_cons, IH. lia. Qed.

Lemma sum_insert (l : list Z) (j : nat) (v v' : Z) :
  l !! j = Some v -> sum (<[j := v']> l) = sum l - v + v'.
Proof.
  revert j. induction l as [|x l IH]; intros [|j] H; try discriminate.
  - injection H as ->. change (<[0%nat := v']> (v :: l)) with (v' :: l).
    rewrite !sum_cons. lia.
  - change (<[S j := v']> (x :: l)) with (x :: <[j := v']> l).
    rewrite !sum_cons, (IH j H). lia.
Qed.

Lemma sum_replicate (n : nat) (x : Z) : sum (replicate n x) = Z.of_nat n * x.
Proof. induction n as [|n IH]; [reflexivity|]. cbn [replicate]. rewrite sum_cons, IH. lia. Qed.

Lemma elem_le_sum (l : list Z) (x : Z) :
  Forall (fun w => 1 <= w) l -> x ∈ l -> x <= sum l.
Proof.
  induction 1 as [|y l Hy Hl IH]; intros Hx.
  - inversion Hx.
  - rewrite sum_cons. apply elem_of_cons in Hx as [->|Hx].
    + assert (0 <= sum l); [|lia].
      clear -Hl. induction Hl; [reflexivity|]. rewrite sum_cons. lia.
    + specialize (IH Hx). lia.
Qed.

Lemma comprehension_length {A B} (f : A -> res B) (l : list A) (r : list B) :
  comprehension f l = OK r -> length r = length l.
Proof.
  revert r. induction l as [|x l IH]; intros r H; cbn in H.
  - injection H as <-. reflexivity.
  - destruct (f x) as [y|]; [|discriminate]. cbn in H.
    destruct (comprehension f l) as [ys|]; [|discriminate]. cbn in H.
    injection H as <-. cbn. f_equal. apply IH. reflexivity.
Qed.

(** ** The stable descending sort *)

Section Sorting.

Variable key : nat -> Z.

Lemma insert_desc_perm (i : nat) (l : list nat) : insert_desc key i l ≡ₚ i :: l.
Proof.
  induction l as [|j l IH]; [reflexivity|]. cbn.
  destruct (key i <? key j); [|reflexivity].
  rewrite IH. apply Permutation_swap.
Qed.

Lemma sorted_desc_cons (i : nat) (l : list nat) :
  sorted_desc key (i :: l) = insert_desc key i (sorted_desc key l).
Proof. reflexivity. Qed.

Lemma sorted_desc_perm (l : list nat) : sorted_desc key l ≡ₚ l.
Proof.
  induction l as [|i l IH]; [reflexivity|].
  rewrite sorted_desc_cons, insert_desc_perm. now rewrite IH.
Qed.

Lemma insert_desc_sorted (i : nat) (l : list nat) :
  Forall (fun j => (i < j)%nat) l ->
  StronglySorted (before key) l ->
  StronglySorted (before key) (insert_desc key i l).
Proof.
  induction l as [|j l IH]; intros Hlt Hs; cbn.
  - repeat constructor.
  - apply Forall_cons in Hlt as [Hij Hlt].
    apply StronglySorted_inv in Hs as [Hs Hj].
    destruct (Z.ltb_spec (key i) (key j)) as [Hk|Hk].
    + constructor; [now apply IH|].
      rewrite insert_desc_perm. constructor; [left; exact Hk | exact Hj].
    + constructor; [now constructor|].
      constructor.
      * unfold before. lia.
      * eapply Forall_impl; [apply Forall_and; split; [exact Hlt | exact Hj]|].
        cbn. unfold before. intros k [? ?]. lia.
Qed.

Lemma sorted_desc_sorted (l : list nat) :
  StronglySorted lt l -> StronglySorted (before key) (sorted_desc key l).
Proof.
  induction 1 as [|i l Hs IH Hi]; [constructor|].
  rewrite sorted_desc_cons. apply insert_desc_sorted; [|exact IH].
  now rewrite sorted_desc_perm.
Qed.

(** With equal keys everywhere the sort changes nothing. *)
Lemma sorted_desc_equal_keys (l : list nat) :
  (forall i j, i ∈ l -> j ∈ l -> key i = key j) -> sorted_desc key l = l.
Proof.
  induction l as [|i l IH]; intros Heq; [reflexivity|].
  rewrite sorted_desc_cons.
  rewrite IH by (intros; apply Heq; now apply list_elem_of_further).
  destruct l as [|j l]; [reflexivity|]. cbn.
  rewrite (Heq i j); [|apply list_elem_of_here|apply list_elem_of_further, list_elem_of_here].
  now rewrite Z.ltb_irrefl.
Qed.

End Sorting.

Lemma seq_sorted (a n : nat) : StronglySorted lt (seq a n).
Proof.
  revert a. induction n as [|n IH]; intros a; cbn; constructor; [apply IH|].
  apply Forall_forall. intros j Hj. apply elem_of_seq in Hj. lia.
Qed.

(** ** The distribution loop *)

Lemma for_each_bump (idx : list nat) (d a : nat) (result : list Z) :
  NoDup idx ->
  Forall (fun j => (j < length result)%nat) idx ->
  (a + d <= length idx)%nat ->
  exists res,
    for_each (bump idx) (seq a d) result = OK res /\
    length res = length result /\
    sum res = sum result + Z.of_nat d /\
    forall j v, result !! j = Some v ->
      res !! j = Some (if decide (j ∈ take d (drop a idx)) then v + 1 else v).
Proof.
  intros Hnd Hin. revert a result Hin.
  induction d as [|d IH]; intros a result Hin Hle.
  - exists result. cbn. repeat split; [lia|].
    intros j v Hj. rewrite take_0. rewrite decide_False; [exact Hj|]. apply not_elem_of_nil.
  - cbn [seq for_each]. unfold bump at 1, getitem.
    destruct (idx !! a) as [j0|] eqn:Ha; [|apply lookup_ge_None in Ha; lia]. cbn.
    assert (Hj0 : (j0 < length result)%nat).
    { eapply Forall_forall in Hin; [exact Hin|]. eapply list_elem_of_lookup_2, Ha. }
    destruct (result !! j0) as [v0|] eqn:Hv0; [|apply lookup_ge_None in Hv0; lia]. cbn.
    destruct (IH (S a) (<[j0 := v0 + 1]> result)) as (res & Hres & Hlen & Hsum & Hget).
    { now rewrite length_insert. }
    { lia. }
    exists res. rewrite Hres. split; [reflexivity|].
    rewrite length_insert in Hlen. split; [exact Hlen|]. split.
    { rewrite Hsum, (sum_insert _ _ _ _ Hv0). lia. }
    intros j v Hj.
    rewrite (drop_S _ _ _ Ha). cbn [take].
    assert (Hfresh : j0 ∉ take d (drop (S a) idx)).
    { intros Hmem. apply elem_of_take in Hmem as (i & Hi & _).
      rewrite lookup_drop in Hi.
      pose proof (NoDup_lookup _ _ _ _ Hnd Ha Hi). lia. }
    destruct (decide (j = j0)) as [->|Hne].
    + rewrite (Hget j0 (v0 + 1)) by (now apply list_lookup_insert_eq).
      rewrite decide_False by exact Hfresh.
      rewrite decide_True by apply list_elem_of_here.
      congruence.
    + rewrite (Hget j v) by (now rewrite list_lookup_insert_ne).
      f_equal. destruct (decide (j ∈ take d (drop (S a) idx))) as [Hm|Hm].
      * rewrite decide_True; [reflexivity|]. now apply list_elem_of_further.
      * rewrite decide_False; [reflexivity|].
        intros Hm'. apply elem_of_cons in Hm' as [?|?]; contradiction.
Qed.

(** ** The raw widths *)

(** *** Binary64 arithmetic *)

Lemma digits2_pos_bounds (p : positive) :
  2 ^ (Zpos (digits2_pos p) - 1) <= Zpos p < 2 ^ Zpos (digits2_pos p).
Proof.
  induction p as [p IH|p IH|]; unfold digits2_pos; fold digits2_pos.
  - rewrite Pos2Z.inj_succ, (Pos2Z.inj_xI p).
    replace (Z.succ (Zpos (digits2_pos p)) - 1) with (Z.succ (Zpos (digits2_pos p) - 1)) by lia.
    rewrite !Z.pow_succ_r by lia. lia.
  - rewrite Pos2Z.inj_succ, (Pos2Z.inj_xO p).
    replace (Z.succ (Zpos (digits2_pos p)) - 1) with (Z.succ (Zpos (digits2_pos p) - 1)) by lia.
    rewrite !Z.pow_succ_r by lia. lia.
  - cbn. lia.
Qed.

Lemma digits2_pos_unique (p : positive) (d : Z) :
  2 ^ (d - 1) <= Zpos p < 2 ^ d -> Zpos (digits2_pos p) = d.
Proof.
  intros [Hlo Hhi]. pose proof (digits2_pos_bounds p) as [Hlo' Hhi'].
  assert (0 < d).
  { destruct (Z_lt_le_dec 0 d) as [?|Hd]; [assumption|].
    destruct (Z.eq_dec d 0) as [->|?]; [cbn in Hhi; lia|].
    rewrite Z.pow_neg_r in Hhi by lia. lia. }
  assert (Zpos (digits2_pos p) - 1 < d).
  { apply (Z.pow_lt_mono_r_iff 2); lia. }
  assert (d - 1 < Zpos (digits2_pos p)).
  { apply (Z.pow_lt_mono_r_iff 2); lia. }
  lia.
Qed.

(** *** Shifting a mantissa to the right *)

Lemma shr_1_located (N D : Z) (mrs : shr_record) :
  0 < D -> located N D mrs -> located N (2 * D) (shr_1 mrs).
Proof.
  intros HD (Hm & Hrho & Hr & Hs). destruct mrs as [m r s]. cbn in *.
  assert (Hrs : orb r s = true <-> N - m * D <> 0).
  { rewrite orb_true_iff, Hr, Hs. lia. }
  assert (Hft : forall P : Prop, ~ P -> (false = true <-> P))
    by (intros P HP; split; [discriminate|intros HP'; contradiction]).
  assert (Htt : forall P : Prop, P -> (true = true <-> P))
    by (intros P HP; split; [intros _; exact HP|reflexivity]).
  destruct m as [|[p|p|]|p]; try lia; unfold located; cbn [shr_1 shr_m shr_r shr_s];
    rewrite Hrs; try rewrite (Pos2Z.inj_xI p) in *; try rewrite (Pos2Z.inj_xO p) in *;
    (split; [lia|]); (split; [lia|]);
    (split; [first [apply Hft; lia|apply Htt; lia]|lia]).
Qed.

Lemma iter_pos_nat {A} (f : A -> A) (p : positive) (x : A) :
  SpecFloat.iter_pos f p x = Nat.iter (Pos.to_nat p) f x.
Proof.
  revert x. induction p as [p IH|p IH|]; intros x; cbn [SpecFloat.iter_pos].
  - rewrite !IH, Pos2Nat.inj_xI.
    replace (S (2 * Pos.to_nat p)) with (Pos.to_nat p + (Pos.to_nat p + 1))%nat by lia.
    rewrite !Nat.iter_add. reflexivity.
  - rewrite !IH, Pos2Nat.inj_xO.
    replace (2 * Pos.to_nat p)%nat with (Pos.to_nat p + Pos.to_nat p)%nat by lia.
    now rewrite Nat.iter_add.
  - reflexivity.
Qed.

Lemma iter_shr_1_located (N D : Z) (mrs : shr_record) (k : nat) :
  0 < D -> located N D mrs -> located N (2 ^ Z.of_nat k * D) (Nat.iter k shr_1 mrs).
Proof.
  intros HD Hloc. induction k as [|k IH].
  - cbn [Nat.iter]. rewrite Z.pow_0_r, Z.mul_1_l. exact Hloc.
  - cbn [Nat.iter]. rewrite Nat2Z.inj_succ, Z.pow_succ_r, <- Z.mul_assoc by lia.
    apply shr_1_located; [|exact IH]. pose proof (Z.pow_pos_nonneg 2 (Z.of_nat k)). nia.
Qed.

Lemma shr_located (N D : Z) (mrs : shr_record) (e k : Z) :
  0 < D -> 0 <= k -> located N D mrs ->
  located N (2 ^ k * D) (fst (shr mrs e k)) /\ snd (shr mrs e k) = e + k.
Proof.
  intros HD Hk Hloc. destruct k as [|p|p]; [| |lia].
  - cbn. rewrite Z.add_0_r. split; [|reflexivity].
    destruct D; try lia. exact Hloc.
  - cbn [shr fst snd]. split; [|reflexivity].
    rewrite iter_pos_nat. rewrite <- (positive_nat_Z p).
    now apply iter_shr_1_located.
Qed.

Lemma located_shr_m (N D : Z) (mrs : shr_record) :
  0 < D -> located N D mrs -> shr_m mrs = N / D.
Proof.
  intros HD (Hm & Hrho & _). apply (Z.div_unique_pos N D _ (N - shr_m mrs * D)); lia.
Qed.

Lemma located_round (N D : Z) (mrs : shr_record) :
  0 < D -> located N D mrs ->
  shr_m mrs <= round_nearest_even (shr_m mrs) (loc_of_shr_record mrs) <= shr_m mrs + 1 /\
  - D <= 2 * (round_nearest_even (shr_m mrs) (loc_of_shr_record mrs) * D - N) <= D.
Proof.
  intros HD (Hm & Hrho & Hr & Hs). destruct mrs as [m [|] [|]]; cbn in *.
  - assert (D <= 2 * (N - m * D)) by now apply Hr.
    assert (2 * (N - m * D) <> D) by now apply Hs. lia.
  - assert (D <= 2 * (N - m * D)) by now apply Hr.
    assert (2 * (N - m * D) = D).
    { destruct (Z.eq_dec (2 * (N - m * D)) D) as [?|Hne]; [assumption|].
      assert (false = true) by (apply Hs; lia). discriminate. }
    destruct (Z.even m); lia.
  - assert (~ D <= 2 * (N - m * D)) by (intros HD'; apply Hr in HD'; discriminate). lia.
  - assert (~ D <= 2 * (N - m * D)) by (intros HD'; apply Hr in HD'; discriminate). lia.
Qed.

Lemma located_Exact (m D : Z) :
  0 <= m -> 0 < D -> located (m * D) D (shr_record_of_loc m loc_Exact).
Proof.
  intros Hm HD. unfold located. cbn.
  repeat split; try lia; try discriminate.
Qed.

Lemma located_new_location (q r D : Z) :
  0 < D -> 0 <= q -> 0 <= r < D ->
  located (q * D + r) D (shr_record_of_loc q (new_location D r)).
Proof.
  intros HD Hq Hr.
  assert (Hm : forall l, shr_m (shr_record_of_loc q l) = q) by (intros [|[]]; reflexivity).
  unfold located. rewrite Hm.
  replace (q * D + r - q * D) with r by lia.
  split; [exact Hq|]. split; [exact Hr|].
  unfold new_location, new_location_even, new_location_odd.
  destruct (Z.even D) eqn:Heven.
  - destruct (Z.eqb_spec r 0) as [->|Hr0]; cbn.
    + split; split; try discriminate; lia.
    + destruct (Z.compare_spec (2 * r) D); cbn;
        (split; split; try discriminate; try reflexivity; try lia).
  - assert (HD2 : 2 * r <> D).
    { intros <-. rewrite Z.even_mul in Heven. discriminate. }
    destruct (Z.eqb_spec r 0) as [->|Hr0]; cbn.
    + split; split; try discriminate; lia.
    + destruct (Z.compare_spec (2 * r + 1) D); cbn;
        (split; split; try discriminate; try reflexivity; try lia).
Qed.

Lemma shr_record_of_loc_m (m : Z) (l : location) : shr_m (shr_record_of_loc m l) = m.
Proof. destruct l as [|[]]; reflexivity. Qed.

Lemma Zdigits2_bounds (m : Z) :
  0 < m -> 2 ^ (Zdigits2 m - 1) <= m < 2 ^ Zdigits2 m.
Proof. destruct m as [|p|p]; try lia. intros _. apply digits2_pos_bounds. Qed.

Lemma Zdigits2_pos (m : Z) : 0 < m -> 0 < Zdigits2 m.
Proof. destruct m as [|p|p]; cbn; lia. Qed.

Lemma Zdigits2_unique (m d : Z) :
  0 < m -> 2 ^ (d - 1) <= m < 2 ^ d -> Zdigits2 m = d.
Proof. destruct m as [|p|p]; try lia. intros _. apply digits2_pos_unique. Qed.

Lemma fexp_normal (e : Z) : -1074 <= e - 53 -> fexp 53 1024 e = e - 53.
Proof. intros He. unfold fexp, emin. change IntDef.Z.max with Z.max. lia. Qed.

(** *** Rounding to nearest

    A value [N / D] of integer part [mx], at least [2^52], and of position
    [lx] within its unit, rounds to a 53-bit mantissa [m] with an exponent
    raised by [j], and [m * 2^j] is within half a unit of [N / D]. *)
Lemma binary_round_aux_located (sx : bool) (mx ex : Z) (lx : location) (N D : Z) :
  0 < D -> located N D (shr_record_of_loc mx lx) ->
  2 ^ 52 <= mx ->
  -1074 <= ex + (Zdigits2 mx - 53) -> ex + (Zdigits2 mx - 53) + 1 <= 971 ->
  exists (m : positive) (j : Z),
    binary_round_aux 53 1024 sx mx ex lx = S754_finite sx m (ex + j) /\
    2 ^ 52 <= Zpos m < 2 ^ 53 /\
    Zdigits2 mx - 53 <= j <= Zdigits2 mx - 53 + 1 /\
    - (2 ^ j * D) <= 2 * (Zpos m * 2 ^ j * D - N) <= 2 ^ j * D.
Proof.
  intros HD Hloc Hmx Hlo Hhi.
  assert (Hmx0 : 0 < mx) by (pose proof (Z.pow_pos_nonneg 2 52); lia).
  pose proof (Zdigits2_bounds mx Hmx0) as Hd.
  pose proof (Zdigits2_pos mx Hmx0) as Hd0.
  set (d := Zdigits2 mx) in *.
  assert (Hd53 : 53 <= d).
  { assert (52 < d); [|lia]. apply (Z.pow_lt_mono_r_iff 2); lia. }
  set (k := d - 53) in *.
  assert (Hpk : 0 < 2 ^ k) by (apply Z.pow_pos_nonneg; lia).
  assert (Hd1 : 2 ^ (d - 1) = 2 ^ 52 * 2 ^ k).
  { rewrite <- Z.pow_add_r by lia. f_equal. lia. }
  assert (Hd2 : 2 ^ d = 2 ^ 53 * 2 ^ k).
  { rewrite <- Z.pow_add_r by lia. f_equal. lia. }
  unfold binary_round_aux, shr_fexp. fold d.
  rewrite fexp_normal by lia.
  replace (d + ex - 53 - ex) with k by lia.
  destruct (shr_located N D (shr_record_of_loc mx lx) ex k HD ltac:(lia) Hloc) as [Hloc' He'].
  destruct (shr (shr_record_of_loc mx lx) ex k) as [mrs' e'].
  cbn [fst snd] in Hloc', He'. subst e'.
  assert (HP : 0 < 2 ^ k * D) by nia.
  destruct (located_round N (2 ^ k * D) mrs' HP Hloc') as [Hm1 Herr].
  assert (Hm' : 2 ^ 52 <= shr_m mrs' < 2 ^ 53).
  { destruct Hloc as (_ & Hrho & _). rewrite shr_record_of_loc_m in Hrho.
    destruct Hloc' as (_ & Hrho' & _). split.
    - destruct (Z_lt_le_dec (shr_m mrs') (2 ^ 52)) as [Hlt|]; [exfalso|assumption].
      assert (shr_m mrs' + 1 <= 2 ^ 52) by lia.
      assert ((shr_m mrs' + 1) * (2 ^ k * D) <= 2 ^ 52 * (2 ^ k * D))
        by (apply Z.mul_le_mono_nonneg_r; lia).
      assert (2 ^ (d - 1) * D <= mx * D) by (apply Z.mul_le_mono_nonneg_r; lia).
      rewrite Hd1 in *. lia.
    - destruct (Z_lt_le_dec (shr_m mrs') (2 ^ 53)) as [|Hge]; [assumption|exfalso].
      assert (2 ^ 53 * (2 ^ k * D) <= shr_m mrs' * (2 ^ k * D))
        by (apply Z.mul_le_mono_nonneg_r; lia).
      assert ((mx + 1) * D <= 2 ^ d * D) by (apply Z.mul_le_mono_nonneg_r; lia).
      rewrite Hd2 in *. lia. }
  set (m1 := round_nearest_even (shr_m mrs') (loc_of_shr_record mrs')) in *.
  destruct (Z.eq_dec m1 (2 ^ 53)) as [Hov|Hov].
  - rewrite Hov in *. change (2 ^ 53) with 9007199254740992 in *.
    change (Zdigits2 9007199254740992) with 54.
    rewrite fexp_normal by lia.
    replace (54 + (ex + k) - 53 - (ex + k)) with 1 by lia.
    cbn [shr shr_record_of_loc SpecFloat.iter_pos shr_1 shr_m].
    replace (ex + k + 1 <=? 1024 - 53) with true by (symmetry; apply Z.leb_le; lia).
    exists 4503599627370496%positive, (k + 1).
    split; [f_equal; lia|]. split; [change (2 ^ 52) with 4503599627370496; lia|].
    split; [lia|].
    rewrite Z.pow_add_r, Z.pow_1_r by lia. lia.
  - assert (Hd' : Zdigits2 m1 = 53).
    { apply Zdigits2_unique; [lia|]. change (53 - 1) with 52. lia. }
    rewrite Hd'. rewrite fexp_normal by lia.
    replace (53 + (ex + k) - 53 - (ex + k)) with 0 by lia.
    cbn [shr]. rewrite shr_record_of_loc_m.
    destruct m1 as [|m|m] eqn:Hm1eq; try lia.
    replace (ex + k <=? 1024 - 53) with true by (symmetry; apply Z.leb_le; lia).
    exists m, k. split; [reflexivity|]. split; [lia|]. split; [lia|]. lia.
Qed.

Lemma binary_round_aux_exact (sx : bool) (m : positive) (e : Z) :
  2 ^ 52 <= Zpos m < 2 ^ 53 -> -1074 <= e <= 971 ->
  binary_round_aux 53 1024 sx (Zpos m) e loc_Exact = S754_finite sx m e.
Proof.
  intros Hm He.
  assert (Hd : Zdigits2 (Zpos m) = 53).
  { apply Zdigits2_unique; [lia|]. change (53 - 1) with 52. lia. }
  unfold binary_round_aux, shr_fexp. rewrite Hd, fexp_normal by lia.
  replace (53 + e - 53 - e) with 0 by lia.
  cbn [shr shr_record_of_loc shr_m loc_of_shr_record round_nearest_even].
  rewrite Hd, fexp_normal by lia.
  replace (53 + e - 53 - e) with 0 by lia.
  cbn [shr shr_record_of_loc shr_m].
  replace (e <=? 1024 - 53) with true by (symmetry; apply Z.leb_le; lia).
  reflexivity.
Qed.

Lemma iter_xO (p n : positive) : Zpos (Pos.iter xO p n) = Zpos p * 2 ^ Zpos n.
Proof.
  induction n as [|n IH] using Pos.peano_ind.
  - cbn. lia.
  - rewrite Pos.iter_succ, Pos2Z.inj_succ, Z.pow_succ_r by lia.
    rewrite (Pos2Z.inj_xO (Pos.iter xO p n)), IH. lia.
Qed.

(** [float(n)] is exact for [1 <= n < 2^53]: the mantissa is [n] shifted
    to 53 bits. *)
Lemma of_int_exact (n : Z) :
  1 <= n < 2 ^ 53 ->
  exists (m : positive) (a : Z),
    Float.of_int n = OK (S754_finite false m (- a)) /\
    0 <= a <= 52 /\ Zpos m = n * 2 ^ a /\ 2 ^ 52 <= Zpos m < 2 ^ 53.
Proof.
  intros Hn. destruct n as [|p|p]; try lia.
  pose proof (digits2_pos_bounds p) as Hd.
  set (d := Zpos (digits2_pos p)) in *.
  assert (Hd0 : 0 < d) by (unfold d; lia).
  assert (Hd53 : d <= 53).
  { assert (d - 1 < 53); [|lia]. apply (Z.pow_lt_mono_r_iff 2); lia. }
  unfold Float.of_int, binary_normalize, binary_round. fold d.
  unfold Float.prec, Float.emax. rewrite fexp_normal by lia.
  unfold shl_align.
  destruct (d + 0 - 53 - 0) as [|a|a] eqn:Ha.
  - assert (d = 53) by lia.
    rewrite binary_round_aux_exact; [|replace 52 with (d - 1) by lia; replace 53 with d by lia; exact Hd|lia].
    exists p, 0. replace (- 0) with 0 by lia. split; [reflexivity|].
    split; [lia|]. split; [lia|].
    replace 52 with (d - 1) by lia. replace 53 with d by lia. exact Hd.
  - lia.
  - assert (Hm : 2 ^ 52 <= Zpos (Pos.iter xO p a) < 2 ^ 53).
    { rewrite iter_xO.
      replace 52 with (d - 1 + Zpos a) by lia. replace 53 with (d + Zpos a) by lia.
      rewrite !Z.pow_add_r by lia.
      pose proof (Z.pow_pos_nonneg 2 (Zpos a)). nia. }
    change (PosDef.Pos.iter xO p a) with (Pos.iter xO p a).
    rewrite binary_round_aux_exact; [|exact Hm|lia].
    exists (Pos.iter xO p a), (Zpos a).
    split; [do 2 f_equal; lia|]. split; [lia|]. split; [apply iter_xO|exact Hm].
Qed.

(** *** The three operations of the allocator *)

(** [a / b] for [1 <= a, b < 2^53]: a 53-bit mantissa [m] and an exponent
    [j - s] with [m * 2^j] within half a unit of [a * 2^s / b]. *)
Lemma int_truediv_near (a b : Z) :
  1 <= a < 2 ^ 53 -> 1 <= b < 2 ^ 53 ->
  exists (m : positive) (s j : Z),
    Float.int_truediv a b = OK (S754_finite false m (j - s)) /\
    1 <= s <= 105 /\ 0 <= j <= 2 /\ 2 ^ 52 <= Zpos m < 2 ^ 53 /\
    - (2 ^ j * b) <= 2 * (Zpos m * 2 ^ j * b - a * 2 ^ s) <= 2 ^ j * b.
Proof.
  intros Ha Hb.
  assert (Ha0 : 0 < a) by lia. assert (Hb0 : 0 < b) by lia.
  pose proof (Zdigits2_bounds a Ha0) as Hda. pose proof (Zdigits2_pos a Ha0) as Hda0.
  pose proof (Zdigits2_bounds b Hb0) as Hdb. pose proof (Zdigits2_pos b Hb0) as Hdb0.
  set (d1 := Zdigits2 a) in *. set (d2 := Zdigits2 b) in *.
  assert (Hd1 : d1 <= 53).
  { assert (d1 - 1 < 53); [|lia]. apply (Z.pow_lt_mono_r_iff 2); lia. }
  assert (Hd2 : d2 <= 53).
  { assert (d2 - 1 < 53); [|lia]. apply (Z.pow_lt_mono_r_iff 2); lia. }
  unfold Float.int_truediv.
  destruct (Z.eqb_spec b 0) as [|_]; [lia|]. destruct (Z.eqb_spec a 0) as [|_]; [lia|].
  destruct (Z.ltb_spec a 0) as [|_]; [lia|]. destruct (Z.ltb_spec b 0) as [|_]; [lia|].
  rewrite !Z.abs_eq by lia. cbn [xorb].
  unfold SFdiv_core_binary, Float.prec, Float.emax. fold d1 d2.
  rewrite fexp_normal by lia.
  change IntDef.Z.min with Z.min. rewrite Z.min_l by lia.
  set (s := 53 + d2 - d1).
  replace (0 - 0 - (d1 + 0 - (d2 + 0) - 53)) with s by lia.
  replace (d1 + 0 - (d2 + 0) - 53) with (- s) by lia.
  assert (Hs : 1 <= s <= 105) by lia.
  destruct s as [|ps|ps] eqn:Hps; try lia. rewrite <- Hps in *.
  change IntDef.Z.shiftl with Z.shiftl. rewrite Z.shiftl_mul_pow2 by lia.
  change IntDef.Z.div_eucl with Z.div_eucl.
  pose proof (Z_div_mod (a * 2 ^ s) b ltac:(lia)) as Hqr.
  destruct (Z.div_eucl (a * 2 ^ s) b) as [q r]. destruct Hqr as [Hq Hr].
  assert (Hps0 : 0 < 2 ^ s) by (apply Z.pow_pos_nonneg; lia).
  assert (Hp1 : 2 ^ d2 * 2 ^ 52 = 2 ^ (d1 - 1) * 2 ^ s).
  { rewrite <- !Z.pow_add_r by lia. f_equal. lia. }
  assert (Hp2 : 2 ^ (d2 - 1) * 2 ^ 54 = 2 ^ d1 * 2 ^ s).
  { rewrite <- !Z.pow_add_r by lia. f_equal. lia. }
  assert (Hq52 : 2 ^ 52 <= q).
  { destruct (Z_lt_le_dec q (2 ^ 52)) as [Hlt|]; [exfalso|assumption].
    assert (b * (q + 1) <= b * 2 ^ 52) by (apply Z.mul_le_mono_nonneg_l; lia).
    assert (b * 2 ^ 52 < 2 ^ d2 * 2 ^ 52) by (apply Z.mul_lt_mono_pos_r; lia).
    assert (2 ^ (d1 - 1) * 2 ^ s <= a * 2 ^ s) by (apply Z.mul_le_mono_nonneg_r; lia).
    lia. }
  assert (Hq54 : q < 2 ^ 54).
  { destruct (Z_lt_le_dec q (2 ^ 54)) as [|Hge]; [assumption|exfalso].
    assert (b * 2 ^ 54 <= b * q) by (apply Z.mul_le_mono_nonneg_l; lia).
    assert (2 ^ (d2 - 1) * 2 ^ 54 <= b * 2 ^ 54) by (apply Z.mul_le_mono_nonneg_r; lia).
    assert (a * 2 ^ s < 2 ^ d1 * 2 ^ s) by (apply Z.mul_lt_mono_pos_r; lia).
    lia. }
  assert (Hq0 : 0 < q) by lia.
  pose proof (Zdigits2_bounds q Hq0) as Hdq. pose proof (Zdigits2_pos q Hq0) as Hdq0.
  assert (Hdq1 : 53 <= Zdigits2 q <= 54).
  { assert (52 < Zdigits2 q) by (apply (Z.pow_lt_mono_r_iff 2); lia).
    assert (Zdigits2 q - 1 < 54) by (apply (Z.pow_lt_mono_r_iff 2); lia). lia. }
  destruct (binary_round_aux_located false q (- s) (new_location b r) (q * b + r) b)
    as (m & j & Hres & Hm & Hj & Herr); [lia| |exact Hq52|lia|lia|].
  { apply located_new_location; lia. }
  rewrite Hres. exists m, s, j.
  split; [do 2 f_equal; lia|]. split; [exact Hs|]. split; [lia|]. split; [exact Hm|].
  replace (a * 2 ^ s) with (q * b + r) by lia. exact Herr.
Qed.

(** [x * n] for a 53-bit [x] and [1 <= n < 2^53]. *)
Lemma mul_int_near (mt : positive) (et n : Z) :
  2 ^ 52 <= Zpos mt < 2 ^ 53 -> -500 <= et <= 500 -> 1 <= n < 2 ^ 53 ->
  exists (m : positive) (b j : Z),
    Float.mul_int (S754_finite false mt et) n = OK (S754_finite false m (et - b + j)) /\
    0 <= b <= 52 /\ 52 <= j <= 54 /\ 2 ^ 52 <= Zpos m < 2 ^ 53 /\
    - 2 ^ j <= 2 * (Zpos m * 2 ^ j - Zpos mt * (n * 2 ^ b)) <= 2 ^ j.
Proof.
  intros Hmt Het Hn.
  destruct (of_int_exact n Hn) as (mw & b & Hw & Hb & Hmw & Hmw').
  unfold Float.mul_int. rewrite Hw. cbn [res_bind SFmul xorb].
  unfold Float.prec, Float.emax.
  set (mx := Zpos (mt * mw)).
  assert (Hmx : mx = Zpos mt * Zpos mw) by (unfold mx; lia).
  assert (Hlo : 2 ^ 104 <= mx).
  { change (2 ^ 104) with (2 ^ 52 * 2 ^ 52). rewrite Hmx.
    apply Z.mul_le_mono_nonneg; lia. }
  assert (Hhi : mx < 2 ^ 106).
  { change (2 ^ 106) with (2 ^ 53 * 2 ^ 53). rewrite Hmx.
    apply Z.mul_lt_mono_nonneg; lia. }
  assert (Hmx0 : 0 < mx) by (unfold mx; lia).
  pose proof (Zdigits2_bounds mx Hmx0) as Hd. pose proof (Zdigits2_pos mx Hmx0) as Hd0.
  assert (Hd1 : 105 <= Zdigits2 mx <= 106).
  { assert (104 < Zdigits2 mx) by (apply (Z.pow_lt_mono_r_iff 2); lia).
    assert (Zdigits2 mx - 1 < 106) by (apply (Z.pow_lt_mono_r_iff 2); lia). lia. }
  destruct (binary_round_aux_located false mx (et + - b) loc_Exact (mx * 1) 1)
    as (m & j & Hres & Hm & Hj & Herr); [lia| | |lia|lia|].
  { apply located_Exact; lia. }
  { change (2 ^ 52) with 4503599627370496. change (2 ^ 104) with 20282409603651670423947251286016 in Hlo. lia. }
  rewrite Hres. exists m, b, j.
  split; [do 2 f_equal; lia|]. split; [exact Hb|]. split; [lia|]. split; [exact Hm|].
  rewrite <- Hmw, <- Hmx. lia.
Qed.

(** [math.floor(x)] for a positive [x] of negative exponent. *)
Lemma floor_shift (m : positive) (e : Z) :
  e < 0 -> Float.floor (S754_finite false m e) = OK (Zpos m / 2 ^ (- e)).
Proof.
  intros He. destruct e as [|p|p]; try lia.
  cbn [Float.floor]. rewrite Z.shiftr_div_pow2 by lia. reflexivity.
Qed.

(** *** Two roundings against the exact quotient

    With [E = 2^53]: [u / X] is [24 / S] rounded, [V / (X * Y)] is
    [u / X * w] rounded, and [f] is the floor of [V / (X * Y)]. *)
Lemma two_roundings_upper (E S w u V X Y f : Z) :
  1 < E -> 0 < S -> 0 <= w -> 0 < X -> 0 < Y -> 0 <= u ->
  (E - 1) * (u * S) <= E * (24 * X) ->
  (E - 1) * V <= E * (u * w * Y) ->
  f * (X * Y) <= V ->
  (E - 1) * (E - 1) * (f * S) <= 24 * E * E * w.
Proof.
  intros HE HS Hw HX HY Hu H1 H2 Hf.
  assert (A : (E - 1) * S * ((E - 1) * V) <= (E - 1) * S * (E * (u * w * Y)))
    by (apply Z.mul_le_mono_nonneg_l; [nia|exact H2]).
  assert (B : E * w * Y * ((E - 1) * (u * S)) <= E * w * Y * (E * (24 * X)))
    by (apply Z.mul_le_mono_nonneg_l; [nia|exact H1]).
  assert (C : (E - 1) * (E - 1) * S * (f * (X * Y)) <= (E - 1) * (E - 1) * S * V)
    by (apply Z.mul_le_mono_nonneg_l; [nia|exact Hf]).
  apply (Z.mul_le_mono_pos_r _ _ (X * Y)); [nia|].
  replace ((E - 1) * (E - 1) * (f * S) * (X * Y))
    with ((E - 1) * (E - 1) * S * (f * (X * Y))) by ring.
  replace (24 * E * E * w * (X * Y)) with (E * w * Y * (E * (24 * X))) by ring.
  replace ((E - 1) * S * (E * (u * w * Y))) with (E * w * Y * ((E - 1) * (u * S))) in A by ring.
  replace ((E - 1) * S * ((E - 1) * V)) with ((E - 1) * (E - 1) * S * V) in A by ring.
  lia.
Qed.

Lemma two_roundings_lower (E S w u V X Y f : Z) :
  1 < E -> 0 < S -> 0 <= w -> 0 < X -> 0 < Y -> 0 <= u ->
  E * (24 * X) <= (E + 1) * (u * S) ->
  E * (u * w * Y) <= (E + 1) * V ->
  V < f * (X * Y) ->
  24 * E * E * w < (E + 1) * (E + 1) * (f * S).
Proof.
  intros HE HS Hw HX HY Hu H1 H2 Hf.
  assert (A : (E + 1) * S * (E * (u * w * Y)) <= (E + 1) * S * ((E + 1) * V))
    by (apply Z.mul_le_mono_nonneg_l; [nia|exact H2]).
  assert (B : E * w * Y * (E * (24 * X)) <= E * w * Y * ((E + 1) * (u * S)))
    by (apply Z.mul_le_mono_nonneg_l; [nia|exact H1]).
  assert (C : (E + 1) * (E + 1) * S * V < (E + 1) * (E + 1) * S * (f * (X * Y)))
    by (apply Z.mul_lt_mono_pos_l; [nia|exact Hf]).
  apply (Z.mul_lt_mono_pos_r (X * Y)); [nia|].
  replace ((E + 1) * (E + 1) * (f * S) * (X * Y))
    with ((E + 1) * (E + 1) * S * (f * (X * Y))) by ring.
  replace (24 * E * E * w * (X * Y)) with (E * w * Y * (E * (24 * X))) by ring.
  replace ((E + 1) * S * (E * (u * w * Y))) with (E * w * Y * ((E + 1) * (u * S))) in A by ring.
  replace ((E + 1) * S * ((E + 1) * V)) with ((E + 1) * (E + 1) * S * V) in A by ring.
  lia.
Qed.

(** [floor(24 / S * w)] against the exact quotient: the floor of
    [24 * w / S], or one less where [S] divides [24 * w]. *)
Lemma raw_floor_near (S w : Z) :
  1 <= w <= S -> S <= weight_bound ->
  exists f, raw_floor 24 S w = OK f /\
    (f = 24 * w / S \/ (f = 24 * w / S - 1 /\ (24 * w) mod S = 0)).
Proof.
  intros Hw HS. change weight_bound with 140737488355328 in HS.
  destruct (int_truediv_near 24 S) as (mt & s & j & Hq & Hs & Hj & Hmt & Hdiv);
    [change (2 ^ 53) with 9007199254740992; lia..|].
  destruct (mul_int_near mt (j - s) w) as (mp & b & j' & Hp & Hb & Hj' & Hmp & Hmul);
    [exact Hmt|lia|change (2 ^ 53) with 9007199254740992; lia|].
  unfold raw_floor. rewrite Hq. cbn [res_bind]. rewrite Hp. cbn [res_bind].
  change (2 ^ 52) with 4503599627370496 in Hmt, Hmp.
  change (2 ^ 53) with 9007199254740992 in Hmt, Hmp.
  set (E := 9007199254740992).
  set (X := 2 ^ s) in *. set (Y := 2 ^ b) in *.
  set (u := Zpos mt * 2 ^ j). set (V := Zpos mp * (2 ^ j' * 2 ^ j)).
  assert (HX : 0 < X) by (apply Z.pow_pos_nonneg; lia).
  assert (HY : 0 < Y) by (apply Z.pow_pos_nonneg; lia).
  assert (Hpj : 0 < 2 ^ j) by (apply Z.pow_pos_nonneg; lia).
  assert (Hpj' : 0 < 2 ^ j') by (apply Z.pow_pos_nonneg; lia).
  assert (Hu : 0 <= u) by (unfold u; nia).
  (* the quotient *)
  assert (HG : 4503599627370496 * (2 ^ j * S) <= Zpos mt * (2 ^ j * S))
    by (apply Z.mul_le_mono_nonneg_r; nia).
  replace (Zpos mt * 2 ^ j * S) with (u * S) in Hdiv by (unfold u; ring).
  replace (Zpos mt * (2 ^ j * S)) with (u * S) in HG by (unfold u; ring).
  assert (H1 : (E - 1) * (u * S) <= E * (24 * X)) by (unfold E; lia).
  assert (H1' : E * (24 * X) <= (E + 1) * (u * S)) by (unfold E; lia).
  (* the product *)
  assert (HG' : 4503599627370496 * (2 ^ j' * 2 ^ j) <= V)
    by (apply Z.mul_le_mono_nonneg_r; nia).
  assert (Hmul1 : 2 * (Zpos mp * 2 ^ j' - Zpos mt * (w * Y)) * 2 ^ j <= 2 ^ j' * 2 ^ j)
    by (apply Z.mul_le_mono_nonneg_r; lia).
  assert (Hmul2 : - 2 ^ j' * 2 ^ j <= 2 * (Zpos mp * 2 ^ j' - Zpos mt * (w * Y)) * 2 ^ j)
    by (apply Z.mul_le_mono_nonneg_r; lia).
  replace (2 * (Zpos mp * 2 ^ j' - Zpos mt * (w * Y)) * 2 ^ j)
    with (2 * (V - u * w * Y)) in Hmul1, Hmul2 by (unfold u, V; ring).
  assert (H2 : (E - 1) * V <= E * (u * w * Y)) by (unfold E; lia).
  assert (H2' : E * (u * w * Y) <= (E + 1) * V) by (unfold E; lia).
  (* the exponent of the product is negative *)
  assert (HV : V < 32 * (X * Y)).
  { destruct (Z_lt_le_dec V (32 * (X * Y))) as [|Hge]; [assumption|exfalso].
    pose proof (two_roundings_upper E S w u V X Y 32 ltac:(unfold E; lia) ltac:(lia)
      ltac:(lia) HX HY Hu H1 H2 Hge) as Hup.
    unfold E in Hup. lia. }
  assert (He : j - s - b + j' < - 47).
  { assert (52 + (j' + j) < 5 + (s + b)); [|lia].
    apply (Z.pow_lt_mono_r_iff 2); [lia|lia|].
    rewrite !Z.pow_add_r by lia. fold X Y.
    change (2 ^ 52) with 4503599627370496. change (2 ^ 5) with 32. lia. }
  rewrite floor_shift by lia.
  set (n := - (j - s - b + j')). set (f := Zpos mp / 2 ^ n).
  assert (Hpn : 0 < 2 ^ n) by (apply Z.pow_pos_nonneg; lia).
  assert (HXY : X * Y = 2 ^ n * (2 ^ j' * 2 ^ j)).
  { unfold X, Y. rewrite <- !Z.pow_add_r by lia. f_equal. lia. }
  pose proof (Z.mul_div_le (Zpos mp) (2 ^ n) Hpn) as Hf1.
  pose proof (Z.mul_succ_div_gt (Zpos mp) (2 ^ n) Hpn) as Hf2.
  fold f in Hf1, Hf2.
  assert (Hf1' : f * (X * Y) <= V).
  { rewrite HXY. unfold V.
    replace (f * (2 ^ n * (2 ^ j' * 2 ^ j))) with (2 ^ n * f * (2 ^ j' * 2 ^ j)) by ring.
    apply Z.mul_le_mono_nonneg_r; [nia|exact Hf1]. }
  assert (Hf2' : V < (f + 1) * (X * Y)).
  { rewrite HXY. unfold V.
    replace ((f + 1) * (2 ^ n * (2 ^ j' * 2 ^ j)))
      with (2 ^ n * Z.succ f * (2 ^ j' * 2 ^ j)) by ring.
    apply Z.mul_lt_mono_pos_r; [nia|exact Hf2]. }
  pose proof (two_roundings_upper E S w u V X Y f ltac:(unfold E; lia) ltac:(lia)
    ltac:(lia) HX HY Hu H1 H2 Hf1') as Hup.
  pose proof (two_roundings_lower E S w u V X Y (f + 1) ltac:(unfold E; lia) ltac:(lia)
    ltac:(lia) HX HY Hu H1' H2' Hf2') as Hdown.
  replace ((f + 1) * S) with (f * S + S) in Hdown by ring.
  unfold E in Hup, Hdown.
  assert (Hle : f * S <= 24 * w) by lia.
  assert (Hge : 24 * w <= f * S + S) by lia.
  exists f. split; [reflexivity|].
  destruct (Z.eq_dec (24 * w) (f * S + S)) as [Heq|Hne].
  - right. replace (24 * w) with ((f + 1) * S) by lia.
    rewrite Z.div_mul, Z.mod_mul by lia. lia.
  - left. apply (Z.div_unique_pos (24 * w) S f (24 * w - f * S)); lia.
Qed.

Lemma raw_width_bounds (S w : Z) :
  1 <= w <= S -> S <= weight_bound ->
  exists r, raw_width 24 S w = OK r /\ 1 <= r /\ 24 * w <= S * (r + 1).
Proof.
  intros Hw HS. destruct (raw_floor_near S w Hw HS) as (f & Hf & Hnear).
  exists (Z.max 1 f). unfold raw_width. rewrite Hf. split; [reflexivity|].
  split; [lia|].
  assert (HS0 : 0 < S) by lia.
  pose proof (Z.mul_div_le (24 * w) S HS0).
  pose proof (Z.mul_succ_div_gt (24 * w) S HS0).
  destruct Hnear as [->|[-> Hmod]].
  - nia.
  - apply Z.div_exact in Hmod; [|lia]. nia.
Qed.

Lemma raw_widths_bounds (S : Z) (l : list Z) :
  S <= weight_bound -> Forall (fun w => 1 <= w <= S) l ->
  exists r, comprehension (raw_width 24 S) l = OK r /\
    Forall (fun u => 1 <= u) r /\
    24 * sum l <= S * (sum r + Z.of_nat (length l)).
Proof.
  intros HS. induction 1 as [|w l Hw Hl (r & Hr & Hpos & Hsum)].
  - exists []. repeat split; [constructor|cbn; lia].
  - destruct (raw_width_bounds S w Hw HS) as (u & Hu & Hu1 & Hu2).
    exists (u :: r). cbn [comprehension]. rewrite Hu, Hr. split; [reflexivity|].
    split; [now constructor|].
    rewrite !sum_cons. cbn [length]. nia.
Qed.

(** For positive weights of a total within [weight_bound], the raw widths
    exist, are at least 1 each, and fall short of 24 by no more than one
    unit for each panel. *)
Lemma raw_widths_ok (arr : list Z) :
  arr <> [] -> Forall (fun w => 1 <= w) arr -> sum arr <= weight_bound ->
  exists r, raw_widths arr 24 = OK r /\
    length r = length arr /\
    Forall (fun u => 1 <= u) r /\
    24 - sum r <= Z.of_nat (length arr).
Proof.
  intros Hne Hpos HS.
  destruct (raw_widths_bounds (sum arr) arr HS) as (r & Hr & Hr1 & Hsum).
  { apply Forall_forall. intros w Hw. split.
    - eapply Forall_forall in Hpos; [exact Hpos|exact Hw].
    - now apply elem_le_sum. }
  exists r. split; [exact Hr|]. split; [now apply comprehension_length in Hr|].
  split; [exact Hr1|].
  assert (0 < sum arr).
  { destruct arr as [|w arr]; [contradiction|].
    apply Forall_cons in Hpos as [Hw Hpos].
    pose proof (elem_le_sum (w :: arr) w (Forall_cons_2 _ _ _ Hw Hpos) (list_elem_of_here _ _)).
    lia. }
  nia.
Qed.

Lemma raw_width_pos (T S w r : Z) : raw_width T S w = OK r -> 1 <= r.
Proof.
  unfold raw_width. destruct (raw_floor T S w) as [f|]; [|discriminate].
  cbn. intros [= <-]. lia.
Qed.

Lemma raw_widths_pos (arr r : list Z) (T : Z) :
  raw_widths arr T = OK r -> Forall (fun u => 1 <= u) r.
Proof.
  unfold raw_widths. generalize (sum arr) as S. intros S. revert r.
  induction arr as [|w arr IH]; intros r H; cbn in H.
  - injection H as <-. constructor.
  - destruct (raw_width T S w) as [u|] eqn:Hu; [|discriminate]. cbn in H.
    destruct (comprehension (raw_width T S) arr) as [us|]; [|discriminate].
    cbn in H. injection H as <-. constructor; [eapply raw_width_pos, Hu|now apply IH].
Qed.

Lemma sum_ge_length (l : list Z) :
  Forall (fun u => 1 <= u) l -> Z.of_nat (length l) <= sum l.
Proof.
  induction 1 as [|u l Hu Hl IH]; [reflexivity|]. rewrite sum_cons. cbn [length]. lia.
Qed.

(** ** The allocator *)

Lemma sorted_indices_perm (r : list Z) : sorted_indices r ≡ₚ seq 0 (length r).
Proof. apply sorted_desc_perm. Qed.

Lemma sorted_indices_sorted (r : list Z) :
  StronglySorted (before (fun i => default 0 (r !! i))) (sorted_indices r).
Proof. apply sorted_desc_sorted, seq_sorted. Qed.

(** No remainder: the raw widths are the result. *)
Lemma allocator_no_remainder (arr r : list Z) (T : Z) :
  raw_widths arr T = OK r -> T - sum r <= 0 ->
  _create_width_units_array arr T = OK r.
Proof.
  intros Hr Hd. unfold _create_width_units_array. rewrite Hr. cbn.
  destruct (Z.ltb_spec 0 (T - sum r)); [lia|reflexivity].
Qed.

(** A remainder of at most one unit for each panel: the first [delta]
    indices of the sorted order get one unit each. *)
Lemma allocator_remainder (arr r : list Z) (T : Z) :
  raw_widths arr T = OK r ->
  0 < T - sum r <= Z.of_nat (length r) ->
  exists res,
    _create_width_units_array arr T = OK res /\
    length res = length r /\
    sum res = T /\
    forall j v, r !! j = Some v ->
      res !! j = Some (if decide (j ∈ take (Z.to_nat (T - sum r)) (sorted_indices r))
                       then v + 1 else v).
Proof.
  intros Hr Hd. unfold _create_width_units_array. rewrite Hr. cbn.
  destruct (Z.ltb_spec 0 (T - sum r)); [|lia].
  destruct (for_each_bump (sorted_indices r) (Z.to_nat (T - sum r)) 0 r)
    as (res & Hres & Hlen & Hsum & Hget).
  - rewrite sorted_indices_perm. apply NoDup_seq.
  - rewrite sorted_indices_perm. apply Forall_forall. intros j Hj.
    apply elem_of_seq in Hj. lia.
  - rewrite sorted_indices_perm, length_seq. lia.
  - exists res. split; [exact Hres|]. split; [exact Hlen|]. split; [lia|].
    intros j v Hj. rewrite (Hget j v Hj). rewrite drop_0. reflexivity.
Qed.

(** C1, as the code has it.  For every non-empty list of positive integer
    weights (of a total within [weight_bound]) whose raw widths, floored and
    clamped to 1, sum to at most 24 (the shortfall is not negative), the
    allocator called with total width 24 returns a list of the same length
    in which every width is at least 1 and the widths sum exactly to 24. *)
Theorem allocator_fills_the_row (arr r : list Z) :
  arr <> [] ->
  Forall (fun w => 1 <= w) arr ->
  sum arr <= weight_bound ->
  raw_widths arr 24 = OK r ->
  0 <= 24 - sum r ->
  exists res,
    _create_width_units_array arr 24 = OK res /\
    length res = length arr /\
    Forall (fun u => 1 <= u) res /\
    sum res = 24.
Proof.
  intros Hne Hpos HS Hr Hd.
  destruct (raw_widths_ok arr Hne Hpos HS) as (r' & Hr' & Hlen & Hr1 & Hshort).
  rewrite Hr in Hr'. injection Hr' as <-.
  destruct (Z.eq_dec (24 - sum r) 0) as [Hz|Hnz].
  - exists r. split; [apply allocator_no_remainder; [exact Hr|lia]|].
    split; [exact Hlen|]. split; [exact Hr1|lia].
  - destruct (allocator_remainder arr r 24 Hr) as (res & Hres & Hlen' & Hsum & Hget); [lia|].
    exists res. split; [exact Hres|]. split; [lia|]. split; [|exact Hsum].
    apply Forall_lookup. intros j u Hj.
    destruct (r !! j) as [v|] eqn:Hv.
    + rewrite (Hget j v Hv) in Hj. injection Hj as <-.
      eapply Forall_lookup in Hr1; [|exact Hv]. cbn in Hr1.
      destruct (decide _); lia.
    + apply lookup_ge_None in Hv. apply lookup_lt_Some in Hj. lia.
Qed.

Lemma allocator_fills_the_row_witness :
  [1; 2; 2] <> [] /\
  Forall (fun w => 1 <= w) [1; 2; 2] /\
  sum [1; 2; 2] <= weight_bound /\
  raw_widths [1; 2; 2] 24 = OK [4; 9; 9] /\
  0 <= 24 - sum [4; 9; 9] /\
  exists res,
    _create_width_units_array [1; 2; 2] 24 = OK res /\
    length res = length [1; 2; 2] /\
    Forall (fun u => 1 <= u) res /\
    sum res = 24.
Proof.
  assert (H1 : [1; 2; 2] <> @nil Z) by discriminate.
  assert (H2 : Forall (fun w => 1 <= w) [1; 2; 2]) by (repeat constructor; lia).
  assert (H3 : sum [1; 2; 2] <= weight_bound) by (vm_compute; discriminate).
  assert (H4 : raw_widths [1; 2; 2] 24 = OK [4; 9; 9]) by (vm_compute; reflexivity).
  assert (H5 : 0 <= 24 - sum [4; 9; 9]) by (vm_compute; discriminate).
  repeat (split; [assumption|]).
  exact (allocator_fills_the_row [1; 2; 2] [4; 9; 9] H1 H2 H3 H4 H5).
Defined.

(** C1, as the claim has it, fails.  Eleven panels, four SMALL and seven
    XLARGE: the SMALL ones are clamped from 0 to 1, the widths sum to 25 and
    the shortfall is -1. *)
Lemma allocator_overshoots :
  let arr := [1; 1; 1; 1; 4; 4; 4; 4; 4; 4; 4] in
  arr <> [] /\
  Forall (fun w => 1 <= w) arr /\
  raw_widths arr 24 = OK [1; 1; 1; 1; 3; 3; 3; 3; 3; 3; 3] /\
  24 - sum [1; 1; 1; 1; 3; 3; 3; 3; 3; 3; 3] = -1 /\
  exists res, _create_width_units_array arr 24 = OK res /\ sum res = 25.
Proof.
  cbv zeta. split; [discriminate|]. split; [repeat constructor; lia|].
  split; [vm_compute; reflexivity|]. split; [reflexivity|].
  exists [1; 1; 1; 1; 3; 3; 3; 3; 3; 3; 3]. split; vm_compute; reflexivity.
Qed.

Lemma comprehension_elem {A B} (f : A -> res B) (l : list A) (r : list B) (y : B) :
  comprehension f l = OK r -> y ∈ r -> exists x, x ∈ l /\ f x = OK y.
Proof.
  revert r. induction l as [|x l IH]; intros r H Hy; cbn in H.
  - injection H as <-. inversion Hy.
  - destruct (f x) as [y0|] eqn:Hx; [|discriminate]. cbn in H.
    destruct (comprehension f l) as [ys|]; [|discriminate]. cbn in H.
    injection H as <-. apply elem_of_cons in Hy as [->|Hy].
    + exists x. split; [apply list_elem_of_here|exact Hx].
    + destruct (IH ys eq_refl Hy) as (x' & Hx' & Hfx').
      exists x'. split; [now apply list_elem_of_further|exact Hfx'].
Qed.

Lemma sorted_indices_perm' (r : list Z) (j : nat) :
  j ∈ sorted_indices r <-> (j < length r)%nat.
Proof.
  rewrite sorted_indices_perm, elem_of_seq. lia.
Qed.

(** C2.  When the shortfall is positive, the allocator gives one unit to
    each of the [delta] panels that come first in the order "larger raw
    width first, earlier position first among equal widths"; with all-equal
    weights these are the first [delta] panels; and the allocator maps
    [1,2] to [8,16], [1,1,1] to [8,8,8] and [1,2,2] to [4,10,10]. *)
Theorem remainder_goes_to_the_widest (arr r : list Z) :
  arr <> [] ->
  Forall (fun w => 1 <= w) arr ->
  sum arr <= weight_bound ->
  raw_widths arr 24 = OK r ->
  0 < 24 - sum r ->
  (exists res bumped,
    _create_width_units_array arr 24 = OK res /\
    NoDup bumped /\
    length bumped = Z.to_nat (24 - sum r) /\
    (forall j, j ∈ bumped -> (j < length arr)%nat) /\
    (forall j v, r !! j = Some v ->
       res !! j = Some (if decide (j ∈ bumped) then v + 1 else v)) /\
    (forall j k vj vk, j ∈ bumped -> k ∉ bumped ->
       r !! j = Some vj -> r !! k = Some vk ->
       vk < vj \/ (vj = vk /\ (j < k)%nat)) /\
    ((forall w w', w ∈ arr -> w' ∈ arr -> w = w') ->
       bumped = seq 0 (Z.to_nat (24 - sum r)))) /\
  _create_width_units_array [1; 2] 24 = OK [8; 16] /\
  _create_width_units_array [1; 1; 1] 24 = OK [8; 8; 8] /\
  raw_widths [1; 2; 2] 24 = OK [4; 9; 9] /\
  _create_width_units_array [1; 2; 2] 24 = OK [4; 10; 10].
Proof.
  intros Hne Hpos HS Hr Hd.
  split; [|repeat split; vm_compute; reflexivity].
  destruct (raw_widths_ok arr Hne Hpos HS) as (r' & Hr' & Hlen & Hr1 & Hshort).
  rewrite Hr in Hr'. injection Hr' as <-.
  destruct (allocator_remainder arr r 24 Hr) as (res & Hres & Hlen' & Hsum & Hget); [lia|].
  set (d := Z.to_nat (24 - sum r)) in *.
  assert (Hdn : (d <= length (sorted_indices r))%nat).
  { rewrite sorted_indices_perm, length_seq. lia. }
  exists res, (take d (sorted_indices r)).
  split; [exact Hres|]. split.
  { apply (sublist_NoDup _ (sorted_indices r)); [|apply sublist_take].
    rewrite sorted_indices_perm. apply NoDup_seq. }
  split; [now apply length_take_le|]. split.
  { intros j Hj. apply elem_of_take in Hj as (i & Hi & _).
    apply list_elem_of_lookup_2, sorted_indices_perm' in Hi. lia. }
  split; [exact Hget|]. split.
  - intros j k vj vk Hj Hk Hvj Hvk.
    assert (Hk' : k ∈ drop d (sorted_indices r)).
    { assert (Hin : k ∈ sorted_indices r).
      { apply sorted_indices_perm'. now apply lookup_lt_Some in Hvk. }
      rewrite <- (take_drop d (sorted_indices r)) in Hin.
      apply elem_of_app in Hin as [Hin|Hin]; [contradiction|exact Hin]. }
    pose proof (sorted_indices_sorted r) as Hs.
    rewrite <- (take_drop d (sorted_indices r)) in Hs.
    assert (Hb : before (fun i => default 0 (r !! i)) j k)
      by (eapply StronglySorted_app_1_elem_of; eassumption).
    unfold before in Hb. rewrite Hvj, Hvk in Hb. cbn in Hb. exact Hb.
  - intros Heq. unfold sorted_indices.
    rewrite sorted_desc_equal_keys.
    + rewrite take_seq. f_equal. subst d. lia.
    + intros i j Hi Hj. apply elem_of_seq in Hi, Hj.
      destruct (lookup_lt_is_Some_2 r i) as [vi Hvi]; [lia|].
      destruct (lookup_lt_is_Some_2 r j) as [vj Hvj]; [lia|].
      rewrite Hvi, Hvj. cbn.
      destruct (comprehension_elem _ _ _ vi Hr (list_elem_of_lookup_2 _ _ _ Hvi))
        as (wi & Hwi & Hfi).
      destruct (comprehension_elem _ _ _ vj Hr (list_elem_of_lookup_2 _ _ _ Hvj))
        as (wj & Hwj & Hfj).
      rewrite (Heq wi wj Hwi Hwj) in Hfi. congruence.
Qed.

Lemma remainder_goes_to_the_widest_witness :
  [1; 2; 2] <> [] /\
  Forall (fun w => 1 <= w) [1; 2; 2] /\
  sum [1; 2; 2] <= weight_bound /\
  raw_widths [1; 2; 2] 24 = OK [4; 9; 9] /\
  0 < 24 - sum [4; 9; 9] /\
  exists res bumped,
    _create_width_units_array [1; 2; 2] 24 = OK res /\
    length bumped = Z.to_nat (24 - sum [4; 9; 9]) /\
    (forall j v, [4; 9; 9] !! j = Some v ->
       res !! j = Some (if decide (j ∈ bumped) then v + 1 else v)).
Proof.
  assert (H1 : [1; 2; 2] <> @nil Z) by discriminate.
  assert (H2 : Forall (fun w => 1 <= w) [1; 2; 2]) by (repeat constructor; lia).
  assert (H3 : sum [1; 2; 2] <= weight_bound) by (vm_compute; discriminate).
  assert (H4 : raw_widths [1; 2; 2] 24 = OK [4; 9; 9]) by (vm_compute; reflexivity).
  assert (H5 : 0 < 24 - sum [4; 9; 9]) by (vm_compute; reflexivity).
  repeat (split; [assumption|]).
  destruct (remainder_goes_to_the_widest [1; 2; 2] [4; 9; 9] H1 H2 H3 H4 H5)
    as [(res & bumped & Hres & _ & Hlen & _ & Hget & _) _].
  exists res, bumped. repeat split; assumption.
Defined.

Lemma for_each_bump_length (idx : list nat) (l : list nat) (result res : list Z) :
  for_each (bump idx) l result = OK res -> length res = length result.
Proof.
  revert result. induction l as [|i l IH]; intros result H; cbn in H.
  - now injection H as <-.
  - unfold bump at 1, getitem in H.
    destruct (idx !! i) as [j|]; [|discriminate]. cbn in H.
    destruct (result !! j) as [v|]; [|discriminate]. cbn in H.
    apply IH in H. now rewrite length_insert in H.
Qed.

Lemma allocator_length (arr res : list Z) (T : Z) :
  _create_width_units_array arr T = OK res -> length res = length arr.
Proof.
  unfold _create_width_units_array.
  destruct (raw_widths arr T) as [r|] eqn:Hr; [|discriminate]. cbn.
  apply comprehension_length in Hr.
  destruct (0 <? T - sum r).
  - intros H. apply for_each_bump_length in H. lia.
  - intros [= <-]. exact Hr.
Qed.

(** ** The positions of a group *)

Lemma write_all_app (ws1 ws2 : list (positive * GridPos.t)) (st : gmap positive GridPos.t) :
  write_all (ws1 ++ ws2) st = write_all ws2 (write_all ws1 st).
Proof. apply foldl_app. Qed.

Lemma place_loop (self : PanelGroup.t) (r : nat) (y hgt : Z) (ws : list Z)
    (x : Z) (k : nat) (st : gmap positive GridPos.t) :
  PanelGroup.row_heights self !! r = Some hgt ->
  (k + length ws <= length (PanelGroup.panels self))%nat ->
  for_eachM (PanelGroup.place self r y) ws (x, k) st =
    (OK (x + sum ws, (k + length ws)%nat),
     write_all (zip (take (length ws) (drop k (PanelGroup.panels self)))
                    (imap (fun c width => GridPos.mk (x + sum (take c ws)) y width hgt) ws)) st).
Proof.
  intros Hh. revert x k st. induction ws as [|width ws IH]; intros x k st Hk.
  - cbn. unfold ret. repeat f_equal; [rewrite Z.add_0_r; reflexivity|lia].
  - cbn [for_eachM length]. unfold bind at 1. unfold PanelGroup.place at 1.
    unfold bind, lift, ret, getitem, set_gridPos. rewrite Hh.
    cbn [length] in Hk.
    destruct (PanelGroup.panels self !! k) as [panel|] eqn:Hp;
      [|apply lookup_ge_None in Hp; lia].
    rewrite IH by lia.
    rewrite sum_cons, (drop_S _ _ _ Hp), imap_cons.
    replace (x + width + sum ws) with (x + (width + sum ws)) by lia.
    replace (S k + length ws)%nat with (k + S (length ws))%nat by lia.
    f_equal. cbn [take zip_with]. unfold write_all at 2. cbn [foldl fst snd].
    change (sum []) with 0. rewrite Z.add_0_r.
    unfold write_all. do 2 f_equal.
    apply imap_ext. intros c w Hc. unfold compose. cbn [take].
    rewrite sum_cons. f_equal. lia.
Qed.

Lemma allocated_length (rows : list (list PanelSize)) (widths : list (list Z)) :
  allocated rows widths ->
  length widths = length rows /\
  length (concat widths) = sum_list (length <$> rows).
Proof.
  induction 1 as [|sizes ws rows widths Hws _ [IH1 IH2]]; [split; reflexivity|].
  cbn. rewrite length_app, IH1, IH2.
  apply allocator_length in Hws. rewrite length_fmap in Hws. split; lia.
Qed.

Lemma place_rows (self : PanelGroup.t) (rows : list (list PanelSize))
    (widths : list (list Z)) (r0 k : nat) (cy : Z) (st : gmap positive GridPos.t) :
  allocated rows widths ->
  (r0 + length rows <= length (PanelGroup.row_heights self))%nat ->
  (k + length (concat widths) <= length (PanelGroup.panels self))%nat ->
  for_eachM (PanelGroup.place_row self) (zip (seq r0 (length rows)) rows) (k, cy) st =
    (OK ((k + length (concat widths))%nat,
         cy + sum ((fun hgt => hgt + 1) <$>
                     take (length rows) (drop r0 (PanelGroup.row_heights self)))),
     write_all
       (zip (take (length (concat widths)) (drop k (PanelGroup.panels self)))
            (concat (imap (fun i ws =>
               imap (rect_in_row
                       (cy + sum ((fun hgt => hgt + 1) <$>
                                    take i (drop r0 (PanelGroup.row_heights self))))
                       (default 0 (PanelGroup.row_heights self !! (r0 + i)%nat)) ws) ws)
               widths))) st).
Proof.
  intros Hall. revert r0 k cy st.
  induction Hall as [|sizes ws rows widths Hws Hall IH]; intros r0 k cy st Hr Hk.
  - cbn. unfold ret. rewrite Nat.add_0_r, Z.add_0_r. reflexivity.
  - cbn [length seq zip_with for_eachM]. cbn [length] in Hr.
    cbn [concat] in Hk. rewrite length_app in Hk.
    destruct (PanelGroup.row_heights self !! r0) as [hgt|] eqn:Hh;
      [|apply lookup_ge_None in Hh; lia].
    unfold bind at 1. unfold PanelGroup.place_row at 1.
    unfold bind at 1. unfold lift at 1. change _MAX_WIDTH with 24. rewrite Hws.
    unfold bind at 1. rewrite (place_loop self r0 cy hgt ws 0 k _ Hh) by lia.
    unfold bind at 1. unfold lift at 1, getitem. rewrite Hh. unfold ret at 1.
    cbn [snd]. rewrite IH by lia.
    cbn [concat]. rewrite length_app, imap_cons. cbn [concat].
    rewrite (drop_S _ _ _ Hh). cbn [take fmap list_fmap]. rewrite sum_cons.
    replace (k + length ws + length (concat widths))%nat
      with (k + (length ws + length (concat widths)))%nat by lia.
    rewrite <- !Z.add_assoc. f_equal.
    rewrite <- take_take_drop, drop_drop.
    rewrite zip_with_app
      by (rewrite length_take_le, length_imap; [reflexivity|rewrite length_drop; lia]).
    rewrite write_all_app. f_equal.
    + do 2 f_equal. apply imap_ext. intros i ws' _. unfold compose.
      replace (r0 + S i)%nat with (S r0 + i)%nat by lia.
      cbn [take fmap list_fmap]. rewrite sum_cons, <- !Z.add_assoc. reflexivity.
    + do 2 f_equal. unfold rect_in_row. apply imap_ext. intros c w _.
      change (sum []) with 0.
      rewrite Nat.add_0_r, Hh. cbn [default]. f_equal; lia.
Qed.

Lemma compute_grid_pos_spec (self : PanelGroup.t) (widths : list (list Z))
    (st : gmap positive GridPos.t) :
  allocated (PanelGroup._layout self) widths ->
  length (PanelGroup.row_heights self) = length (PanelGroup._layout self) ->
  sum_list (length <$> PanelGroup._layout self) = length (PanelGroup.panels self) ->
  PanelGroup._compute_grid_pos self st = (OK tt, write_all (writes self widths) st).
Proof.
  intros Hall Hrh Hcount.
  destruct (allocated_length _ _ Hall) as [Hlen Hcat].
  unfold PanelGroup._compute_grid_pos, writes, enumerate.
  rewrite write_all_app.
  set (st1 := write_all (header_writes self) st).
  assert (Hhead :
    (let! current_y :=
       match PanelGroup.row self with
       | Some r =>
           let! _ := set_gridPos r (GridPos.mk 0 (PanelGroup._y self) _MAX_WIDTH 1) in
           ret (PanelGroup._y self + 2)
       | None => ret (PanelGroup._y self)
       end in
     let! _ := for_eachM (PanelGroup.place_row self)
                 (zip (seq 0 (length (PanelGroup._layout self))) (PanelGroup._layout self))
                 (0%nat, current_y) in
     ret tt) st =
    (let! _ := for_eachM (PanelGroup.place_row self)
                 (zip (seq 0 (length (PanelGroup._layout self))) (PanelGroup._layout self))
                 (0%nat, first_row_y self) in
     ret tt) st1).
  { unfold st1, header_writes, first_row_y, bind, set_gridPos, ret.
    destruct (PanelGroup.row self); cbn; [reflexivity|].
    rewrite Z.add_0_r. reflexivity. }
  rewrite Hhead. unfold bind at 1.
  rewrite (place_rows self _ widths 0 0 (first_row_y self) st1 Hall) by lia.
  unfold ret. f_equal. rewrite drop_0.
  rewrite take_ge by lia. unfold positions, row_rects, row_y.
  do 3 f_equal.
Qed.

Lemma for_each_bump_pos (idx : list nat) (l : list nat) (result res : list Z) :
  for_each (bump idx) l result = OK res ->
  Forall (fun u => 1 <= u) result -> Forall (fun u => 1 <= u) res.
Proof.
  revert result. induction l as [|i l IH]; intros result H Hpos; cbn in H.
  - now injection H as <-.
  - unfold bump at 1, getitem in H.
    destruct (idx !! i) as [j|]; [|discriminate]. cbn in H.
    destruct (result !! j) as [v|] eqn:Hv; [|discriminate]. cbn in H.
    apply IH in H; [exact H|].
    apply Forall_insert; [exact Hpos|].
    eapply Forall_lookup in Hpos; [|exact Hv]. cbn in Hpos. lia.
Qed.

(** Every width the allocator returns is at least 1. *)
Lemma allocator_pos (arr res : list Z) (T : Z) :
  _create_width_units_array arr T = OK res -> Forall (fun u => 1 <= u) res.
Proof.
  unfold _create_width_units_array.
  destruct (raw_widths arr T) as [r|] eqn:Hr; [|discriminate]. cbn.
  apply raw_widths_pos in Hr.
  destruct (0 <? T - sum r).
  - intros H. eapply for_each_bump_pos; eassumption.
  - now intros [= <-].
Qed.

(** The allocator returns for positive weights of a total within
    [weight_bound]. *)
Lemma allocator_returns (arr : list Z) :
  arr <> [] -> Forall (fun w => 1 <= w) arr -> sum arr <= weight_bound ->
  exists res, _create_width_units_array arr 24 = OK res.
Proof.
  intros Hne Hpos HS.
  destruct (raw_widths_ok arr Hne Hpos HS) as (r & Hr & Hlen & Hr1 & Hshort).
  destruct (Z_lt_le_dec 0 (24 - sum r)) as [Hd|Hd].
  - destruct (allocator_remainder arr r 24 Hr) as (res & Hres & _); [lia|].
    now exists res.
  - exists r. now apply allocator_no_remainder.
Qed.

Lemma value_bounds (size : PanelSize) : 1 <= value size <= 4.
Proof. destruct size; cbn; lia. Qed.

Lemma sum_values_le (sizes : list PanelSize) :
  sum (value <$> sizes) <= 4 * Z.of_nat (length sizes).
Proof.
  induction sizes as [|size sizes IH]; [cbn; lia|].
  cbn [fmap list_fmap length]. rewrite sum_cons.
  pose proof (value_bounds size). lia.
Qed.

(** A non-empty row of relative sizes, of a total within [weight_bound],
    gets its widths. *)
Lemma row_allocated (sizes : list PanelSize) :
  sizes <> [] -> sum (value <$> sizes) <= weight_bound ->
  exists ws, _create_width_units_array (value <$> sizes) 24 = OK ws.
Proof.
  intros Hne Hsum. apply allocator_returns.
  - destruct sizes; [contradiction|discriminate].
  - apply Forall_fmap, Forall_forall. intros size _. apply value_bounds.
  - exact Hsum.
Qed.

Lemma rows_allocated (rows : list (list PanelSize)) :
  Forall (fun sizes => sizes <> [] /\ sum (value <$> sizes) <= weight_bound) rows ->
  exists widths, allocated rows widths.
Proof.
  induction 1 as [|sizes rows [Hne Hlen] _ [widths IH]].
  - exists []. constructor.
  - destruct (row_allocated sizes Hne Hlen) as [ws Hws].
    exists (ws :: widths). now constructor.
Qed.

Lemma allocated_pos (rows : list (list PanelSize)) (widths : list (list Z)) :
  allocated rows widths -> Forall (Forall (fun u => 1 <= u)) widths.
Proof.
  induction 1 as [|sizes ws rows widths Hws _ IH]; constructor; [|exact IH].
  eapply allocator_pos, Hws.
Qed.

Lemma attributes_inv (layout : option PanelGroup.layout_arg) (panels : list positive)
    (y : Z) (row_heights : PanelGroup.row_heights_arg) (row : option positive)
    (self : PanelGroup.t) :
  PanelGroup.attributes layout panels y row_heights row = OK self ->
  exists lay,
    layout = Some lay /\
    PanelGroup.normalise lay (length panels) = OK (PanelGroup._layout self) /\
    sum_list (length <$> PanelGroup._layout self) = length panels /\
    PanelGroup.row_heights self =
      match row_heights with
      | PanelGroup.Heights l => l
      | PanelGroup.Height hgt => replicate (length (PanelGroup._layout self)) hgt
      end /\
    length (PanelGroup.row_heights self) = length (PanelGroup._layout self) /\
    PanelGroup.row self = row /\
    PanelGroup._y self = y /\
    PanelGroup.panels self = panels /\
    PanelGroup.height self =
      sum (PanelGroup.row_heights self) + Z.of_nat (length (PanelGroup.row_heights self))
      + (if row is Some _ then 2 else 0).
Proof.
  unfold PanelGroup.attributes. destruct layout as [lay|]; [|discriminate].
  destruct (PanelGroup.normalise lay (length panels)) as [rows|] eqn:Hn; [|discriminate].
  cbn. unfold assert at 1.
  destruct (Nat.eqb_spec (sum_list (length <$> rows)) (length panels)) as [Hc|Hc];
    [|discriminate]. cbn.
  destruct row_heights as [l|hgt].
  - unfold assert. destruct (Nat.eqb_spec (length l) (length rows)) as [Hl|Hl];
      [|discriminate]. cbn.
    intros [= <-]. exists lay. cbn. repeat split; first [assumption|reflexivity].
  - cbn. intros [= <-]. exists lay. cbn. rewrite length_replicate.
    repeat split; first [assumption|reflexivity].
Qed.

Lemma concat_lookup {A} (ls : list (list A)) (r c : nat) (l : list A) (x : A) :
  ls !! r = Some l -> l !! c = Some x ->
  concat ls !! (length (concat (take r ls)) + c)%nat = Some x.
Proof.
  revert r. induction ls as [|l0 ls IH]; intros [|r] Hr Hc; try discriminate.
  - injection Hr as ->. cbn. now rewrite lookup_app_l by (eapply lookup_lt_Some, Hc).
  - cbn in Hr. cbn [take concat]. rewrite length_app, <- Nat.add_assoc.
    rewrite lookup_app_r by lia.
    replace (length l0 + _ - length l0)%nat
      with (length (concat (take r ls)) + c)%nat by lia.
    now apply IH.
Qed.

Lemma concat_lookup_lt {A} (ls : list (list A)) (r c : nat) (l : list A) (x : A) :
  ls !! r = Some l -> l !! c = Some x ->
  (length (concat (take r ls)) + c < length (concat ls))%nat.
Proof.
  intros Hr Hc. eapply lookup_lt_Some, concat_lookup; eassumption.
Qed.

Lemma concat_take_imap_length {A B} (f : nat -> list A -> list B) (ls : list (list A)) (r : nat) :
  (forall i l, length (f i l) = length l) ->
  length (concat (take r (imap f ls))) = length (concat (take r ls)).
Proof.
  revert f r. induction ls as [|l ls IH]; intros f [|r] Hf; try reflexivity.
  rewrite imap_cons. cbn [take concat]. rewrite !length_app, Hf.
  f_equal. apply IH. intros i l'. apply Hf.
Qed.

(** Where the panel of row [r] and column [c] is in the row-major list of
    the positions, and what its rectangle is. *)
Lemma positions_lookup (self : PanelGroup.t) (widths : list (list Z))
    (r c : nat) (ws : list Z) (width hgt : Z) :
  widths !! r = Some ws -> ws !! c = Some width ->
  PanelGroup.row_heights self !! r = Some hgt ->
  positions self widths !! (length (concat (take r widths)) + c)%nat =
    Some (GridPos.mk (sum (take c ws)) (row_y self r) width hgt).
Proof.
  intros Hr Hc Hh. unfold positions.
  rewrite <- (concat_take_imap_length (row_rects self) widths r)
    by (intros; apply length_imap).
  apply (concat_lookup _ r c (row_rects self r ws)).
  - now rewrite list_lookup_imap, Hr.
  - unfold row_rects. rewrite list_lookup_imap, Hc, Hh. reflexivity.
Qed.

Lemma row_widths_allocated (rows : list (list PanelSize)) (widths : list (list Z)) :
  row_widths rows = OK widths -> allocated rows widths.
Proof.
  unfold row_widths. revert widths.
  induction rows as [|sizes rows IH]; intros widths H; cbn in H.
  - injection H as <-. constructor.
  - destruct (_create_width_units_array (value <$> sizes) 24) as [ws|] eqn:Hws;
      [|discriminate]. cbn in H.
    destruct (comprehension _ rows) as [wss|]; [|discriminate]. cbn in H.
    injection H as <-. constructor; [exact Hws|now apply IH].
Qed.

(** Where the allocator raises for a row, the loop over the rows raises. *)
Lemma place_rows_raises (self : PanelGroup.t) (rows : list (list PanelSize)) (e : exn)
    (r0 : nat) (s : nat * Z) (st : gmap positive GridPos.t) :
  row_widths rows = Raise e ->
  exists e' st',
    for_eachM (PanelGroup.place_row self) (zip (seq r0 (length rows)) rows) s st =
      (Raise e', st').
Proof.
  unfold row_widths. revert r0 s st.
  induction rows as [|sizes rows IH]; intros r0 [k cy] st H; cbn in H; [discriminate|].
  cbn [length seq zip_with for_eachM].
  unfold bind at 1. unfold PanelGroup.place_row at 1.
  unfold bind at 1. unfold lift at 1. change _MAX_WIDTH with 24.
  destruct (_create_width_units_array (value <$> sizes) 24) as [ws|]; [|eauto].
  cbn in H. unfold bind at 1.
  destruct (for_eachM (PanelGroup.place self r0 cy) ws (0, k) st) as [[s'|e1] st1];
    [|eauto].
  unfold bind at 1. unfold lift at 1.
  destruct (getitem (PanelGroup.row_heights self) r0) as [hgt|e2]; [|eauto].
  unfold ret at 1.
  destruct (comprehension _ rows) as [wss|e3] eqn:Hrest; [discriminate|].
  apply (IH (S r0) (s'.2, cy + hgt + 1) st1). exact H.
Qed.

Lemma compute_grid_pos_inv (self : PanelGroup.t) (st st' : gmap positive GridPos.t) :
  PanelGroup._compute_grid_pos self st = (OK tt, st') ->
  exists widths, allocated (PanelGroup._layout self) widths.
Proof.
  intros H. destruct (row_widths (PanelGroup._layout self)) as [widths|e] eqn:Hw.
  - exists widths. now apply row_widths_allocated.
  - exfalso. unfold PanelGroup._compute_grid_pos, enumerate in H.
    unfold bind at 1 in H.
    destruct (match PanelGroup.row self with
              | Some r =>
                  let! _ := set_gridPos r (GridPos.mk 0 (PanelGroup._y self) _MAX_WIDTH 1) in
                  ret (PanelGroup._y self + 2)
              | None => ret (PanelGroup._y self)
              end st) as [[cy|e0] st0]; [|discriminate].
    unfold bind at 1 in H.
    destruct (place_rows_raises self _ e 0 (0%nat, cy) st0 Hw) as (e' & st1 & Hraise).
    rewrite Hraise in H. discriminate.
Qed.

(** A group that was built: its arguments passed the checks, every row got
    its widths, and the store holds what was written. *)
Lemma init_inv (layout : option PanelGroup.layout_arg) (panels : list positive)
    (y : option Z) (row_heights : option PanelGroup.row_heights_arg)
    (row : option positive) (self : PanelGroup.t) (st st' : gmap positive GridPos.t) :
  PanelGroup.__init__ layout panels y row_heights row st = (OK self, st') ->
  PanelGroup.attributes layout panels (default 0 y)
    (default (PanelGroup.Height 8) row_heights) row = OK self /\
  exists widths,
    allocated (PanelGroup._layout self) widths /\
    st' = write_all (writes self widths) st.
Proof.
  unfold PanelGroup.__init__, bind, lift at 1.
  destruct (PanelGroup.attributes _ _ _ _ _) as [g|] eqn:Hattr; [|discriminate].
  destruct (PanelGroup._compute_grid_pos g st) as [[[]|] st1] eqn:Hc; [|discriminate].
  unfold ret. intros [= <- <-]. split; [reflexivity|].
  destruct (compute_grid_pos_inv g st st1 Hc) as [widths Hall].
  exists widths. split; [exact Hall|].
  destruct (attributes_inv _ _ _ _ _ _ Hattr)
    as (lay & _ & _ & Hcount & _ & Hrhlen & _ & _ & Hpanels & _).
  rewrite (compute_grid_pos_spec g widths st Hall Hrhlen) in Hc by congruence.
  now injection Hc.
Qed.

Lemma init_returns (layout : option PanelGroup.layout_arg) (panels : list positive)
    (y : option Z) (row_heights : option PanelGroup.row_heights_arg)
    (row : option positive) (self : PanelGroup.t) (widths : list (list Z))
    (st : gmap positive GridPos.t) :
  PanelGroup.attributes layout panels (default 0 y)
    (default (PanelGroup.Height 8) row_heights) row = OK self ->
  allocated (PanelGroup._layout self) widths ->
  PanelGroup.__init__ layout panels y row_heights row st =
    (OK self, write_all (writes self widths) st).
Proof.
  intros Hattr Hall.
  destruct (attributes_inv _ _ _ _ _ _ Hattr)
    as (lay & _ & _ & Hcount & _ & Hrhlen & _ & _ & Hpanels & _).
  unfold PanelGroup.__init__, bind, lift at 1. rewrite Hattr.
  rewrite (compute_grid_pos_spec self widths st Hall Hrhlen) by congruence.
  reflexivity.
Qed.

(** C3.  The positions a group computes when it is built.  A group whose
    arguments pass the checks is built when every row is non-empty and has
    relative sizes of a total within [weight_bound].
    When it is built: the header, when there is one, gets [(0, y, 24, 1)]
    and the rows begin 2 below [y], otherwise at [y]; row [r] begins one
    unit below the end of the row above it; the panel in column [c] of row
    [r] is the next panel of the list after those of the rows above and the
    [c] panels to its left, and it gets the x where the widths to its left
    end, the y of its row, its allocated width and the height of its row.
    The group of the example gets widths 15 and 9 at y = 0 and widths 12
    and 12 at y = 9. *)
Theorem group_positions (layout : option PanelGroup.layout_arg) (panels : list positive)
    (y : option Z) (row_heights : option PanelGroup.row_heights_arg)
    (row : option positive) (self : PanelGroup.t) (st : gmap positive GridPos.t) :
  PanelGroup.attributes layout panels (default 0 y)
    (default (PanelGroup.Height 8) row_heights) row = OK self ->
  (Forall (fun sizes => sizes <> [] /\ sum (value <$> sizes) <= weight_bound) (PanelGroup._layout self) ->
   exists st', PanelGroup.__init__ layout panels y row_heights row st = (OK self, st')) /\
  (forall st',
     PanelGroup.__init__ layout panels y row_heights row st = (OK self, st') ->
     exists widths,
       allocated (PanelGroup._layout self) widths /\
       Forall (Forall (fun u => 1 <= u)) widths /\
       st' = write_all (writes self widths) st /\
       header_writes self =
         (if row is Some o then [(o, GridPos.mk 0 (default 0 y) 24 1)] else []) /\
       first_row_y self = default 0 y + (if row is Some _ then 2 else 0) /\
       (forall r, row_y self (S r) =
          row_y self r + default 0 (PanelGroup.row_heights self !! r) + 1
          \/ (length (PanelGroup._layout self) <= r)%nat) /\
       (forall r c ws width hgt,
          widths !! r = Some ws -> ws !! c = Some width ->
          PanelGroup.row_heights self !! r = Some hgt ->
          exists panel,
            panels !! (length (concat (take r widths)) + c)%nat = Some panel /\
            zip panels (positions self widths) !! (length (concat (take r widths)) + c)%nat =
              Some (panel, GridPos.mk (sum (take c ws)) (row_y self r) width hgt))) /\
  (let g := PanelGroup.__init__
              (Some (PanelGroup.Rows [[LARGE; MEDIUM]; [SMALL; SMALL]]))
              [1; 2; 3; 4]%positive None (Some (PanelGroup.Height 8)) None ∅ in
   g.2 !! 1%positive = Some (GridPos.mk 0 0 15 8) /\
   g.2 !! 2%positive = Some (GridPos.mk 15 0 9 8) /\
   g.2 !! 3%positive = Some (GridPos.mk 0 9 12 8) /\
   g.2 !! 4%positive = Some (GridPos.mk 12 9 12 8)).
Proof.
  intros Hattr. split; [|split; [|cbv zeta; repeat split; vm_compute; reflexivity]].
  { intros Hrows. destruct (rows_allocated _ Hrows) as [widths Hall].
    eexists. now apply (init_returns _ _ _ _ _ _ widths). }
  intros st' Hinit.
  destruct (init_inv _ _ _ _ _ _ _ _ Hinit) as (_ & widths & Hall & Hst).
  destruct (attributes_inv _ _ _ _ _ _ Hattr)
    as (lay & -> & Hnorm & Hcount & Hrh & Hrhlen & Hrow & Hy & Hpanels & Hheight).
  destruct (allocated_length _ _ Hall) as [Hlen Hcat].
  exists widths. split; [exact Hall|]. split; [eapply allocated_pos, Hall|].
  split; [exact Hst|].
  split; [unfold header_writes; rewrite Hrow, Hy; reflexivity|].
  split; [unfold first_row_y; rewrite Hrow, Hy; reflexivity|].
  split.
  { intros r. destruct (PanelGroup.row_heights self !! r) as [hgt|] eqn:Hh.
    - left. unfold row_y. rewrite (take_S_r _ _ _ Hh), fmap_app, sum_app. cbn. lia.
    - right. apply lookup_ge_None in Hh. lia. }
  intros r c ws width hgt Hr Hc Hh.
  pose proof (concat_lookup_lt widths r c ws width Hr Hc) as Hlt.
  destruct (lookup_lt_is_Some_2 panels (length (concat (take r widths)) + c)) as [panel Hp].
  { rewrite Hcat, Hcount in Hlt. exact Hlt. }
  exists panel. split; [exact Hp|].
  rewrite lookup_zip_with, Hp, (positions_lookup self widths r c ws width hgt Hr Hc Hh).
  reflexivity.
Qed.

(** ** The construction of a group *)

Lemma init_attributes (layout : option PanelGroup.layout_arg) (panels : list positive)
    (y : option Z) (row_heights : option PanelGroup.row_heights_arg)
    (row : option positive) (self : PanelGroup.t) (st st' : gmap positive GridPos.t) :
  PanelGroup.__init__ layout panels y row_heights row st = (OK self, st') ->
  PanelGroup.attributes layout panels (default 0 y)
    (default (PanelGroup.Height 8) row_heights) row = OK self.
Proof.
  unfold PanelGroup.__init__, bind, lift at 1.
  destruct (PanelGroup.attributes _ _ _ _ _) as [g|]; [|discriminate].
  destruct (PanelGroup._compute_grid_pos g st) as [[[]|] st1]; [|discriminate].
  unfold ret. now intros [= <- _].
Qed.

Lemma init_raises (layout : option PanelGroup.layout_arg) (panels : list positive)
    (y : option Z) (row_heights : option PanelGroup.row_heights_arg)
    (row : option positive) (e : exn) (st : gmap positive GridPos.t) :
  PanelGroup.attributes layout panels (default 0 y)
    (default (PanelGroup.Height 8) row_heights) row = Raise e ->
  PanelGroup.__init__ layout panels y row_heights row st = (Raise e, st).
Proof.
  intros H. unfold PanelGroup.__init__, bind, lift at 1. now rewrite H.
Qed.

(** C7.  The height of a group that was built is the sum of its row heights
    plus the number of its rows, plus 2 with a row header; the group built
    from the same arguments and a row header is 2 higher than the group
    built without one. *)
Theorem group_height (layout : option PanelGroup.layout_arg) (panels : list positive)
    (y : option Z) (row_heights : option PanelGroup.row_heights_arg)
    (row : option positive) (self : PanelGroup.t) (st st' : gmap positive GridPos.t) :
  PanelGroup.__init__ layout panels y row_heights row st = (OK self, st') ->
  PanelGroup.get_height self =
    sum (PanelGroup.row_heights self) + Z.of_nat (length (PanelGroup._layout self))
    + (if row is Some _ then 2 else 0) /\
  length (PanelGroup.row_heights self) = length (PanelGroup._layout self) /\
  (forall o self1 st1 st1',
     row = None ->
     PanelGroup.__init__ layout panels y row_heights (Some o) st1 = (OK self1, st1') ->
     PanelGroup.get_height self1 = PanelGroup.get_height self + 2).
Proof.
  intros Hinit. apply init_attributes in Hinit.
  destruct (attributes_inv _ _ _ _ _ _ Hinit)
    as (lay & -> & Hnorm & Hcount & Hrh & Hrhlen & Hrow & Hy & Hpanels & Hheight).
  unfold PanelGroup.get_height. split; [rewrite Hheight, Hrhlen; reflexivity|].
  split; [exact Hrhlen|].
  intros o self1 st1 st1' -> Hinit1. apply init_attributes in Hinit1.
  destruct (attributes_inv _ _ _ _ _ _ Hinit1)
    as (lay1 & [= <-] & Hnorm1 & _ & Hrh1 & _ & _ & _ & _ & Hheight1).
  rewrite Hnorm in Hnorm1. injection Hnorm1 as Hlay.
  rewrite Hheight, Hheight1, Hrh, Hrh1, Hlay. lia.
Qed.

Lemma group_height_witness :
  let args := (Some (PanelGroup.Sizes [SMALL; MEDIUM; MEDIUM]), [5; 6; 7]%positive) in
  let self := PanelGroup.mk [[SMALL; MEDIUM; MEDIUM]] [8] (Some 8%positive) 0 11
                [5; 6; 7]%positive in
  (PanelGroup.__init__ args.1 args.2 None None (Some 8%positive) ∅).1 = OK self /\
  PanelGroup.get_height self = sum [8] + 1 + 2.
Proof.
  cbv zeta. split; [vm_compute; reflexivity|].
  destruct (PanelGroup.__init__ (Some (PanelGroup.Sizes [SMALL; MEDIUM; MEDIUM]))
              [5; 6; 7]%positive None None (Some 8%positive) ∅) as [r st'] eqn:Hinit.
  assert (Hr : r = OK (PanelGroup.mk [[SMALL; MEDIUM; MEDIUM]] [8] (Some 8%positive) 0 11
                         [5; 6; 7]%positive)).
  { change r with (r, st').1. rewrite <- Hinit. vm_compute. reflexivity. }
  subst r.
  exact (proj1 (group_height _ _ _ _ _ _ _ _ Hinit)).
Defined.

(** C10.  A flat layout of positive length with no panels: the group is
    built, it has no rows, its height is 0 without a row header and 2 with
    one, the row header gets [(0, y, 24, 1)] and nothing else is written. *)
Theorem empty_group (sizes : list PanelSize) (y : option Z)
    (row_heights : option PanelGroup.row_heights_arg) (row : option positive)
    (st : gmap positive GridPos.t) :
  sizes <> [] ->
  (row_heights = Some (PanelGroup.Heights []) \/
   forall l, row_heights <> Some (PanelGroup.Heights l)) ->
  exists self,
    PanelGroup.__init__ (Some (PanelGroup.Sizes sizes)) [] y row_heights row st =
      (OK self,
       if row is Some o then <[o := GridPos.mk 0 (default 0 y) 24 1]> st else st) /\
    PanelGroup._layout self = [] /\
    PanelGroup.row self = row /\
    PanelGroup.get_height self = (if row is Some _ then 2 else 0).
Proof.
  intros Hne Hrh.
  exists (PanelGroup.mk [] [] row (default 0 y) (if row is Some _ then 2 else 0) []).
  split; [|repeat split].
  unfold PanelGroup.__init__, bind, lift at 1.
  assert (Hattr : PanelGroup.attributes (Some (PanelGroup.Sizes sizes)) [] (default 0 y)
                    (default (PanelGroup.Height 8) row_heights) row =
                  OK (PanelGroup.mk [] [] row (default 0 y)
                        (if row is Some _ then 2 else 0) [])).
  { unfold PanelGroup.attributes, PanelGroup.normalise.
    destruct sizes as [|size sizes]; [contradiction|].
    cbn.
    destruct Hrh as [->|Hrh].
    - cbn. destruct row; reflexivity.
    - destruct row_heights as [[l|hgt]|]; [exfalso; now apply (Hrh l)| |];
        cbn; destruct row; reflexivity. }
  rewrite Hattr.
  unfold PanelGroup._compute_grid_pos, bind, set_gridPos, ret, enumerate. cbn.
  destruct row; reflexivity.
Qed.

Lemma empty_group_witness :
  [SMALL; MEDIUM] <> [] /\
  exists self,
    PanelGroup.__init__ (Some (PanelGroup.Sizes [SMALL; MEDIUM])) [] None None
      (Some 9%positive) ∅ =
      (OK self, <[9%positive := GridPos.mk 0 0 24 1]> ∅) /\
    PanelGroup.get_height self = 2.
Proof.
  assert (H1 : [SMALL; MEDIUM] <> []) by discriminate.
  split; [exact H1|].
  destruct (empty_group [SMALL; MEDIUM] None None (Some 9%positive) ∅ H1)
    as (self & Hinit & _ & _ & Hh).
  - right. discriminate.
  - exists self. split; [exact Hinit|exact Hh].
Defined.

Lemma sum_list_replicate_lengths {A} (k : nat) (l : list A) :
  sum_list (length <$> replicate k l) = (k * length l)%nat.
Proof. induction k as [|k IH]; [reflexivity|]. cbn. rewrite IH. reflexivity. Qed.

Lemma flat_count_mismatch (n L : nat) :
  L <> 0%nat -> ((n / L) * L <> n <-> n mod L <> 0)%nat.
Proof.
  intros HL. pose proof (Nat.div_mod_eq n L) as Hdm. split; intros Hne; lia.
Qed.

Lemma sum_list_app (l1 l2 : list nat) :
  sum_list (l1 ++ l2) = (sum_list l1 + sum_list l2)%nat.
Proof. induction l1 as [|x l1 IH]; [reflexivity|]. cbn. rewrite IH. lia. Qed.

Lemma for_eachM_app {A S} (body : S -> A -> M S) (l1 l2 : list A) (s : S)
    (st : gmap positive GridPos.t) :
  for_eachM body (l1 ++ l2) s st =
    match for_eachM body l1 s st with
    | (OK s', st') => for_eachM body l2 s' st'
    | (Raise e, st') => (Raise e, st')
    end.
Proof.
  revert s st. induction l1 as [|x l1 IH]; intros s st; [reflexivity|].
  cbn [app for_eachM]. unfold bind. destruct (body s x st) as [[s'|e] st']; [apply IH|reflexivity].
Qed.

Lemma enumerate_app {A} (r0 : nat) (l1 l2 : list A) :
  zip (seq r0 (length (l1 ++ l2))) (l1 ++ l2) =
    zip (seq r0 (length l1)) l1 ++ zip (seq (r0 + length l1) (length l2)) l2.
Proof.
  rewrite length_app, seq_app. apply zip_with_app. now rewrite length_seq.
Qed.

Lemma zip_take_l {A B} (l : list A) (k : list B) :
  zip (take (length k) l) k = zip l k.
Proof.
  revert l. induction k as [|b k IH]; intros [|a l]; try reflexivity.
  cbn. now rewrite IH.
Qed.

(** The rows of a layout are all non-empty, or there is a first empty row. *)
Lemma first_empty_row (rows : list (list PanelSize)) :
  Forall (fun sizes => sizes <> []) rows \/
  exists pre post, rows = pre ++ [] :: post /\ Forall (fun sizes => sizes <> []) pre.
Proof.
  induction rows as [|sizes rows IH]; [left; constructor|].
  destruct sizes as [|size sizes].
  - right. exists [], rows. split; [reflexivity|constructor].
  - destruct IH as [IH|(pre & post & -> & Hpre)].
    + left. constructor; [discriminate|exact IH].
    + right. exists ((size :: sizes) :: pre), post. split; [reflexivity|].
      constructor; [discriminate|exact Hpre].
Qed.

(** The positions of a layout with an empty row: the header and the rows
    above the empty row are written, and the allocator raises on the empty
    row. *)
Lemma compute_grid_pos_empty_row (self : PanelGroup.t) (pre post : list (list PanelSize))
    (widths : list (list Z)) (st : gmap positive GridPos.t) :
  PanelGroup._layout self = pre ++ [] :: post ->
  allocated pre widths ->
  length (PanelGroup.row_heights self) = length (PanelGroup._layout self) ->
  sum_list (length <$> PanelGroup._layout self) = length (PanelGroup.panels self) ->
  PanelGroup._compute_grid_pos self st =
    (Raise IndexError, write_all (writes self widths) st).
Proof.
  intros Hlay Hall Hrh Hcount.
  destruct (allocated_length _ _ Hall) as [Hlen Hcat].
  rewrite Hlay in Hrh, Hcount.
  rewrite fmap_app, sum_list_app in Hcount. rewrite length_app in Hrh.
  assert (Hloop : forall cy st1,
            for_eachM (PanelGroup.place_row self)
              (zip (seq 0 (length (pre ++ [] :: post))) (pre ++ [] :: post))
              (0%nat, cy) st1 =
            (Raise IndexError,
             write_all
               (zip (PanelGroup.panels self)
                  (concat (imap (fun i ws =>
                     imap (rect_in_row
                             (cy + sum ((fun hgt => hgt + 1) <$>
                                          take i (PanelGroup.row_heights self)))
                             (default 0 (PanelGroup.row_heights self !! i)) ws) ws)
                     widths))) st1)).
  { intros cy st1. rewrite enumerate_app, for_eachM_app.
    rewrite (place_rows self pre widths 0 0 cy st1 Hall) by lia.
    rewrite drop_0.
    replace (length (concat widths))
      with (length (concat (imap (fun i ws =>
              imap (rect_in_row
                      (cy + sum ((fun hgt => hgt + 1) <$>
                                   take i (PanelGroup.row_heights self)))
                      (default 0 (PanelGroup.row_heights self !! i)) ws) ws) widths))).
    - rewrite zip_take_l. reflexivity.
    - rewrite <- (take_ge (imap _ widths) (length widths)) by (rewrite length_imap; lia).
      rewrite concat_take_imap_length by (intros; apply length_imap).
      now rewrite take_ge by lia. }
  unfold PanelGroup._compute_grid_pos, enumerate. rewrite Hlay.
  unfold writes. rewrite write_all_app.
  unfold header_writes, positions, row_rects, row_y, first_row_y.
  destruct (PanelGroup.row self) as [r|]; unfold bind, set_gridPos, ret; cbn beta iota.
  - rewrite Hloop. reflexivity.
  - rewrite Hloop, Z.add_0_r. reflexivity.
Qed.

(** C5.  The checks of the constructor refuse exactly these arguments: a
    layout that is missing or empty, rows whose panel count is not the
    number of panels, a flat layout whose length does not divide the number
    of panels, a list of row heights that is not as long as the list of
    rows; the constructor then raises at once, with no position written and
    no group returned.  Arguments that pass the checks can fail as
    well: with rows of a total within [weight_bound], the constructor then
    raises exactly when the layout has an empty row, with an [IndexError]
    of the allocator, after the row header and the rows above the first
    empty row were placed.  Taken together: with such rows the constructor
    raises exactly for the refused arguments and for the layouts that have
    an empty row. *)
Theorem validation_failures (layout : option PanelGroup.layout_arg)
    (panels : list positive) (y : option Z)
    (row_heights : option PanelGroup.row_heights_arg) (row : option positive)
    (st : gmap positive GridPos.t) :
  ((exists e, PanelGroup.attributes layout panels (default 0 y)
                (default (PanelGroup.Height 8) row_heights) row = Raise e)
   <-> refused layout (length panels) row_heights)
  /\
  (forall e,
     PanelGroup.attributes layout panels (default 0 y)
       (default (PanelGroup.Height 8) row_heights) row = Raise e ->
     PanelGroup.__init__ layout panels y row_heights row st = (Raise e, st))
  /\
  (forall self,
     PanelGroup.attributes layout panels (default 0 y)
       (default (PanelGroup.Height 8) row_heights) row = OK self ->
     Forall (fun sizes => sum (value <$> sizes) <= weight_bound) (PanelGroup._layout self) ->
     ((exists e st', PanelGroup.__init__ layout panels y row_heights row st = (Raise e, st'))
      <-> [] ∈ PanelGroup._layout self) /\
     ([] ∈ PanelGroup._layout self ->
      exists pre post widths,
        PanelGroup._layout self = pre ++ [] :: post /\
        Forall (fun sizes => sizes <> []) pre /\
        allocated pre widths /\
        PanelGroup.__init__ layout panels y row_heights row st =
          (Raise IndexError, write_all (writes self widths) st)) /\
     ([] ∉ PanelGroup._layout self ->
      exists st', PanelGroup.__init__ layout panels y row_heights row st = (OK self, st')))
  /\
  ((forall lay rows,
      layout = Some lay -> PanelGroup.normalise lay (length panels) = OK rows ->
      Forall (fun sizes => sum (value <$> sizes) <= weight_bound) rows) ->
   ((exists e st', PanelGroup.__init__ layout panels y row_heights row st = (Raise e, st'))
    <->
    (refused layout (length panels) row_heights \/
     exists lay rows,
       layout = Some lay /\ PanelGroup.normalise lay (length panels) = OK rows /\
       [] ∈ rows))).
Proof.
  assert (Hchecks :
    (exists e, PanelGroup.attributes layout panels (default 0 y)
                 (default (PanelGroup.Height 8) row_heights) row = Raise e)
    <-> refused layout (length panels) row_heights).
  2: assert (Hbuilt : forall self,
     PanelGroup.attributes layout panels (default 0 y)
       (default (PanelGroup.Height 8) row_heights) row = OK self ->
     Forall (fun sizes => sum (value <$> sizes) <= weight_bound) (PanelGroup._layout self) ->
     ((exists e st', PanelGroup.__init__ layout panels y row_heights row st = (Raise e, st'))
      <-> [] ∈ PanelGroup._layout self) /\
     ([] ∈ PanelGroup._layout self ->
      exists pre post widths,
        PanelGroup._layout self = pre ++ [] :: post /\
        Forall (fun sizes => sizes <> []) pre /\
        allocated pre widths /\
        PanelGroup.__init__ layout panels y row_heights row st =
          (Raise IndexError, write_all (writes self widths) st)) /\
     ([] ∉ PanelGroup._layout self ->
      exists st', PanelGroup.__init__ layout panels y row_heights row st = (OK self, st'))).
  3: { split; [exact Hchecks|]. split; [intros e H; now apply init_raises|].
       split; [exact Hbuilt|].
       intros Hbound. split.
       - intros Hraise.
         destruct (PanelGroup.attributes layout panels (default 0 y)
                     (default (PanelGroup.Height 8) row_heights) row) as [self|e] eqn:Hattr.
         + right. destruct (attributes_inv _ _ _ _ _ _ Hattr) as (lay & Hlay & Hnorm & _).
           exists lay, (PanelGroup._layout self). split; [exact Hlay|]. split; [exact Hnorm|].
           apply (proj1 (Hbuilt self eq_refl (Hbound lay _ Hlay Hnorm))), Hraise.
         + left. apply Hchecks. now exists e.
       - intros [Href|(lay & rows & Hlay & Hnorm & Hin)].
         + apply Hchecks in Href as [e He]. exists e, st. now apply init_raises.
         + destruct (PanelGroup.attributes layout panels (default 0 y)
                       (default (PanelGroup.Height 8) row_heights) row) as [self|e] eqn:Hattr.
           * destruct (attributes_inv _ _ _ _ _ _ Hattr) as (lay' & Hlay' & Hnorm' & _).
             rewrite Hlay in Hlay'. injection Hlay' as <-.
             rewrite Hnorm in Hnorm'. injection Hnorm' as Hrows.
             apply (proj1 (Hbuilt self eq_refl
                             ltac:(rewrite <- Hrows; exact (Hbound lay rows Hlay Hnorm)))).
             now rewrite <- Hrows.
           * exists e, st. now apply init_raises. }
  - unfold PanelGroup.attributes, refused. split.
    + intros [e He]. destruct layout as [lay|]; [|now left].
      destruct (PanelGroup.normalise lay (length panels)) as [rows|] eqn:Hn.
      * cbn in He. unfold assert at 1 in He.
        destruct (Nat.eqb_spec (sum_list (length <$> rows)) (length panels)) as [Hc|Hc].
        -- cbn in He. right. right. right. right. right.
           destruct row_heights as [[l|hgt]|]; cbn in He; try discriminate.
           unfold assert in He.
           destruct (Nat.eqb_spec (length l) (length rows)) as [Hl|Hl]; [discriminate|].
           exists lay, rows, l. repeat split; assumption.
        -- right. right. right. destruct lay as [rows'|sizes].
           ++ left. exists rows'. destruct rows' as [|r rs]; [discriminate|].
              injection Hn as <-. repeat split; [discriminate|exact Hc].
           ++ right. left. exists sizes. destruct sizes as [|size sizes']; [discriminate|].
              injection Hn as <-. rewrite sum_list_replicate_lengths in Hc.
              repeat split; [discriminate|]. now apply flat_count_mismatch.
      * right. destruct lay as [[|r rs]|[|size sizes']]; try discriminate; auto.
    + intros [->|[->|[->|[(rows & -> & Hne & Hc)|[(sizes & -> & Hne & Hc)|
          (lay & rows & l & -> & Hn & -> & Hl)]]]]].
      * eexists. reflexivity.
      * eexists. reflexivity.
      * eexists. reflexivity.
      * destruct rows as [|r rs]; [contradiction|].
        cbn [PanelGroup.normalise res_bind]. unfold assert at 1.
        destruct (Nat.eqb_spec (sum_list (length <$> r :: rs)) (length panels));
          [contradiction|]. eexists. reflexivity.
      * destruct sizes as [|size sizes']; [contradiction|].
        cbn [PanelGroup.normalise res_bind]. unfold assert at 1.
        rewrite sum_list_replicate_lengths.
        destruct (Nat.eqb_spec ((length panels / length (size :: sizes'))
                                * length (size :: sizes')) (length panels)) as [Hc'|Hc'].
        -- apply flat_count_mismatch in Hc; [contradiction|discriminate].
        -- eexists. reflexivity.
      * rewrite Hn. cbn [res_bind]. unfold assert at 1.
        destruct (sum_list (length <$> rows) =? length panels)%nat; [|eexists; reflexivity].
        cbn [res_bind default from_option id]. unfold assert.
        destruct (Nat.eqb_spec (length l) (length rows)); [contradiction|].
        eexists. reflexivity.
  - intros self Hattr Hbound.
    destruct (attributes_inv _ _ _ _ _ _ Hattr)
      as (lay & _ & _ & Hcount & _ & Hrhlen & _ & _ & Hpanels & _).
    assert (Hempty : [] ∈ PanelGroup._layout self ->
              exists pre post widths,
                PanelGroup._layout self = pre ++ [] :: post /\
                Forall (fun sizes => sizes <> []) pre /\
                allocated pre widths /\
                PanelGroup.__init__ layout panels y row_heights row st =
                  (Raise IndexError, write_all (writes self widths) st)).
    { intros Hin.
      destruct (first_empty_row (PanelGroup._layout self)) as [Hall|(pre & post & Hlay & Hpre)].
      - exfalso. exact (proj1 (Forall_forall _ _) Hall [] Hin eq_refl).
      - assert (Hpre' : Forall (fun sizes => sizes <> [] /\
                                  sum (value <$> sizes) <= weight_bound) pre).
        { rewrite Hlay in Hbound. apply Forall_app in Hbound as [Hb _].
          apply Forall_forall. intros sizes Hs. split.
          + exact (proj1 (Forall_forall _ _) Hpre sizes Hs).
          + exact (proj1 (Forall_forall _ _) Hb sizes Hs). }
        destruct (rows_allocated pre Hpre') as [widths Hall].
        exists pre, post, widths. split; [exact Hlay|]. split; [exact Hpre|].
        split; [exact Hall|].
        unfold PanelGroup.__init__, bind at 1, lift at 1. rewrite Hattr.
        unfold bind.
        rewrite (compute_grid_pos_empty_row self pre post widths st Hlay Hall Hrhlen)
          by congruence.
        reflexivity. }
    assert (Hfull : [] ∉ PanelGroup._layout self ->
              exists st', PanelGroup.__init__ layout panels y row_heights row st =
                            (OK self, st')).
    { intros Hnot.
      assert (Hrows : Forall (fun sizes => sizes <> [] /\
                                sum (value <$> sizes) <= weight_bound)
                        (PanelGroup._layout self)).
      { apply Forall_forall. intros sizes Hs. split.
        - intros ->. now apply Hnot.
        - exact (proj1 (Forall_forall _ _) Hbound sizes Hs). }
      destruct (rows_allocated _ Hrows) as [widths Hall].
      eexists. now apply (init_returns _ _ _ _ _ _ widths). }
    split; [|split; assumption].
    split.
    + intros (e & st' & Hraise).
      destruct (first_empty_row (PanelGroup._layout self)) as [Hall|(pre & post & Hlay & _)].
      * destruct Hfull as [st'' Hok].
        { intros Hin. exact (proj1 (Forall_forall _ _) Hall [] Hin eq_refl). }
        rewrite Hok in Hraise. discriminate.
      * rewrite Hlay. apply elem_of_app. right. apply list_elem_of_here.
    + intros Hin. destruct (Hempty Hin) as (pre & post & widths & _ & _ & _ & H).
      eexists _, _. exact H.
Qed.

Lemma validation_failures_witness :
  PanelGroup.attributes (Some (PanelGroup.Rows [[SMALL; SMALL]; []])) [1; 2]%positive 0
    (PanelGroup.Height 8) None =
    OK (PanelGroup.mk [[SMALL; SMALL]; []] [8; 8] None 0 18 [1; 2]%positive) /\
  Forall (fun sizes => sum (value <$> sizes) <= weight_bound) [[SMALL; SMALL]; []] /\
  [] ∈ [[SMALL; SMALL]; @nil PanelSize] /\
  exists e st',
    PanelGroup.__init__ (Some (PanelGroup.Rows [[SMALL; SMALL]; []])) [1; 2]%positive
      None None None ∅ = (Raise e, st').
Proof.
  assert (H1 : PanelGroup.attributes (Some (PanelGroup.Rows [[SMALL; SMALL]; []]))
                 [1; 2]%positive (default 0 None) (default (PanelGroup.Height 8) None) None =
               OK (PanelGroup.mk [[SMALL; SMALL]; []] [8; 8] None 0 18 [1; 2]%positive))
    by reflexivity.
  assert (H2 : Forall (fun sizes => sum (value <$> sizes) <= weight_bound)
                 [[SMALL; SMALL]; []])
    by (repeat constructor; vm_compute; discriminate).
  assert (H3 : [] ∈ [[SMALL; SMALL]; @nil PanelSize])
    by (apply list_elem_of_further, list_elem_of_here).
  split; [exact H1|]. split; [exact H2|]. split; [exact H3|].
  exact (proj2 (proj1 (proj1 (proj2 (proj2 (validation_failures
           (Some (PanelGroup.Rows [[SMALL; SMALL]; []])) [1; 2]%positive None None None ∅)))
           _ H1 H2)) H3).
Defined.

(** A layout of one empty row for no panels is none of the cases the checks
    refuse, and the constructor raises all the same. *)
Lemma an_empty_row_passes_the_checks :
  ~ refused (Some (PanelGroup.Rows [[]])) (length (@nil positive)) None /\
  PanelGroup.attributes (Some (PanelGroup.Rows [[]])) [] 0 (PanelGroup.Height 8) None =
    OK (PanelGroup.mk [[]] [8] None 0 9 []) /\
  PanelGroup.__init__ (Some (PanelGroup.Rows [[]])) [] None None None ∅ =
    (Raise IndexError, ∅).
Proof.
  split; [|split; [reflexivity|vm_compute; reflexivity]].
  intros [H|[H|[H|[(rows & H & _ & Hc)|[(sizes & H & _)|(lay & rows & l & _ & _ & H & _)]]]]];
    try discriminate.
  injection H as <-. now apply Hc.
Qed.

(** ** Moving a group *)

Lemma add_gridPos_y_spec (o : positive) (delta : Z) (st : gmap positive GridPos.t) :
  is_Some (st !! o) ->
  add_gridPos_y o delta st = (OK tt, alter (move_down delta) o st).
Proof.
  intros [gp Hgp]. unfold add_gridPos_y. rewrite Hgp. f_equal.
  apply map_eq. intros j. destruct (decide (o = j)) as [->|Hne].
  - now rewrite lookup_insert_eq, lookup_alter_eq, Hgp.
  - now rewrite lookup_insert_ne, lookup_alter_ne.
Qed.

Lemma is_Some_alter (o o' : positive) (delta : Z) (st : gmap positive GridPos.t) :
  is_Some (alter (move_down delta) o st !! o') <-> is_Some (st !! o').
Proof.
  destruct (decide (o = o')) as [->|Hne].
  - rewrite lookup_alter_eq. apply fmap_is_Some.
  - now rewrite lookup_alter_ne.
Qed.

Lemma shift_all_cons (o : positive) (os : list positive) (delta : Z)
    (st : gmap positive GridPos.t) :
  shift_all (o :: os) delta st = shift_all os delta (alter (move_down delta) o st).
Proof. reflexivity. Qed.

Lemma is_Some_shift_all (os : list positive) (o' : positive) (delta : Z)
    (st : gmap positive GridPos.t) :
  is_Some (shift_all os delta st !! o') <-> is_Some (st !! o').
Proof.
  revert st. induction os as [|o os IH]; intros st; [reflexivity|].
  rewrite shift_all_cons, IH. apply is_Some_alter.
Qed.

Lemma shift_loop (os : list positive) (delta : Z) (st : gmap positive GridPos.t) :
  Forall (fun o => is_Some (st !! o)) os ->
  for_eachM (fun _ panel => add_gridPos_y panel delta) os tt st =
    (OK tt, shift_all os delta st).
Proof.
  revert st. induction os as [|o os IH]; intros st Hdom; [reflexivity|].
  apply Forall_cons in Hdom as [Ho Hos].
  cbn [for_eachM]. unfold bind. rewrite (add_gridPos_y_spec o delta st Ho).
  rewrite shift_all_cons, IH; [reflexivity|].
  eapply Forall_impl; [exact Hos|]. intros o' Ho'. now apply is_Some_alter.
Qed.

Lemma set_y_spec (self : PanelGroup.t) (y : Z) (st : gmap positive GridPos.t) :
  0 <= y ->
  Forall (fun o => is_Some (st !! o)) (objects self) ->
  PanelGroup.set_y self y st =
    (OK (PanelGroup.with_y self y),
     shift_all (objects self) (y - PanelGroup._y self) st).
Proof.
  intros Hy Hdom. unfold PanelGroup.set_y, objects in *.
  unfold bind at 1. unfold lift, assert.
  destruct (Z.leb_spec 0 y); [|lia].
  destruct (PanelGroup.row self) as [r|].
  - cbn [app] in Hdom. apply Forall_cons in Hdom as [Hr Hps].
    unfold bind at 1. rewrite (add_gridPos_y_spec r _ st Hr).
    change ([r] ++ PanelGroup.panels self) with (r :: PanelGroup.panels self).
    unfold bind. rewrite shift_all_cons, shift_loop; [reflexivity|].
    eapply Forall_impl; [exact Hps|]. intros o' Ho'. now apply is_Some_alter.
  - cbn [app] in Hdom. unfold bind, ret. rewrite shift_loop by exact Hdom. reflexivity.
Qed.

Lemma set_y_negative (self : PanelGroup.t) (y : Z) (st : gmap positive GridPos.t) :
  y < 0 ->
  PanelGroup.set_y self y st =
    (Raise (AssertionError "y-axis position must be at least 0"), st).
Proof.
  intros Hy. unfold PanelGroup.set_y, bind, lift, assert.
  destruct (Z.leb_spec 0 y); [lia|reflexivity].
Qed.

Lemma shift_all_notin (os : list positive) (o : positive) (delta : Z)
    (st : gmap positive GridPos.t) :
  o ∉ os -> shift_all os delta st !! o = st !! o.
Proof.
  revert st. induction os as [|o' os IH]; intros st Hnot; [reflexivity|].
  apply not_elem_of_cons in Hnot as [Hne Hnot].
  rewrite shift_all_cons, IH by exact Hnot. now apply lookup_alter_ne.
Qed.

Lemma shift_all_in (os : list positive) (o : positive) (delta : Z)
    (st : gmap positive GridPos.t) :
  NoDup os -> o ∈ os -> shift_all os delta st !! o = move_down delta <$> st !! o.
Proof.
  revert st. induction os as [|o' os IH]; intros st Hnd Hin; [inversion Hin|].
  apply NoDup_cons in Hnd as [Hfresh Hnd]. rewrite shift_all_cons.
  apply elem_of_cons in Hin as [->|Hin].
  - rewrite shift_all_notin by exact Hfresh. apply lookup_alter_eq.
  - rewrite IH by assumption. rewrite lookup_alter_ne; [reflexivity|].
    intros ->. contradiction.
Qed.

(** C8, as the code has it.  [set_y] fails for a negative origin and
    changes nothing.  Otherwise, on a group whose row header and panels are
    positioned and are pairwise distinct objects, it moves every one of
    them down by the new origin minus the old one, changes no x, width or
    height and no other object, and stores the new origin. *)
Theorem set_y_translates (self : PanelGroup.t) (y : Z) (st : gmap positive GridPos.t) :
  0 <= y ->
  Forall (fun o => is_Some (st !! o)) (objects self) ->
  NoDup (objects self) ->
  (exists st',
     PanelGroup.set_y self y st = (OK (PanelGroup.with_y self y), st') /\
     PanelGroup._y (PanelGroup.with_y self y) = y /\
     (forall o gp, o ∈ objects self -> st !! o = Some gp ->
        st' !! o = Some (GridPos.mk (GridPos.x gp)
                           (GridPos.y gp + (y - PanelGroup._y self))
                           (GridPos.w gp) (GridPos.h gp))) /\
     (forall o1 o2 gp1 gp2 gp1' gp2',
        o1 ∈ objects self -> o2 ∈ objects self ->
        st !! o1 = Some gp1 -> st !! o2 = Some gp2 ->
        st' !! o1 = Some gp1' -> st' !! o2 = Some gp2' ->
        GridPos.y gp1' - GridPos.y gp2' = GridPos.y gp1 - GridPos.y gp2) /\
     (forall o, o ∉ objects self -> st' !! o = st !! o)) /\
  (forall y', y' < 0 ->
     PanelGroup.set_y self y' st =
       (Raise (AssertionError "y-axis position must be at least 0"), st)).
Proof.
  intros Hy Hdom Hnd. split; [|intros y' Hy'; now apply set_y_negative].
  exists (shift_all (objects self) (y - PanelGroup._y self) st).
  split; [now apply set_y_spec|]. split; [reflexivity|].
  assert (Hmove : forall o gp, o ∈ objects self -> st !! o = Some gp ->
            shift_all (objects self) (y - PanelGroup._y self) st !! o =
            Some (move_down (y - PanelGroup._y self) gp)).
  { intros o gp Ho Hgp. rewrite shift_all_in by assumption. now rewrite Hgp. }
  split; [exact Hmove|]. split.
  - intros o1 o2 gp1 gp2 gp1' gp2' Ho1 Ho2 H1 H2 H1' H2'.
    rewrite (Hmove o1 gp1 Ho1 H1) in H1'. rewrite (Hmove o2 gp2 Ho2 H2) in H2'.
    injection H1' as <-. injection H2' as <-. cbn. lia.
  - intros o Ho. now apply shift_all_notin.
Qed.

(** ** The origin of a group *)

Lemma attributes_with_y (layout : option PanelGroup.layout_arg) (panels : list positive)
    (y0 y : Z) (row_heights : PanelGroup.row_heights_arg) (row : option positive)
    (self : PanelGroup.t) :
  PanelGroup.attributes layout panels y0 row_heights row = OK self ->
  PanelGroup.attributes layout panels y row_heights row = OK (PanelGroup.with_y self y).
Proof.
  unfold PanelGroup.attributes. destruct layout as [lay|]; [|discriminate].
  destruct (PanelGroup.normalise lay (length panels)) as [rows|]; [|discriminate].
  cbn [res_bind].
  destruct (assert _ _) as [[]|]; [|discriminate]. cbn [res_bind].
  destruct row_heights as [l|hgt].
  - destruct (assert _ _) as [[]|]; [|discriminate]. cbn [res_bind].
    now intros [= <-].
  - cbn [res_bind]. now intros [= <-].
Qed.

Lemma fmap_concat {A B} (f : A -> B) (ls : list (list A)) :
  f <$> concat ls = concat ((fun l : list A => f <$> l) <$> ls).
Proof.
  induction ls as [|l ls IH]; [reflexivity|]. cbn. now rewrite fmap_app, IH.
Qed.

Lemma zip_fmap_r {A B C} (f : B -> C) (l : list A) (k : list B) :
  zip l (f <$> k) = (fun w => (w.1, f w.2)) <$> zip l k.
Proof.
  revert k. induction l as [|a l IH]; intros [|b k]; try reflexivity.
  cbn. now rewrite IH.
Qed.

Lemma positions_with_y (self : PanelGroup.t) (y : Z) (widths : list (list Z)) :
  PanelGroup._y self = 0 ->
  positions (PanelGroup.with_y self y) widths = move_down y <$> positions self widths.
Proof.
  intros H0. unfold positions. rewrite fmap_concat, fmap_imap. f_equal.
  apply imap_ext. intros r ws _. unfold compose, row_rects. rewrite fmap_imap.
  apply imap_ext. intros c width _. unfold compose, rect_in_row, move_down.
  cbn. f_equal. unfold row_y, first_row_y. cbn. rewrite H0. lia.
Qed.

Lemma writes_with_y (self : PanelGroup.t) (y : Z) (widths : list (list Z)) :
  PanelGroup._y self = 0 ->
  writes (PanelGroup.with_y self y) widths =
    (fun w => (w.1, move_down y w.2)) <$> writes self widths.
Proof.
  intros H0. unfold writes. rewrite fmap_app, positions_with_y by exact H0.
  rewrite zip_fmap_r. f_equal.
  unfold header_writes. cbn. rewrite H0. destruct (PanelGroup.row self); reflexivity.
Qed.

(** C6, as the code has it.  An omitted origin is 0: the group is built as
    with origin 0.  An origin that is given, here one that is not negative,
    is the origin of the group: where the group is built with origin 0 it
    is built with origin [y], and every rectangle written is the one of
    origin 0 moved down by [y]. *)
Theorem origin_of_a_group (layout : option PanelGroup.layout_arg) (panels : list positive)
    (row_heights : option PanelGroup.row_heights_arg) (row : option positive)
    (self : PanelGroup.t) (y : Z) (st st0 : gmap positive GridPos.t) :
  PanelGroup.__init__ layout panels (Some 0) row_heights row st = (OK self, st0) ->
  0 <= y ->
  PanelGroup.__init__ layout panels None row_heights row st = (OK self, st0) /\
  exists widths,
    st0 = write_all (writes self widths) st /\
    PanelGroup.__init__ layout panels (Some y) row_heights row st =
      (OK (PanelGroup.with_y self y),
       write_all ((fun w => (w.1, move_down y w.2)) <$> writes self widths) st).
Proof.
  intros Hinit Hy. split; [exact Hinit|].
  destruct (init_inv _ _ _ _ _ _ _ _ Hinit) as (Hattr & widths & Hall & Hst).
  exists widths. split; [exact Hst|].
  destruct (attributes_inv _ _ _ _ _ _ Hattr) as (_ & _ & _ & _ & _ & _ & _ & H0 & _).
  pose proof (attributes_with_y _ _ _ y _ _ _ Hattr) as Hattr'.
  rewrite (init_returns layout panels (Some y) row_heights row
             (PanelGroup.with_y self y) widths st Hattr' Hall).
  now rewrite writes_with_y.
Qed.

(** ** The theorems at concrete groups *)

Lemma example_group_attributes :
  PanelGroup.attributes (Some (PanelGroup.Rows example_rows)) [1; 2; 3; 4]%positive 0
    (PanelGroup.Height 8) None = OK example_group.
Proof. vm_compute. reflexivity. Qed.

Lemma example_group_rows :
  Forall (fun sizes => sizes <> [] /\ sum (value <$> sizes) <= weight_bound)
    (PanelGroup._layout example_group).
Proof. repeat constructor; try discriminate. Qed.

Lemma example_group_built :
  PanelGroup.__init__ (Some (PanelGroup.Rows example_rows)) [1; 2; 3; 4]%positive
    (Some 0) None None ∅ =
  (OK example_group,
   <[4%positive := GridPos.mk 12 9 12 8]>
   (<[3%positive := GridPos.mk 0 9 12 8]>
   (<[2%positive := GridPos.mk 15 0 9 8]>
   (<[1%positive := GridPos.mk 0 0 15 8]> ∅)))).
Proof. vm_compute. reflexivity. Qed.

Lemma group_positions_witness :
  PanelGroup.attributes (Some (PanelGroup.Rows example_rows)) [1; 2; 3; 4]%positive 0
    (PanelGroup.Height 8) None = OK example_group /\
  Forall (fun sizes => sizes <> [] /\ sum (value <$> sizes) <= weight_bound)
    (PanelGroup._layout example_group) /\
  exists st',
    PanelGroup.__init__ (Some (PanelGroup.Rows example_rows)) [1; 2; 3; 4]%positive
      None None None ∅ = (OK example_group, st').
Proof.
  split; [exact example_group_attributes|]. split; [exact example_group_rows|].
  exact (proj1 (group_positions (Some (PanelGroup.Rows example_rows))
                  [1; 2; 3; 4]%positive None None None example_group ∅
                  example_group_attributes) example_group_rows).
Defined.

Lemma origin_of_a_group_witness :
  0 <= 7 /\
  exists st0 widths,
    PanelGroup.__init__ (Some (PanelGroup.Rows example_rows)) [1; 2; 3; 4]%positive
      None None None ∅ = (OK example_group, st0) /\
    PanelGroup.__init__ (Some (PanelGroup.Rows example_rows)) [1; 2; 3; 4]%positive
      (Some 7) None None ∅ =
      (OK (PanelGroup.with_y example_group 7),
       write_all ((fun w => (w.1, move_down 7 w.2)) <$> writes example_group widths) ∅).
Proof.
  assert (H2 : 0 <= 7) by lia.
  split; [exact H2|].
  destruct (origin_of_a_group _ _ _ _ _ 7 _ _ example_group_built H2)
    as (Hnone & widths & _ & Hy).
  eexists. exists widths. split; [exact Hnone|exact Hy].
Defined.

(** C6, as the claim has it, fails: a negative origin is not replaced by 0.
    One panel in one row, origin -3: the panel is at y = -3, and at y = 0
    when the origin is 0. *)
Lemma negative_origin_is_kept :
  -3 < 0 /\
  (PanelGroup.__init__ (Some (PanelGroup.Rows [[SMALL]])) [1%positive]
     (Some (-3)) None None ∅).2 !! 1%positive = Some (GridPos.mk 0 (-3) 24 8) /\
  (PanelGroup.__init__ (Some (PanelGroup.Rows [[SMALL]])) [1%positive]
     (Some 0) None None ∅).2 !! 1%positive = Some (GridPos.mk 0 0 24 8).
Proof. repeat split; vm_compute; reflexivity. Qed.

Lemma set_y_translates_witness :
  0 <= 5 /\
  Forall (fun o => is_Some (two_cells_store !! o)) (objects two_cells) /\
  NoDup (objects two_cells) /\
  exists st',
    PanelGroup.set_y two_cells 5 two_cells_store = (OK (PanelGroup.with_y two_cells 5), st') /\
    (forall o gp, o ∈ objects two_cells -> two_cells_store !! o = Some gp ->
       st' !! o = Some (GridPos.mk (GridPos.x gp) (GridPos.y gp + (5 - 0))
                          (GridPos.w gp) (GridPos.h gp))).
Proof.
  assert (H1 : 0 <= 5) by lia.
  assert (H2 : Forall (fun o => is_Some (two_cells_store !! o)) (objects two_cells)).
  { repeat constructor; eexists; vm_compute; reflexivity. }
  assert (H3 : NoDup (objects two_cells)).
  { cbn. apply NoDup_cons. split; [|apply NoDup_singleton].
    intros Hin. apply list_elem_of_singleton in Hin. discriminate. }
  repeat (split; [assumption|]).
  destruct (set_y_translates two_cells 5 two_cells_store H1 H2 H3)
    as [(st' & Hset & _ & Hmove & _) _].
  exists st'. split; [exact Hset|exact Hmove].
Defined.

(** C8, as the claim has it, fails where one panel object is listed twice:
    it is moved once for each time it is listed.  Two cells filled with the
    same panel, built at origin 0 and moved to origin 5: the panel goes
    from y = 0 to y = 10. *)
Lemma set_y_moves_a_repeated_panel_twice :
  let built := PanelGroup.__init__ (Some (PanelGroup.Sizes [SMALL; SMALL]))
                 [1; 1]%positive None None None ∅ in
  let self := PanelGroup.mk [[SMALL; SMALL]] [8] None 0 9 [1; 1]%positive in
  built.1 = OK self /\
  built.2 !! 1%positive = Some (GridPos.mk 12 0 12 8) /\
  (PanelGroup.set_y self 5 built.2).1 = OK (PanelGroup.with_y self 5) /\
  (PanelGroup.set_y self 5 built.2).2 !! 1%positive = Some (GridPos.mk 12 10 12 8) /\
  0 + (5 - PanelGroup._y self) <> 10.
Proof. cbv zeta. repeat split; try (vm_compute; reflexivity). cbn. lia. Qed.

(** ** The composition *)

Lemma place_at_Node (gs : list tree) (y0 y : Z) :
  place_at (Node gs y0) y = Node (stack_at gs y) y.
Proof. reflexivity. Qed.

Lemma moves_at_Node (gs : list tree) (y0 y : Z) :
  moves_at (Node gs y0) y = direct_moves gs y ++ nested_moves gs y.
Proof. reflexivity. Qed.

Lemma flatten_Node (gs : list tree) (y : Z) :
  flatten (Node gs y) = concat (map emitted gs).
Proof. reflexivity. Qed.

Section tree_induction.

Variable P : tree -> Prop.
Hypothesis P_Leaf : forall g, P (Leaf g).
Hypothesis P_Node : forall gs y, Forall P gs -> P (Node gs y).

(** Induction on a tree, with the property for all members of a nested
    [PanelPositioning]. *)
Lemma tree_nested_ind (m : tree) : P m.
Proof.
  revert m. fix IH 1. intros [g|gs y]; [apply P_Leaf|].
  apply P_Node. induction gs as [|c gs IHgs]; constructor; [apply IH|exact IHgs].
Qed.

End tree_induction.

Lemma apply_moves_app (mv1 mv2 : list (list positive * Z)) (st : gmap positive GridPos.t) :
  apply_moves (mv1 ++ mv2) st = apply_moves mv2 (apply_moves mv1 st).
Proof. apply foldl_app. Qed.

Lemma is_Some_apply_moves (mv : list (list positive * Z)) (o : positive)
    (st : gmap positive GridPos.t) :
  is_Some (apply_moves mv st !! o) <-> is_Some (st !! o).
Proof.
  revert st. induction mv as [|[os d] mv IH]; intros st; [reflexivity|].
  change (apply_moves ((os, d) :: mv) st) with (apply_moves mv (shift_all os d st)).
  rewrite IH. apply is_Some_shift_all.
Qed.

Lemma ready_apply_moves (mv : list (list positive * Z)) (st : gmap positive GridPos.t)
    (m : tree) :
  ready (apply_moves mv st) m <-> ready st m.
Proof.
  unfold ready. apply Forall_proper; [|reflexivity]. intros g.
  apply and_iff_compat_l, Forall_proper; [|reflexivity]. intros o.
  apply is_Some_apply_moves.
Qed.

Lemma ready_cons (st : gmap positive GridPos.t) (c : tree) (gs : list tree) (y y' : Z) :
  ready st (Node (c :: gs) y) <-> ready st c /\ ready st (Node gs y').
Proof. unfold ready. cbn. apply Forall_app. Qed.

Lemma ready_Node (st : gmap positive GridPos.t) (gs : list tree) (y y' : Z) :
  ready st (Node gs y) -> ready st (Node gs y').
Proof. exact id. Qed.

Lemma ready_app (st : gmap positive GridPos.t) (l1 l2 : list tree) (y : Z) :
  ready st (Node (l1 ++ l2) y) <->
  ready st (Node l1 y) /\ ready st (Node l2 y).
Proof. unfold ready. cbn. rewrite map_app, concat_app. apply Forall_app. Qed.

Lemma tree_height_nonneg (st : gmap positive GridPos.t) (m : tree) :
  ready st m -> 0 <= tree_height m.
Proof.
  induction m as [g|gs y IH] using tree_nested_ind; intros Hr.
  - unfold ready in Hr. cbn in Hr. apply Forall_singleton in Hr as [Hh _]. exact Hh.
  - cbn [tree_height]. induction IH as [|c gs Hc _ IHgs]; [reflexivity|].
    apply (ready_cons st c gs y y) in Hr as [Hrc Hrgs].
    cbn [map]. rewrite sum_cons. specialize (Hc Hrc). specialize (IHgs Hrgs). lia.
Qed.

Lemma tree_height_with_origin (c : tree) (y : Z) :
  tree_height (with_origin c y) = tree_height c.
Proof. destruct c; reflexivity. Qed.

Lemma ready_with_origin (st : gmap positive GridPos.t) (c : tree) (y : Z) :
  ready st (with_origin c y) <-> ready st c.
Proof.
  destruct c; [|reflexivity]. unfold ready. cbn.
  rewrite !Forall_singleton. reflexivity.
Qed.

Lemma header_with_origin (c : tree) (y : Z) : header (with_origin c y) = header c.
Proof. destruct c; reflexivity. Qed.

Lemma depth_members (gs : list tree) (y : Z) (fuel : nat) :
  (depth (Node gs y) <= S fuel)%nat <-> Forall (fun c => (depth c <= fuel)%nat) gs.
Proof.
  cbn [depth]. induction gs as [|c gs IH]; cbn [map foldr].
  - split; [constructor|lia].
  - rewrite Forall_cons, <- IH. lia.
Qed.

Lemma sum_map_app {A} (f : A -> Z) (l1 l2 : list A) :
  sum (map f (l1 ++ l2)) = sum (map f l1) + sum (map f l2).
Proof. now rewrite map_app, sum_app. Qed.

Lemma stack_at_length (gs : list tree) (cur : Z) : length (stack_at gs cur) = length gs.
Proof.
  revert cur. induction gs as [|c gs IH]; intros cur; [reflexivity|].
  cbn. now rewrite IH.
Qed.

Lemma stack_at_lookup (gs : list tree) (cur : Z) (i : nat) (c : tree) :
  gs !! i = Some c ->
  stack_at gs cur !! i = Some (place_at c (cur + sum (map tree_height (take i gs)))).
Proof.
  revert cur i. induction gs as [|c0 gs IH]; intros cur [|i] Hi; try discriminate.
  - injection Hi as ->. cbn. now rewrite Z.add_0_r.
  - cbn [stack_at take map]. rewrite sum_cons, Z.add_assoc. now apply IH.
Qed.

Lemma stack_at_app (l1 l2 : list tree) (cur : Z) :
  stack_at (l1 ++ l2) cur =
    stack_at l1 cur ++ stack_at l2 (cur + sum (map tree_height l1)).
Proof.
  revert cur. induction l1 as [|c l1 IH]; intros cur.
  - cbn. now rewrite Z.add_0_r.
  - cbn [app stack_at map]. rewrite sum_cons, IH, Z.add_assoc. reflexivity.
Qed.

Lemma direct_moves_app (l1 l2 : list tree) (cur : Z) :
  direct_moves (l1 ++ l2) cur =
    direct_moves l1 cur ++ direct_moves l2 (cur + sum (map tree_height l1)).
Proof.
  revert cur. induction l1 as [|c l1 IH]; intros cur.
  - cbn. now rewrite Z.add_0_r.
  - cbn [app direct_moves map]. rewrite sum_cons, IH, Z.add_assoc, <- app_assoc.
    reflexivity.
Qed.

Lemma nested_moves_app (l1 l2 : list tree) (cur : Z) :
  nested_moves (l1 ++ l2) cur =
    nested_moves l1 cur ++ nested_moves l2 (cur + sum (map tree_height l1)).
Proof.
  revert cur. induction l1 as [|c l1 IH]; intros cur.
  - cbn. now rewrite Z.add_0_r.
  - cbn [app nested_moves map]. rewrite sum_cons, IH, Z.add_assoc, <- app_assoc.
    reflexivity.
Qed.

Lemma origin_place_at (c : tree) (cur : Z) : origin (place_at c cur) = cur.
Proof. destruct c; reflexivity. Qed.

Lemma tree_height_place_at (c : tree) (cur : Z) :
  tree_height (place_at c cur) = tree_height c.
Proof.
  revert cur. induction c as [g|gs y IH] using tree_nested_ind; intros cur;
    [reflexivity|].
  rewrite place_at_Node. cbn [tree_height]. f_equal.
  generalize cur at 1. clear cur.
  induction IH as [|c gs Hc _ IHgs]; intros cur; [reflexivity|].
  cbn [stack_at map]. now rewrite Hc, IHgs.
Qed.

Lemma length_concat_emitted (gs : list tree) :
  length (concat (map emitted gs)) =
    sum_list (map (fun c => (length (header c) + length (flatten c))%nat) gs).
Proof.
  induction gs as [|c gs IH]; [reflexivity|].
  cbn [map concat sum_list sum_list_with]. rewrite length_app, IH.
  unfold emitted. now rewrite length_app.
Qed.

(** ** The moves commute *)

Lemma move_down_comm (d1 d2 : Z) (gp : GridPos.t) :
  move_down d1 (move_down d2 gp) = move_down d2 (move_down d1 gp).
Proof. unfold move_down. cbn. f_equal. lia. Qed.

Lemma alter_move_down_comm (o1 o2 : positive) (d1 d2 : Z) (st : gmap positive GridPos.t) :
  alter (move_down d1) o1 (alter (move_down d2) o2 st) =
  alter (move_down d2) o2 (alter (move_down d1) o1 st).
Proof.
  apply map_eq. intros j. rewrite !lookup_alter.
  repeat case_decide; subst; try reflexivity; try congruence.
  destruct (st !! j) as [gp|]; [|reflexivity]. cbn. f_equal. apply move_down_comm.
Qed.

Lemma shift_all_alter_comm (os : list positive) (o : positive) (d1 d2 : Z)
    (st : gmap positive GridPos.t) :
  shift_all os d1 (alter (move_down d2) o st) =
  alter (move_down d2) o (shift_all os d1 st).
Proof.
  revert st. induction os as [|o' os IH]; intros st; [reflexivity|].
  rewrite !shift_all_cons, <- IH, alter_move_down_comm. reflexivity.
Qed.

Lemma shift_all_comm (os1 os2 : list positive) (d1 d2 : Z) (st : gmap positive GridPos.t) :
  shift_all os1 d1 (shift_all os2 d2 st) = shift_all os2 d2 (shift_all os1 d1 st).
Proof.
  revert st. induction os2 as [|o os2 IH]; intros st; [reflexivity|].
  rewrite !shift_all_cons, IH, shift_all_alter_comm. reflexivity.
Qed.

(** The moves commute: their order does not matter. *)
Lemma apply_moves_perm (mv1 mv2 : list (list positive * Z)) (st : gmap positive GridPos.t) :
  mv1 ≡ₚ mv2 -> apply_moves mv1 st = apply_moves mv2 st.
Proof.
  intros Hp. revert st.
  induction Hp as [|m l1 l2 _ IH|m1 m2 l|l1 l2 l3 _ IH1 _ IH2]; intros st.
  - reflexivity.
  - apply IH.
  - cbn. now rewrite shift_all_comm.
  - now rewrite IH1.
Qed.

Lemma ready_nested (st : gmap positive GridPos.t) (inner : list tree) (y1 y : Z) :
  ready st (Node [Node inner y1] y) <-> ready st (Node inner y).
Proof. unfold ready. cbn. now rewrite app_nil_r. Qed.

Lemma depth_inlined (pre inner post : list tree) (y1 y : Z) (fuel : nat) :
  (depth (Node (pre ++ [Node inner y1] ++ post) y) <= fuel)%nat ->
  (depth (Node (pre ++ inner ++ post) y) <= fuel)%nat.
Proof.
  destruct fuel as [|fuel]; [cbn; lia|].
  rewrite !depth_members, !Forall_app, Forall_singleton.
  intros (Hpre & Hin & Hpost). repeat split; try assumption.
  destruct fuel as [|fuel]; [cbn in Hin; lia|].
  apply depth_members in Hin. eapply Forall_impl; [exact Hin|]. cbn. lia.
Qed.

(** ** Trees in the heap *)

Lemma holds_Node (h : Heap.t) (t l : positive) (ns : list names) (cs : list tree) (y : Z) :
  holds h (PositioningAt t l ns) (Node cs y) <->
  Heap.positionings h !! t = Some (l, y) /\
  Heap.lists h !! l = Some (map root ns) /\
  holds_all h ns cs.
Proof. reflexivity. Qed.

Section names_induction.

Variable P : names -> Prop.
Hypothesis P_GroupAt : forall g, P (GroupAt g).
Hypothesis P_PositioningAt : forall t l ns, Forall P ns -> P (PositioningAt t l ns).

(** Induction on the names of a tree, with the property for the names of
    all members. *)
Lemma names_nested_ind (n : names) : P n.
Proof.
  revert n. fix IH 1. intros [g|t l ns]; [apply P_GroupAt|].
  apply P_PositioningAt. induction ns as [|n ns IHns]; constructor; [apply IH|exact IHns].
Qed.

End names_induction.

Lemma holds_all_length (h : Heap.t) (ns : list names) (cs : list tree) :
  holds_all h ns cs -> length ns = length cs.
Proof.
  revert cs. induction ns as [|n ns IH]; intros [|c cs] H; try contradiction; [reflexivity|].
  destruct H as [_ H]. cbn. f_equal. now apply IH.
Qed.

Lemma holds_all_lookup (h : Heap.t) (ns : list names) (cs : list tree) (i : nat)
    (n : names) (c : tree) :
  holds_all h ns cs -> ns !! i = Some n -> cs !! i = Some c -> holds h n c.
Proof.
  revert cs i. induction ns as [|n0 ns IH]; intros [|c0 cs] i H Hn Hc;
    try contradiction; try discriminate.
  destruct H as [H0 H]. destruct i as [|i].
  - injection Hn as <-. injection Hc as <-. exact H0.
  - exact (IH cs i H Hn Hc).
Qed.

Lemma holds_all_app (h : Heap.t) (ns1 ns2 : list names) (cs1 cs2 : list tree) :
  length ns1 = length cs1 ->
  holds_all h (ns1 ++ ns2) (cs1 ++ cs2) <-> holds_all h ns1 cs1 /\ holds_all h ns2 cs2.
Proof.
  revert cs1. induction ns1 as [|n ns1 IH]; intros [|c cs1] Hlen; try discriminate.
  - cbn. tauto.
  - cbn [app holds_all]. rewrite IH by (cbn in Hlen; lia). tauto.
Qed.

Lemma root_in_ids (n : names) : root n ∈ ids n.
Proof. destruct n; apply list_elem_of_here. Qed.

Lemma ids_members (ns : list names) (n : names) (m : member) :
  n ∈ ns -> m ∈ ids n -> m ∈ concat (map ids ns).
Proof.
  induction ns as [|n0 ns IH]; intros Hn Hm; [inversion Hn|].
  cbn [map concat]. apply elem_of_app. apply elem_of_cons in Hn as [->|Hn]; [now left|].
  right. now apply IH.
Qed.

Lemma roots_in_ids (ns : list names) (m : member) :
  m ∈ map root ns -> m ∈ concat (map ids ns).
Proof.
  induction ns as [|n ns IH]; intros Hm; [inversion Hm|].
  cbn [map concat] in *. apply elem_of_app. apply elem_of_cons in Hm as [->|Hm].
  - left. apply root_in_ids.
  - right. now apply IH.
Qed.

Lemma kept_refl (ms : list member) (h : Heap.t) : kept ms h h.
Proof. repeat split. Qed.

Lemma kept_trans (ms1 ms2 : list member) (h1 h2 h3 : Heap.t) :
  kept ms1 h1 h2 -> kept ms2 h2 h3 -> kept (ms1 ++ ms2) h1 h3.
Proof.
  intros (Hl1 & Hg1 & Hp1) (Hl2 & Hg2 & Hp2). split; [congruence|]. split.
  - intros g Hg. apply not_elem_of_app in Hg as [Ha Hb]. now rewrite Hg2, Hg1.
  - intros t Ht. apply not_elem_of_app in Ht as [Ha Hb]. now rewrite Hp2, Hp1.
Qed.

Lemma kept_mono (ms ms' : list member) (h h' : Heap.t) :
  (forall m, m ∈ ms -> m ∈ ms') -> kept ms h h' -> kept ms' h h'.
Proof.
  intros Hsub (Hl & Hg & Hp). split; [exact Hl|]. split.
  - intros g Hg'. apply Hg. intros Hin. now apply Hg', Hsub.
  - intros t Ht'. apply Hp. intros Hin. now apply Ht', Hsub.
Qed.

(** A tree stays in the heap while none of its objects is changed. *)
Lemma holds_kept (ms : list member) (h h' : Heap.t) (n : names) (tr : tree) :
  kept ms h h' -> (forall m, m ∈ ids n -> m ∉ ms) -> holds h n tr -> holds h' n tr.
Proof.
  intros (Hl & Hg & Hp). revert tr.
  induction n as [g|t l ns IH] using names_nested_ind; intros [self|cs y] Hdis Hh;
    try contradiction.
  - cbn in *. rewrite Hg; [exact Hh|]. apply Hdis, list_elem_of_here.
  - apply holds_Node in Hh as (Ht & Hlist & Hall). apply holds_Node.
    split; [|split].
    + rewrite Hp; [exact Ht|]. apply Hdis, list_elem_of_here.
    + now rewrite Hl.
    + assert (Hdis' : forall m, m ∈ concat (map ids ns) -> m ∉ ms)
        by (intros m Hm; apply Hdis; cbn [ids]; now apply list_elem_of_further).
      clear Hdis Ht Hlist. revert cs Hall.
      induction IH as [|n ns Hn _ IHns]; intros [|c cs] Hall; try contradiction;
        [exact I|].
      destruct Hall as [Hc Hall]. cbn [map concat] in Hdis'. split.
      * apply Hn; [|exact Hc]. intros m Hm. apply Hdis', elem_of_app. now left.
      * apply IHns; [|exact Hall]. intros m Hm. apply Hdis', elem_of_app. now right.
Qed.

Lemma holds_all_kept (ms : list member) (h h' : Heap.t) (ns : list names) (cs : list tree) :
  kept ms h h' -> (forall m, m ∈ concat (map ids ns) -> m ∉ ms) ->
  holds_all h ns cs -> holds_all h' ns cs.
Proof.
  intros Hk. revert cs. induction ns as [|n ns IH]; intros [|c cs] Hdis Hall;
    try contradiction; [exact I|].
  destruct Hall as [Hc Hall]. cbn [map concat] in Hdis. split.
  - apply (holds_kept ms h h'); [exact Hk| |exact Hc].
    intros m Hm. apply Hdis, elem_of_app. now left.
  - apply IH; [|exact Hall]. intros m Hm. apply Hdis, elem_of_app. now right.
Qed.

(** Two heaps that hold the same tree at the same objects agree on these
    objects. *)
Lemma holds_agree (h h' : Heap.t) (n : names) (tr : tree) :
  holds h n tr -> holds h' n tr ->
  (forall g, Group g ∈ ids n -> Heap.groups h' !! g = Heap.groups h !! g) /\
  (forall t, Positioning t ∈ ids n -> Heap.positionings h' !! t = Heap.positionings h !! t).
Proof.
  revert tr. induction n as [g|t l ns IH] using names_nested_ind; intros [self|cs y] H1 H2;
    try contradiction.
  - cbn in *. split.
    + intros g' Hg'. apply list_elem_of_singleton in Hg'. injection Hg' as ->. congruence.
    + intros t Ht. apply list_elem_of_singleton in Ht. discriminate.
  - apply holds_Node in H1 as (Ht1 & _ & Hall1). apply holds_Node in H2 as (Ht2 & _ & Hall2).
    assert (Hrec :
      (forall g, Group g ∈ concat (map ids ns) ->
         Heap.groups h' !! g = Heap.groups h !! g) /\
      (forall t, Positioning t ∈ concat (map ids ns) ->
         Heap.positionings h' !! t = Heap.positionings h !! t)).
    { clear Ht1 Ht2. revert cs Hall1 Hall2.
      induction IH as [|n ns Hn _ IHns]; intros [|c cs] Hall1 Hall2; try contradiction.
      - split; intros x Hx; inversion Hx.
      - destruct Hall1 as [Hc1 Hall1]. destruct Hall2 as [Hc2 Hall2].
        destruct (Hn c Hc1 Hc2) as [Hg Hp]. destruct (IHns cs Hall1 Hall2) as [Hg' Hp'].
        cbn [map concat]. split; intros x Hx; apply elem_of_app in Hx as [Hx|Hx]; auto. }
    destruct Hrec as [Hg Hp]. cbn [ids]. split.
    + intros g Hin. apply elem_of_cons in Hin as [Hin|Hin]; [discriminate|now apply Hg].
    + intros t' Hin. apply elem_of_cons in Hin as [Hin|Hin]; [|now apply Hp].
      injection Hin as ->. congruence.
Qed.

Lemma comprehension_heights (f : member -> res Z) (ns : list names) (cs : list tree) :
  Forall2 (fun n c => f (root n) = OK (tree_height c)) ns cs ->
  comprehension f (map root ns) = OK (map tree_height cs).
Proof.
  induction 1 as [|n c ns cs Hn _ IH]; [reflexivity|].
  cbn [map comprehension]. rewrite Hn, IH. reflexivity.
Qed.

(** [get_height] reads the height of the tree. *)
Lemma get_height_holds (fuel : nat) (h : Heap.t) (n : names) (tr : tree) :
  holds h n tr -> (depth tr <= fuel)%nat ->
  PanelPositioning.get_height fuel (root n) h = OK (tree_height tr).
Proof.
  revert fuel tr. induction n as [g|t l ns IH] using names_nested_ind;
    intros fuel [self|cs y] Hh Hd; try contradiction.
  - cbn in Hh. destruct fuel; cbn; rewrite Hh; reflexivity.
  - destruct fuel as [|fuel]; [cbn in Hd; lia|]. apply depth_members in Hd.
    apply holds_Node in Hh as (Ht & Hl & Hall).
    cbn [root PanelPositioning.get_height]. rewrite Ht. cbn [the res_bind fst]. rewrite Hl.
    cbn [the res_bind tree_height].
    rewrite (comprehension_heights _ ns cs); [reflexivity|].
    clear Ht Hl. revert cs Hd Hall.
    induction IH as [|n ns Hn _ IHns]; intros [|c cs] Hd Hall; try contradiction;
      [constructor|].
    destruct Hall as [Hc Hall]. apply Forall_cons in Hd as [Hdc Hd].
    constructor; [now apply Hn|now apply IHns].
Qed.

Lemma header_holds (h : Heap.t) (n : names) (tr : tree) :
  holds h n tr -> PanelPositioning.header (root n) h = OK (header tr).
Proof.
  destruct n as [g|t l ns], tr as [self|cs y]; try contradiction; intros Hh.
  - cbn in *. rewrite Hh. reflexivity.
  - reflexivity.
Qed.

Lemma origin_holds (h : Heap.t) (n : names) (tr : tree) :
  holds h n tr -> origin_of h (root n) = Some (origin tr).
Proof.
  destruct n as [g|t l ns], tr as [self|cs y]; try contradiction; intros Hh.
  - cbn in *. rewrite Hh. reflexivity.
  - apply holds_Node in Hh as (Ht & _). cbn. rewrite Ht. reflexivity.
Qed.

Lemma depth_with_origin (c : tree) (y : Z) : depth (with_origin c y) = depth c.
Proof. destruct c; reflexivity. Qed.

(** ** The property [panels] *)

(** [set_y] on a member that is ready: a group moves its objects, and the
    member holds the new origin; nothing else changes. *)
Lemma set_y_holds (h : Heap.t) (n : names) (c : tree) (cur : Z) :
  holds h n c -> NoDup (ids n) -> 0 <= cur -> ready (Heap.gridPos h) c ->
  exists h',
    PanelPositioning.set_y (root n) cur h = (OK tt, h') /\
    Heap.gridPos h' = apply_moves (direct_moves [c] cur) (Heap.gridPos h) /\
    holds h' n (with_origin c cur) /\
    kept [root n] h h'.
Proof.
  destruct n as [g|t l ns], c as [self|cs y]; try contradiction; intros Hh Hnd Hcur Hr.
  - cbn in Hh. unfold ready in Hr. cbn in Hr. apply Forall_singleton in Hr as [_ Hdom].
    eexists. split; [|split; [|split]].
    + cbn [root PanelPositioning.set_y]. unfold bindH, read, on_gridPos. rewrite Hh.
      cbn [the]. rewrite (set_y_spec self cur _ Hcur Hdom). reflexivity.
    + reflexivity.
    + cbn. apply lookup_insert_eq.
    + split; [reflexivity|]. split; [|reflexivity].
      intros g' Hg'. cbn. apply lookup_insert_ne. intros ->. apply Hg', list_elem_of_here.
  - apply holds_Node in Hh as (Ht & Hl & Hall).
    cbn [ids] in Hnd. apply NoDup_cons in Hnd as [Hnot _].
    assert (Hk : kept [Positioning t] h
                   (Heap.mk (Heap.gridPos h) (Heap.groups h)
                      (<[t := (l, cur)]> (Heap.positionings h)) (Heap.lists h))).
    { split; [reflexivity|]. split; [reflexivity|].
      intros t' Ht'. cbn. apply lookup_insert_ne. intros ->. apply Ht', list_elem_of_here. }
    eexists. split; [|split; [|split]].
    + cbn [root PanelPositioning.set_y]. unfold bindH, read. rewrite Ht. cbn [the].
      unfold assert. destruct (Z.leb_spec 0 cur); [|lia]. reflexivity.
    + reflexivity.
    + cbn [with_origin]. apply holds_Node. split; [cbn; apply lookup_insert_eq|].
      split; [exact Hl|].
      apply (holds_all_kept _ _ _ _ _ Hk); [|exact Hall].
      intros m Hm Hin. apply list_elem_of_singleton in Hin. subst m. now apply Hnot.
    + exact Hk.
Qed.

Lemma direct_moves_cons (c : tree) (cs : list tree) (cur : Z) :
  direct_moves (c :: cs) cur = direct_moves [c] cur ++ direct_moves cs (cur + tree_height c).
Proof. cbn [direct_moves]. now rewrite app_nil_r. Qed.

Lemma NoDup_members (n : names) (ns : list names) :
  NoDup (concat (map ids (n :: ns))) ->
  NoDup (ids n) /\ NoDup (concat (map ids ns)) /\
  (forall m, m ∈ ids n -> m ∉ concat (map ids ns)) /\
  (forall m, m ∈ concat (map ids ns) -> m ∉ ids n).
Proof.
  cbn [map concat]. intros H. apply NoDup_app in H as (H1 & Hdis & H2).
  repeat split; try assumption. intros m Hm Hin. exact (Hdis m Hin Hm).
Qed.

(** The first loop. *)
Lemma stack_loop (fuel : nat) (ns : list names) (cs : list tree) (cur : Z) (h : Heap.t) :
  holds_all h ns cs -> NoDup (concat (map ids ns)) ->
  Forall (fun c => (depth c <= fuel)%nat) cs ->
  0 <= cur ->
  ready (Heap.gridPos h) (Node cs 0) ->
  exists h',
    for_eachH (PanelPositioning.stack fuel) (map root ns) cur h =
      (OK (cur + sum (map tree_height cs)), h') /\
    Heap.gridPos h' = apply_moves (direct_moves cs cur) (Heap.gridPos h) /\
    holds_all h' ns (with_origins cs cur) /\
    kept (map root ns) h h'.
Proof.
  revert cs cur h. induction ns as [|n ns IH]; intros [|c cs] cur h Hall Hnd Hd Hcur Hr;
    try contradiction.
  - exists h. cbn. unfold retH. rewrite Z.add_0_r.
    repeat split.
  - destruct Hall as [Hc Hall]. apply Forall_cons in Hd as [Hdc Hd].
    apply (ready_cons _ c cs 0 0) in Hr as [Hrc Hrcs].
    pose proof (tree_height_nonneg _ c Hrc) as Hh.
    destruct (NoDup_members n ns Hnd) as (Hndn & Hndns & Hdis & Hdis').
    destruct (set_y_holds h n c cur Hc Hndn Hcur Hrc) as (h1 & Hset & Hst1 & Hc1 & Hk1).
    assert (Hall1 : holds_all h1 ns cs).
    { apply (holds_all_kept _ _ _ _ _ Hk1); [|exact Hall].
      intros m Hm Hin. apply list_elem_of_singleton in Hin. subst m.
      exact (Hdis _ (root_in_ids n) Hm). }
    assert (Hcur' : 0 <= cur + tree_height c) by lia.
    destruct (IH cs (cur + tree_height c) h1 Hall1 Hndns Hd Hcur')
      as (h2 & Hloop & Hst2 & Hall2 & Hk2).
    { rewrite Hst1. now apply ready_apply_moves. }
    exists h2. split; [|split; [|split]].
    + cbn [map for_eachH]. unfold bindH at 1. unfold PanelPositioning.stack at 1.
      unfold bindH at 1. rewrite Hset. unfold bindH at 1. unfold read at 1.
      rewrite (get_height_holds fuel h1 n (with_origin c cur) Hc1)
        by (now rewrite depth_with_origin).
      rewrite tree_height_with_origin. unfold retH at 1. rewrite Hloop.
      rewrite sum_cons, Z.add_assoc. reflexivity.
    + rewrite Hst2, Hst1, (direct_moves_cons c cs), apply_moves_app. reflexivity.
    + cbn [with_origins]. split; [|exact Hall2].
      apply (holds_kept _ _ _ _ _ Hk2); [|exact Hc1].
      intros m Hm Hin. apply (Hdis m Hm). now apply roots_in_ids.
    + exact (kept_trans [root n] (map root ns) h h1 h2 Hk1 Hk2).
Qed.

Lemma panels_Group (fuel : nat) (g : positive) (self : PanelGroup.t) (h : Heap.t) :
  Heap.groups h !! g = Some self ->
  PanelPositioning.panels fuel (Group g) h = (OK (PanelGroup.panels self), h).
Proof.
  intros Hg. destruct fuel; cbn [PanelPositioning.panels]; unfold bindH, read, retH;
    rewrite Hg; reflexivity.
Qed.

(** Reading the panels of a member whose origin was set. *)
Lemma read_member (fuel : nat) (h : Heap.t) (n : names) (c : tree) (cur : Z) :
  panels_spec fuel ->
  holds h n (with_origin c cur) -> NoDup (ids n) ->
  (depth c <= fuel)%nat -> 0 <= cur ->
  ready (Heap.gridPos h) c ->
  exists h',
    PanelPositioning.panels fuel (root n) h = (OK (flatten c), h') /\
    Heap.gridPos h' = apply_moves (moves_at c cur) (Heap.gridPos h) /\
    holds h' n (place_at c cur) /\
    kept (ids n) h h'.
Proof.
  intros Hrec Hc Hnd Hd Hcur Hr.
  destruct n as [g|t l ns], c as [self|cs y]; try contradiction.
  - exists h. cbn in Hc. split; [exact (panels_Group fuel g _ h Hc)|].
    split; [reflexivity|]. split; [exact Hc|apply kept_refl].
  - cbn [with_origin] in Hc.
    destruct (Hrec t l ns cs cur h Hd Hcur Hc Hnd Hr) as (h1 & Hp & Hst & Hh1 & Hk1).
    exists h1. split; [exact Hp|]. split; [exact Hst|]. split; [exact Hh1|].
    eapply kept_mono; [|exact Hk1]. intros m Hm. cbn [ids].
    now apply list_elem_of_further.
Qed.

Lemma nested_moves_cons (c : tree) (cs : list tree) (cur : Z) :
  nested_moves (c :: cs) cur = moves_at c cur ++ nested_moves cs (cur + tree_height c).
Proof. reflexivity. Qed.

(** The second loop. *)
Lemma collect_loop (fuel : nat) (ns : list names) (cs : list tree) (cur : Z)
    (ps : list positive) (h : Heap.t) :
  panels_spec fuel ->
  holds_all h ns (with_origins cs cur) -> NoDup (concat (map ids ns)) ->
  Forall (fun c => (depth c <= fuel)%nat) cs ->
  0 <= cur ->
  ready (Heap.gridPos h) (Node cs 0) ->
  exists h',
    for_eachH (PanelPositioning.collect (PanelPositioning.panels fuel)) (map root ns) ps h =
      (OK (ps ++ concat (map emitted cs)), h') /\
    Heap.gridPos h' = apply_moves (nested_moves cs cur) (Heap.gridPos h) /\
    holds_all h' ns (stack_at cs cur) /\
    kept (concat (map ids ns)) h h'.
Proof.
  intros Hrec. revert cs cur ps h.
  induction ns as [|n ns IH]; intros [|c cs] cur ps h Hall Hnd Hd Hcur Hr;
    try contradiction.
  - exists h. cbn. unfold retH. rewrite app_nil_r. repeat split.
  - destruct Hall as [Hc Hall]. apply Forall_cons in Hd as [Hdc Hd].
    apply (ready_cons _ c cs 0 0) in Hr as [Hrc Hrcs].
    pose proof (tree_height_nonneg _ c Hrc) as Hh.
    destruct (NoDup_members n ns Hnd) as (Hndn & Hndns & Hdis & Hdis').
    destruct (read_member fuel h n c cur Hrec Hc Hndn Hdc Hcur Hrc)
      as (h1 & Hp & Hst1 & Hc1 & Hk1).
    assert (Hall1 : holds_all h1 ns (with_origins cs (cur + tree_height c))).
    { apply (holds_all_kept _ _ _ _ _ Hk1); [exact Hdis'|exact Hall]. }
    assert (Hcur' : 0 <= cur + tree_height c) by lia.
    destruct (IH cs (cur + tree_height c) (ps ++ header c ++ flatten c) h1 Hall1 Hndns Hd
                Hcur') as (h2 & Hloop & Hst2 & Hall2 & Hk2).
    { rewrite Hst1. now apply ready_apply_moves. }
    exists h2. split; [|split; [|split]].
    + cbn [map for_eachH]. unfold bindH at 1. unfold PanelPositioning.collect at 1.
      unfold bindH at 1. unfold read at 1.
      rewrite (header_holds h n _ Hc), header_with_origin.
      unfold bindH at 1. rewrite Hp. unfold retH at 1. rewrite Hloop.
      cbn [map concat]. unfold emitted at 2. rewrite <- !app_assoc. reflexivity.
    + rewrite Hst2, Hst1, nested_moves_cons, apply_moves_app. reflexivity.
    + cbn [stack_at]. split; [|exact Hall2].
      apply (holds_kept _ _ _ _ _ Hk2); [exact Hdis|exact Hc1].
    + cbn [map concat]. exact (kept_trans _ _ h h1 h2 Hk1 Hk2).
Qed.

Lemma panels_returns (fuel : nat) : panels_spec fuel.
Proof.
  induction fuel as [|fuel IH]; intros t l ns cs y h Hd Hy Hh Hnd Hr; [cbn in Hd; lia|].
  apply depth_members in Hd.
  apply holds_Node in Hh as (Ht & Hl & Hall).
  cbn [ids] in Hnd. apply NoDup_cons in Hnd as [Hnot Hnd].
  destruct (stack_loop fuel ns cs y h Hall Hnd Hd Hy Hr) as (h1 & Hloop1 & Hst1 & Hall1 & Hk1).
  destruct (collect_loop fuel ns cs y [] h1 IH Hall1 Hnd Hd Hy)
    as (h2 & Hloop2 & Hst2 & Hall2 & Hk2).
  { rewrite Hst1. now apply ready_apply_moves. }
  assert (Hk : kept (concat (map ids ns)) h h2).
  { eapply kept_mono; [|exact (kept_trans _ _ h h1 h2 Hk1 Hk2)].
    intros m Hm. apply elem_of_app in Hm as [Hm|Hm]; [now apply roots_in_ids|exact Hm]. }
  exists h2. split; [|split; [|split]].
  - cbn [PanelPositioning.panels]. unfold bindH at 1. unfold read at 1. rewrite Ht.
    cbn [the fst snd]. unfold bindH at 1. unfold read at 1. rewrite Hl. cbn [the].
    unfold bindH at 1. rewrite Hloop1. unfold bindH at 1. unfold read at 1.
    rewrite (proj1 Hk1), Hl. cbn [the]. rewrite Hloop2. reflexivity.
  - rewrite Hst2, Hst1, apply_moves_app. reflexivity.
  - apply holds_Node. destruct Hk as (Hkl & _ & Hkp).
    split; [rewrite Hkp; [exact Ht|exact Hnot]|]. split; [now rewrite Hkl|exact Hall2].
  - exact Hk.
Qed.

Lemma depth_place_at (c : tree) (cur : Z) : depth (place_at c cur) = depth c.
Proof.
  revert cur. induction c as [g|cs y IH] using tree_nested_ind; intros cur.
  - reflexivity.
  - rewrite place_at_Node. cbn [depth]. f_equal.
    revert cur. induction IH as [|c cs Hc _ IHcs]; intros cur; [reflexivity|].
    cbn [stack_at map foldr]. now rewrite Hc, IHcs.
Qed.

(** C4.  Reading the panels of a [PanelPositioning] whose groups are ready
    and in whose tree no member is listed twice: member [i] is given the
    origin of the whole plus the heights of the members before it, and
    keeps its height; the panels returned are those of the members in
    their order, each row header just before the panels of its group, a
    nested [PanelPositioning] flattened in the same way; their number is
    the sum over the members of the number of their panels and of their
    row headers. *)
Theorem panels_stacks_the_members (fuel : nat) (t l : positive) (ns : list names)
    (cs : list tree) (y : Z) (h : Heap.t) :
  holds h (PositioningAt t l ns) (Node cs y) ->
  NoDup (ids (PositioningAt t l ns)) ->
  (depth (Node cs y) <= fuel)%nat ->
  0 <= y ->
  ready (Heap.gridPos h) (Node cs y) ->
  exists h',
    PanelPositioning.panels fuel (Positioning t) h =
      (OK (concat (map (fun c => header c ++ flatten c) cs)), h') /\
    (forall i n c, ns !! i = Some n -> cs !! i = Some c ->
       origin_of h' (root n) = Some (y + sum (map tree_height (take i cs))) /\
       PanelPositioning.get_height fuel (root n) h = OK (tree_height c) /\
       PanelPositioning.get_height fuel (root n) h' = OK (tree_height c)) /\
    (forall g, flatten (Leaf g) = PanelGroup.panels g) /\
    (forall cs y', flatten (Node cs y') =
       concat (map (fun c => header c ++ flatten c) cs)) /\
    (forall c, length (header c) =
       match c with
       | Leaf g => if PanelGroup.row g is Some _ then 1%nat else 0%nat
       | Node _ _ => 0%nat
       end) /\
    length (concat (map (fun c => header c ++ flatten c) cs)) =
      sum_list (map (fun c => (length (header c) + length (flatten c))%nat) cs).
Proof.
  intros Hh Hnd Hd Hy Hr.
  destruct (panels_returns fuel t l ns cs y h Hd Hy Hh Hnd Hr) as (h' & Hp & _ & Hh' & _).
  exists h'. split; [exact Hp|]. split.
  { intros i n c Hn Hc.
    apply holds_Node in Hh as (_ & _ & Hall). apply holds_Node in Hh' as (_ & _ & Hall').
    pose proof (holds_all_lookup h ns cs i n c Hall Hn Hc) as Hnc.
    pose proof (holds_all_lookup h' ns _ i n _ Hall' Hn (stack_at_lookup cs y i c Hc)) as Hnc'.
    assert (Hdc : (depth c <= fuel)%nat).
    { destruct fuel as [|fuel]; [cbn in Hd; lia|]. apply depth_members in Hd.
      pose proof (proj1 (Forall_lookup _ _) Hd i c Hc). cbn in *. lia. }
    split; [|split].
    - rewrite (origin_holds h' n _ Hnc'). now rewrite origin_place_at.
    - now apply get_height_holds.
    - rewrite (get_height_holds fuel h' n _ Hnc') by (now rewrite depth_place_at).
      now rewrite tree_height_place_at. }
  split; [reflexivity|]. split; [reflexivity|]. split.
  { intros [g|cs' y']; [|reflexivity]. cbn. destruct (PanelGroup.row g); reflexivity. }
  apply length_concat_emitted.
Qed.

(** A group that is listed twice is one object: both readings of the list
    move it, and it ends where the second one puts it.  In the
    [PanelPositioning] 1 of origin 5 the first member should have the
    origin 5; it has the origin 14, and its panels are at 14. *)
Lemma a_group_listed_twice_has_one_origin :
  Heap.positionings shared_heap !! 1%positive = Some (1%positive, 5) /\
  Heap.lists shared_heap !! 1%positive = Some [Group 1; Group 1] /\
  PanelPositioning.get_height 1 (Group 1) shared_heap = OK 9 /\
  ready (Heap.gridPos shared_heap) (Node [Leaf two_cells; Leaf two_cells] 5) /\
  (PanelPositioning.panels 1 (Positioning 1) shared_heap).1 =
    OK [1; 2; 1; 2]%positive /\
  origin_of (PanelPositioning.panels 1 (Positioning 1) shared_heap).2 (Group 1) = Some 14 /\
  Heap.gridPos (PanelPositioning.panels 1 (Positioning 1) shared_heap).2 !! 1%positive =
    Some (GridPos.mk 0 14 12 8).
Proof.
  split; [reflexivity|]. split; [reflexivity|]. split; [reflexivity|]. split.
  { unfold ready. cbn [groups_of map concat app].
    repeat constructor; try (cbn; lia); eexists; reflexivity. }
  repeat split; vm_compute; reflexivity.
Qed.

Lemma ids_app (ns1 ns2 : list names) :
  concat (map ids (ns1 ++ ns2)) = concat (map ids ns1) ++ concat (map ids ns2).
Proof. now rewrite map_app, concat_app. Qed.

Lemma holds_all_agree (h h' : Heap.t) (ns : list names) (cs : list tree) :
  holds_all h ns cs -> holds_all h' ns cs ->
  (forall g, Group g ∈ concat (map ids ns) -> Heap.groups h' !! g = Heap.groups h !! g) /\
  (forall t, Positioning t ∈ concat (map ids ns) ->
     Heap.positionings h' !! t = Heap.positionings h !! t).
Proof.
  revert cs. induction ns as [|n ns IH]; intros [|c cs] H1 H2; try contradiction.
  - split; intros x Hx; inversion Hx.
  - destruct H1 as [Hc1 H1]. destruct H2 as [Hc2 H2].
    destruct (holds_agree h h' n c Hc1 Hc2) as [Hg Hp].
    destruct (IH cs H1 H2) as [Hg' Hp'].
    cbn [map concat]. split; intros x Hx; apply elem_of_app in Hx as [Hx|Hx]; auto.
Qed.

(** C9.  A [PanelPositioning] with a nested [PanelPositioning] among its
    members, and one with the members of the nested one in its place,
    where no member is listed twice: reading the panels of either returns
    the same panels in the same order and leaves the same rectangles, and
    the members end at the same origins. *)
Theorem nesting_is_inlining (fuel : nat) (t l t1 l1 t2 l2 : positive)
    (npre ninner npost : list names) (pre inner post : list tree) (y1 y : Z)
    (h : Heap.t) :
  length npre = length pre -> length ninner = length inner ->
  holds h (PositioningAt t l (npre ++ [PositioningAt t1 l1 ninner] ++ npost))
    (Node (pre ++ [Node inner y1] ++ post) y) ->
  holds h (PositioningAt t2 l2 (npre ++ ninner ++ npost)) (Node (pre ++ inner ++ post) y) ->
  NoDup (ids (PositioningAt t l (npre ++ [PositioningAt t1 l1 ninner] ++ npost))) ->
  NoDup (ids (PositioningAt t2 l2 (npre ++ ninner ++ npost))) ->
  (depth (Node (pre ++ [Node inner y1] ++ post) y) <= fuel)%nat ->
  0 <= y ->
  ready (Heap.gridPos h) (Node (pre ++ [Node inner y1] ++ post) y) ->
  exists flat h1 h2,
    PanelPositioning.panels fuel (Positioning t) h = (OK flat, h1) /\
    PanelPositioning.panels fuel (Positioning t2) h = (OK flat, h2) /\
    Heap.gridPos h1 = Heap.gridPos h2 /\
    Heap.groups h1 = Heap.groups h2 /\
    (forall m, m ∈ concat (map ids (npre ++ ninner ++ npost)) ->
       origin_of h1 m = origin_of h2 m).
Proof.
  intros Hlpre Hlin Hh1 Hh2 Hnd1 Hnd2 Hd Hy Hr.
  pose proof (depth_inlined _ _ _ _ _ _ Hd) as Hd'.
  assert (Hr' : ready (Heap.gridPos h) (Node (pre ++ inner ++ post) y)).
  { apply ready_app in Hr as [Hpre Hr]. apply ready_app in Hr as [Hin Hpost].
    apply ready_nested in Hin. apply ready_app. split; [exact Hpre|].
    apply ready_app. split; assumption. }
  destruct (panels_returns fuel _ _ _ _ y h Hd Hy Hh1 Hnd1 Hr) as (h1 & Hp1 & Hst1 & Hq1 & Hk1).
  destruct (panels_returns fuel _ _ _ _ y h Hd' Hy Hh2 Hnd2 Hr')
    as (h2 & Hp2 & Hst2 & Hq2 & Hk2).
  set (c1 := y + sum (map tree_height pre)) in *.
  set (c2 := c1 + sum (map tree_height inner)) in *.
  assert (Hh : sum (map tree_height [Node inner y1]) = sum (map tree_height inner)).
  { cbn [map tree_height]. rewrite sum_cons. change (sum []) with 0. lia. }
  assert (Hstack : stack_at (pre ++ [Node inner y1] ++ post) y =
            stack_at pre y ++ [Node (stack_at inner c1) c1] ++ stack_at post c2).
  { rewrite !stack_at_app, Hh. reflexivity. }
  assert (Hstack' : stack_at (pre ++ inner ++ post) y =
            stack_at pre y ++ stack_at inner c1 ++ stack_at post c2).
  { rewrite !stack_at_app. reflexivity. }
  assert (Hflat : concat (map emitted (pre ++ [Node inner y1] ++ post)) =
            concat (map emitted (pre ++ inner ++ post))).
  { rewrite !map_app, !concat_app. cbn [map concat]. rewrite app_nil_r. reflexivity. }
  assert (Hmoves :
    apply_moves (direct_moves (pre ++ [Node inner y1] ++ post) y ++
                 nested_moves (pre ++ [Node inner y1] ++ post) y) (Heap.gridPos h) =
    apply_moves (direct_moves (pre ++ inner ++ post) y ++
                 nested_moves (pre ++ inner ++ post) y) (Heap.gridPos h)).
  { apply apply_moves_perm.
    rewrite !direct_moves_app, !nested_moves_app, Hh. fold c1. fold c2.
    cbn [direct_moves nested_moves app]. rewrite moves_at_Node.
    rewrite !app_nil_r, <- !app_assoc.
    apply Permutation_app_head. symmetry.
    etransitivity; [apply Permutation_app_swap_app|].
    apply Permutation_app_head, Permutation_app_swap_app. }
  (* both heaps hold the members of the inlined tree at the same places *)
  rewrite Hstack in Hq1. rewrite Hstack' in Hq2.
  apply holds_Node in Hq1 as (_ & _ & Hall1). apply holds_Node in Hq2 as (_ & _ & Hall2).
  assert (Hlpre' : length npre = length (stack_at pre y))
    by (now rewrite stack_at_length).
  assert (Hlin' : length ninner = length (stack_at inner c1))
    by (now rewrite stack_at_length).
  apply (holds_all_app h1 npre _ _ _ Hlpre') in Hall1 as [Hpre1 Hall1].
  apply (holds_all_app h1 [_] _ [_] _ eq_refl) in Hall1 as [[Hin1 _] Hpost1].
  apply holds_Node in Hin1 as (_ & _ & Hin1).
  assert (Hall1' : holds_all h1 (npre ++ ninner ++ npost)
                     (stack_at pre y ++ stack_at inner c1 ++ stack_at post c2)).
  { apply (holds_all_app h1 npre _ _ _ Hlpre'). split; [exact Hpre1|].
    apply (holds_all_app h1 ninner _ _ _ Hlin'). split; assumption. }
  destruct (holds_all_agree h1 h2 _ _ Hall1' Hall2) as [Hgin Hpin].
  assert (Hgroups : Heap.groups h1 = Heap.groups h2).
  { apply map_eq. intros g.
    destruct (decide (Group g ∈ concat (map ids (npre ++ ninner ++ npost)))) as [Hin|Hout].
    - symmetry. now apply Hgin.
    - destruct Hk1 as (_ & Hk1 & _). destruct Hk2 as (_ & Hk2 & _).
      rewrite Hk1, Hk2; [reflexivity|exact Hout|].
      intros Hin. apply Hout. rewrite !ids_app in *.
      cbn [map concat ids] in Hin. rewrite app_nil_r in Hin.
      rewrite !elem_of_app in *. rewrite elem_of_cons in Hin.
      destruct Hin as [Hin|[[Hin|Hin]|Hin]]; [tauto|discriminate|tauto|tauto]. }
  exists (concat (map emitted (pre ++ inner ++ post))), h1, h2.
  split; [rewrite <- Hflat; exact Hp1|]. split; [exact Hp2|].
  split; [rewrite Hst1, Hst2; exact Hmoves|]. split; [exact Hgroups|].
  intros [g|t'] Hm; cbn [origin_of].
  - now rewrite Hgroups.
  - now rewrite (Hpin t' Hm).
Qed.

(** A group that is a member of the nested [PanelPositioning] and of the
    outer one is one object: reading the nested property moves it back.
    The [PanelPositioning] 2 holds the [PanelPositioning] 3, which holds
    the group, and then the group itself; the [PanelPositioning] 4 holds
    the group twice.  Both return the same list, but the panels of the
    group end in row 0 with the nesting and in row 9 without it. *)
Lemma nesting_a_shared_group_is_not_inlining :
  Heap.lists shared_heap !! 2%positive = Some [Positioning 3; Group 1] /\
  Heap.lists shared_heap !! 3%positive = Some [Group 1] /\
  Heap.lists shared_heap !! 4%positive = Some [Group 1; Group 1] /\
  (PanelPositioning.panels 2 (Positioning 2) shared_heap).1 = OK [1; 2; 1; 2]%positive /\
  (PanelPositioning.panels 2 (Positioning 4) shared_heap).1 = OK [1; 2; 1; 2]%positive /\
  Heap.gridPos (PanelPositioning.panels 2 (Positioning 2) shared_heap).2 !! 1%positive =
    Some (GridPos.mk 0 0 12 8) /\
  Heap.gridPos (PanelPositioning.panels 2 (Positioning 4) shared_heap).2 !! 1%positive =
    Some (GridPos.mk 0 9 12 8).
Proof. repeat split; vm_compute; reflexivity. Qed.

(** ** The composition at the groups of the example *)

Lemma example_store_built :
  (bind (PanelGroup.__init__ (Some (PanelGroup.Rows example_rows)) [1; 2; 3; 4]%positive
           None None None)
        (fun _ => PanelGroup.__init__ (Some (PanelGroup.Sizes [SMALL; MEDIUM; MEDIUM]))
                    [5; 6; 7]%positive None None (Some 8%positive)) ∅) =
  (OK header_group, example_store).
Proof. vm_compute. reflexivity. Qed.

Lemma example_ready : ready (Heap.gridPos example_heap) example_tree.
Proof.
  unfold ready, example_tree. cbn [groups_of map concat app].
  repeat constructor; try (cbn; lia); eexists; reflexivity.
Qed.

Lemma example_holds : holds example_heap example_names example_tree.
Proof. repeat split. Qed.

Lemma NoDup_by_decide {A} `{EqDecision A} (l : list A) :
  bool_decide (NoDup l) = true -> NoDup l.
Proof. apply bool_decide_eq_true_1. Qed.

Lemma example_names_distinct : NoDup (ids example_names).
Proof. apply NoDup_by_decide. vm_compute. reflexivity. Qed.

Lemma panels_stacks_the_members_witness :
  holds example_heap example_names example_tree /\
  NoDup (ids example_names) /\
  (depth example_tree <= 1)%nat /\
  0 <= 0 /\
  ready (Heap.gridPos example_heap) example_tree /\
  exists h',
    PanelPositioning.panels 1 (Positioning 1) example_heap =
      (OK [1; 2; 3; 4; 8; 5; 6; 7]%positive, h') /\
    origin_of h' (Group 2) = Some 18.
Proof.
  assert (H1 : (depth example_tree <= 1)%nat) by (cbn; lia).
  assert (H2 : 0 <= 0) by lia.
  split; [exact example_holds|]. split; [exact example_names_distinct|].
  split; [exact H1|]. split; [exact H2|]. split; [exact example_ready|].
  destruct (panels_stacks_the_members 1 1 1 [GroupAt 1; GroupAt 2]
              [Leaf example_group; Leaf header_group] 0 example_heap
              example_holds example_names_distinct H1 H2 example_ready)
    as (h' & Hp & Horigin & _).
  exists h'. split; [exact Hp|].
  exact (proj1 (Horigin 1%nat (GroupAt 2) (Leaf header_group) eq_refl eq_refl)).
Defined.

Lemma example_nested_ready : ready (Heap.gridPos example_heap) nested_tree.
Proof.
  unfold ready, nested_tree. cbn [groups_of map concat app].
  repeat constructor; try (cbn; lia); eexists; reflexivity.
Qed.

Lemma example_nested_holds : holds example_heap nested_names nested_tree.
Proof. repeat split. Qed.

Lemma example_nested_distinct : NoDup (ids nested_names).
Proof. apply NoDup_by_decide. vm_compute. reflexivity. Qed.

Lemma nesting_is_inlining_witness :
  holds example_heap nested_names nested_tree /\
  holds example_heap example_names example_tree /\
  NoDup (ids nested_names) /\
  NoDup (ids example_names) /\
  (depth nested_tree <= 2)%nat /\
  0 <= 0 /\
  ready (Heap.gridPos example_heap) nested_tree /\
  exists flat h1 h2,
    PanelPositioning.panels 2 (Positioning 3) example_heap = (OK flat, h1) /\
    PanelPositioning.panels 2 (Positioning 1) example_heap = (OK flat, h2) /\
    Heap.gridPos h1 = Heap.gridPos h2.
Proof.
  assert (H1 : (depth nested_tree <= 2)%nat) by (cbn; lia).
  assert (H2 : 0 <= 0) by lia.
  split; [exact example_nested_holds|]. split; [exact example_holds|].
  split; [exact example_nested_distinct|]. split; [exact example_names_distinct|].
  split; [exact H1|]. split; [exact H2|]. split; [exact example_nested_ready|].
  destruct (nesting_is_inlining 2 3 3 2 2 1 1 [GroupAt 1] [GroupAt 2] []
              [Leaf example_group] [Leaf header_group] [] 3 0 example_heap
              eq_refl eq_refl example_nested_holds example_holds
              example_nested_distinct example_names_distinct H1 H2 example_nested_ready)
    as (flat & h1 & h2 & Hn & Hi & Hst & _).
  exists flat, h1, h2. repeat split; assumption.
Defined.

(** * Further properties *)

(** ** The allocator on rows it cannot divide *)

(** X1.  The allocator on an empty list: there is nothing to divide by, so
    no division is made; with a positive total width the whole width is the
    remainder and the first unit finds no panel, an [IndexError]; with a
    total width of 0 or less the result is the empty list. *)
Theorem allocator_of_an_empty_row (total_width : Z) :
  _create_width_units_array [] total_width =
    if 0 <? total_width then Raise IndexError else OK [].
Proof.
  unfold _create_width_units_array, raw_widths. cbn [comprehension res_bind].
  change (sum []) with 0. rewrite Z.sub_0_r.
  destruct (Z.ltb_spec 0 total_width) as [H|H]; [|reflexivity].
  destruct (Z.to_nat total_width) as [|n] eqn:Hn; [lia|].
  reflexivity.
Qed.

(** X2.  Weights that sum to 0: the first division is a division by zero,
    whatever the total width. *)
Theorem allocator_of_a_zero_total (arr : list Z) (total_width : Z) :
  arr <> [] -> sum arr = 0 ->
  _create_width_units_array arr total_width = Raise ZeroDivisionError.
Proof.
  intros Hne Hsum. destruct arr as [|w arr]; [contradiction|].
  unfold _create_width_units_array, raw_widths. rewrite Hsum.
  reflexivity.
Qed.

Lemma allocator_of_a_zero_total_witness :
  [0; 0] <> [] /\ sum [0; 0] = 0 /\
  _create_width_units_array [0; 0] 24 = Raise ZeroDivisionError.
Proof.
  assert (H1 : [0; 0] <> @nil Z) by discriminate.
  assert (H2 : sum [0; 0] = 0) by reflexivity.
  split; [exact H1|]. split; [exact H2|].
  exact (allocator_of_a_zero_total [0; 0] 24 H1 H2).
Defined.

(** ** What the allocator returns, for any weights and any total width *)

(** X3.  Whenever the allocator returns, it returns one width for each
    weight and no width below 1; so the widths of a row of more panels than
    the total width sum to more than the total width. *)
Theorem allocator_never_shrinks_a_panel (arr res : list Z) (total_width : Z) :
  _create_width_units_array arr total_width = OK res ->
  length res = length arr /\
  Forall (fun u => 1 <= u) res /\
  Z.of_nat (length arr) <= sum res /\
  (total_width < Z.of_nat (length arr) -> total_width < sum res).
Proof.
  intros H.
  pose proof (allocator_length arr res total_width H) as Hlen.
  pose proof (allocator_pos arr res total_width H) as Hpos.
  pose proof (sum_ge_length res Hpos) as Hsum.
  rewrite Hlen in Hsum. repeat split; [exact Hlen|exact Hpos|exact Hsum|lia].
Qed.

Lemma allocator_never_shrinks_a_panel_witness :
  _create_width_units_array (replicate 30 1) 24 = OK (replicate 30 1) /\
  24 < sum (replicate 30 1).
Proof.
  assert (H : _create_width_units_array (replicate 30 1) 24 = OK (replicate 30 1))
    by (vm_compute; reflexivity).
  split; [exact H|].
  apply (allocator_never_shrinks_a_panel (replicate 30 1) (replicate 30 1) 24 H).
  vm_compute. reflexivity.
Defined.

(** The raw width of a weight whose exact share [24 * w / S] is at least
    one unit is no more than the share. *)
Lemma raw_width_share (S w : Z) :
  1 <= w <= S -> S <= weight_bound -> S <= 24 * w ->
  exists r, raw_width 24 S w = OK r /\ 1 <= r /\ S * r <= 24 * w /\ 24 * w <= S * (r + 1).
Proof.
  intros Hw HS Hshare. destruct (raw_floor_near S w Hw HS) as (f & Hf & Hnear).
  exists (Z.max 1 f). unfold raw_width. rewrite Hf. split; [reflexivity|].
  split; [lia|].
  assert (HS0 : 0 < S) by lia.
  pose proof (Z.mul_div_le (24 * w) S HS0).
  pose proof (Z.mul_succ_div_gt (24 * w) S HS0).
  assert (1 <= 24 * w / S) by (apply Z.div_le_lower_bound; lia).
  destruct Hnear as [->|[-> Hmod]].
  - split; nia.
  - apply Z.div_exact in Hmod; [|lia]. split; nia.
Qed.

Lemma raw_widths_share (S : Z) (l : list Z) :
  S <= weight_bound -> Forall (fun w => 1 <= w <= S /\ S <= 24 * w) l ->
  exists r, comprehension (raw_width 24 S) l = OK r /\ S * sum r <= 24 * sum l.
Proof.
  intros HS. induction 1 as [|w l [Hw Hshare] Hl (r & Hr & Hsum)].
  - exists []. split; [reflexivity|]. cbn. lia.
  - destruct (raw_width_share S w Hw HS Hshare) as (u & Hu & Hu1 & Hu2 & _).
    exists (u :: r). cbn [comprehension]. rewrite Hu, Hr. split; [reflexivity|].
    rewrite !sum_cons. lia.
Qed.

Lemma sum_pos (arr : list Z) : arr <> [] -> Forall (fun w => 1 <= w) arr -> 0 < sum arr.
Proof.
  intros Hne Hpos. destruct arr as [|w arr]; [contradiction|].
  apply Forall_cons in Hpos as [Hw Hpos]. rewrite sum_cons.
  pose proof (sum_ge_length arr Hpos). lia.
Qed.

(** Where every share is at least one unit, the raw widths do not exceed
    the total width. *)
Lemma fair_shares_shortfall (arr : list Z) :
  arr <> [] -> Forall (fun w => 1 <= w /\ sum arr <= 24 * w) arr ->
  sum arr <= weight_bound ->
  exists r, raw_widths arr 24 = OK r /\ 0 <= 24 - sum r.
Proof.
  intros Hne Hpos HS.
  assert (Hpos1 : Forall (fun w => 1 <= w) arr)
    by (eapply Forall_impl; [exact Hpos|intros w [? _]; assumption]).
  pose proof (sum_pos arr Hne Hpos1) as HS0.
  destruct (raw_widths_share (sum arr) arr HS) as (r & Hr & Hsum).
  { apply Forall_forall. intros w Hin.
    pose proof (proj1 (Forall_forall _ _) Hpos w Hin) as [Hw Hshare].
    split; [split; [exact Hw|]|exact Hshare].
    apply elem_le_sum; assumption. }
  exists r. split; [exact Hr|]. nia.
Qed.

Lemma fair_shares (arr : list Z) :
  arr <> [] -> Forall (fun w => 1 <= w /\ sum arr <= 24 * w) arr ->
  sum arr <= weight_bound ->
  exists res,
    _create_width_units_array arr 24 = OK res /\
    length res = length arr /\
    Forall (fun u => 1 <= u) res /\
    sum res = 24.
Proof.
  intros Hne Hpos HS.
  assert (Hpos1 : Forall (fun w => 1 <= w) arr)
    by (eapply Forall_impl; [exact Hpos|intros w [? _]; assumption]).
  destruct (fair_shares_shortfall arr Hne Hpos HS) as (r & Hr & Hd).
  destruct (raw_widths_ok arr Hne Hpos1 HS) as (r' & Hr' & Hlen & Hr1 & Hshort).
  rewrite Hr in Hr'. injection Hr' as <-.
  destruct (Z.eq_dec (24 - sum r) 0) as [Hz|Hnz].
  - exists r. split; [apply allocator_no_remainder; [exact Hr|lia]|].
    split; [exact Hlen|]. split; [exact Hr1|lia].
  - destruct (allocator_remainder arr r 24 Hr) as (res & Hres & Hlen' & Hsum & Hget); [lia|].
    exists res. split; [exact Hres|]. split; [lia|]. split; [|exact Hsum].
    eapply allocator_pos, Hres.
Qed.

(** X4.  Where the exact share [24 * w / total] of every weight is at least
    one unit, no width is raised by the clamp beyond its share, the
    shortfall is not negative, and the widths sum exactly to 24. *)
Theorem fair_shares_fill_the_row (arr : list Z) :
  arr <> [] -> Forall (fun w => 1 <= w /\ sum arr <= 24 * w) arr ->
  sum arr <= weight_bound ->
  exists r res,
    raw_widths arr 24 = OK r /\ 0 <= 24 - sum r /\
    _create_width_units_array arr 24 = OK res /\
    length res = length arr /\
    Forall (fun u => 1 <= u) res /\
    sum res = 24.
Proof.
  intros Hne Hpos HS.
  destruct (fair_shares_shortfall arr Hne Hpos HS) as (r & Hr & Hd).
  destruct (fair_shares arr Hne Hpos HS) as (res & Hres).
  exists r, res. split; [exact Hr|]. split; [exact Hd|]. exact Hres.
Qed.

Lemma fair_shares_fill_the_row_witness :
  [1; 2; 2] <> [] /\
  Forall (fun w => 1 <= w /\ sum [1; 2; 2] <= 24 * w) [1; 2; 2] /\
  sum [1; 2; 2] <= weight_bound /\
  exists r res,
    raw_widths [1; 2; 2] 24 = OK r /\ 0 <= 24 - sum r /\
    _create_width_units_array [1; 2; 2] 24 = OK res /\
    length res = length [1; 2; 2] /\
    Forall (fun u => 1 <= u) res /\
    sum res = 24.
Proof.
  assert (H1 : [1; 2; 2] <> @nil Z) by discriminate.
  assert (H2 : Forall (fun w => 1 <= w /\ sum [1; 2; 2] <= 24 * w) [1; 2; 2])
    by (repeat constructor; vm_compute; discriminate).
  assert (H3 : sum [1; 2; 2] <= weight_bound) by (vm_compute; discriminate).
  split; [exact H1|]. split; [exact H2|]. split; [exact H3|].
  exact (fair_shares_fill_the_row [1; 2; 2] H1 H2 H3).
Defined.

Lemma small_rows_have_fair_shares (sizes : list PanelSize) :
  sizes <> [] -> (length sizes <= 6)%nat ->
  value <$> sizes <> [] /\
  Forall (fun w => 1 <= w /\ sum (value <$> sizes) <= 24 * w) (value <$> sizes) /\
  sum (value <$> sizes) <= weight_bound.
Proof.
  intros Hne Hlen. pose proof (sum_values_le sizes) as Hsum.
  split; [destruct sizes; [contradiction|discriminate]|]. split.
  - apply Forall_fmap, Forall_forall. intros size _. cbn.
    pose proof (value_bounds size). lia.
  - change weight_bound with 140737488355328. lia.
Qed.

(** ** The widths against the weights *)

Lemma comprehension_lookup {A B} (f : A -> res B) (l : list A) (r : list B) (i : nat) (x : A) :
  comprehension f l = OK r -> l !! i = Some x ->
  exists y, r !! i = Some y /\ f x = OK y.
Proof.
  revert r i. induction l as [|a l IH]; intros r i H Hi; [discriminate|].
  cbn [comprehension] in H.
  destruct (f a) as [b|] eqn:Hb; [|discriminate]. cbn [res_bind] in H.
  destruct (comprehension f l) as [bs|] eqn:Hbs; [|discriminate]. cbn [res_bind] in H.
  injection H as <-. destruct i as [|i].
  - injection Hi as <-. exists b. split; [reflexivity|exact Hb].
  - apply (IH bs i eq_refl Hi).
Qed.

Lemma comprehension_replicate {A B} (f : A -> res B) (n : nat) (x : A) (y : B) :
  f x = OK y -> comprehension f (replicate n x) = OK (replicate n y).
Proof.
  intros H. induction n as [|n IH]; [reflexivity|].
  cbn [replicate comprehension]. rewrite H, IH. reflexivity.
Qed.

(** The raw widths grow with the weights. *)
Lemma raw_width_mono (S w w' r r' : Z) :
  1 <= w -> w <= w' -> w' <= S -> S <= weight_bound ->
  raw_width 24 S w = OK r -> raw_width 24 S w' = OK r' -> r <= r'.
Proof.
  intros Hw Hww' Hw' HS Hr Hr'.
  destruct (Z.eq_dec w w') as [<-|Hne]; [rewrite Hr in Hr'; injection Hr' as <-; lia|].
  destruct (raw_floor_near S w ltac:(lia) HS) as (f & Hf & Hnear).
  destruct (raw_floor_near S w' ltac:(lia) HS) as (f' & Hf' & Hnear').
  unfold raw_width in Hr, Hr'. rewrite Hf in Hr. rewrite Hf' in Hr'.
  cbn [res_bind] in Hr, Hr'. injection Hr as <-. injection Hr' as <-.
  assert (HS0 : 0 < S) by lia.
  assert (Hdiv : 24 * w / S <= 24 * w' / S) by (apply Z.div_le_mono; lia).
  assert (f <= 24 * w / S) by (destruct Hnear as [->|[-> _]]; lia).
  destruct Hnear' as [->|[-> Hmod]]; [lia|].
  apply Z.div_exact in Hmod; [|lia].
  assert (24 * w / S < 24 * w' / S); [|lia].
  apply Z.div_lt_upper_bound; [lia|]. lia.
Qed.

(** The result against the raw widths: the raw widths where there is no
    remainder, and one unit more on the first indices of the sorted order
    where there is one. *)
Lemma allocator_result (arr : list Z) :
  arr <> [] -> Forall (fun w => 1 <= w) arr -> sum arr <= weight_bound ->
  exists r res,
    raw_widths arr 24 = OK r /\
    _create_width_units_array arr 24 = OK res /\
    length r = length arr /\ length res = length arr /\
    Forall (fun u => 1 <= u) r /\
    24 - sum r <= Z.of_nat (length arr) /\
    sum res = Z.max 24 (sum r) /\
    forall j v, r !! j = Some v ->
      res !! j = Some (if decide (j ∈ take (Z.to_nat (24 - sum r)) (sorted_indices r))
                       then v + 1 else v).
Proof.
  intros Hne Hpos HS.
  destruct (raw_widths_ok arr Hne Hpos HS) as (r & Hr & Hlen & Hr1 & Hshort).
  destruct (Z_lt_le_dec 0 (24 - sum r)) as [Hd|Hd].
  - destruct (allocator_remainder arr r 24 Hr) as (res & Hres & Hlen' & Hsum & Hget); [lia|].
    exists r, res. repeat split; try assumption; try lia.
  - exists r, r. pose proof (allocator_no_remainder arr r 24 Hr Hd) as Hres.
    repeat split; try assumption; try lia.
    intros j v Hj. replace (Z.to_nat (24 - sum r)) with 0%nat by lia.
    rewrite take_0. rewrite decide_False by apply not_elem_of_nil. exact Hj.
Qed.

(** X5.  For positive weights the allocator returns, and it never leaves a
    part of the row unused: the widths sum to 24, or to the sum of the raw
    widths where the clamp has carried that sum beyond 24. *)
Theorem allocator_never_underfills (arr : list Z) :
  arr <> [] -> Forall (fun w => 1 <= w) arr -> sum arr <= weight_bound ->
  exists r res,
    raw_widths arr 24 = OK r /\
    _create_width_units_array arr 24 = OK res /\
    sum res = Z.max 24 (sum r) /\
    24 <= sum res.
Proof.
  intros Hne Hpos HS.
  destruct (allocator_result arr Hne Hpos HS) as (r & res & Hr & Hres & _ & _ & _ & _ & Hsum & _).
  exists r, res. split; [exact Hr|]. split; [exact Hres|]. split; [exact Hsum|lia].
Qed.

Lemma allocator_never_underfills_witness :
  [1; 1; 1; 1; 4; 4; 4; 4; 4; 4; 4] <> [] /\
  Forall (fun w => 1 <= w) [1; 1; 1; 1; 4; 4; 4; 4; 4; 4; 4] /\
  sum [1; 1; 1; 1; 4; 4; 4; 4; 4; 4; 4] <= weight_bound /\
  exists r res,
    raw_widths [1; 1; 1; 1; 4; 4; 4; 4; 4; 4; 4] 24 = OK r /\
    _create_width_units_array [1; 1; 1; 1; 4; 4; 4; 4; 4; 4; 4] 24 = OK res /\
    sum res = Z.max 24 (sum r) /\
    24 <= sum res.
Proof.
  assert (H1 : [1; 1; 1; 1; 4; 4; 4; 4; 4; 4; 4] <> @nil Z) by discriminate.
  assert (H2 : Forall (fun w => 1 <= w) [1; 1; 1; 1; 4; 4; 4; 4; 4; 4; 4])
    by (repeat constructor; lia).
  assert (H3 : sum [1; 1; 1; 1; 4; 4; 4; 4; 4; 4; 4] <= weight_bound)
    by (vm_compute; discriminate).
  split; [exact H1|]. split; [exact H2|]. split; [exact H3|].
  exact (allocator_never_underfills _ H1 H2 H3).
Defined.

(** X6.  A panel of a larger weight is never more than one unit narrower
    than a panel of a smaller weight, and of two panels of the same weight
    the earlier one is as wide as the later one, or one unit wider. *)
Theorem heavier_is_not_narrower (arr res : list Z) (i j : nat) (wi wj ui uj : Z) :
  Forall (fun w => 1 <= w) arr -> sum arr <= weight_bound ->
  _create_width_units_array arr 24 = OK res ->
  arr !! i = Some wi -> arr !! j = Some wj ->
  res !! i = Some ui -> res !! j = Some uj ->
  wi <= wj ->
  ui <= uj + 1 /\
  (wi = wj -> (i <= j)%nat -> uj <= ui).
Proof.
  intros Hpos HS Hres Hwi Hwj Hui Huj Hle.
  assert (Hne : arr <> []) by (intros ->; discriminate).
  destruct (allocator_result arr Hne Hpos HS)
    as (r & res' & Hr & Hres' & Hlen & Hlen' & Hr1 & Hshort & Hsum & Hget).
  rewrite Hres in Hres'. injection Hres' as <-.
  unfold raw_widths in Hr.
  destruct (comprehension_lookup _ _ _ i wi Hr Hwi) as (ri & Hri & Hrwi).
  destruct (comprehension_lookup _ _ _ j wj Hr Hwj) as (rj & Hrj & Hrwj).
  assert (Hwj' : wj <= sum arr)
    by (apply elem_le_sum; [exact Hpos|eapply list_elem_of_lookup_2, Hwj]).
  assert (Hwi1 : 1 <= wi)
    by (eapply (proj1 (Forall_forall _ _) Hpos), list_elem_of_lookup_2, Hwi).
  pose proof (raw_width_mono _ _ _ _ _ Hwi1 Hle Hwj' HS Hrwi Hrwj) as Hmono.
  rewrite (Hget i ri Hri) in Hui. rewrite (Hget j rj Hrj) in Huj.
  injection Hui as <-. injection Huj as <-.
  set (d := Z.to_nat (24 - sum r)) in *.
  split; [repeat destruct (decide _); lia|].
  intros Heq Hij. subst wj. rewrite Hrwi in Hrwj. injection Hrwj as <-.
  destruct (decide (j ∈ take d (sorted_indices r))) as [Hj|Hj]; [|destruct (decide _); lia].
  rewrite decide_True; [lia|].
  destruct (decide (i = j)) as [->|Hne']; [exact Hj|].
  assert (Hin : i ∈ sorted_indices r).
  { apply sorted_indices_perm'. now apply lookup_lt_Some in Hri. }
  rewrite <- (take_drop d (sorted_indices r)) in Hin.
  apply elem_of_app in Hin as [Hin|Hin]; [exact Hin|exfalso].
  pose proof (sorted_indices_sorted r) as Hs.
  rewrite <- (take_drop d (sorted_indices r)) in Hs.
  assert (Hb : before (fun k => default 0 (r !! k)) j i)
    by (eapply StronglySorted_app_1_elem_of; eassumption).
  unfold before in Hb. rewrite Hri, Hrj in Hb. cbn in Hb. lia.
Qed.

Lemma heavier_is_not_narrower_witness :
  Forall (fun w => 1 <= w) [2; 1; 2; 2] /\ sum [2; 1; 2; 2] <= weight_bound /\
  _create_width_units_array [2; 1; 2; 2] 24 = OK [7; 3; 7; 7] /\
  1 <= 2 /\
  3 <= 7 + 1 /\ (1 = 2 -> (1 <= 3)%nat -> 7 <= 3).
Proof.
  assert (H1 : Forall (fun w => 1 <= w) [2; 1; 2; 2]) by (repeat constructor; lia).
  assert (H2 : sum [2; 1; 2; 2] <= weight_bound) by (vm_compute; discriminate).
  assert (H3 : _create_width_units_array [2; 1; 2; 2] 24 = OK [7; 3; 7; 7])
    by (vm_compute; reflexivity).
  assert (H4 : 1 <= 2) by lia.
  split; [exact H1|]. split; [exact H2|]. split; [exact H3|]. split; [exact H4|].
  exact (heavier_is_not_narrower [2; 1; 2; 2] [7; 3; 7; 7] 1 3 1 2 3 7 H1 H2 H3
           eq_refl eq_refl eq_refl eq_refl H4).
Defined.

Lemma sorted_indices_replicate (n : nat) (v : Z) :
  sorted_indices (replicate n v) = seq 0 n.
Proof.
  unfold sorted_indices. rewrite length_replicate.
  apply sorted_desc_equal_keys. intros i j Hi Hj.
  apply elem_of_seq in Hi, Hj.
  rewrite !lookup_replicate_2 by lia. reflexivity.
Qed.

(** X7.  A row of [n] panels of one weight, for [n] from 1 to 24: every
    panel gets [24 / n] units, and the first [24 mod n] panels one unit
    more. *)
Theorem equal_weights_share_evenly (n : nat) (w : Z) :
  (1 <= n <= 24)%nat -> 1 <= w -> Z.of_nat n * w <= weight_bound ->
  _create_width_units_array (replicate n w) 24 =
    OK ((fun j : nat =>
           24 / Z.of_nat n + (if Z.of_nat j <? 24 mod Z.of_nat n then 1 else 0))
          <$> seq 0 n).
Proof.
  intros Hn Hw HS.
  set (N := Z.of_nat n) in *.
  assert (HN : 1 <= N <= 24) by (unfold N; lia).
  assert (Hne : replicate n w <> []) by (destruct n; [lia|discriminate]).
  assert (Hpos : Forall (fun w => 1 <= w) (replicate n w))
    by (apply Forall_replicate; exact Hw).
  assert (Hsum : sum (replicate n w) = N * w) by apply sum_replicate.
  destruct (allocator_result (replicate n w) Hne Hpos ltac:(lia))
    as (r & res & Hr & Hres & Hlen & Hlen' & Hr1 & Hshort & _ & Hget).
  rewrite Hres. f_equal.
  rewrite length_replicate in Hlen, Hlen', Hshort.
  (* the raw widths *)
  destruct (raw_floor_near (N * w) w ltac:(nia) HS) as (f & Hf & Hnear).
  assert (Hrw : raw_width 24 (N * w) w = OK (Z.max 1 f))
    by (unfold raw_width; rewrite Hf; reflexivity).
  unfold raw_widths in Hr. rewrite Hsum in Hr.
  rewrite (comprehension_replicate _ n w _ Hrw) in Hr. injection Hr as <-.
  rewrite sum_replicate in Hget, Hshort. fold N in Hget, Hshort.
  rewrite sorted_indices_replicate in Hget.
  (* the exact share *)
  replace (24 * w / (N * w)) with (24 / N) in Hnear by (rewrite Z.div_mul_cancel_r; lia).
  replace ((24 * w) mod (N * w)) with (24 mod N * w) in Hnear
    by (rewrite Z.mul_mod_distr_r; lia).
  pose proof (Z.div_mod 24 N ltac:(lia)) as Hdm.
  pose proof (Z.mod_pos_bound 24 N ltac:(lia)) as Hm.
  assert (Hq : 1 <= 24 / N) by (apply Z.div_le_lower_bound; lia).
  set (q := 24 / N) in *. set (m := 24 mod N) in *.
  set (v := Z.max 1 f) in *.
  assert (Hcases : (v = q /\ 24 - N * v = m) \/ (v = q - 1 /\ m = 0 /\ 24 - N * v = N)).
  { destruct Hnear as [->|[-> Hmod]].
    - left. unfold v. split; [lia|]. rewrite Z.max_r by lia. lia.
    - assert (m = 0) by nia.
      destruct (Z.eq_dec q 1) as [Hq1|Hq1].
      + left. unfold v. rewrite Hq1. split; [lia|]. change (Z.max 1 (1 - 1)) with 1. lia.
      + right. unfold v. rewrite Z.max_r by lia. split; [lia|]. split; [assumption|]. lia. }
  apply list_eq. intros j.
  destruct (decide (j < n)%nat) as [Hj|Hj].
  - rewrite (Hget j v) by (apply lookup_replicate_2; exact Hj).
    rewrite list_lookup_fmap, lookup_seq_lt by exact Hj. cbn [fmap option_fmap option_map].
    f_equal. cbn [Nat.add].
    assert (Hd : 0 <= 24 - N * v <= N) by (destruct Hcases as [[_ ->]|(_ & _ & ->)]; lia).
    rewrite take_seq.
    destruct (decide (j ∈ seq 0 (Z.to_nat (24 - N * v) `min` n))) as [Hin|Hin];
      rewrite elem_of_seq in Hin;
      destruct (Z.ltb_spec (Z.of_nat j) m);
      destruct Hcases as [[Hv Hdm']|(Hv & Hm0 & Hdm')]; lia.
  - rewrite lookup_ge_None_2 by lia.
    rewrite list_lookup_fmap, lookup_seq_ge by lia. reflexivity.
Qed.

Lemma equal_weights_share_evenly_witness :
  (1 <= 5 <= 24)%nat /\ 1 <= 3 /\ Z.of_nat 5 * 3 <= weight_bound /\
  _create_width_units_array (replicate 5 3) 24 = OK [5; 5; 5; 5; 4].
Proof.
  assert (H1 : (1 <= 5 <= 24)%nat) by lia.
  assert (H2 : 1 <= 3) by lia.
  assert (H3 : Z.of_nat 5 * 3 <= weight_bound) by (vm_compute; discriminate).
  split; [exact H1|]. split; [exact H2|]. split; [exact H3|].
  exact (equal_weights_share_evenly 5 3 H1 H2 H3).
Defined.

(** ** The floating-point quotient *)

(** X8.  [floor(24 / S * w)], as the code computes it in binary64 with two
    roundings, against the exact quotient: it is never above the floor of
    [24 * w / S], and it is below it, by one, only where [S] divides
    [24 * w]; this does happen: [floor(24 / 47 * 47)] is 23. *)
Theorem float_floor_of_a_share (S w : Z) :
  1 <= w <= S -> S <= weight_bound ->
  (exists f,
     raw_floor 24 S w = OK f /\
     24 * w / S - 1 <= f <= 24 * w / S /\
     (f <> 24 * w / S -> (24 * w) mod S = 0)) /\
  raw_floor 24 47 47 = OK 23.
Proof.
  intros Hw HS. split; [|vm_compute; reflexivity].
  destruct (raw_floor_near S w Hw HS) as (f & Hf & Hnear).
  exists f. split; [exact Hf|].
  destruct Hnear as [->|[-> Hmod]]; (split; [lia|]); [intros H; contradiction|intros _; exact Hmod].
Qed.

Lemma float_floor_of_a_share_witness :
  1 <= 2 <= 7 /\ 7 <= weight_bound /\
  exists f, raw_floor 24 7 2 = OK f /\ 24 * 2 / 7 - 1 <= f <= 24 * 2 / 7.
Proof.
  assert (H1 : 1 <= 2 <= 7) by lia.
  assert (H2 : 7 <= weight_bound) by (vm_compute; discriminate).
  split; [exact H1|]. split; [exact H2|].
  destruct (proj1 (float_floor_of_a_share 7 2 H1 H2)) as (f & Hf & Hb & _).
  exists f. split; [exact Hf|exact Hb].
Defined.

(** ** The store after a group was built *)

Lemma write_all_cons (w : positive * GridPos.t) (ws : list (positive * GridPos.t))
    (st : gmap positive GridPos.t) :
  write_all (w :: ws) st = write_all ws (<[w.1 := w.2]> st).
Proof. reflexivity. Qed.

Lemma write_all_snoc (w : positive * GridPos.t) (ws : list (positive * GridPos.t))
    (st : gmap positive GridPos.t) :
  write_all (ws ++ [w]) st = <[w.1 := w.2]> (write_all ws st).
Proof. now rewrite write_all_app. Qed.

Lemma write_all_notin (ws : list (positive * GridPos.t)) (st : gmap positive GridPos.t)
    (o : positive) :
  o ∉ ws.*1 -> write_all ws st !! o = st !! o.
Proof.
  revert st. induction ws as [|w ws IH]; intros st Ho; [reflexivity|].
  rewrite fmap_cons, not_elem_of_cons in Ho. destruct Ho as [Hne Ho].
  rewrite write_all_cons, IH by exact Ho. now rewrite lookup_insert_ne.
Qed.

(** An object that is written holds the rectangle of one of its writes. *)
Lemma write_all_written (ws : list (positive * GridPos.t)) (st : gmap positive GridPos.t)
    (o : positive) :
  o ∈ ws.*1 -> exists gp, (o, gp) ∈ ws /\ write_all ws st !! o = Some gp.
Proof.
  induction ws as [|w ws IH] using rev_ind; intros Ho; [inversion Ho|].
  rewrite write_all_snoc. destruct (decide (w.1 = o)) as [<-|Hne].
  - exists w.2. rewrite lookup_insert_eq. split; [|reflexivity].
    apply elem_of_app. right. destruct w. apply list_elem_of_here.
  - rewrite lookup_insert_ne by exact Hne.
    rewrite fmap_app, elem_of_app in Ho. destruct Ho as [Ho|Ho].
    + destruct (IH Ho) as (gp & Hin & Hgp). exists gp. split; [|exact Hgp].
      apply elem_of_app. now left.
    + cbn in Ho. apply list_elem_of_singleton in Ho. congruence.
Qed.

(** With no object written twice, an object holds the rectangle of its
    write. *)
Lemma write_all_in (ws : list (positive * GridPos.t)) (st : gmap positive GridPos.t)
    (o : positive) (gp : GridPos.t) :
  NoDup ws.*1 -> (o, gp) ∈ ws -> write_all ws st !! o = Some gp.
Proof.
  intros Hnd Hin.
  destruct (write_all_written ws st o) as (gp' & Hin' & Hgp).
  { apply list_elem_of_fmap. exists (o, gp). split; [reflexivity|exact Hin]. }
  rewrite Hgp. f_equal.
  apply list_elem_of_lookup in Hin as [i Hi]. apply list_elem_of_lookup in Hin' as [i' Hi'].
  assert (i = i').
  { eapply NoDup_lookup; [exact Hnd| |]; rewrite list_lookup_fmap.
    - rewrite Hi. reflexivity.
    - rewrite Hi'. reflexivity. }
  subst i'. congruence.
Qed.

Lemma positions_length (self : PanelGroup.t) (widths : list (list Z)) :
  length (positions self widths) = length (concat widths).
Proof.
  unfold positions.
  pose proof (concat_take_imap_length (row_rects self) widths (length widths)) as H.
  rewrite !take_ge in H by (rewrite ?length_imap; lia).
  apply H. intros. apply length_imap.
Qed.

Lemma concat_lookup_inv {A} (ls : list (list A)) (i : nat) (x : A) :
  concat ls !! i = Some x ->
  exists r c l,
    ls !! r = Some l /\ l !! c = Some x /\ i = (length (concat (take r ls)) + c)%nat.
Proof.
  revert i. induction ls as [|l ls IH]; intros i H; [discriminate|].
  cbn [concat] in H. apply lookup_app_Some in H as [H|[Hle H]].
  - exists 0%nat, i, l. split; [reflexivity|]. split; [exact H|reflexivity].
  - destruct (IH _ H) as (r & c & l' & Hr & Hc & Hi).
    exists (S r), c, l'. split; [exact Hr|]. split; [exact Hc|].
    cbn [take concat]. rewrite length_app. lia.
Qed.

Lemma sum_take_S (l : list Z) (i : nat) (x : Z) :
  l !! i = Some x -> sum (take (S i) l) = sum (take i l) + x.
Proof.
  intros H. rewrite (take_S_r _ _ _ H), sum_app. cbn. lia.
Qed.

Lemma sum_nonneg (l : list Z) : Forall (fun x => 0 <= x) l -> 0 <= sum l.
Proof. induction 1 as [|x l Hx _ IH]; [reflexivity|]. rewrite sum_cons. lia. Qed.

Lemma sum_take_le (l : list Z) (a b : nat) :
  Forall (fun x => 0 <= x) l -> (a <= b)%nat -> sum (take a l) <= sum (take b l).
Proof.
  intros Hl Hab. replace b with (a + (b - a))%nat by lia.
  rewrite <- take_take_drop, sum_app.
  assert (0 <= sum (take (b - a) (drop a l))); [|lia].
  apply sum_nonneg, Forall_take, Forall_drop, Hl.
Qed.

Lemma sum_take_le_all (l : list Z) (a : nat) :
  Forall (fun x => 0 <= x) l -> sum (take a l) <= sum l.
Proof.
  intros Hl. rewrite <- (take_ge l (Nat.max a (length l))) at 2 by lia.
  apply sum_take_le; [exact Hl|lia].
Qed.

Lemma sum_succ (l : list Z) :
  sum ((fun hgt => hgt + 1) <$> l) = sum l + Z.of_nat (length l).
Proof.
  induction l as [|x l IH]; [reflexivity|]. cbn [fmap list_fmap length].
  rewrite !sum_cons, IH. lia.
Qed.

(** Where the rows are: below the origin, one under the other, and above
    the last unit of the height of the group. *)
Lemma row_y_first (self : PanelGroup.t) (r : nat) :
  Forall (fun hgt => 0 <= hgt) (PanelGroup.row_heights self) ->
  first_row_y self <= row_y self r.
Proof.
  intros Hh. unfold row_y.
  assert (0 <= sum ((fun hgt => hgt + 1) <$> take r (PanelGroup.row_heights self))); [|lia].
  apply sum_nonneg, Forall_fmap, Forall_take.
  eapply Forall_impl; [exact Hh|]. cbn. intros. lia.
Qed.

Lemma row_y_below (self : PanelGroup.t) (r r' : nat) (hgt : Z) :
  Forall (fun hgt => 0 <= hgt) (PanelGroup.row_heights self) ->
  PanelGroup.row_heights self !! r = Some hgt -> (r < r')%nat ->
  row_y self r + hgt + 1 <= row_y self r'.
Proof.
  intros Hh Hr Hlt. unfold row_y. rewrite !fmap_take.
  assert (Hh' : Forall (fun x => 0 <= x) ((fun hgt => hgt + 1) <$> PanelGroup.row_heights self)).
  { apply Forall_fmap. eapply Forall_impl; [exact Hh|]. cbn. intros. lia. }
  pose proof (sum_take_le _ (S r) r' Hh' ltac:(lia)) as Hle.
  rewrite (sum_take_S _ r (hgt + 1)) in Hle by (rewrite list_lookup_fmap, Hr; reflexivity).
  lia.
Qed.

Lemma row_y_last (self : PanelGroup.t) (r : nat) (hgt : Z) :
  Forall (fun hgt => 0 <= hgt) (PanelGroup.row_heights self) ->
  PanelGroup.row_heights self !! r = Some hgt ->
  row_y self r + hgt + 1 <=
    first_row_y self + sum (PanelGroup.row_heights self)
    + Z.of_nat (length (PanelGroup.row_heights self)).
Proof.
  intros Hh Hr.
  pose proof (row_y_below self r (length (PanelGroup.row_heights self)) hgt Hh Hr
                ltac:(eapply lookup_lt_Some, Hr)) as Hle.
  unfold row_y in Hle at 2. rewrite take_ge, sum_succ in Hle by lia. lia.
Qed.

(** The rectangle at a place of the row-major list of the positions. *)
Lemma positions_lookup_inv (self : PanelGroup.t) (widths : list (list Z))
    (i : nat) (gp : GridPos.t) :
  length widths = length (PanelGroup.row_heights self) ->
  positions self widths !! i = Some gp ->
  exists r c ws width hgt,
    widths !! r = Some ws /\ ws !! c = Some width /\
    PanelGroup.row_heights self !! r = Some hgt /\
    i = (length (concat (take r widths)) + c)%nat /\
    gp = GridPos.mk (sum (take c ws)) (row_y self r) width hgt.
Proof.
  intros Hlen Hi.
  destruct (lookup_lt_is_Some_2 (concat widths) i) as [width Hw].
  { rewrite <- (positions_length self). eapply lookup_lt_Some, Hi. }
  destruct (concat_lookup_inv _ _ _ Hw) as (r & c & ws & Hr & Hc & ->).
  destruct (lookup_lt_is_Some_2 (PanelGroup.row_heights self) r) as [hgt Hh].
  { rewrite <- Hlen. eapply lookup_lt_Some, Hr. }
  exists r, c, ws, width, hgt. repeat split; try assumption.
  rewrite (positions_lookup self widths r c ws width hgt Hr Hc Hh) in Hi. congruence.
Qed.

(** The writes of a group: the one of its header, and one for each panel. *)
Lemma writes_inv (self : PanelGroup.t) (widths : list (list Z)) (o : positive)
    (gp : GridPos.t) :
  (o, gp) ∈ writes self widths ->
  (PanelGroup.row self = Some o /\ gp = GridPos.mk 0 (PanelGroup._y self) 24 1) \/
  (exists i, PanelGroup.panels self !! i = Some o /\ positions self widths !! i = Some gp).
Proof.
  unfold writes, header_writes. intros H. apply elem_of_app in H as [H|H].
  - left. destruct (PanelGroup.row self) as [r|]; [|inversion H].
    apply list_elem_of_singleton in H. injection H as -> ->. split; reflexivity.
  - right. apply list_elem_of_lookup in H as [i Hi]. exists i.
    apply lookup_zip_with_Some in Hi as (o' & gp' & [= -> ->] & Ho & Hgp).
    split; assumption.
Qed.

(** A group that was built, with what the properties below need. *)
Lemma built_group (layout : option PanelGroup.layout_arg) (panels : list positive)
    (y : option Z) (row_heights : option PanelGroup.row_heights_arg)
    (row : option positive) (self : PanelGroup.t) (st st' : gmap positive GridPos.t) :
  PanelGroup.__init__ layout panels y row_heights row st = (OK self, st') ->
  exists widths,
    allocated (PanelGroup._layout self) widths /\
    Forall (Forall (fun u => 1 <= u)) widths /\
    st' = write_all (writes self widths) st /\
    (writes self widths).*1 = objects self /\
    length widths = length (PanelGroup.row_heights self) /\
    PanelGroup.row self = row /\ PanelGroup.panels self = panels /\
    PanelGroup._y self = default 0 y /\
    PanelGroup.height self =
      sum (PanelGroup.row_heights self) + Z.of_nat (length (PanelGroup.row_heights self))
      + (if PanelGroup.row self is Some _ then 2 else 0).
Proof.
  intros Hinit.
  destruct (init_inv _ _ _ _ _ _ _ _ Hinit) as (Hattr & widths & Hall & Hst).
  destruct (attributes_inv _ _ _ _ _ _ Hattr)
    as (lay & _ & _ & Hcount & _ & Hrhlen & Hrow & Hy & Hpanels & Hheight).
  destruct (allocated_length _ _ Hall) as [Hlen Hcat].
  exists widths. split; [exact Hall|]. split; [eapply allocated_pos, Hall|].
  split; [exact Hst|]. split; [|repeat split; try assumption; try congruence].
  - unfold writes, objects, header_writes. rewrite fmap_app. f_equal.
    + destruct (PanelGroup.row self); reflexivity.
    + apply fst_zip. rewrite positions_length, Hpanels. lia.
  - rewrite Hheight, Hrow. reflexivity.
Qed.

(** ** What a group writes, and where *)

Lemma for_eachM_frame {A S} (body : S -> A -> M S) (l : list A) (s : S)
    (st : gmap positive GridPos.t) (o : positive) :
  (forall s x st, x ∈ l -> (body s x st).2 !! o = st !! o) ->
  (for_eachM body l s st).2 !! o = st !! o.
Proof.
  revert s st. induction l as [|x l IH]; intros s st Hbody; [reflexivity|].
  cbn [for_eachM]. unfold bind.
  pose proof (Hbody s x st (list_elem_of_here _ _)) as Hx.
  destruct (body s x st) as [[s'|e] st1]; cbn [snd] in Hx.
  - rewrite IH; [exact Hx|]. intros. apply Hbody. now apply list_elem_of_further.
  - exact Hx.
Qed.

Lemma place_frame (self : PanelGroup.t) (r : nat) (cy : Z) (s : Z * nat) (width : Z)
    (st : gmap positive GridPos.t) (o : positive) :
  o ∉ PanelGroup.panels self ->
  (PanelGroup.place self r cy s width st).2 !! o = st !! o.
Proof.
  intros Ho. destruct s as [x k]. unfold PanelGroup.place, bind, lift, getitem.
  destruct (PanelGroup.panels self !! k) as [panel|] eqn:Hk; [|reflexivity].
  destruct (PanelGroup.row_heights self !! r) as [hgt|]; [|reflexivity].
  cbn. apply lookup_insert_ne. intros ->. apply Ho. eapply list_elem_of_lookup_2, Hk.
Qed.

Lemma place_row_frame (self : PanelGroup.t) (s : nat * Z) (item : nat * list PanelSize)
    (st : gmap positive GridPos.t) (o : positive) :
  o ∉ PanelGroup.panels self ->
  (PanelGroup.place_row self s item st).2 !! o = st !! o.
Proof.
  intros Ho. destruct s as [k cy], item as [r sizes].
  unfold PanelGroup.place_row, bind at 1, lift at 1.
  destruct (_create_width_units_array _ _) as [ws|]; [|reflexivity].
  unfold bind at 1.
  pose proof (for_eachM_frame (PanelGroup.place self r cy) ws (0, k) st o
                (fun s x st _ => place_frame self r cy s x st o Ho)) as Hloop.
  destruct (for_eachM (PanelGroup.place self r cy) ws (0, k) st) as [[s'|e] st1];
    cbn [snd] in Hloop; [|exact Hloop].
  unfold bind, lift, getitem. destruct (PanelGroup.row_heights self !! r); exact Hloop.
Qed.

Lemma compute_grid_pos_frame (self : PanelGroup.t) (st : gmap positive GridPos.t)
    (o : positive) :
  o ∉ objects self ->
  (PanelGroup._compute_grid_pos self st).2 !! o = st !! o.
Proof.
  unfold objects. intros Ho. apply not_elem_of_app in Ho as [Hrow Ho].
  unfold PanelGroup._compute_grid_pos.
  assert (Hloop : forall cy st1,
            (for_eachM (PanelGroup.place_row self) (enumerate (PanelGroup._layout self))
               (0%nat, cy) st1).2 !! o = st1 !! o).
  { intros cy st1. apply for_eachM_frame. intros s x st2 _. now apply place_row_frame. }
  destruct (PanelGroup.row self) as [r|]; unfold bind, set_gridPos, ret; cbn beta iota.
  - specialize (Hloop (PanelGroup._y self + 2)
                  (<[r := GridPos.mk 0 (PanelGroup._y self) _MAX_WIDTH 1]> st)).
    destruct (for_eachM _ _ _ _) as [[s'|e] st2]; cbn [snd] in *;
      rewrite Hloop; apply lookup_insert_ne; intros ->; apply Hrow, list_elem_of_here.
  - specialize (Hloop (PanelGroup._y self) st).
    destruct (for_eachM _ _ _ _) as [[s'|e] st2]; cbn [snd] in *; exact Hloop.
Qed.

(** X9.  Building a group touches the positions of its own panels and of
    its own row header only, whether it succeeds or fails on the way: the
    position of every other object is the one it had. *)
Theorem construction_writes_only_its_own (layout : option PanelGroup.layout_arg)
    (panels : list positive) (y : option Z)
    (row_heights : option PanelGroup.row_heights_arg) (row : option positive)
    (st : gmap positive GridPos.t) (o : positive) :
  o ∉ panels -> row <> Some o ->
  (PanelGroup.__init__ layout panels y row_heights row st).2 !! o = st !! o.
Proof.
  intros Ho Hrow. unfold PanelGroup.__init__, bind at 1, lift at 1.
  destruct (PanelGroup.attributes _ _ _ _ _) as [self|e] eqn:Hattr; [|reflexivity].
  destruct (attributes_inv _ _ _ _ _ _ Hattr)
    as (lay & _ & _ & _ & _ & _ & Hrow' & _ & Hpanels & _).
  unfold bind.
  pose proof (compute_grid_pos_frame self st o) as Hframe.
  destruct (PanelGroup._compute_grid_pos self st) as [[[]|e] st1]; cbn [snd] in *;
    apply Hframe; unfold objects; rewrite Hrow', Hpanels;
    (apply not_elem_of_app; split; [|exact Ho]);
    (destruct row as [r|]; [|apply not_elem_of_nil]);
    (intros Hin; apply list_elem_of_singleton in Hin; congruence).
Qed.

Lemma construction_writes_only_its_own_witness :
  (9%positive ∉ [1; 2; 3; 4]%positive) /\ (@None positive <> Some 9%positive) /\
  (PanelGroup.__init__ (Some (PanelGroup.Rows example_rows)) [1; 2; 3; 4]%positive
     None None None (<[9%positive := GridPos.mk 0 0 24 1]> ∅)).2 !! 9%positive =
    Some (GridPos.mk 0 0 24 1).
Proof.
  assert (H1 : 9%positive ∉ [1; 2; 3; 4]%positive).
  { intros H. repeat (apply elem_of_cons in H as [H|H]; [discriminate|]). inversion H. }
  assert (H2 : @None positive <> Some 9%positive) by discriminate.
  split; [exact H1|]. split; [exact H2|].
  rewrite (construction_writes_only_its_own (Some (PanelGroup.Rows example_rows))
             [1; 2; 3; 4]%positive None None None
             (<[9%positive := GridPos.mk 0 0 24 1]> ∅) 9%positive H1 H2).
  reflexivity.
Defined.

Lemma positions_disjoint (self : PanelGroup.t) (widths : list (list Z))
    (i j : nat) (gi gj : GridPos.t) :
  length widths = length (PanelGroup.row_heights self) ->
  Forall (Forall (fun u => 1 <= u)) widths ->
  Forall (fun hgt => 0 <= hgt) (PanelGroup.row_heights self) ->
  i <> j ->
  positions self widths !! i = Some gi -> positions self widths !! j = Some gj ->
  ~ overlap gi gj.
Proof.
  intros Hlen Hpos Hh Hij Hi Hj.
  destruct (positions_lookup_inv self widths i gi Hlen Hi)
    as (r & c & ws & width & hgt & Hr & Hc & Hhr & -> & ->).
  destruct (positions_lookup_inv self widths j gj Hlen Hj)
    as (r' & c' & ws' & width' & hgt' & Hr' & Hc' & Hhr' & -> & ->).
  unfold overlap. cbn. intros (H1 & H2 & H3 & H4).
  destruct (lt_eq_lt_dec r r') as [[Hlt|Heq]|Hgt].
  - pose proof (row_y_below self r r' hgt Hh Hhr Hlt). lia.
  - subst r'. rewrite Hr in Hr'. injection Hr' as <-.
    assert (Hws : Forall (fun x => 0 <= x) ws).
    { eapply Forall_impl; [eapply (proj1 (Forall_lookup _ _) Hpos), Hr|]. cbn. intros. lia. }
    destruct (lt_eq_lt_dec c c') as [[Hlt|Heq]|Hgt].
    + pose proof (sum_take_le ws (S c) c' Hws ltac:(lia)) as Hle.
      rewrite (sum_take_S ws c width Hc) in Hle. lia.
    + subst c'. contradiction.
    + pose proof (sum_take_le ws (S c') c Hws ltac:(lia)) as Hle.
      rewrite (sum_take_S ws c' width' Hc') in Hle. lia.
  - pose proof (row_y_below self r' r hgt' Hh Hhr' Hgt). lia.
Qed.

(** No two writes of a group to different objects overlap. *)
Lemma writes_apart (self : PanelGroup.t) (widths : list (list Z)) :
  length widths = length (PanelGroup.row_heights self) ->
  Forall (Forall (fun u => 1 <= u)) widths ->
  Forall (fun hgt => 0 <= hgt) (PanelGroup.row_heights self) ->
  forall o1 o2 gp1 gp2,
    (o1, gp1) ∈ writes self widths -> (o2, gp2) ∈ writes self widths -> o1 <> o2 ->
    ~ overlap gp1 gp2.
Proof.
  intros Hlen Hpos Hh o1 o2 gp1 gp2 Hin1 Hin2 Hne.
  assert (Hfirst : forall r, PanelGroup.row self = Some r ->
            forall i gp, positions self widths !! i = Some gp ->
            ~ overlap (GridPos.mk 0 (PanelGroup._y self) 24 1) gp /\
            ~ overlap gp (GridPos.mk 0 (PanelGroup._y self) 24 1)).
  { intros r Hr i gp Hi.
    destruct (positions_lookup_inv self widths i gp Hlen Hi)
      as (r' & c & ws & width & hgt & _ & _ & _ & _ & ->).
    pose proof (row_y_first self r' Hh) as Hge. unfold first_row_y in Hge.
    rewrite Hr in Hge. unfold overlap. cbn. lia. }
  destruct (writes_inv _ _ _ _ Hin1) as [[Hr1 ->]|(i1 & Hp1 & Hi1)];
    destruct (writes_inv _ _ _ _ Hin2) as [[Hr2 ->]|(i2 & Hp2 & Hi2)].
  - congruence.
  - apply (Hfirst o1 Hr1 i2 gp2 Hi2).
  - apply (Hfirst o2 Hr2 i1 gp1 Hi1).
  - apply (positions_disjoint self widths i1 i2); try assumption.
    intros ->. congruence.
Qed.

(** X10.  In a group that was built with row heights that are not
    negative, no two of its objects overlap: the panels of a row stand side
    by side, the rows one under the other, and the row header above them. *)
Theorem a_group_does_not_overlap (layout : option PanelGroup.layout_arg)
    (panels : list positive) (y : option Z)
    (row_heights : option PanelGroup.row_heights_arg) (row : option positive)
    (self : PanelGroup.t) (st st' : gmap positive GridPos.t) :
  PanelGroup.__init__ layout panels y row_heights row st = (OK self, st') ->
  Forall (fun hgt => 0 <= hgt) (PanelGroup.row_heights self) ->
  forall o1 o2 gp1 gp2,
    o1 ∈ objects self -> o2 ∈ objects self -> o1 <> o2 ->
    st' !! o1 = Some gp1 -> st' !! o2 = Some gp2 ->
    ~ overlap gp1 gp2.
Proof.
  intros Hinit Hh o1 o2 gp1 gp2 Ho1 Ho2 Hne Hgp1 Hgp2.
  destruct (built_group _ _ _ _ _ _ _ _ Hinit)
    as (widths & Hall & Hpos & -> & Hobj & Hlen & _).
  rewrite <- Hobj in Ho1, Ho2.
  destruct (write_all_written _ st o1 Ho1) as (gp1' & Hin1 & Hw1).
  destruct (write_all_written _ st o2 Ho2) as (gp2' & Hin2 & Hw2).
  rewrite Hw1 in Hgp1. rewrite Hw2 in Hgp2. injection Hgp1 as ->. injection Hgp2 as ->.
  exact (writes_apart self widths Hlen Hpos Hh o1 o2 gp1 gp2 Hin1 Hin2 Hne).
Qed.

Lemma example_group_distinct : NoDup (objects example_group).
Proof.
  change (objects example_group) with [1; 2; 3; 4]%positive.
  repeat (apply NoDup_cons; split;
          [rewrite ?elem_of_cons, elem_of_nil; intros H; intuition discriminate|]).
  apply NoDup_nil_2.
Qed.

Lemma a_group_does_not_overlap_witness :
  Forall (fun hgt => 0 <= hgt) (PanelGroup.row_heights example_group) /\
  ~ overlap (GridPos.mk 0 0 15 8) (GridPos.mk 15 0 9 8).
Proof.
  assert (H1 : Forall (fun hgt => 0 <= hgt) (PanelGroup.row_heights example_group))
    by (repeat constructor; discriminate).
  split; [exact H1|].
  apply (a_group_does_not_overlap _ _ _ _ _ _ _ _ example_group_built H1
           1%positive 2%positive).
  - apply list_elem_of_here.
  - apply list_elem_of_further, list_elem_of_here.
  - discriminate.
  - reflexivity.
  - reflexivity.
Defined.

(** Every write of a group lies in the box of the group. *)
Lemma writes_in_box (self : PanelGroup.t) (widths : list (list Z)) :
  allocated (PanelGroup._layout self) widths ->
  length widths = length (PanelGroup.row_heights self) ->
  Forall (Forall (fun u => 1 <= u)) widths ->
  Forall (fun hgt => 0 <= hgt) (PanelGroup.row_heights self) ->
  PanelGroup.height self =
    sum (PanelGroup.row_heights self) + Z.of_nat (length (PanelGroup.row_heights self))
    + (if PanelGroup.row self is Some _ then 2 else 0) ->
  forall o gp, (o, gp) ∈ writes self widths ->
    0 <= GridPos.x gp /\ 1 <= GridPos.w gp /\ 0 <= GridPos.h gp /\
    PanelGroup._y self <= GridPos.y gp /\
    GridPos.y gp + GridPos.h gp < PanelGroup._y self + PanelGroup.height self /\
    (Forall (fun sizes => (length sizes <= 6)%nat) (PanelGroup._layout self) ->
     GridPos.x gp + GridPos.w gp <= 24).
Proof.
  intros Hall Hlen Hpos Hh Hheight o gp Hin.
  pose proof (sum_nonneg _ Hh) as Hsum. rewrite Hheight.
  destruct (writes_inv _ _ _ _ Hin) as [[Hr ->]|(i & Hp & Hi)].
  - cbn. rewrite Hr. repeat split; try lia.
  - destruct (positions_lookup_inv self widths i gp Hlen Hi)
      as (r & c & ws & width & hgt & Hr & Hc & Hhr & _ & ->).
    cbn.
    assert (Hws1 : Forall (fun u => 1 <= u) ws)
      by (eapply (proj1 (Forall_lookup _ _) Hpos), Hr).
    assert (Hws : Forall (fun x => 0 <= x) ws)
      by (eapply Forall_impl; [exact Hws1|]; cbn; intros; lia).
    pose proof (row_y_first self r Hh) as Hfirst.
    pose proof (row_y_last self r hgt Hh Hhr) as Hlast.
    unfold first_row_y in Hfirst, Hlast.
    split; [apply sum_nonneg, Forall_take, Hws|].
    split; [eapply (proj1 (Forall_lookup _ _) Hws1), Hc|].
    split; [eapply (proj1 (Forall_lookup _ _) Hh), Hhr|].
    split; [destruct (PanelGroup.row self); lia|].
    split; [destruct (PanelGroup.row self); lia|].
    intros Hsix.
    destruct (Forall2_lookup_r _ _ _ _ _ Hall Hr) as (sizes & Hsizes & Hws').
    assert (Hne : sizes <> []).
    { intros ->. apply allocator_length in Hws'. apply lookup_lt_Some in Hc.
      cbn in Hws'. lia. }
    destruct (small_rows_have_fair_shares sizes Hne
                (proj1 (Forall_lookup _ _) Hsix _ _ Hsizes)) as (H1 & H2 & H3).
    destruct (fair_shares _ H1 H2 H3) as (res & Hres & _ & _ & H24).
    rewrite Hws' in Hres. injection Hres as <-.
    rewrite <- (sum_take_S ws c width Hc), <- H24. apply sum_take_le_all, Hws.
Qed.

(** X11.  Every object of a group that was built with row heights that are
    not negative lies in the box of the group: its rectangle begins at or
    below the origin of the group and ends above the last unit of the height
    of the group, which is left as spacing; it begins at a column that is
    not negative and is at least one unit wide; and where no row has more
    than 6 panels it ends within the 24 columns. *)
Theorem a_group_stays_in_its_box (layout : option PanelGroup.layout_arg)
    (panels : list positive) (y : option Z)
    (row_heights : option PanelGroup.row_heights_arg) (row : option positive)
    (self : PanelGroup.t) (st st' : gmap positive GridPos.t) :
  PanelGroup.__init__ layout panels y row_heights row st = (OK self, st') ->
  Forall (fun hgt => 0 <= hgt) (PanelGroup.row_heights self) ->
  forall o, o ∈ objects self ->
    exists gp,
      st' !! o = Some gp /\
      0 <= GridPos.x gp /\ 1 <= GridPos.w gp /\ 0 <= GridPos.h gp /\
      PanelGroup._y self <= GridPos.y gp /\
      GridPos.y gp + GridPos.h gp < PanelGroup._y self + PanelGroup.get_height self /\
      (Forall (fun sizes => (length sizes <= 6)%nat) (PanelGroup._layout self) ->
       GridPos.x gp + GridPos.w gp <= 24).
Proof.
  intros Hinit Hh o Ho.
  destruct (built_group _ _ _ _ _ _ _ _ Hinit)
    as (widths & Hall & Hpos & -> & Hobj & Hlen & _ & _ & _ & Hheight).
  rewrite <- Hobj in Ho.
  destruct (write_all_written _ st o Ho) as (gp & Hin & Hw).
  exists gp. split; [exact Hw|].
  exact (writes_in_box self widths Hall Hlen Hpos Hh Hheight o gp Hin).
Qed.

Lemma a_group_stays_in_its_box_witness :
  Forall (fun hgt => 0 <= hgt) (PanelGroup.row_heights example_group) /\
  2%positive ∈ objects example_group /\
  exists gp,
    (<[4%positive := GridPos.mk 12 9 12 8]>
     (<[3%positive := GridPos.mk 0 9 12 8]>
     (<[2%positive := GridPos.mk 15 0 9 8]>
     (<[1%positive := GridPos.mk 0 0 15 8]> (∅ : gmap positive GridPos.t))))) !! 2%positive
      = Some gp /\
    0 <= GridPos.x gp /\ 1 <= GridPos.w gp /\ 0 <= GridPos.h gp /\
    PanelGroup._y example_group <= GridPos.y gp /\
    GridPos.y gp + GridPos.h gp < PanelGroup._y example_group + PanelGroup.get_height example_group.
Proof.
  assert (H1 : Forall (fun hgt => 0 <= hgt) (PanelGroup.row_heights example_group))
    by (repeat constructor; discriminate).
  assert (H2 : 2%positive ∈ objects example_group)
    by apply list_elem_of_further, list_elem_of_here.
  split; [exact H1|]. split; [exact H2|].
  destruct (a_group_stays_in_its_box _ _ _ _ _ _ _ _ example_group_built H1 2%positive H2)
    as (gp & Hgp & Hx & Hw & Hh & Hy & Hyh & _).
  exists gp. repeat split; assumption.
Defined.

(** ** Moving a group *)

(** The writes of a group at another origin: the same, moved. *)
Lemma positions_moved (self : PanelGroup.t) (y : Z) (widths : list (list Z)) :
  positions (PanelGroup.with_y self y) widths =
    move_down (y - PanelGroup._y self) <$> positions self widths.
Proof.
  unfold positions. rewrite fmap_concat, fmap_imap. f_equal.
  apply imap_ext. intros r ws _. unfold compose, row_rects. rewrite fmap_imap.
  apply imap_ext. intros c width _. unfold compose, rect_in_row, move_down.
  cbn. f_equal. unfold row_y, first_row_y. cbn. lia.
Qed.

Lemma writes_moved (self : PanelGroup.t) (y : Z) (widths : list (list Z)) :
  writes (PanelGroup.with_y self y) widths =
    (fun w => (w.1, move_down (y - PanelGroup._y self) w.2)) <$> writes self widths.
Proof.
  unfold writes. rewrite fmap_app, positions_moved, zip_fmap_r. f_equal.
  unfold header_writes. cbn. destruct (PanelGroup.row self); [|reflexivity].
  cbn. unfold move_down. cbn. do 3 f_equal. lia.
Qed.

Lemma moved_writes_fst (delta : Z) (ws : list (positive * GridPos.t)) :
  ((fun w => (w.1, move_down delta w.2)) <$> ws).*1 = ws.*1.
Proof. rewrite <- list_fmap_compose. apply list_fmap_ext. intros _ [o gp] _. reflexivity. Qed.

(** Moving the objects that were written, each listed once, is writing
    the moved rectangles. *)
Lemma shift_all_write_all (ws : list (positive * GridPos.t)) (delta : Z)
    (st : gmap positive GridPos.t) :
  NoDup ws.*1 ->
  shift_all ws.*1 delta (write_all ws st) =
    write_all ((fun w => (w.1, move_down delta w.2)) <$> ws) st.
Proof.
  intros Hnd. apply map_eq. intros o.
  destruct (decide (o ∈ ws.*1)) as [Hin|Hnin].
  - rewrite shift_all_in by assumption.
    destruct (write_all_written ws st o Hin) as (gp & Hgp & ->). cbn.
    symmetry. apply write_all_in.
    + now rewrite moved_writes_fst.
    + apply list_elem_of_fmap. exists (o, gp). split; [reflexivity|exact Hgp].
  - rewrite shift_all_notin by assumption.
    rewrite !write_all_notin; [reflexivity|now rewrite moved_writes_fst|assumption].
Qed.

Lemma built_positioned (layout : option PanelGroup.layout_arg) (panels : list positive)
    (y : option Z) (row_heights : option PanelGroup.row_heights_arg)
    (row : option positive) (self : PanelGroup.t) (st st' : gmap positive GridPos.t) :
  PanelGroup.__init__ layout panels y row_heights row st = (OK self, st') ->
  Forall (fun o => is_Some (st' !! o)) (objects self).
Proof.
  intros Hinit.
  destruct (built_group _ _ _ _ _ _ _ _ Hinit) as (widths & _ & _ & -> & Hobj & _).
  apply Forall_forall. intros o Ho. rewrite <- Hobj in Ho.
  destruct (write_all_written _ st o Ho) as (gp & _ & ->). now exists gp.
Qed.

(** X12.  A group that was built can be moved to any origin that is not
    negative: [set_y] returns; and where no object is listed twice, building
    the group and moving it to [y] leaves the group and every position as
    building it at [y] does. *)
Theorem build_then_move (layout : option PanelGroup.layout_arg)
    (panels : list positive) (y0 : option Z)
    (row_heights : option PanelGroup.row_heights_arg) (row : option positive)
    (self : PanelGroup.t) (st st1 : gmap positive GridPos.t) (y : Z) :
  PanelGroup.__init__ layout panels y0 row_heights row st = (OK self, st1) ->
  0 <= y ->
  (exists st2, PanelGroup.set_y self y st1 = (OK (PanelGroup.with_y self y), st2)) /\
  (NoDup (objects self) ->
   PanelGroup.set_y self y st1 =
     PanelGroup.__init__ layout panels (Some y) row_heights row st).
Proof.
  intros Hinit Hy.
  pose proof (built_positioned _ _ _ _ _ _ _ _ Hinit) as Hready.
  rewrite (set_y_spec self y st1 Hy Hready).
  split; [eexists; reflexivity|]. intros Hnd.
  destruct (built_group _ _ _ _ _ _ _ _ Hinit)
    as (widths & Hall & _ & -> & Hobj & _).
  destruct (init_inv _ _ _ _ _ _ _ _ Hinit) as (Hattr & _).
  pose proof (attributes_with_y _ _ _ y _ _ _ Hattr) as Hattr'.
  rewrite (init_returns layout panels (Some y) row_heights row
             (PanelGroup.with_y self y) widths st Hattr' Hall).
  f_equal. rewrite writes_moved, <- Hobj. apply shift_all_write_all.
  now rewrite Hobj.
Qed.

Lemma build_then_move_witness :
  0 <= 7 /\ NoDup (objects example_group) /\
  PanelGroup.set_y example_group 7
    (<[4%positive := GridPos.mk 12 9 12 8]>
     (<[3%positive := GridPos.mk 0 9 12 8]>
     (<[2%positive := GridPos.mk 15 0 9 8]>
     (<[1%positive := GridPos.mk 0 0 15 8]> ∅)))) =
  PanelGroup.__init__ (Some (PanelGroup.Rows example_rows)) [1; 2; 3; 4]%positive
    (Some 7) None None ∅.
Proof.
  assert (H1 : 0 <= 7) by lia.
  split; [exact H1|]. split; [exact example_group_distinct|].
  exact (proj2 (build_then_move _ _ _ _ _ _ _ _ 7 example_group_built H1)
           example_group_distinct).
Defined.

Lemma move_down_add (d1 d2 : Z) (gp : GridPos.t) :
  move_down d2 (move_down d1 gp) = move_down (d1 + d2) gp.
Proof. unfold move_down. cbn. f_equal. lia. Qed.

Lemma move_down_0 (gp : GridPos.t) : move_down 0 gp = gp.
Proof. destruct gp. unfold move_down. cbn. f_equal. lia. Qed.

Lemma alter_move_down_add (o : positive) (d1 d2 : Z) (st : gmap positive GridPos.t) :
  alter (move_down d2) o (alter (move_down d1) o st) = alter (move_down (d1 + d2)) o st.
Proof.
  apply map_eq. intros o'. destruct (decide (o = o')) as [->|Hne].
  - rewrite !lookup_alter_eq. destruct (st !! o') as [gp|]; [|reflexivity].
    cbn. now rewrite move_down_add.
  - now rewrite !lookup_alter_ne.
Qed.

Lemma alter_move_down_0 (o : positive) (st : gmap positive GridPos.t) :
  alter (move_down 0) o st = st.
Proof.
  apply map_eq. intros o'. destruct (decide (o = o')) as [->|Hne].
  - rewrite lookup_alter_eq. destruct (st !! o') as [gp|]; [|reflexivity].
    cbn. now rewrite move_down_0.
  - now rewrite lookup_alter_ne.
Qed.

Lemma shift_all_add (os : list positive) (d1 d2 : Z) (st : gmap positive GridPos.t) :
  shift_all os d2 (shift_all os d1 st) = shift_all os (d1 + d2) st.
Proof.
  revert st. induction os as [|o os IH]; intros st; [reflexivity|].
  rewrite !shift_all_cons, !shift_all_alter_comm, alter_move_down_add, IH. reflexivity.
Qed.

Lemma shift_all_0 (os : list positive) (st : gmap positive GridPos.t) :
  shift_all os 0 st = st.
Proof.
  revert st. induction os as [|o os IH]; intros st; [reflexivity|].
  now rewrite shift_all_cons, alter_move_down_0.
Qed.

Lemma with_y_with_y (self : PanelGroup.t) (y1 y2 : Z) :
  PanelGroup.with_y (PanelGroup.with_y self y1) y2 = PanelGroup.with_y self y2.
Proof. reflexivity. Qed.

Lemma with_y_same (self : PanelGroup.t) : PanelGroup.with_y self (PanelGroup._y self) = self.
Proof. destruct self. reflexivity. Qed.

(** X13.  Two moves of a positioned group are the last one: moving a group
    to [y1] and then to [y2] leaves the group and every position as moving
    it to [y2] at once does, also where an object is listed more than once;
    and moving it back to its origin restores every position. *)
Theorem set_y_twice (self : PanelGroup.t) (y1 y2 : Z) (st : gmap positive GridPos.t) :
  0 <= y1 -> 0 <= y2 ->
  Forall (fun o => is_Some (st !! o)) (objects self) ->
  exists self1 st1,
    PanelGroup.set_y self y1 st = (OK self1, st1) /\
    PanelGroup.set_y self1 y2 st1 = PanelGroup.set_y self y2 st /\
    (y2 = PanelGroup._y self -> PanelGroup.set_y self1 y2 st1 = (OK self, st)).
Proof.
  intros Hy1 Hy2 Hready.
  exists (PanelGroup.with_y self y1), (shift_all (objects self) (y1 - PanelGroup._y self) st).
  split; [now apply set_y_spec|].
  assert (Hready1 : Forall (fun o => is_Some (shift_all (objects self)
                      (y1 - PanelGroup._y self) st !! o))
                      (objects (PanelGroup.with_y self y1))).
  { eapply Forall_impl; [exact Hready|]. intros o Ho. now apply is_Some_shift_all. }
  rewrite (set_y_spec (PanelGroup.with_y self y1) y2 _ Hy2 Hready1).
  rewrite (set_y_spec self y2 st Hy2 Hready).
  change (objects (PanelGroup.with_y self y1)) with (objects self).
  rewrite with_y_with_y, shift_all_add. cbn [PanelGroup.with_y PanelGroup._y].
  replace (y1 - PanelGroup._y self + (y2 - y1)) with (y2 - PanelGroup._y self) by lia.
  split; [reflexivity|]. intros ->.
  now rewrite Z.sub_diag, shift_all_0, with_y_same.
Qed.

Lemma set_y_twice_witness :
  0 <= 5 /\ 0 <= 0 /\
  Forall (fun o => is_Some (two_cells_store !! o)) (objects two_cells) /\
  exists self1 st1,
    PanelGroup.set_y two_cells 5 two_cells_store = (OK self1, st1) /\
    PanelGroup.set_y self1 0 st1 = (OK two_cells, two_cells_store).
Proof.
  assert (H1 : 0 <= 5) by lia. assert (H2 : 0 <= 0) by lia.
  assert (H3 : Forall (fun o => is_Some (two_cells_store !! o)) (objects two_cells))
    by (repeat constructor; eexists; reflexivity).
  split; [exact H1|]. split; [exact H2|]. split; [exact H3|].
  destruct (set_y_twice two_cells 5 0 two_cells_store H1 H2 H3)
    as (self1 & st1 & Hs1 & _ & Hback).
  exists self1, st1. split; [exact Hs1|]. apply Hback. reflexivity.
Defined.

(** ** Flat layouts and empty rows *)

Lemma allocated_replicate (n : nat) (sizes : list PanelSize) (widths : list (list Z)) :
  allocated (replicate n sizes) widths ->
  length widths = n /\
  forall ws, ws ∈ widths -> _create_width_units_array (value <$> sizes) 24 = OK ws.
Proof.
  revert widths. induction n as [|n IH]; intros widths H; inversion H; subst.
  - split; [reflexivity|]. intros ws Hin. inversion Hin.
  - destruct (IH _ H4) as [Hlen Hin]. split; [cbn; lia|].
    intros ws Hws. apply elem_of_cons in Hws as [->|Hws]; [assumption|now apply Hin].
Qed.

Lemma length_concat_same {A} (ls : list (list A)) (L : nat) :
  Forall (fun l => length l = L) ls -> length (concat ls) = (length ls * L)%nat.
Proof.
  induction 1 as [|l ls Hl _ IH]; [reflexivity|]. cbn. rewrite length_app, IH, Hl. lia.
Qed.

(** X14.  With a flat layout every row has the widths of the one list of
    sizes, so the columns are aligned: the panels at the same place of two
    rows begin at the same column and are equally wide. *)
Theorem flat_layout_columns_align (sizes : list PanelSize) (panels : list positive)
    (y : option Z) (row_heights : option PanelGroup.row_heights_arg)
    (row : option positive) (self : PanelGroup.t) (st st' : gmap positive GridPos.t)
    (k k' c : nat) (p p' : positive) (gp gp' : GridPos.t) :
  PanelGroup.__init__ (Some (PanelGroup.Sizes sizes)) panels y row_heights row st =
    (OK self, st') ->
  NoDup (objects self) ->
  (c < length sizes)%nat ->
  panels !! (k * length sizes + c)%nat = Some p ->
  panels !! (k' * length sizes + c)%nat = Some p' ->
  st' !! p = Some gp -> st' !! p' = Some gp' ->
  GridPos.x gp = GridPos.x gp' /\ GridPos.w gp = GridPos.w gp'.
Proof.
  intros Hinit Hnd Hc Hp Hp' Hgp Hgp'.
  destruct (built_group _ _ _ _ _ _ _ _ Hinit)
    as (widths & Hall & _ & -> & Hobj & Hlen & _ & Hpanels & _).
  destruct (init_inv _ _ _ _ _ _ _ _ Hinit) as (Hattr & _).
  destruct (attributes_inv _ _ _ _ _ _ Hattr)
    as (lay & [= <-] & Hnorm & Hcount & _ & Hrhlen & _).
  destruct sizes as [|size sizes']; [cbn in Hc; lia|].
  set (sizes := size :: sizes') in *.
  set (n := (length panels / length sizes)%nat).
  change (PanelGroup.normalise (PanelGroup.Sizes sizes) (length panels))
    with (OK (replicate n sizes)) in Hnorm.
  injection Hnorm as Hlay. rewrite <- Hlay in Hall, Hcount, Hrhlen.
  destruct (allocated_replicate _ _ _ Hall) as [Hn Hws].
  rewrite sum_list_replicate_lengths in Hcount.
  rewrite length_replicate in Hrhlen.
  assert (Hcell : forall j q gq,
            panels !! (j * length sizes + c)%nat = Some q ->
            write_all (writes self widths) st !! q = Some gq ->
            exists ws width,
              _create_width_units_array (value <$> sizes) 24 = OK ws /\
              ws !! c = Some width /\
              GridPos.x gq = sum (take c ws) /\ GridPos.w gq = width).
  { intros j q gq Hq Hgq.
    assert (Hj : (j < n)%nat) by (apply lookup_lt_Some in Hq; nia).
    destruct (lookup_lt_is_Some_2 widths j) as [ws Hj']; [lia|].
    pose proof (Hws ws (list_elem_of_lookup_2 _ _ _ Hj')) as Halloc.
    pose proof (allocator_length _ _ _ Halloc) as Hwslen. rewrite length_fmap in Hwslen.
    destruct (lookup_lt_is_Some_2 ws c) as [width Hwidth]; [lia|].
    destruct (lookup_lt_is_Some_2 (PanelGroup.row_heights self) j) as [hgt Hhgt]; [lia|].
    pose proof (positions_lookup self widths j c ws width hgt Hj' Hwidth Hhgt) as Hpos.
    assert (Htake : length (concat (take j widths)) = (j * length sizes)%nat).
    { rewrite (length_concat_same _ (length sizes)).
      - rewrite length_take. f_equal. lia.
      - apply Forall_take, Forall_forall. intros ws' Hin.
        pose proof (allocator_length _ _ _ (Hws ws' Hin)) as Hl.
        now rewrite length_fmap in Hl. }
    rewrite Htake in Hpos.
    exists ws, width. split; [exact Halloc|]. split; [exact Hwidth|].
    assert (Hin : (q, GridPos.mk (sum (take c ws)) (row_y self j) width hgt)
                    ∈ writes self widths).
    { unfold writes. apply elem_of_app. right.
      eapply list_elem_of_lookup_2. apply lookup_zip_with_Some.
      eexists _, _. split; [reflexivity|]. rewrite Hpanels. split; [exact Hq|exact Hpos]. }
    rewrite (write_all_in _ st q _ ltac:(now rewrite Hobj) Hin) in Hgq.
    injection Hgq as <-. split; reflexivity. }
  destruct (Hcell k p gp Hp Hgp) as (ws & width & Hws1 & Hw1 & -> & ->).
  destruct (Hcell k' p' gp' Hp' Hgp') as (ws' & width' & Hws2 & Hw2 & -> & ->).
  rewrite Hws1 in Hws2. injection Hws2 as <-. rewrite Hw1 in Hw2. injection Hw2 as <-.
  split; reflexivity.
Qed.

(** X15.  A layout with an empty row passes the checks of the constructor
    but cannot be built: the row header and the rows above the empty row
    are placed, each panel where the layout of these rows alone puts it,
    and the allocator then fails on the empty row with an [IndexError];
    the panels of the rows below are not touched. *)
Theorem an_empty_row_is_not_built (layout : option PanelGroup.layout_arg)
    (panels : list positive) (y : option Z)
    (row_heights : option PanelGroup.row_heights_arg) (row : option positive)
    (self : PanelGroup.t) (pre post : list (list PanelSize))
    (st : gmap positive GridPos.t) :
  PanelGroup.attributes layout panels (default 0 y)
    (default (PanelGroup.Height 8) row_heights) row = OK self ->
  PanelGroup._layout self = pre ++ [] :: post ->
  Forall (fun sizes => sizes <> [] /\ sum (value <$> sizes) <= weight_bound) pre ->
  exists widths,
    allocated pre widths /\
    PanelGroup.__init__ layout panels y row_heights row st =
      (Raise IndexError, write_all (writes self widths) st) /\
    writes self widths =
      (if row is Some o then [(o, GridPos.mk 0 (default 0 y) 24 1)] else []) ++
      zip (take (sum_list (length <$> pre)) panels) (positions self widths) /\
    (forall o, o ∉ (if row is Some r then [r] else []) ++
                    take (sum_list (length <$> pre)) panels ->
       write_all (writes self widths) st !! o = st !! o).
Proof.
  intros Hattr Hlay Hpre.
  destruct (attributes_inv _ _ _ _ _ _ Hattr)
    as (lay & _ & _ & Hcount & _ & Hrhlen & Hrow & Hy & Hpanels & _).
  destruct (rows_allocated pre Hpre) as [widths Hall].
  destruct (allocated_length _ _ Hall) as [Hlen Hcat].
  assert (Hposlen : length (positions self widths) = sum_list (length <$> pre)).
  { rewrite <- Hcat. unfold positions.
    rewrite <- (take_ge (imap _ widths) (length widths)) by (rewrite length_imap; lia).
    rewrite concat_take_imap_length by (intros; apply length_imap).
    now rewrite take_ge by lia. }
  assert (Hw : writes self widths =
            (if row is Some o then [(o, GridPos.mk 0 (default 0 y) 24 1)] else []) ++
            zip (take (sum_list (length <$> pre)) panels) (positions self widths)).
  { unfold writes, header_writes. rewrite Hrow, Hy, Hpanels, <- Hposlen, zip_take_l.
    reflexivity. }
  exists widths. split; [exact Hall|]. split; [|split; [exact Hw|]].
  - unfold PanelGroup.__init__, bind at 1, lift at 1. rewrite Hattr. unfold bind.
    rewrite (compute_grid_pos_empty_row self pre post widths st Hlay Hall Hrhlen)
      by congruence.
    reflexivity.
  - intros o Ho. apply write_all_notin. rewrite Hw, fmap_app. intros Hin.
    apply Ho. apply elem_of_app in Hin as [Hin|Hin]; apply elem_of_app.
    + left. destruct row; [exact Hin|inversion Hin].
    + right. apply list_elem_of_fmap in Hin as ([o' gp] & -> & Hin).
      apply elem_of_zip_l in Hin. exact Hin.
Qed.

Lemma an_empty_row_is_not_built_witness :
  exists widths,
    allocated [[SMALL]] widths /\
    PanelGroup.__init__ (Some (PanelGroup.Rows [[SMALL]; []])) [1%positive] None None None ∅ =
      (Raise IndexError,
       write_all (writes (PanelGroup.mk [[SMALL]; []] [8; 8] None 0 18 [1%positive]) widths) ∅).
Proof.
  destruct (an_empty_row_is_not_built (Some (PanelGroup.Rows [[SMALL]; []])) [1%positive]
              None None None (PanelGroup.mk [[SMALL]; []] [8; 8] None 0 18 [1%positive])
              [[SMALL]] [] ∅) as (widths & Hall & Hinit & _).
  - reflexivity.
  - reflexivity.
  - repeat constructor; [discriminate|vm_compute; discriminate].
  - exists widths. split; [exact Hall|exact Hinit].
Defined.
Lemma flat_example_built :
  PanelGroup.__init__ (Some (PanelGroup.Sizes [SMALL; MEDIUM])) [1; 2; 3; 4]%positive
    None None None ∅ =
  (OK (PanelGroup.mk [[SMALL; MEDIUM]; [SMALL; MEDIUM]] [8; 8] None 0 18 [1; 2; 3; 4]%positive),
   <[4%positive := GridPos.mk 8 9 16 8]>
   (<[3%positive := GridPos.mk 0 9 8 8]>
   (<[2%positive := GridPos.mk 8 0 16 8]>
   (<[1%positive := GridPos.mk 0 0 8 8]> ∅)))).
Proof. vm_compute. reflexivity. Qed.

Lemma flat_layout_columns_align_witness :
  NoDup (objects example_group) /\ (1 < length [SMALL; MEDIUM])%nat /\
  GridPos.x (GridPos.mk 8 0 16 8) = GridPos.x (GridPos.mk 8 9 16 8) /\
  GridPos.w (GridPos.mk 8 0 16 8) = GridPos.w (GridPos.mk 8 9 16 8).
Proof.
  assert (H1 : (1 < length [SMALL; MEDIUM])%nat) by (cbn; lia).
  split; [exact example_group_distinct|]. split; [exact H1|].
  exact (flat_layout_columns_align [SMALL; MEDIUM] [1; 2; 3; 4]%positive None None None
           _ ∅ _ 0 1 1 2%positive 4%positive _ _ flat_example_built
           example_group_distinct H1 eq_refl eq_refl eq_refl eq_refl).
Defined.

(** ** The groups of a tree, in a stack *)

Lemma all_objects_Node (cs : list tree) (y : Z) :
  all_objects (Node cs y) = concat (map all_objects cs).
Proof.
  unfold all_objects. cbn [groups_of].
  induction cs as [|c cs IH]; [reflexivity|].
  cbn [map concat]. rewrite fmap_app, concat_app, IH. reflexivity.
Qed.

Lemma emitted_all_objects (c : tree) : emitted c = all_objects c.
Proof.
  induction c as [g|cs y IH] using tree_nested_ind.
  - unfold emitted, all_objects, objects. cbn. now rewrite app_nil_r.
  - rewrite all_objects_Node. unfold emitted. cbn [header app].
    rewrite flatten_Node.
    induction IH as [|c cs Hc _ IHcs]; [reflexivity|].
    cbn [map concat]. now rewrite Hc, IHcs.
Qed.

Lemma tree_height_groups (m : tree) :
  tree_height m = sum (PanelGroup.height <$> groups_of m).
Proof.
  induction m as [g|cs y IH] using tree_nested_ind.
  - cbn. unfold PanelGroup.get_height. lia.
  - cbn [tree_height groups_of].
    induction IH as [|c cs Hc _ IHcs]; [reflexivity|].
    cbn [map concat]. rewrite fmap_app, sum_app, sum_cons, Hc, IHcs. reflexivity.
Qed.

Lemma bands_app (l1 l2 : list PanelGroup.t) (cur : Z) :
  bands (l1 ++ l2) cur =
    bands l1 cur ++ bands l2 (cur + sum (PanelGroup.height <$> l1)).
Proof.
  revert cur. induction l1 as [|g l1 IH]; intros cur.
  - cbn. now rewrite Z.add_0_r.
  - cbn [app bands fmap list_fmap]. rewrite IH, sum_cons. do 3 f_equal. lia.
Qed.

Lemma bands_fst (gs : list PanelGroup.t) (cur : Z) : (bands gs cur).*1 = gs.
Proof. revert cur. induction gs as [|g gs IH]; intros cur; [reflexivity|]. cbn. now rewrite IH. Qed.

Lemma bands_lookup (gs : list PanelGroup.t) (cur : Z) (i : nat) (g : PanelGroup.t) :
  gs !! i = Some g ->
  bands gs cur !! i = Some (g, cur + sum (PanelGroup.height <$> take i gs)).
Proof.
  revert cur i. induction gs as [|g' gs IH]; intros cur [|i] H; try discriminate.
  - injection H as ->. cbn. now rewrite Z.add_0_r.
  - cbn [bands lookup list_lookup take fmap list_fmap]. rewrite (IH _ _ H), sum_cons.
    do 2 f_equal. lia.
Qed.

(** The moves of the property, in the order of the code, are those of the
    groups of the tree to their places in one stack, in another order. *)
Lemma moves_are_band_moves_list (cs : list tree) :
  Forall (fun c => forall cur,
            direct_moves [c] cur ++ nested_moves [c] cur ≡ₚ
              band_move <$> bands (groups_of c) cur) cs ->
  forall cur,
    direct_moves cs cur ++ nested_moves cs cur ≡ₚ
      band_move <$> bands (concat (map groups_of cs)) cur.
Proof.
  induction 1 as [|c cs Hc _ IH]; intros cur; [reflexivity|].
  change (c :: cs) with ([c] ++ cs).
  rewrite direct_moves_app, nested_moves_app.
  replace (sum (map tree_height [c])) with (tree_height c) by (cbn; lia).
  cbn [map concat app]. rewrite bands_app, fmap_app.
  rewrite <- tree_height_groups.
  rewrite <- (Hc cur), <- (IH (cur + tree_height c)).
  rewrite <- !app_assoc. apply Permutation_app_head.
  rewrite !app_assoc. apply Permutation_app_tail, Permutation_app_comm.
Qed.

Lemma moves_are_band_moves (c : tree) (cur : Z) :
  direct_moves [c] cur ++ nested_moves [c] cur ≡ₚ band_move <$> bands (groups_of c) cur.
Proof.
  revert cur. induction c as [g|cs y IH] using tree_nested_ind; intros cur.
  - reflexivity.
  - cbn [direct_moves nested_moves app groups_of]. rewrite app_nil_r.
    rewrite moves_at_Node. now apply moves_are_band_moves_list.
Qed.

Lemma moves_of_a_tree (gs : list tree) (y : Z) (st : gmap positive GridPos.t) :
  apply_moves (direct_moves gs y ++ nested_moves gs y) st =
    apply_moves (band_move <$> bands (groups_of (Node gs y)) y) st.
Proof.
  apply apply_moves_perm. cbn [groups_of]. apply moves_are_band_moves_list.
  apply Forall_forall. intros c _ cur. apply moves_are_band_moves.
Qed.

(** *** The position of an object after the moves *)

Lemma elem_of_concat {A} (x : A) (ls : list (list A)) :
  x ∈ concat ls <-> exists l, x ∈ l /\ l ∈ ls.
Proof.
  induction ls as [|l ls IH]; cbn [concat].
  - split; [intros H; inversion H|intros (l & _ & H); inversion H].
  - rewrite elem_of_app, IH. split.
    + intros [H|(l' & H & Hin)].
      * exists l. split; [exact H|apply list_elem_of_here].
      * exists l'. split; [exact H|now apply list_elem_of_further].
    + intros (l' & H & Hin). apply elem_of_cons in Hin as [->|Hin]; [now left|].
      right. now exists l'.
Qed.

Lemma apply_moves_cons (m : list positive * Z) (ms : list (list positive * Z))
    (st : gmap positive GridPos.t) :
  apply_moves (m :: ms) st = apply_moves ms (shift_all m.1 m.2 st).
Proof. reflexivity. Qed.

Lemma apply_moves_notin (mvs : list (list positive * Z)) (st : gmap positive GridPos.t)
    (o : positive) :
  o ∉ concat mvs.*1 -> apply_moves mvs st !! o = st !! o.
Proof.
  revert st. induction mvs as [|m mvs IH]; intros st Ho; [reflexivity|].
  cbn [fmap list_fmap concat] in Ho. apply not_elem_of_app in Ho as [Hm Ho].
  rewrite apply_moves_cons, IH by exact Ho. now apply shift_all_notin.
Qed.

Lemma apply_moves_lookup (mvs : list (list positive * Z)) (st : gmap positive GridPos.t)
    (i : nat) (os : list positive) (d : Z) (o : positive) :
  NoDup (concat mvs.*1) -> mvs !! i = Some (os, d) -> o ∈ os ->
  apply_moves mvs st !! o = move_down d <$> st !! o.
Proof.
  revert st i. induction mvs as [|m mvs IH]; intros st i Hnd Hi Ho; [discriminate|].
  cbn [fmap list_fmap concat] in Hnd. apply NoDup_app in Hnd as (Hm & Hdisj & Hrest).
  rewrite apply_moves_cons. destruct i as [|i].
  - injection Hi as ->. cbn [fst snd].
    rewrite apply_moves_notin by (apply Hdisj, Ho). now apply shift_all_in.
  - rewrite (IH _ i Hrest Hi Ho). f_equal. apply shift_all_notin.
    intros Hin. apply (Hdisj o Hin).
    apply elem_of_concat. exists os. split; [exact Ho|].
    apply list_elem_of_fmap. exists (os, d). split; [reflexivity|].
    eapply list_elem_of_lookup_2, Hi.
Qed.

Lemma band_moves_fst (gs : list PanelGroup.t) (cur : Z) :
  (band_move <$> bands gs cur).*1 = objects <$> gs.
Proof.
  rewrite <- list_fmap_compose. rewrite <- (bands_fst gs cur) at 2.
  rewrite <- list_fmap_compose. apply list_fmap_ext. intros _ [g c] _. reflexivity.
Qed.

(** The groups of a stack stand one under the other. *)
Lemma bands_below (gs : list PanelGroup.t) (i j : nat) (g g' : PanelGroup.t) (cur : Z) :
  Forall (fun g => 0 <= PanelGroup.height g) gs ->
  gs !! i = Some g -> gs !! j = Some g' -> (i < j)%nat ->
  cur + sum (PanelGroup.height <$> take i gs) + PanelGroup.height g <=
  cur + sum (PanelGroup.height <$> take j gs).
Proof.
  intros Hh Hi Hj Hlt. rewrite !fmap_take.
  assert (Hh' : Forall (fun x => 0 <= x) (PanelGroup.height <$> gs))
    by (apply Forall_fmap; exact Hh).
  pose proof (sum_take_le _ (S i) j Hh' ltac:(lia)) as Hle.
  rewrite (sum_take_S _ i (PanelGroup.height g)) in Hle
    by (rewrite list_lookup_fmap, Hi; reflexivity).
  lia.
Qed.

Lemma overlap_moved (d : Z) (a b : GridPos.t) :
  overlap (move_down d a) (move_down d b) <-> overlap a b.
Proof. unfold overlap, move_down. cbn. lia. Qed.

(** ** A tree of tidy groups *)

Lemma tidy_ready (st : gmap positive GridPos.t) (m : tree) :
  Forall (tidy st) (groups_of m) -> ready st m.
Proof.
  unfold ready. intros H. eapply Forall_impl; [exact H|].
  intros g (Hh & Hband & _). split; [exact Hh|].
  eapply Forall_impl; [exact Hband|]. intros o (gp & -> & _). now exists gp.
Qed.

(** A group that was built with row heights that are not negative is
    tidy. *)
Lemma built_is_tidy (layout : option PanelGroup.layout_arg) (panels : list positive)
    (y : option Z) (row_heights : option PanelGroup.row_heights_arg)
    (row : option positive) (self : PanelGroup.t) (st st' : gmap positive GridPos.t) :
  PanelGroup.__init__ layout panels y row_heights row st = (OK self, st') ->
  Forall (fun hgt => 0 <= hgt) (PanelGroup.row_heights self) ->
  tidy st' self.
Proof.
  intros Hinit Hh.
  destruct (built_group _ _ _ _ _ _ _ _ Hinit)
    as (widths & Hall & Hpos & -> & Hobj & Hlen & _ & _ & _ & Hheight).
  split; [|split].
  - rewrite Hheight. pose proof (sum_nonneg _ Hh). destruct (PanelGroup.row self); lia.
  - apply Forall_forall. intros o Ho. rewrite <- Hobj in Ho.
    destruct (write_all_written _ st o Ho) as (gp & Hin & Hw).
    destruct (writes_in_box self widths Hall Hlen Hpos Hh Hheight o gp Hin)
      as (_ & _ & _ & Hy & Hyh & _).
    exists gp. split; [exact Hw|]. lia.
  - intros o1 o2 gp1 gp2 Ho1 Ho2 Hne Hgp1 Hgp2. rewrite <- Hobj in Ho1, Ho2.
    destruct (write_all_written _ st o1 Ho1) as (gp1' & Hin1 & Hw1).
    destruct (write_all_written _ st o2 Ho2) as (gp2' & Hin2 & Hw2).
    rewrite Hw1 in Hgp1. rewrite Hw2 in Hgp2. injection Hgp1 as ->. injection Hgp2 as ->.
    exact (writes_apart self widths Hlen Hpos Hh o1 o2 gp1 gp2 Hin1 Hin2 Hne).
Qed.

(** A tidy group stays tidy while none of its objects is touched. *)
Lemma tidy_frame (st st' : gmap positive GridPos.t) (g : PanelGroup.t) :
  (forall o, o ∈ objects g -> st' !! o = st !! o) -> tidy st g -> tidy st' g.
Proof.
  intros Hsame (Hh & Hband & Hapart). split; [exact Hh|]. split.
  - apply Forall_forall. intros o Ho. rewrite (Hsame o Ho).
    apply (proj1 (Forall_forall _ _) Hband o Ho).
  - intros o1 o2 gp1 gp2 Ho1 Ho2 Hne. rewrite (Hsame o1 Ho1), (Hsame o2 Ho2).
    now apply Hapart.
Qed.

Lemma emitted_of_a_tree (gs : list tree) (y : Z) :
  concat (map emitted gs) = all_objects (Node gs y).
Proof.
  rewrite all_objects_Node. f_equal. apply map_ext. intros c. apply emitted_all_objects.
Qed.

(** Where an object of a tree of tidy groups is after the property was
    read: its rectangle, moved with its group to the place of the group in
    the stack. *)
Lemma final_position (G : list PanelGroup.t) (y : Z) (st : gmap positive GridPos.t)
    (o : positive) :
  Forall (tidy st) G -> NoDup (concat (objects <$> G)) ->
  o ∈ concat (objects <$> G) ->
  exists i g gp,
    G !! i = Some g /\ o ∈ objects g /\ st !! o = Some gp /\
    PanelGroup._y g <= GridPos.y gp /\
    GridPos.y gp + GridPos.h gp <= PanelGroup._y g + PanelGroup.height g /\
    apply_moves (band_move <$> bands G y) st !! o =
      Some (move_down (y + sum (PanelGroup.height <$> take i G) - PanelGroup._y g) gp).
Proof.
  intros Htidy Hnd Ho.
  apply elem_of_concat in Ho as (l & Ho & Hl).
  apply list_elem_of_lookup in Hl as [i Hi].
  rewrite list_lookup_fmap in Hi.
  destruct (G !! i) as [g|] eqn:Hg; [|discriminate]. injection Hi as <-.
  destruct (proj1 (Forall_lookup _ _) Htidy i g Hg) as (_ & Hband & _).
  destruct (proj1 (Forall_forall _ _) Hband o Ho) as (gp & Hgp & Hy & Hyh).
  exists i, g, gp. repeat split; try assumption.
  rewrite (apply_moves_lookup _ st i (objects g)
             (y + sum (PanelGroup.height <$> take i G) - PanelGroup._y g) o).
  - now rewrite Hgp.
  - now rewrite band_moves_fst.
  - rewrite list_lookup_fmap, (bands_lookup G y i g Hg). reflexivity.
  - exact Ho.
Qed.

(** X16.  A tree of tidy groups in which no member is listed twice and no
    object is in two places: the property [panels] returns the objects of
    the groups in their order, every rectangle lies between the origin of
    the tree and the end of its height, and no two objects overlap: the
    groups stand one under the other, and each has kept its own
    arrangement. *)
Theorem a_stack_does_not_overlap (fuel : nat) (t l : positive) (ns : list names)
    (cs : list tree) (y : Z) (h : Heap.t) :
  holds h (PositioningAt t l ns) (Node cs y) ->
  NoDup (ids (PositioningAt t l ns)) ->
  (depth (Node cs y) <= fuel)%nat -> 0 <= y ->
  Forall (tidy (Heap.gridPos h)) (groups_of (Node cs y)) ->
  NoDup (all_objects (Node cs y)) ->
  exists h' hgt,
    PanelPositioning.panels fuel (Positioning t) h = (OK (all_objects (Node cs y)), h') /\
    PanelPositioning.get_height fuel (Positioning t) h = OK hgt /\
    (forall o gp, o ∈ all_objects (Node cs y) -> Heap.gridPos h' !! o = Some gp ->
       y <= GridPos.y gp /\
       GridPos.y gp + GridPos.h gp <= y + hgt) /\
    (forall o1 o2 gp1 gp2,
       o1 ∈ all_objects (Node cs y) -> o2 ∈ all_objects (Node cs y) ->
       o1 <> o2 ->
       Heap.gridPos h' !! o1 = Some gp1 -> Heap.gridPos h' !! o2 = Some gp2 ->
       ~ overlap gp1 gp2).
Proof.
  intros Hholds Hids Hdepth Hy Htidy Hnd.
  destruct (panels_returns fuel t l ns cs y h Hdepth Hy Hholds Hids (tidy_ready _ _ Htidy))
    as (h' & Hp & Hst & _ & _).
  rewrite moves_of_a_tree in Hst. rewrite (emitted_of_a_tree cs y) in Hp.
  exists h', (tree_height (Node cs y)). split; [exact Hp|].
  split; [exact (get_height_holds fuel h _ _ Hholds Hdepth)|].
  rewrite Hst. set (st := Heap.gridPos h) in *.
  unfold all_objects in *. set (G := groups_of (Node cs y)) in *.
  assert (Hh : Forall (fun g => 0 <= PanelGroup.height g) G)
    by (eapply Forall_impl; [exact Htidy|]; intros g [? _]; assumption).
  assert (Hh' : Forall (fun x => 0 <= x) (PanelGroup.height <$> G))
    by (apply Forall_fmap; exact Hh).
  split.
  - intros o gp Ho Hgp.
    destruct (final_position G y st o Htidy Hnd Ho)
      as (i & g & gp0 & Hg & Hin & Hgp0 & Hy0 & Hyh0 & Hfinal).
    rewrite Hfinal in Hgp. injection Hgp as <-.
    unfold move_down. cbn [GridPos.x GridPos.y GridPos.w GridPos.h].
    rewrite tree_height_groups. fold G.
    assert (Hpre : 0 <= sum (take i (PanelGroup.height <$> G)))
      by (apply sum_nonneg, Forall_take, Hh').
    pose proof (sum_take_le_all _ (S i) Hh') as Hle.
    rewrite (sum_take_S _ i (PanelGroup.height g)) in Hle
      by (rewrite list_lookup_fmap, Hg; reflexivity).
    rewrite !fmap_take. lia.
  - intros o1 o2 gp1 gp2 Ho1 Ho2 Hne Hgp1 Hgp2.
    destruct (final_position G y st o1 Htidy Hnd Ho1)
      as (i1 & g1 & a & Hg1 & Hin1 & Ha & Hay & Hayh & Hfinal1).
    destruct (final_position G y st o2 Htidy Hnd Ho2)
      as (i2 & g2 & b & Hg2 & Hin2 & Hb & Hby & Hbyh & Hfinal2).
    rewrite Hfinal1 in Hgp1. rewrite Hfinal2 in Hgp2.
    injection Hgp1 as <-. injection Hgp2 as <-.
    destruct (lt_eq_lt_dec i1 i2) as [[Hlt|Heq]|Hgt].
    + pose proof (bands_below G i1 i2 g1 g2 y Hh Hg1 Hg2 Hlt).
      unfold overlap, move_down. cbn [GridPos.x GridPos.y GridPos.w GridPos.h]. lia.
    + subst i2. rewrite Hg1 in Hg2. injection Hg2 as <-.
      rewrite overlap_moved.
      destruct (proj1 (Forall_lookup _ _) Htidy i1 g1 Hg1) as (_ & _ & Hapart).
      now apply (Hapart o1 o2).
    + pose proof (bands_below G i2 i1 g2 g1 y Hh Hg2 Hg1 Hgt).
      unfold overlap, move_down. cbn [GridPos.x GridPos.y GridPos.w GridPos.h]. lia.
Qed.

Lemma header_group_built :
  PanelGroup.__init__ (Some (PanelGroup.Sizes [SMALL; MEDIUM; MEDIUM])) [5; 6; 7]%positive
    None None (Some 8%positive)
    (<[4%positive := GridPos.mk 12 9 12 8]>
     (<[3%positive := GridPos.mk 0 9 12 8]>
     (<[2%positive := GridPos.mk 15 0 9 8]>
     (<[1%positive := GridPos.mk 0 0 15 8]> ∅)))) =
  (OK header_group, example_store).
Proof. vm_compute. reflexivity. Qed.

Lemma example_tidy :
  Forall (tidy (Heap.gridPos example_heap)) (groups_of example_tree).
Proof.
  change (groups_of _) with [example_group; header_group].
  change (Heap.gridPos example_heap) with example_store.
  constructor; [|constructor; [|constructor]].
  - apply (tidy_frame (<[4%positive := GridPos.mk 12 9 12 8]>
                       (<[3%positive := GridPos.mk 0 9 12 8]>
                       (<[2%positive := GridPos.mk 15 0 9 8]>
                       (<[1%positive := GridPos.mk 0 0 15 8]> ∅))))).
    + intros o Ho. change (objects example_group) with [1; 2; 3; 4]%positive in Ho.
      repeat (apply elem_of_cons in Ho as [->|Ho]; [reflexivity|]). inversion Ho.
    + apply (built_is_tidy _ _ _ _ _ _ _ _ example_group_built).
      repeat constructor; discriminate.
  - apply (built_is_tidy _ _ _ _ _ _ _ _ header_group_built).
    repeat constructor; discriminate.
Qed.

Lemma example_all_distinct : NoDup (all_objects example_tree).
Proof.
  change (all_objects _) with [1; 2; 3; 4; 8; 5; 6; 7]%positive.
  repeat (apply NoDup_cons; split;
          [rewrite ?elem_of_cons, elem_of_nil; intros H; intuition discriminate|]).
  apply NoDup_nil_2.
Qed.

Lemma a_stack_does_not_overlap_witness :
  holds example_heap example_names example_tree /\
  NoDup (ids example_names) /\
  (depth example_tree <= 1)%nat /\
  0 <= 0 /\
  Forall (tidy (Heap.gridPos example_heap)) (groups_of example_tree) /\
  NoDup (all_objects example_tree) /\
  exists h' hgt,
    PanelPositioning.panels 1 (Positioning 1) example_heap =
      (OK [1; 2; 3; 4; 8; 5; 6; 7]%positive, h') /\
    PanelPositioning.get_height 1 (Positioning 1) example_heap = OK hgt.
Proof.
  assert (H1 : (depth example_tree <= 1)%nat) by (cbn; lia).
  assert (H2 : 0 <= 0) by lia.
  split; [exact example_holds|]. split; [exact example_names_distinct|].
  split; [exact H1|]. split; [exact H2|]. split; [exact example_tidy|].
  split; [exact example_all_distinct|].
  destruct (a_stack_does_not_overlap 1 1 1 [GroupAt 1; GroupAt 2]
              [Leaf example_group; Leaf header_group] 0 example_heap
              example_holds example_names_distinct H1 H2 example_tidy
              example_all_distinct) as (h' & hgt & Hrun & Hh & _).
  exists h', hgt. split; [exact Hrun|exact Hh].
Defined.

(** ** Reading the property again

    A member can be listed twice, or in two lists.  Reading the property
    then calls [set_y] on it more than once, each time with the origin of
    that place, and the member keeps the last one. *)

Lemma shape_Node (h : Heap.t) (t l : positive) (ns : list names) :
  shape h (PositioningAt t l ns) <->
  (exists y, Heap.positionings h !! t = Some (l, y)) /\
  Heap.lists h !! l = Some (map root ns) /\
  shape_all h ns.
Proof. reflexivity. Qed.

Lemma holds_shape (h : Heap.t) (n : names) (tr : tree) : holds h n tr -> shape h n.
Proof.
  revert tr. induction n as [g|t l ns IH] using names_nested_ind; intros [self|cs y] Hh;
    try contradiction.
  - cbn in *. now exists self.
  - apply holds_Node in Hh as (Ht & Hl & Hall). apply shape_Node.
    split; [now exists y|]. split; [exact Hl|].
    clear Ht Hl. revert cs Hall.
    induction IH as [|n ns Hn _ IHns]; intros [|c cs] Hall; try contradiction; [exact I|].
    destruct Hall as [Hc Hall]. split; [exact (Hn c Hc)|exact (IHns cs Hall)].
Qed.

(** The tree below an object is the same wherever the object is listed. *)
Lemma shape_unique (h : Heap.t) (n1 n2 : names) :
  shape h n1 -> shape h n2 -> root n1 = root n2 -> n1 = n2.
Proof.
  revert n2. induction n1 as [g|t l ns IH] using names_nested_ind;
    intros [g2|t2 l2 ns2] H1 H2 Hr; try discriminate.
  - now injection Hr as ->.
  - injection Hr as <-.
    apply shape_Node in H1 as ([y1 Ht1] & Hl1 & Hall1).
    apply shape_Node in H2 as ([y2 Ht2] & Hl2 & Hall2).
    rewrite Ht1 in Ht2. injection Ht2 as <- _. rewrite Hl1 in Hl2. injection Hl2 as Hroots.
    f_equal. clear Ht1 Hl1. revert ns2 Hall1 Hall2 Hroots.
    induction IH as [|n ns Hn _ IHns]; intros [|n2 ns2] Hall1 Hall2 Hroots;
      try discriminate; [reflexivity|].
    destruct Hall1 as [Hs1 Hall1]. destruct Hall2 as [Hs2 Hall2].
    injection Hroots as Hr Hroots.
    f_equal; [now apply Hn|now apply IHns].
Qed.

Lemma size_pos (n : names) : (0 < size n)%nat.
Proof. destruct n; cbn; lia. Qed.

(** A member of a tree is the root of a tree that is not larger. *)
Lemma ids_subtree (h : Heap.t) (n : names) (m : member) :
  shape h n -> m ∈ ids n ->
  exists n', root n' = m /\ shape h n' /\ (size n' <= size n)%nat.
Proof.
  revert m. induction n as [g|t l ns IH] using names_nested_ind; intros m Hs Hm.
  - apply list_elem_of_singleton in Hm. subst m. exists (GroupAt g).
    split; [reflexivity|]. split; [exact Hs|lia].
  - cbn [ids] in Hm. apply elem_of_cons in Hm as [->|Hm].
    + exists (PositioningAt t l ns). split; [reflexivity|]. split; [exact Hs|lia].
    + apply shape_Node in Hs as (_ & _ & Hall).
      assert (Hsub : exists n', root n' = m /\ shape h n' /\
                       (size n' <= sum_list (map size ns))%nat).
      { clear t l. induction IH as [|n ns Hn _ IHns]; [inversion Hm|].
        destruct Hall as [Hsn Hall]. cbn [map concat] in Hm.
        change (sum_list (map size (n :: ns))) with (size n + sum_list (map size ns))%nat.
        apply elem_of_app in Hm as [Hm|Hm].
        - destruct (Hn m Hsn Hm) as (n' & Hr & Hs' & Hle). exists n'.
          split; [exact Hr|]. split; [exact Hs'|lia].
        - destruct (IHns Hall Hm) as (n' & Hr & Hs' & Hle). exists n'.
          split; [exact Hr|]. split; [exact Hs'|lia]. }
      destruct Hsub as (n' & Hr & Hs' & Hle). exists n'.
      split; [exact Hr|]. split; [exact Hs'|]. cbn [size]. lia.
Qed.

(** A [PanelPositioning] with a tree is not below itself. *)
Lemma shape_acyclic (h : Heap.t) (t l : positive) (ns : list names) :
  shape h (PositioningAt t l ns) -> Positioning t ∉ concat (map ids ns).
Proof.
  intros Hs Hin. pose proof Hs as Hs0. apply shape_Node in Hs as (_ & _ & Hall).
  assert (Hsub : exists n', root n' = Positioning t /\ shape h n' /\
                   (size n' <= sum_list (map size ns))%nat).
  { clear Hs0. induction ns as [|n ns IHns]; [inversion Hin|].
    destruct Hall as [Hsn Hall]. cbn [map concat] in Hin.
    change (sum_list (map size (n :: ns))) with (size n + sum_list (map size ns))%nat.
    apply elem_of_app in Hin as [Hin|Hin].
    - destruct (ids_subtree h n _ Hsn Hin) as (n' & Hr & Hs' & Hle).
      exists n'. split; [exact Hr|]. split; [exact Hs'|lia].
    - destruct (IHns Hall Hin) as (n' & Hr & Hs' & Hle). exists n'.
      split; [exact Hr|]. split; [exact Hs'|lia]. }
  destruct Hsub as (n' & Hr & Hs' & Hle).
  pose proof (shape_unique h n' _ Hs' Hs0 Hr) as ->. cbn [size] in Hle. lia.
Qed.

(** *** The rows of the objects against the origins of their groups *)

Lemma occurrences_cons (o o' : positive) (os : list positive) :
  occurrences o (o' :: os) = (if decide (o' = o) then 1 else 0) + occurrences o os.
Proof.
  unfold occurrences. rewrite filter_cons.
  destruct (decide (o' = o)); cbn [length]; lia.
Qed.

(** [shift_all] moves an object once for each time it is listed. *)
Lemma shift_all_lookup (os : list positive) (delta : Z) (st : gmap positive GridPos.t)
    (o : positive) :
  shift_all os delta st !! o = move_down (occurrences o os * delta) <$> st !! o.
Proof.
  revert st. induction os as [|o' os IH]; intros st.
  - change (shift_all [] delta st) with st. change (occurrences o []) with 0.
    destruct (st !! o) as [gp|]; [|reflexivity]. cbn. now rewrite move_down_0.
  - rewrite shift_all_cons, IH, occurrences_cons.
    destruct (decide (o' = o)) as [->|Hne].
    + rewrite lookup_alter_eq. destruct (st !! o) as [gp|]; [|reflexivity]. cbn.
      rewrite move_down_add. do 2 f_equal. lia.
    + rewrite lookup_alter_ne by exact Hne. reflexivity.
Qed.

Lemma weight_step (o : positive) (z1 z2 : PanelGroup.t) (acc : Z) :
  occurrences o (objects z1) * PanelGroup._y z1 +
    (occurrences o (objects z2) * PanelGroup._y z2 + acc) =
  occurrences o (objects z2) * PanelGroup._y z2 +
    (occurrences o (objects z1) * PanelGroup._y z1 + acc).
Proof. lia. Qed.

(** The weight of an object after a group was replaced. *)
Lemma weight_insert (gs : gmap positive PanelGroup.t) (g : positive) (s s' : PanelGroup.t)
    (o : positive) :
  gs !! g = Some s ->
  weight (<[g := s']> gs) o =
    weight gs o + occurrences o (objects s') * PanelGroup._y s'
    - occurrences o (objects s) * PanelGroup._y s.
Proof.
  intros Hg. unfold weight.
  rewrite <- (insert_delete_eq gs g s').
  rewrite map_fold_insert_L; [|intros; apply weight_step|apply lookup_delete_eq].
  rewrite (map_fold_delete_L _ _ g s gs); [lia|intros; apply weight_step|exact Hg].
Qed.

(** *** What [set_y] needs and does *)

Lemma shift_loop_inv (os : list positive) (delta : Z) (st st' : gmap positive GridPos.t) :
  for_eachM (fun _ panel => add_gridPos_y panel delta) os tt st = (OK tt, st') ->
  Forall (fun o => is_Some (st !! o)) os.
Proof.
  revert st. induction os as [|o os IH]; intros st H; [constructor|].
  cbn [for_eachM] in H. unfold bind in H. unfold add_gridPos_y at 1 in H.
  destruct (st !! o) as [gp|] eqn:Ho; [|discriminate].
  constructor; [now exists gp|].
  apply IH in H. eapply Forall_impl; [exact H|]. intros o' Ho'. cbn beta in Ho'.
  destruct (decide (o = o')) as [->|Hne]; [now exists gp|].
  now rewrite lookup_insert_ne in Ho'.
Qed.

(** A [set_y] of a group that returns: the origin is not negative and every
    object of the group has a position. *)
Lemma set_y_inv (self self' : PanelGroup.t) (y : Z) (st st' : gmap positive GridPos.t) :
  PanelGroup.set_y self y st = (OK self', st') ->
  0 <= y /\ Forall (fun o => is_Some (st !! o)) (objects self).
Proof.
  unfold PanelGroup.set_y, objects. unfold bind at 1. unfold lift, assert.
  destruct (Z.leb_spec 0 y) as [Hy|Hy]; [|discriminate]. intros H. split; [exact Hy|].
  destruct (PanelGroup.row self) as [r|].
  - unfold bind at 1 in H. unfold add_gridPos_y at 1 in H.
    destruct (st !! r) as [gp|] eqn:Hr; [|discriminate].
    unfold bind at 1 in H.
    destruct (for_eachM _ (PanelGroup.panels self) tt _) as [[[]|e] st1] eqn:Hloop;
      [|discriminate].
    apply shift_loop_inv in Hloop. cbn [app]. constructor; [now exists gp|].
    eapply Forall_impl; [exact Hloop|]. intros o' Ho'. cbn beta in Ho'.
    destruct (decide (r = o')) as [->|Hne]; [now exists gp|].
    now rewrite lookup_insert_ne in Ho'.
  - unfold bind at 1 in H. unfold ret at 1 in H. unfold bind at 1 in H.
    destruct (for_eachM _ (PanelGroup.panels self) tt st) as [[[]|e] st1] eqn:Hloop;
      [|discriminate].
    apply shift_loop_inv in Hloop. exact Hloop.
Qed.

(** [set_y] on a member that returns, for a member of either class. *)
Lemma set_y_returns (m : member) (y : Z) (h h' : Heap.t) :
  PanelPositioning.set_y m y h = (OK tt, h') ->
  0 <= y /\
  match m with
  | Group g =>
      exists s, Heap.groups h !! g = Some s /\
        Forall (fun o => is_Some (Heap.gridPos h !! o)) (objects s) /\
        h' = Heap.mk (shift_all (objects s) (y - PanelGroup._y s) (Heap.gridPos h))
               (<[g := PanelGroup.with_y s y]> (Heap.groups h)) (Heap.positionings h)
               (Heap.lists h)
  | Positioning t =>
      exists l y0, Heap.positionings h !! t = Some (l, y0) /\
        h' = Heap.mk (Heap.gridPos h) (Heap.groups h)
               (<[t := (l, y)]> (Heap.positionings h)) (Heap.lists h)
  end.
Proof.
  destruct m as [g|t]; cbn [PanelPositioning.set_y]; unfold bindH, read.
  - destruct (Heap.groups h !! g) as [s|] eqn:Hg; [|discriminate]. cbn [the].
    unfold on_gridPos.
    destruct (PanelGroup.set_y s y (Heap.gridPos h)) as [[s'|e] st'] eqn:Hset; [|discriminate].
    destruct (set_y_inv _ _ _ _ _ Hset) as [Hy Hdom].
    rewrite (set_y_spec s y _ Hy Hdom) in Hset. injection Hset as <- <-.
    cbn. intros [= <-]. split; [exact Hy|]. exists s. repeat split; assumption.
  - destruct (Heap.positionings h !! t) as [[l y0]|] eqn:Ht; [|discriminate]. cbn [the].
    unfold assert. destruct (Z.leb_spec 0 y) as [Hy|Hy]; [|discriminate].
    intros [= <-]. split; [exact Hy|]. now exists l, y0.
Qed.

(** *** What a reading leaves as it is *)

Lemma similar_refl (h : Heap.t) : similar h h.
Proof. repeat split. Qed.

Lemma similar_sym (h1 h2 : Heap.t) : similar h1 h2 -> similar h2 h1.
Proof. intros (Hl & Hp & Hg & Ho). repeat split; intros; symmetry; auto. Qed.

Lemma similar_trans (h1 h2 h3 : Heap.t) : similar h1 h2 -> similar h2 h3 -> similar h1 h3.
Proof.
  intros (Hl & Hp & Hg & Ho) (Hl' & Hp' & Hg' & Ho').
  repeat split; intros; etransitivity; eauto.
Qed.

Lemma steady_refl (h : Heap.t) : steady h h.
Proof. split; [apply similar_refl|reflexivity]. Qed.

Lemma steady_trans (h1 h2 h3 : Heap.t) : steady h1 h2 -> steady h2 h3 -> steady h1 h3.
Proof.
  intros [Hs Hr] [Hs' Hr']. split; [exact (similar_trans _ _ _ Hs Hs')|].
  intros o. now rewrite Hr', Hr.
Qed.

Lemma set_y_Group (g : positive) (s : PanelGroup.t) (y : Z) (h : Heap.t) :
  Heap.groups h !! g = Some s -> 0 <= y ->
  Forall (fun o => is_Some (Heap.gridPos h !! o)) (objects s) ->
  PanelPositioning.set_y (Group g) y h =
    (OK tt, Heap.mk (shift_all (objects s) (y - PanelGroup._y s) (Heap.gridPos h))
              (<[g := PanelGroup.with_y s y]> (Heap.groups h)) (Heap.positionings h)
              (Heap.lists h)).
Proof.
  intros Hg Hy Hdom. cbn [PanelPositioning.set_y]. unfold bindH, read, on_gridPos.
  rewrite Hg. cbn [the]. rewrite (set_y_spec s y _ Hy Hdom). reflexivity.
Qed.

Lemma set_y_Positioning (t l : positive) (y0 y : Z) (h : Heap.t) :
  Heap.positionings h !! t = Some (l, y0) -> 0 <= y ->
  PanelPositioning.set_y (Positioning t) y h =
    (OK tt, Heap.mk (Heap.gridPos h) (Heap.groups h)
              (<[t := (l, y)]> (Heap.positionings h)) (Heap.lists h)).
Proof.
  intros Ht Hy. cbn [PanelPositioning.set_y]. unfold bindH, read. rewrite Ht. cbn [the].
  unfold assert. destruct (Z.leb_spec 0 y); [reflexivity|lia].
Qed.

(** [set_y] keeps the objects up to an origin and the rows, and the rows
    relative to the origins. *)
Lemma steady_set_y (m : member) (y : Z) (h h' : Heap.t) :
  PanelPositioning.set_y m y h = (OK tt, h') -> steady h h'.
Proof.
  intros Hset. destruct (set_y_returns m y h h' Hset) as [Hy Hm].
  destruct m as [g|t].
  - destruct Hm as (s & Hg & Hdom & ->). split; [repeat split|]; cbn.
    + intros g'. destruct (decide (g = g')) as [<-|Hne].
      * rewrite lookup_insert_eq, Hg. reflexivity.
      * now rewrite lookup_insert_ne.
    + intros o. rewrite shift_all_lookup. destruct (Heap.gridPos h !! o); reflexivity.
    + intros o. unfold relative_row. cbn.
      rewrite shift_all_lookup, (weight_insert _ g s _ o Hg).
      destruct (Heap.gridPos h !! o) as [gp|]; [|reflexivity]. cbn. f_equal.
      change ((if PanelGroup.row s is Some r then [r] else []) ++ PanelGroup.panels s)
        with (objects s).
      ring.
  - destruct Hm as (l & y0 & Ht & ->). split; [repeat split|reflexivity]; cbn.
    intros t'. destruct (decide (t = t')) as [<-|Hne].
    + rewrite lookup_insert_eq, Ht. reflexivity.
    + now rewrite lookup_insert_ne.
Qed.

Lemma set_y_origin (m : member) (y : Z) (h h' : Heap.t) :
  PanelPositioning.set_y m y h = (OK tt, h') ->
  origin_of h' m = Some y /\ untouched [m] h h'.
Proof.
  intros Hset. destruct (set_y_returns m y h h' Hset) as [Hy Hm].
  destruct m as [g|t].
  - destruct Hm as (s & Hg & Hdom & ->). split.
    + cbn. now rewrite lookup_insert_eq.
    + intros [g'|t'] Hm; cbn; [|reflexivity].
      rewrite lookup_insert_ne; [reflexivity|]. intros ->. apply Hm, list_elem_of_here.
  - destruct Hm as (l & y0 & Ht & ->). split.
    + cbn. now rewrite lookup_insert_eq.
    + intros [g'|t'] Hm; cbn; [reflexivity|].
      rewrite lookup_insert_ne; [reflexivity|]. intros ->. apply Hm, list_elem_of_here.
Qed.

Lemma for_eachH_steady {A S} (body : S -> A -> HM S) (l : list A) (s s' : S)
    (h h' : Heap.t) :
  (forall s x h s' h', body s x h = (OK s', h') -> steady h h') ->
  for_eachH body l s h = (OK s', h') -> steady h h'.
Proof.
  intros Hbody. revert s h. induction l as [|x l IH]; intros s h H.
  - cbn in H. injection H as _ <-. apply steady_refl.
  - cbn [for_eachH] in H. unfold bindH in H.
    destruct (body s x h) as [[s1|e] h1] eqn:Hx; [|discriminate].
    exact (steady_trans _ _ _ (Hbody _ _ _ _ _ Hx) (IH _ _ H)).
Qed.

Lemma steady_stack (fuel : nat) (cur : Z) (m : member) (h : Heap.t) (cur' : Z)
    (h' : Heap.t) :
  PanelPositioning.stack fuel cur m h = (OK cur', h') -> steady h h'.
Proof.
  unfold PanelPositioning.stack, bindH, read, retH.
  destruct (PanelPositioning.set_y m cur h) as [[[]|e] h1] eqn:Hset; [|discriminate].
  destruct (PanelPositioning.get_height fuel m h1); [|discriminate].
  intros [= _ <-]. exact (steady_set_y _ _ _ _ Hset).
Qed.

(** Reading the property keeps the objects up to the origins and the rows,
    and the rows relative to the origins. *)
Lemma steady_panels (fuel : nat) (m : member) (h : Heap.t) (ps : list positive)
    (h' : Heap.t) :
  PanelPositioning.panels fuel m h = (OK ps, h') -> steady h h'.
Proof.
  revert m h ps h'. induction fuel as [|fuel IH]; intros [g|t] h ps h' H.
  - cbn in H. unfold bindH, read, retH in H.
    destruct (the (Heap.groups h !! g)); [|discriminate].
    injection H as _ <-. apply steady_refl.
  - discriminate.
  - cbn in H. unfold bindH, read, retH in H.
    destruct (the (Heap.groups h !! g)); [|discriminate].
    injection H as _ <-. apply steady_refl.
  - cbn [PanelPositioning.panels] in H. unfold bindH at 1, read at 1 in H.
    destruct (the (Heap.positionings h !! t)) as [p|]; [|discriminate].
    unfold bindH at 1, read at 1 in H.
    destruct (the (Heap.lists h !! p.1)) as [ms|]; [|discriminate].
    unfold bindH at 1 in H.
    destruct (for_eachH (PanelPositioning.stack fuel) ms p.2 h) as [[c1|e] h1] eqn:H1;
      [|discriminate].
    unfold bindH at 1, read at 1 in H.
    destruct (the (Heap.lists h1 !! p.1)) as [ms'|]; [|discriminate].
    apply (steady_trans _ h1).
    + eapply for_eachH_steady; [|exact H1]. intros. eapply steady_stack. eassumption.
    + eapply for_eachH_steady; [|exact H].
      intros acc x h2 acc' h2'. unfold PanelPositioning.collect, bindH, read, retH.
      destruct (PanelPositioning.header x h2); [|discriminate].
      destruct (PanelPositioning.panels fuel x h2) as [[ps1|e] h3] eqn:Hp; [|discriminate].
      intros [= _ <-]. exact (IH _ _ _ _ Hp).
Qed.

(** *** Reading in two heaps with the same objects *)

Lemma similar_groups (h1 h2 : Heap.t) (g : positive) (s1 : PanelGroup.t) :
  similar h1 h2 -> Heap.groups h1 !! g = Some s1 ->
  exists s2, Heap.groups h2 !! g = Some s2 /\
    PanelGroup.with_y s2 0 = PanelGroup.with_y s1 0.
Proof.
  intros (_ & _ & Hg & _) H1. specialize (Hg g). rewrite H1 in Hg.
  destruct (Heap.groups h2 !! g) as [s2|]; [|discriminate].
  exists s2. split; [reflexivity|]. symmetry. apply (inj Some). exact Hg.
Qed.

Lemma same_but_origin (s1 s2 : PanelGroup.t) :
  PanelGroup.with_y s2 0 = PanelGroup.with_y s1 0 ->
  PanelGroup.row s2 = PanelGroup.row s1 /\
  PanelGroup.panels s2 = PanelGroup.panels s1 /\
  PanelGroup.height s2 = PanelGroup.height s1 /\
  objects s2 = objects s1.
Proof.
  destruct s1, s2. unfold PanelGroup.with_y, objects. cbn. intros [= -> -> -> -> ->].
  repeat split.
Qed.

Lemma similar_positionings (h1 h2 : Heap.t) (t l : positive) (y1 : Z) :
  similar h1 h2 -> Heap.positionings h1 !! t = Some (l, y1) ->
  exists y2, Heap.positionings h2 !! t = Some (l, y2).
Proof.
  intros (_ & Hp & _) H1. specialize (Hp t). rewrite H1 in Hp.
  destruct (Heap.positionings h2 !! t) as [[l2 y2]|]; [|discriminate].
  injection Hp as ->. now exists y2.
Qed.

Lemma similar_gridPos (h1 h2 : Heap.t) (o : positive) :
  similar h1 h2 -> is_Some (Heap.gridPos h1 !! o) -> is_Some (Heap.gridPos h2 !! o).
Proof.
  intros (_ & _ & _ & Ho) [gp H1]. specialize (Ho o). rewrite H1 in Ho.
  destruct (Heap.gridPos h2 !! o) as [gp2|]; [now exists gp2|discriminate].
Qed.

Lemma comprehension_ext {A B} (f g : A -> res B) (l : list A) :
  (forall x, f x = g x) -> comprehension f l = comprehension g l.
Proof.
  intros Hfg. induction l as [|x l IH]; [reflexivity|].
  cbn [comprehension]. now rewrite Hfg, IH.
Qed.

Lemma get_height_similar (fuel : nat) (m : member) (h1 h2 : Heap.t) :
  similar h1 h2 ->
  PanelPositioning.get_height fuel m h1 = PanelPositioning.get_height fuel m h2.
Proof.
  intros Hs. revert m. induction fuel as [|fuel IH]; intros [g|t].
  - cbn. destruct (Heap.groups h1 !! g) as [s1|] eqn:H1.
    + destruct (similar_groups _ _ _ _ Hs H1) as (s2 & -> & Heq).
      apply same_but_origin in Heq as (_ & _ & Hh & _). cbn.
      unfold PanelGroup.get_height. now rewrite Hh.
    + destruct Hs as (_ & _ & Hg & _). specialize (Hg g). rewrite H1 in Hg.
      destruct (Heap.groups h2 !! g); [discriminate|reflexivity].
  - reflexivity.
  - cbn. destruct (Heap.groups h1 !! g) as [s1|] eqn:H1.
    + destruct (similar_groups _ _ _ _ Hs H1) as (s2 & -> & Heq).
      apply same_but_origin in Heq as (_ & _ & Hh & _). cbn.
      unfold PanelGroup.get_height. now rewrite Hh.
    + destruct Hs as (_ & _ & Hg & _). specialize (Hg g). rewrite H1 in Hg.
      destruct (Heap.groups h2 !! g); [discriminate|reflexivity].
  - cbn [PanelPositioning.get_height].
    destruct (Heap.positionings h1 !! t) as [[l y1]|] eqn:H1.
    + destruct (similar_positionings _ _ _ _ _ Hs H1) as [y2 ->]. cbn [the res_bind fst].
      rewrite (proj1 Hs). destruct (Heap.lists h2 !! l) as [ms|]; [|reflexivity].
      cbn [the res_bind]. now rewrite (comprehension_ext _ _ ms IH).
    + destruct Hs as (_ & Hp & _). specialize (Hp t). rewrite H1 in Hp.
      destruct (Heap.positionings h2 !! t); [discriminate|reflexivity].
Qed.

Lemma header_similar (m : member) (h1 h2 : Heap.t) (hd : list positive) :
  similar h1 h2 -> PanelPositioning.header m h1 = OK hd ->
  PanelPositioning.header m h2 = OK hd.
Proof.
  intros Hs. destruct m as [g|t]; [|exact id]. cbn.
  destruct (Heap.groups h1 !! g) as [s1|] eqn:H1; [|discriminate].
  destruct (similar_groups _ _ _ _ Hs H1) as (s2 & -> & Heq).
  apply same_but_origin in Heq as (Hr & _). cbn. now rewrite Hr.
Qed.

Lemma untouched_trans (ms1 ms2 : list member) (h1 h2 h3 : Heap.t) :
  untouched ms1 h1 h2 -> untouched ms2 h2 h3 -> untouched (ms1 ++ ms2) h1 h3.
Proof.
  intros H1 H2 m Hm. apply not_elem_of_app in Hm as [Ha Hb]. now rewrite H2, H1.
Qed.

Lemma untouched_mono (ms ms' : list member) (h h' : Heap.t) :
  (forall m, m ∈ ms -> m ∈ ms') -> untouched ms h h' -> untouched ms' h h'.
Proof. intros Hsub H m Hm. apply H. intros Hin. now apply Hm, Hsub. Qed.

(** The origins that agreed stay in agreement when both heaps go on with
    the same origins for what they touch. *)
Lemma agree_step (ms1 ms2 : list member) (h1 h2 h1' h2' : Heap.t) :
  agree ms1 h1 h2 -> agree ms2 h1' h2' ->
  untouched ms2 h1 h1' -> untouched ms2 h2 h2' ->
  agree (ms1 ++ ms2) h1' h2'.
Proof.
  intros Ha Hb Hu1 Hu2 m Hm.
  destruct (decide (m ∈ ms2)) as [Hin|Hout]; [now apply Hb|].
  apply elem_of_app in Hm as [Hm|Hm]; [|contradiction].
  now rewrite Hu1, Hu2, Ha.
Qed.

Lemma agree_mono (ms ms' : list member) (h1 h2 : Heap.t) :
  (forall m, m ∈ ms -> m ∈ ms') -> agree ms' h1 h2 -> agree ms h1 h2.
Proof. intros Hsub H m Hm. now apply H, Hsub. Qed.

(** [set_y] in two heaps with the same objects. *)
Lemma rel_set_y (m : member) (y : Z) (ha ha' hb : Heap.t) :
  PanelPositioning.set_y m y ha = (OK tt, ha') -> similar ha hb ->
  exists hb',
    PanelPositioning.set_y m y hb = (OK tt, hb') /\
    similar ha' hb' /\
    agree [m] ha' hb' /\
    untouched [m] ha ha' /\ untouched [m] hb hb'.
Proof.
  intros Hset Hs.
  assert (Hb : exists hb', PanelPositioning.set_y m y hb = (OK tt, hb')).
  { destruct (set_y_returns m y ha ha' Hset) as [Hy Hm]. destruct m as [g|t].
    - destruct Hm as (s & Hg & Hdom & _).
      destruct (similar_groups _ _ _ _ Hs Hg) as (s2 & Hg2 & Heq).
      apply same_but_origin in Heq as (_ & _ & _ & Hobj).
      eexists. apply (set_y_Group g s2 y hb Hg2 Hy). rewrite Hobj.
      eapply Forall_impl; [exact Hdom|]. intros o. apply similar_gridPos, Hs.
    - destruct Hm as (l & y0 & Ht & _).
      destruct (similar_positionings _ _ _ _ _ Hs Ht) as [y2 Ht2].
      eexists. exact (set_y_Positioning t l y2 y hb Ht2 Hy). }
  destruct Hb as [hb' Hsetb]. exists hb'. split; [exact Hsetb|].
  destruct (set_y_origin _ _ _ _ Hset) as [Hoa Hua].
  destruct (set_y_origin _ _ _ _ Hsetb) as [Hob Hub].
  split; [|split; [|split; assumption]].
  - apply (similar_trans _ ha); [apply similar_sym, (steady_set_y _ _ _ _ Hset)|].
    apply (similar_trans _ hb); [exact Hs|apply (steady_set_y _ _ _ _ Hsetb)].
  - intros m' Hm'. apply list_elem_of_singleton in Hm'. subst m'. congruence.
Qed.

(** The first loop in two heaps with the same objects. *)
Lemma rel_stack (fuel : nat) (ms : list member) (cur cur' : Z) (ha ha' hb : Heap.t) :
  for_eachH (PanelPositioning.stack fuel) ms cur ha = (OK cur', ha') -> similar ha hb ->
  exists hb',
    for_eachH (PanelPositioning.stack fuel) ms cur hb = (OK cur', hb') /\
    similar ha' hb' /\
    agree ms ha' hb' /\
    untouched ms ha ha' /\ untouched ms hb hb'.
Proof.
  revert cur ha hb. induction ms as [|m ms IH]; intros cur ha hb H Hs.
  - cbn in H. injection H as <- <-. exists hb. split; [reflexivity|].
    split; [exact Hs|]. split; [intros m Hm; inversion Hm|]. split; intros m _; reflexivity.
  - cbn [for_eachH] in H. unfold bindH at 1 in H. unfold PanelPositioning.stack at 1 in H.
    unfold bindH at 1 in H.
    destruct (PanelPositioning.set_y m cur ha) as [[[]|e] ha1] eqn:Hset; [|discriminate].
    unfold bindH at 1, read at 1 in H.
    destruct (PanelPositioning.get_height fuel m ha1) as [hgt|e] eqn:Hh; [|discriminate].
    unfold retH at 1 in H.
    destruct (rel_set_y m cur ha ha1 hb Hset Hs) as (hb1 & Hsetb & Hs1 & Ha1 & Hua1 & Hub1).
    destruct (IH _ _ hb1 H Hs1) as (hb' & Hloop & Hs' & Ha' & Hua' & Hub').
    exists hb'. split; [|split; [exact Hs'|split; [|split]]].
    + cbn [for_eachH]. unfold bindH at 1. unfold PanelPositioning.stack at 1.
      unfold bindH at 1. rewrite Hsetb. unfold bindH at 1, read at 1.
      rewrite <- (get_height_similar fuel m ha1 hb1 Hs1), Hh. unfold retH at 1.
      exact Hloop.
    + exact (agree_step [m] ms _ _ _ _ Ha1 Ha' Hua' Hub').
    + exact (untouched_trans [m] ms _ _ _ Hua1 Hua').
    + exact (untouched_trans [m] ms _ _ _ Hub1 Hub').
Qed.

Lemma shape_similar (h1 h2 : Heap.t) (n : names) : similar h1 h2 -> shape h1 n -> shape h2 n.
Proof.
  intros Hs. induction n as [g|t l ns IH] using names_nested_ind; intros Hn.
  - destruct Hn as [s Hg]. destruct (similar_groups _ _ _ _ Hs Hg) as (s2 & Hg2 & _).
    now exists s2.
  - apply shape_Node in Hn as ([y Ht] & Hl & Hall). apply shape_Node.
    split; [exact (similar_positionings _ _ _ _ _ Hs Ht)|].
    split; [now rewrite <- (proj1 Hs)|].
    clear Ht Hl. induction IH as [|n ns Hn _ IHns]; [exact I|].
    destruct Hall as [Hsn Hall]. split; [exact (Hn Hsn)|exact (IHns Hall)].
Qed.

Lemma shape_all_similar (h1 h2 : Heap.t) (ns : list names) :
  similar h1 h2 -> shape_all h1 ns -> shape_all h2 ns.
Proof.
  intros Hs. induction ns as [|n ns IH]; [exact id|].
  intros [Hn Hall]. split; [exact (shape_similar _ _ _ Hs Hn)|exact (IH Hall)].
Qed.

Lemma ids_root_below (n : names) : ids n = root n :: below n.
Proof. destruct n; reflexivity. Qed.

(** The second loop in two heaps with the same objects. *)
Lemma rel_collect (fuel : nat) (ns : list names) :
  Forall reads_alike ns ->
  forall (acc : list positive) (ha hb : Heap.t) (ps : list positive) (ha' : Heap.t),
    shape_all ha ns ->
    for_eachH (PanelPositioning.collect (PanelPositioning.panels fuel)) (map root ns) acc ha =
      (OK ps, ha') ->
    similar ha hb ->
    agree (map root ns) ha hb ->
    exists hb',
      for_eachH (PanelPositioning.collect (PanelPositioning.panels fuel)) (map root ns) acc hb =
        (OK ps, hb') /\
      similar ha' hb' /\
      agree (concat (map ids ns)) ha' hb' /\
      untouched (concat (map ids ns)) ha ha' /\ untouched (concat (map ids ns)) hb hb'.
Proof.
  induction 1 as [|n ns Hn _ IH]; intros acc ha hb ps ha' Hshape H Hs Hagree.
  - cbn in H. injection H as <- <-. exists hb. split; [reflexivity|].
    split; [exact Hs|]. split; [intros m Hm; inversion Hm|]. split; intros m _; reflexivity.
  - destruct Hshape as [Hsn Hshape].
    cbn [map for_eachH] in H. unfold bindH at 1 in H.
    unfold PanelPositioning.collect at 1 in H. unfold bindH at 1, read at 1 in H.
    destruct (PanelPositioning.header (root n) ha) as [hd|e] eqn:Hhd; [|discriminate].
    unfold bindH at 1 in H.
    destruct (PanelPositioning.panels fuel (root n) ha) as [[ps1|e] ha1] eqn:Hp;
      [|discriminate].
    unfold retH at 1 in H.
    destruct (Hn fuel ha hb ps1 ha1 Hsn Hp Hs) as (hb1 & Hpb & Hs1 & Ha1 & Hua1 & Hub1).
    { apply Hagree, list_elem_of_here. }
    pose proof (steady_panels _ _ _ _ _ Hp) as [Hsa _].
    assert (Hagree1 : agree (map root (n :: ns)) ha1 hb1).
    { apply (agree_mono _ (map root (n :: ns) ++ below n)).
      - intros m Hm. apply elem_of_app. now left.
      - exact (agree_step _ _ _ _ _ _ Hagree Ha1 Hua1 Hub1). }
    destruct (IH _ ha1 hb1 ps ha' (shape_all_similar _ _ _ Hsa Hshape) H Hs1)
      as (hb' & Hloop & Hs' & Ha' & Hua' & Hub').
    { intros m Hm. apply Hagree1. cbn [map]. now apply list_elem_of_further. }
    exists hb'. split; [|split; [exact Hs'|split; [|split]]].
    + cbn [map for_eachH]. unfold bindH at 1. unfold PanelPositioning.collect at 1.
      unfold bindH at 1, read at 1. rewrite (header_similar _ _ _ _ Hs Hhd).
      unfold bindH at 1. rewrite Hpb. unfold retH at 1. exact Hloop.
    + cbn [map concat]. rewrite ids_root_below.
      assert (Hids : agree (root n :: below n) ha1 hb1).
      { intros m Hm. apply elem_of_cons in Hm as [->|Hm]; [|now apply Ha1].
        apply Hagree1, list_elem_of_here. }
      exact (agree_step _ _ _ _ _ _ Hids Ha' Hua' Hub').
    + cbn [map concat]. apply (untouched_trans (ids n) _ ha ha1 ha'); [|exact Hua'].
      eapply untouched_mono; [|exact Hua1]. intros m Hm. rewrite ids_root_below.
      now apply list_elem_of_further.
    + cbn [map concat]. apply (untouched_trans (ids n) _ hb hb1 hb'); [|exact Hub'].
      eapply untouched_mono; [|exact Hub1]. intros m Hm. rewrite ids_root_below.
      now apply list_elem_of_further.
Qed.

(** Reading the panels of a member in two heaps with the same objects. *)
Lemma rel_read (n : names) : reads_alike n.
Proof.
  induction n as [g|t l ns IH] using names_nested_ind;
    intros fuel ha hb ps ha' Hshape H Hs Horigin.
  - assert (Hp : forall h, PanelPositioning.panels fuel (Group g) h =
                   (let? s := the (Heap.groups h !! g) in OK (PanelGroup.panels s), h)).
    { intros h. destruct fuel; cbn; unfold bindH, read, retH;
        destruct (Heap.groups h !! g); reflexivity. }
    cbn [root] in *. rewrite Hp in H.
    destruct (Heap.groups ha !! g) as [s|] eqn:Hg; [|discriminate].
    injection H as <- <-.
    destruct (similar_groups _ _ _ _ Hs Hg) as (s2 & Hg2 & Heq).
    apply same_but_origin in Heq as (_ & Hpanels & _).
    exists hb. split; [rewrite Hp, Hg2; cbn; now rewrite Hpanels|].
    split; [exact Hs|]. split; [intros m Hm; inversion Hm|]. split; intros m _; reflexivity.
  - destruct fuel as [|fuel]; [discriminate|].
    apply shape_Node in Hshape as ([ya Hta] & Hl & Hall).
    destruct (similar_positionings _ _ _ _ _ Hs Hta) as [yb Htb].
    assert (yb = ya) as ->.
    { cbn in Horigin. rewrite Hta, Htb in Horigin. now injection Horigin. }
    cbn [root PanelPositioning.panels] in H |- *.
    unfold bindH at 1, read at 1 in H. rewrite Hta in H. cbn [the fst snd] in H.
    unfold bindH at 1, read at 1 in H. rewrite Hl in H. cbn [the] in H.
    unfold bindH at 1 in H.
    destruct (for_eachH (PanelPositioning.stack fuel) (map root ns) ya ha) as [[c1|e] ha1]
      eqn:H1; [|discriminate].
    unfold bindH at 1, read at 1 in H.
    destruct (rel_stack fuel _ _ _ ha ha1 hb H1 Hs) as (hb1 & H1b & Hs1 & Ha1 & Hua1 & Hub1).
    assert (Hsa : similar ha ha1).
    { eapply (for_eachH_steady _ _ _ _ _ _ _ H1). Unshelve.
      intros. eapply steady_stack. eassumption. }
    assert (Hsb : similar hb hb1).
    { eapply (for_eachH_steady _ _ _ _ _ _ _ H1b). Unshelve.
      intros. eapply steady_stack. eassumption. }
    rewrite <- (proj1 Hsa), Hl in H. cbn [the] in H.
    destruct (rel_collect fuel ns IH [] ha1 hb1 ps ha' (shape_all_similar _ _ _ Hsa Hall)
                H Hs1 Ha1) as (hb' & H2b & Hs' & Ha' & Hua' & Hub').
    assert (Hsub : forall m, m ∈ map root ns ++ concat (map ids ns) ->
                     m ∈ concat (map ids ns)).
    { intros m Hm. apply elem_of_app in Hm as [Hm|Hm]; [now apply roots_in_ids|exact Hm]. }
    exists hb'. split; [|split; [exact Hs'|split; [exact Ha'|split]]].
    + unfold bindH at 1, read at 1. rewrite Htb. cbn [the fst snd].
      unfold bindH at 1, read at 1. rewrite <- (proj1 Hs), Hl. cbn [the].
      unfold bindH at 1. rewrite H1b. unfold bindH at 1, read at 1.
      rewrite <- (proj1 Hsb), <- (proj1 Hs), Hl. cbn [the]. exact H2b.
    + cbn [below]. eapply untouched_mono; [exact Hsub|].
      exact (untouched_trans _ _ _ _ _ Hua1 Hua').
    + cbn [below]. eapply untouched_mono; [exact Hsub|].
      exact (untouched_trans _ _ _ _ _ Hub1 Hub').
Qed.

Lemma heap_eq (h h' : Heap.t) :
  Heap.gridPos h = Heap.gridPos h' -> Heap.groups h = Heap.groups h' ->
  Heap.positionings h = Heap.positionings h' -> Heap.lists h = Heap.lists h' ->
  h = h'.
Proof. destruct h, h'. cbn. intros -> -> -> ->. reflexivity. Qed.

(** Two heaps with the same objects, the same origins and the same
    relative rows are one heap. *)
Lemma similar_eq (h1 h2 : Heap.t) :
  similar h1 h2 ->
  (forall m, origin_of h1 m = origin_of h2 m) ->
  (forall o, relative_row h1 o = relative_row h2 o) ->
  h1 = h2.
Proof.
  intros (Hl & Hp & Hg & Ho) Horigin Hrow.
  assert (Hgroups : Heap.groups h1 = Heap.groups h2).
  { apply map_eq. intros g. specialize (Hg g). specialize (Horigin (Group g)).
    cbn in Horigin.
    destruct (Heap.groups h1 !! g) as [s1|], (Heap.groups h2 !! g) as [s2|];
      try discriminate; [|reflexivity].
    cbn in Hg, Horigin. injection Horigin as Hy. f_equal.
    destruct s1, s2. unfold PanelGroup.with_y in Hg. cbn in *.
    injection Hg as -> -> -> -> ->. now subst. }
  apply heap_eq; [|exact Hgroups| |exact Hl].
  - apply map_eq. intros o. specialize (Ho o). specialize (Hrow o).
    unfold relative_row in Hrow. rewrite Hgroups in Hrow.
    destruct (Heap.gridPos h1 !! o) as [[x1 y1 w1 hh1]|],
             (Heap.gridPos h2 !! o) as [[x2 y2 w2 hh2]|];
      try discriminate; [|reflexivity].
    cbn in Ho, Hrow. injection Ho as -> -> ->. injection Hrow as Hy. f_equal. f_equal. lia.
  - apply map_eq. intros t. specialize (Hp t). specialize (Horigin (Positioning t)).
    cbn in Horigin.
    destruct (Heap.positionings h1 !! t) as [[l1 y1]|],
             (Heap.positionings h2 !! t) as [[l2 y2]|];
      try discriminate; [|reflexivity].
    cbn in Hp, Horigin. injection Hp as ->. injection Horigin as ->. reflexivity.
Qed.

(** X17.  Reading the property [panels] a second time changes nothing, in
    any tree of members, whether some are listed twice or not: when the
    first reading returns, the second returns the same list and leaves
    every object as the first reading left it.  The first reading returns
    for a tree that is ready and has no member listed twice. *)
Theorem panels_again (fuel : nat) (n : names) (h : Heap.t) :
  shape h n ->
  (forall ps h',
     PanelPositioning.panels fuel (root n) h = (OK ps, h') ->
     PanelPositioning.panels fuel (root n) h' = (OK ps, h')) /\
  (forall t l ns cs y,
     n = PositioningAt t l ns ->
     holds h n (Node cs y) -> NoDup (ids n) ->
     (depth (Node cs y) <= fuel)%nat -> 0 <= y ->
     ready (Heap.gridPos h) (Node cs y) ->
     exists ps h', PanelPositioning.panels fuel (root n) h = (OK ps, h')).
Proof.
  intros Hshape. split.
  - intros ps h' H1.
    destruct (rel_read n fuel h h ps h' Hshape H1 (similar_refl h) eq_refl)
      as (h0 & H0 & _ & _ & Hu & _).
    pose proof (steady_panels _ _ _ _ _ H1) as [Hs _].
    assert (Hroot : origin_of h (root n) = origin_of h' (root n)).
    { symmetry. apply Hu. destruct n as [g|t l ns]; [intros Hin; inversion Hin|].
      exact (shape_acyclic h t l ns Hshape). }
    destruct (rel_read n fuel h h' ps h' Hshape H1 Hs Hroot)
      as (h2 & H2 & Hs2 & Ha2 & _ & Hu2).
    pose proof (steady_panels _ _ _ _ _ H2) as [_ Hrow].
    rewrite H2. f_equal. symmetry. apply similar_eq.
    + exact Hs2.
    + intros m. destruct (decide (m ∈ below n)) as [Hin|Hout]; [now apply Ha2|].
      symmetry. now apply Hu2.
    + intros o. symmetry. apply Hrow.
  - intros t l ns cs y -> Hholds Hids Hdepth Hy Hready.
    destruct (panels_returns fuel t l ns cs y h Hdepth Hy Hholds Hids Hready)
      as (h' & Hp & _).
    now exists (concat (map emitted cs)), h'.
Qed.

Lemma panels_again_witness :
  shape shared_heap (PositioningAt 2 2 [PositioningAt 3 3 [GroupAt 1]; GroupAt 1]) /\
  exists ps h',
    PanelPositioning.panels 2 (Positioning 2) shared_heap = (OK ps, h') /\
    PanelPositioning.panels 2 (Positioning 2) h' = (OK ps, h').
Proof.
  assert (H1 : shape shared_heap (PositioningAt 2 2 [PositioningAt 3 3 [GroupAt 1]; GroupAt 1]))
    by (repeat split; eexists; reflexivity).
  assert (H2 : PanelPositioning.panels 2 (Positioning 2) shared_heap =
                 (OK [1; 2; 1; 2]%positive,
                  (PanelPositioning.panels 2 (Positioning 2) shared_heap).2))
    by (vm_compute; reflexivity).
  split; [exact H1|].
  exists [1; 2; 1; 2]%positive, (PanelPositioning.panels 2 (Positioning 2) shared_heap).2.
  split; [exact H2|].
  exact (proj1 (panels_again 2 (PositioningAt 2 2 [PositioningAt 3 3 [GroupAt 1]; GroupAt 1])
                  shared_heap H1) _ _ H2).
Defined.

(** ** Adding a member *)

Lemma moves_of_an_extended_tree (gs : list tree) (c : tree) (y : Z)
    (st : gmap positive GridPos.t) :
  apply_moves (direct_moves (gs ++ [c]) y ++ nested_moves (gs ++ [c]) y) st =
    apply_moves
      (direct_moves [c] (y + sum (map tree_height gs)) ++
       nested_moves [c] (y + sum (map tree_height gs)))
      (apply_moves (direct_moves gs y ++ nested_moves gs y) st).
Proof.
  rewrite <- apply_moves_app. apply apply_moves_perm.
  rewrite direct_moves_app, nested_moves_app.
  rewrite <- !app_assoc. apply Permutation_app_head.
  rewrite !app_assoc. apply Permutation_app_tail, Permutation_app_comm.
Qed.

(** A tree stays in the heap when a list that is none of its lists
    changes. *)
Lemma holds_lists (h h' : Heap.t) (n : names) (tr : tree) :
  Heap.groups h' = Heap.groups h -> Heap.positionings h' = Heap.positionings h ->
  (forall l, l ∈ lists_of n -> Heap.lists h' !! l = Heap.lists h !! l) ->
  holds h n tr -> holds h' n tr.
Proof.
  intros Hg Hp. revert tr.
  induction n as [g|t l ns IH] using names_nested_ind; intros [self|cs y] Hl Hh;
    try contradiction.
  - cbn in *. now rewrite Hg.
  - apply holds_Node in Hh as (Ht & Hlist & Hall). apply holds_Node.
    split; [now rewrite Hp|]. split; [rewrite Hl; [exact Hlist|apply list_elem_of_here]|].
    assert (Hl' : forall l', l' ∈ concat (map lists_of ns) ->
              Heap.lists h' !! l' = Heap.lists h !! l')
      by (intros l' Hin; apply Hl; cbn [lists_of]; now apply list_elem_of_further).
    clear Hl Ht Hlist. revert cs Hall.
    induction IH as [|n ns Hn _ IHns]; intros [|c cs] Hall; try contradiction; [exact I|].
    destruct Hall as [Hc Hall]. cbn [map concat] in Hl'. split.
    + apply Hn; [|exact Hc]. intros l' Hin. apply Hl', elem_of_app. now left.
    + apply IHns; [|exact Hall]. intros l' Hin. apply Hl', elem_of_app. now right.
Qed.

Lemma holds_all_lists (h h' : Heap.t) (ns : list names) (cs : list tree) :
  Heap.groups h' = Heap.groups h -> Heap.positionings h' = Heap.positionings h ->
  (forall l, l ∈ concat (map lists_of ns) -> Heap.lists h' !! l = Heap.lists h !! l) ->
  holds_all h ns cs -> holds_all h' ns cs.
Proof.
  intros Hg Hp. revert cs. induction ns as [|n ns IH]; intros [|c cs] Hl Hall;
    try contradiction; [exact I|].
  destruct Hall as [Hc Hall]. cbn [map concat] in Hl. split.
  - apply (holds_lists h h'); try assumption. intros l Hin. apply Hl, elem_of_app. now left.
  - apply IH; [|exact Hall]. intros l Hin. apply Hl, elem_of_app. now right.
Qed.

(** X18.  [add_panel_group] puts the new member at the end of the list:
    the height of the [PanelPositioning] grows by the height of the
    member, and reading the property afterwards returns the list of
    before followed by the row header and the panels of the member, gives
    the member the origin where the stack ended, and leaves the positions
    that reading the property before the call and then moving the new
    member to that origin and reading its panels leaves.  This holds where
    no member is listed twice, the new one included, and the list of the
    [PanelPositioning] is the list of none of its members. *)
Theorem add_panel_group_stacks_below (fuel : nat) (t l : positive) (ns : list names)
    (nc : names) (cs : list tree) (c : tree) (y : Z) (h : Heap.t) :
  holds h (PositioningAt t l ns) (Node cs y) ->
  holds h nc c ->
  NoDup (ids (PositioningAt t l (ns ++ [nc]))) ->
  l ∉ concat (map lists_of (ns ++ [nc])) ->
  (depth (Node (cs ++ [c]) y) <= fuel)%nat -> 0 <= y ->
  ready (Heap.gridPos h) (Node (cs ++ [c]) y) ->
  exists h1 hgt hc,
    PanelPositioning.add_panel_group t (root nc) h = (OK tt, h1) /\
    Heap.lists h1 !! l = Some (map root ns ++ [root nc]) /\
    PanelPositioning.get_height fuel (Positioning t) h = OK hgt /\
    PanelPositioning.get_height fuel (root nc) h = OK hc /\
    PanelPositioning.get_height fuel (Positioning t) h1 = OK (hgt + hc) /\
    exists ps h' h1' h2,
      PanelPositioning.panels fuel (Positioning t) h = (OK ps, h') /\
      PanelPositioning.panels fuel (Positioning t) h1 =
        (OK (ps ++ header c ++ flatten c), h1') /\
      origin_of h1' (root nc) = Some (y + hgt) /\
      (let* _ := PanelPositioning.set_y (root nc) (y + hgt) in
       PanelPositioning.panels fuel (root nc)) h' = (OK (flatten c), h2) /\
      Heap.gridPos h1' = Heap.gridPos h2.
Proof.
  intros Hholds Hc Hids Hlist Hdepth Hy Hready.
  pose proof Hholds as Hholds0.
  apply holds_Node in Hholds as (Ht & Hl & Hall).
  pose proof (holds_all_length h ns cs Hall) as Hlen.
  (* the depths, the names and the readiness of the parts *)
  assert (Hd : (depth (Node cs y) <= fuel)%nat /\ (depth c <= fuel)%nat).
  { destruct fuel as [|fuel]; [cbn in Hdepth; lia|].
    apply depth_members in Hdepth. apply Forall_app in Hdepth as [Hdcs Hdc].
    rewrite Forall_singleton in Hdc.
    split; [now apply depth_members|lia]. }
  destruct Hd as [Hdepth0 Hdc'].
  pose proof Hids as Hids1.
  cbn [ids] in Hids. apply NoDup_cons in Hids as [Hroot Hids].
  rewrite ids_app in Hroot, Hids. cbn [map concat] in Hroot, Hids.
  rewrite app_nil_r in Hroot, Hids.
  apply not_elem_of_app in Hroot as [Hroot _].
  apply NoDup_app in Hids as (Hidns & Hdis & Hidc).
  assert (Hids0 : NoDup (ids (PositioningAt t l ns)))
    by (cbn [ids]; apply NoDup_cons; split; assumption).
  apply ready_app in Hready as [Hrcs Hrc].
  assert (Hrc' : ready (Heap.gridPos h) c).
  { unfold ready in *. cbn [groups_of map concat] in Hrc. now rewrite app_nil_r in Hrc. }
  pose proof (tree_height_nonneg _ _ Hrcs) as Hhgt.
  set (hgt := tree_height (Node cs y)) in *.
  assert (Hsum : sum (map tree_height cs) = hgt) by reflexivity.
  (* the heap after the call *)
  set (h1 := Heap.mk (Heap.gridPos h) (Heap.groups h) (Heap.positionings h)
               (<[l := map root ns ++ [root nc]]> (Heap.lists h))).
  assert (Hother : forall l', l' ∈ concat (map lists_of (ns ++ [nc])) ->
            Heap.lists h1 !! l' = Heap.lists h !! l').
  { intros l' Hin. cbn. apply lookup_insert_ne. intros ->. now apply Hlist. }
  assert (Hext : holds h1 (PositioningAt t l (ns ++ [nc])) (Node (cs ++ [c]) y)).
  { apply holds_Node. split; [exact Ht|]. split.
    - cbn. rewrite lookup_insert_eq, map_app. reflexivity.
    - apply (holds_all_lists h h1); try reflexivity; [exact Hother|].
      apply (holds_all_app h ns [nc] cs [c] Hlen). split; [exact Hall|]. split; [exact Hc|exact I]. }
  (* both readings *)
  destruct (panels_returns fuel t l ns cs y h Hdepth0 Hy Hholds0 Hids0 Hrcs)
    as (h' & Hp0 & Hst0 & Hh0 & Hk0).
  destruct (panels_returns fuel t l (ns ++ [nc]) (cs ++ [c]) y h1 Hdepth Hy Hext Hids1)
    as (h1' & Hp1 & Hst1 & Hh1 & Hk1).
  { apply ready_app. split; assumption. }
  (* the new member alone, after the first reading *)
  assert (Hc' : holds h' nc c).
  { apply (holds_kept _ _ _ _ _ Hk0); [|exact Hc]. intros m Hm Hin. exact (Hdis m Hin Hm). }
  assert (Hcur : 0 <= y + hgt) by lia.
  destruct (set_y_holds h' nc c (y + hgt) Hc' Hidc Hcur) as (ha & Hset & Hsta & Hca & Hka).
  { rewrite Hst0. now apply ready_apply_moves. }
  destruct (read_member fuel ha nc c (y + hgt) (panels_returns fuel) Hca Hidc Hdc' Hcur)
    as (h2 & Hread & Hst2 & Hc2 & Hk2).
  { rewrite Hsta, Hst0. now apply ready_apply_moves, ready_apply_moves. }
  exists h1, hgt, (tree_height c).
  split; [|split; [|split; [|split; [|split]]]].
  - unfold PanelPositioning.add_panel_group, bindH, read. rewrite Ht. cbn [the fst].
    rewrite Hl. reflexivity.
  - cbn. apply lookup_insert_eq.
  - exact (get_height_holds fuel h _ _ Hholds0 Hdepth0).
  - exact (get_height_holds fuel h _ _ Hc Hdc').
  - pose proof (get_height_holds fuel h1 _ _ Hext Hdepth) as Hgh. cbn [root] in Hgh.
    rewrite Hgh. cbn [tree_height].
    rewrite sum_map_app, Hsum. cbn [map tree_height]. rewrite sum_cons.
    change (sum []) with 0. do 2 f_equal. lia.
  - exists (concat (map emitted cs)), h', h1', h2.
    split; [exact Hp0|]. split; [|split; [|split]].
    + rewrite Hp1, map_app, concat_app. cbn [map concat]. rewrite app_nil_r. reflexivity.
    + apply holds_Node in Hh1 as (_ & _ & Hall1). rewrite stack_at_app in Hall1.
      assert (Hlen' : length ns = length (stack_at cs y))
        by (now rewrite stack_at_length).
      apply (holds_all_app h1' ns [nc] _ _ Hlen') in Hall1 as [_ [Hnc _]].
      rewrite (origin_holds h1' nc _ Hnc), origin_place_at, Hsum. reflexivity.
    + unfold bindH. rewrite Hset. exact Hread.
    + rewrite Hst1, Hst2, Hsta, Hst0. change (Heap.gridPos h1) with (Heap.gridPos h).
      rewrite moves_of_an_extended_tree, Hsum, <- !apply_moves_app.
      cbn [nested_moves]. rewrite !app_nil_r. reflexivity.
Qed.

Lemma add_panel_group_stacks_below_witness :
  holds example_heap (PositioningAt 2 2 [GroupAt 2]) (Node [Leaf header_group] 3) /\
  holds example_heap (GroupAt 1) (Leaf example_group) /\
  NoDup (ids (PositioningAt 2 2 ([GroupAt 2] ++ [GroupAt 1]))) /\
  (2%positive ∉ concat (map lists_of ([GroupAt 2] ++ [GroupAt 1]))) /\
  (depth (Node ([Leaf header_group] ++ [Leaf example_group]) 3) <= 1)%nat /\
  0 <= 3 /\
  ready (Heap.gridPos example_heap) (Node ([Leaf header_group] ++ [Leaf example_group]) 3) /\
  exists h1 hgt hc,
    PanelPositioning.add_panel_group 2 (Group 1) example_heap = (OK tt, h1) /\
    Heap.lists h1 !! 2%positive = Some [Group 2; Group 1] /\
    PanelPositioning.get_height 1 (Positioning 2) h1 = OK (hgt + hc).
Proof.
  assert (H1 : holds example_heap (PositioningAt 2 2 [GroupAt 2]) (Node [Leaf header_group] 3))
    by (repeat split).
  assert (H2 : holds example_heap (GroupAt 1) (Leaf example_group)) by reflexivity.
  assert (H3 : NoDup (ids (PositioningAt 2 2 ([GroupAt 2] ++ [GroupAt 1]))))
    by (apply NoDup_by_decide; vm_compute; reflexivity).
  assert (H4 : 2%positive ∉ concat (map lists_of ([GroupAt 2] ++ [GroupAt 1])))
    by (intros H; inversion H).
  assert (H5 : (depth (Node ([Leaf header_group] ++ [Leaf example_group]) 3) <= 1)%nat)
    by (cbn; lia).
  assert (H6 : 0 <= 3) by lia.
  assert (H7 : ready (Heap.gridPos example_heap)
                 (Node ([Leaf header_group] ++ [Leaf example_group]) 3)).
  { unfold ready. cbn [groups_of map concat app].
    repeat constructor; try (cbn; lia); eexists; reflexivity. }
  split; [exact H1|]. split; [exact H2|]. split; [exact H3|]. split; [exact H4|].
  split; [exact H5|]. split; [exact H6|]. split; [exact H7|].
  destruct (add_panel_group_stacks_below 1 2 2 [GroupAt 2] (GroupAt 1) [Leaf header_group]
              (Leaf example_group) 3 example_heap H1 H2 H3 H4 H5 H6 H7)
    as (h1 & hgt & hc & Hadd & Hl & _ & _ & Hh & _).
  exists h1, hgt, hc. split; [exact Hadd|]. split; [exact Hl|exact Hh].
Defined.

(** *** Moving the origin of a tree *)

Lemma shift_all_app (os1 os2 : list positive) (d : Z) (st : gmap positive GridPos.t) :
  shift_all (os1 ++ os2) d st = shift_all os2 d (shift_all os1 d st).
Proof. unfold shift_all. apply foldl_app. Qed.

Lemma apply_moves_shift_all (mvs : list (list positive * Z)) (os : list positive) (d : Z)
    (st : gmap positive GridPos.t) :
  apply_moves mvs (shift_all os d st) = shift_all os d (apply_moves mvs st).
Proof.
  revert st. induction mvs as [|m mvs IH]; intros st; [reflexivity|].
  rewrite !apply_moves_cons, <- IH. f_equal. apply shift_all_comm.
Qed.

Lemma band_moves_shifted (G : list PanelGroup.t) (y delta : Z)
    (st : gmap positive GridPos.t) :
  apply_moves (band_move <$> bands G (y + delta)) st =
    shift_all (concat (objects <$> G)) delta (apply_moves (band_move <$> bands G y) st).
Proof.
  revert y st. induction G as [|g G IH]; intros y st; [reflexivity|].
  cbn [bands fmap list_fmap concat]. rewrite !apply_moves_cons.
  change (band_move (g, y + delta)) with (objects g, y + delta - PanelGroup._y g).
  change (band_move (g, y)) with (objects g, y - PanelGroup._y g).
  cbn [fst snd].
  replace (y + delta + PanelGroup.height g) with (y + PanelGroup.height g + delta) by lia.
  rewrite IH, shift_all_app. f_equal.
  rewrite <- apply_moves_shift_all, shift_all_add. do 2 f_equal. lia.
Qed.

(** X19.  [set_y] on a [PanelPositioning] refuses a negative origin and
    leaves all as it is; with an origin that is not negative it keeps the
    origin and moves nothing by itself, and the property read after it
    returns the same list and puts every object where the property read at
    the old origin puts it, moved down by the difference of the origins,
    once for every time the object is in the list.  This holds where no
    member is listed twice. *)
Theorem moving_a_tree (fuel : nat) (t l : positive) (ns : list names) (cs : list tree)
    (y y' : Z) (h : Heap.t) :
  holds h (PositioningAt t l ns) (Node cs y) ->
  NoDup (ids (PositioningAt t l ns)) ->
  (depth (Node cs y) <= fuel)%nat -> 0 <= y ->
  ready (Heap.gridPos h) (Node cs y) ->
  (y' < 0 ->
   PanelPositioning.set_y (Positioning t) y' h =
     (Raise (AssertionError "y-axis position must be at least 0"), h)) /\
  (0 <= y' ->
   exists h0 ps h1 h2,
     PanelPositioning.set_y (Positioning t) y' h = (OK tt, h0) /\
     Heap.gridPos h0 = Heap.gridPos h /\
     origin_of h0 (Positioning t) = Some y' /\
     PanelPositioning.panels fuel (Positioning t) h = (OK ps, h1) /\
     PanelPositioning.panels fuel (Positioning t) h0 = (OK ps, h2) /\
     Heap.gridPos h2 = shift_all ps (y' - y) (Heap.gridPos h1)).
Proof.
  intros Hholds Hids Hdepth Hy Hready. split.
  - intros Hneg. apply holds_Node in Hholds as (Ht & _).
    unfold PanelPositioning.set_y, bindH, read. rewrite Ht. cbn [the]. unfold assert.
    destruct (Z.leb_spec 0 y'); [lia|reflexivity].
  - intros Hy'.
    destruct (set_y_holds h _ _ y' Hholds Hids Hy' Hready) as (h0 & Hset & Hst0 & Hh0 & _).
    cbn [with_origin] in Hh0.
    destruct (panels_returns fuel t l ns cs y h Hdepth Hy Hholds Hids Hready)
      as (h1 & Hp1 & Hst1 & _ & _).
    destruct (panels_returns fuel t l ns cs y' h0 Hdepth Hy' Hh0 Hids)
      as (h2 & Hp2 & Hst2 & _ & _).
    { rewrite Hst0. apply ready_apply_moves, (ready_Node _ _ y), Hready. }
    exists h0, (concat (map emitted cs)), h1, h2.
    split; [exact Hset|]. split; [exact Hst0|].
    split; [exact (origin_holds h0 _ _ Hh0)|].
    split; [exact Hp1|]. split; [exact Hp2|].
    rewrite Hst2, Hst1, Hst0. change (apply_moves (direct_moves [Node cs y] y') (Heap.gridPos h))
      with (Heap.gridPos h).
    rewrite (emitted_of_a_tree cs y), !moves_of_a_tree.
    change (groups_of (Node cs y')) with (groups_of (Node cs y)).
    replace y' with (y + (y' - y)) at 1 by lia.
    apply band_moves_shifted.
Qed.

Lemma moving_a_tree_witness :
  holds example_heap example_names example_tree /\
  NoDup (ids example_names) /\
  (depth example_tree <= 1)%nat /\
  0 <= 0 /\
  ready (Heap.gridPos example_heap) example_tree /\
  0 <= 5 /\
  exists h0 ps h1 h2,
    PanelPositioning.set_y (Positioning 1) 5 example_heap = (OK tt, h0) /\
    PanelPositioning.panels 1 (Positioning 1) example_heap = (OK ps, h1) /\
    PanelPositioning.panels 1 (Positioning 1) h0 = (OK ps, h2) /\
    Heap.gridPos h2 = shift_all ps (5 - 0) (Heap.gridPos h1).
Proof.
  assert (H1 : (depth example_tree <= 1)%nat) by (cbn; lia).
  assert (H2 : 0 <= 0) by lia. assert (H3 : 0 <= 5) by lia.
  split; [exact example_holds|]. split; [exact example_names_distinct|].
  split; [exact H1|]. split; [exact H2|]. split; [exact example_ready|]. split; [exact H3|].
  destruct (proj2 (moving_a_tree 1 1 1 [GroupAt 1; GroupAt 2]
                     [Leaf example_group; Leaf header_group] 0 5 example_heap
                     example_holds example_names_distinct H1 H2 example_ready) H3)
    as (h0 & ps & h1 & h2 & Hset & _ & _ & Hp1 & Hp2 & Hst).
  exists h0, ps, h1, h2. repeat split; assumption.
Defined.

(** ** The height of a tree, and the example *)

(** X20.  [get_height] of a member is the sum of the heights of the groups
    below it, at any depth and whatever the origins, also where a member
    is listed twice; so a [PanelPositioning] with a nested one among its
    members is as high as one with the members of the nested one in its
    place. *)
Theorem tree_height_is_the_sum_of_its_groups (fuel : nat) (h : Heap.t) (n : names)
    (tr : tree) :
  holds h n tr -> (depth tr <= fuel)%nat ->
  PanelPositioning.get_height fuel (root n) h =
    OK (sum (PanelGroup.get_height <$> groups_of tr)) /\
  (forall n' pre inner post y1 y y',
     tr = Node (pre ++ [Node inner y1] ++ post) y ->
     holds h n' (Node (pre ++ inner ++ post) y') ->
     PanelPositioning.get_height fuel (root n') h =
       PanelPositioning.get_height fuel (root n) h).
Proof.
  intros Hholds Hdepth.
  rewrite (get_height_holds fuel h n tr Hholds Hdepth). split.
  - f_equal. apply tree_height_groups.
  - intros n' pre inner post y1 y y' -> Hholds'.
    rewrite (get_height_holds fuel h n' _ Hholds')
      by (apply (depth_inlined _ _ _ y1), Hdepth).
    f_equal. cbn [tree_height].
    rewrite !sum_map_app. cbn [map tree_height]. rewrite sum_cons. cbn. lia.
Qed.

Lemma tree_height_is_the_sum_of_its_groups_witness :
  holds example_heap nested_names nested_tree /\
  (depth nested_tree <= 2)%nat /\
  PanelPositioning.get_height 2 (Positioning 3) example_heap = OK (18 + 11) /\
  PanelPositioning.get_height 2 (Positioning 1) example_heap =
    PanelPositioning.get_height 2 (Positioning 3) example_heap.
Proof.
  assert (H1 : (depth nested_tree <= 2)%nat) by (cbn; lia).
  split; [exact example_nested_holds|]. split; [exact H1|].
  destruct (tree_height_is_the_sum_of_its_groups 2 example_heap nested_names nested_tree
              example_nested_holds H1) as [Hsum Hin].
  split; [exact Hsum|].
  exact (Hin example_names [Leaf example_group] [Leaf header_group] [] 3 0 0 eq_refl
           example_holds).
Defined.

(** X21.  The script [code.py]: both groups are built, the property returns
    the four panels of the first group, then the row header and the three
    panels of the second; the first group keeps its positions, with origin
    0 and height 18, and the second group is moved from origin 0 to origin
    18, its header to row 18 and its panels to row 20. *)
Theorem code_py_dashboard :
  code_py Heap.empty =
    (OK [1; 2; 3; 4; 8; 5; 6; 7]%positive,
     Heap.mk
       (<[7%positive := GridPos.mk 14 20 10 8]>
        (<[6%positive := GridPos.mk 4 20 10 8]>
        (<[5%positive := GridPos.mk 0 20 4 8]>
        (<[8%positive := GridPos.mk 0 18 24 1]>
        (<[4%positive := GridPos.mk 12 9 12 8]>
        (<[3%positive := GridPos.mk 0 9 12 8]>
        (<[2%positive := GridPos.mk 15 0 9 8]>
        (<[1%positive := GridPos.mk 0 0 15 8]> ∅))))))))
       (<[2%positive := PanelGroup.with_y header_group 18]>
        (<[1%positive := example_group]> ∅))
       (<[1%positive := (1%positive, 0)]> ∅)
       (<[1%positive := [Group 1; Group 2]]> ∅)).
Proof. vm_compute. reflexivity. Qed.

(** ** The widths against the shares, and the rows against the grid *)

(** X22.  The widths follow the weights: for positive weights the width of
    a panel is not more than one unit below the floor of its exact share
    [24 * w / total], and not more than one unit above it, or above 1 where
    the share is below 1. *)
Theorem widths_follow_the_shares (arr res : list Z) (i : nat) (w u : Z) :
  Forall (fun w => 1 <= w) arr -> sum arr <= weight_bound ->
  _create_width_units_array arr 24 = OK res ->
  arr !! i = Some w -> res !! i = Some u ->
  24 * w / sum arr - 1 <= u <= Z.max 1 (24 * w / sum arr) + 1.
Proof.
  intros Hpos HS Hres Hw Hu.
  assert (Hne : arr <> []) by (intros ->; discriminate).
  destruct (allocator_result arr Hne Hpos HS)
    as (r & res' & Hr & Hres' & _ & _ & _ & _ & _ & Hget).
  rewrite Hres in Hres'. injection Hres' as <-.
  unfold raw_widths in Hr.
  destruct (comprehension_lookup _ _ _ i w Hr Hw) as (v & Hv & Hrw).
  assert (Hw1 : 1 <= w)
    by (eapply (proj1 (Forall_forall _ _) Hpos), list_elem_of_lookup_2, Hw).
  assert (Hw' : w <= sum arr)
    by (apply elem_le_sum; [exact Hpos|eapply list_elem_of_lookup_2, Hw]).
  destruct (raw_floor_near (sum arr) w ltac:(lia) HS) as (f & Hf & Hnear).
  unfold raw_width in Hrw. rewrite Hf in Hrw. cbn [res_bind] in Hrw. injection Hrw as <-.
  rewrite (Hget i _ Hv) in Hu. injection Hu as <-.
  destruct (decide _); destruct Hnear as [->|[-> _]]; lia.
Qed.

Lemma widths_follow_the_shares_witness :
  Forall (fun w => 1 <= w) [3; 1; 1] /\ sum [3; 1; 1] <= weight_bound /\
  _create_width_units_array [3; 1; 1] 24 = OK [15; 5; 4] /\
  24 * 3 / sum [3; 1; 1] - 1 <= 15 <= Z.max 1 (24 * 3 / sum [3; 1; 1]) + 1.
Proof.
  assert (H1 : Forall (fun w => 1 <= w) [3; 1; 1]) by (repeat constructor; lia).
  assert (H2 : sum [3; 1; 1] <= weight_bound) by (vm_compute; discriminate).
  assert (H3 : _create_width_units_array [3; 1; 1] 24 = OK [15; 5; 4])
    by (vm_compute; reflexivity).
  split; [exact H1|]. split; [exact H2|]. split; [exact H3|].
  exact (widths_follow_the_shares [3; 1; 1] [15; 5; 4] 0 3 15 H1 H2 H3 eq_refl eq_refl).
Defined.

(** The widths of a row, of at least one unit each, cover every column up
    to their sum. *)
Lemma widths_cover (ws : list Z) (k : Z) :
  Forall (fun u => 1 <= u) ws -> 0 <= k < sum ws ->
  exists c width,
    ws !! c = Some width /\ sum (take c ws) <= k < sum (take c ws) + width.
Proof.
  intros Hws. revert k. induction Hws as [|u ws Hu _ IH]; intros k Hk.
  - cbn in Hk. lia.
  - rewrite sum_cons in Hk. destruct (Z_lt_le_dec k u) as [Hlt|Hge].
    + exists 0%nat, u. split; [reflexivity|]. cbn. lia.
    + destruct (IH (k - u) ltac:(lia)) as (c & width & Hc & Hcover).
      exists (S c), width. split; [exact Hc|].
      cbn [take]. rewrite sum_cons. lia.
Qed.

(** X23.  In a group that was built with no row of more than 6 panels and
    no object listed twice, every row uses the entire width of the grid:
    every one of the 24 columns is covered by a panel of the row, at the
    row's place and of the row's height. *)
Theorem rows_use_the_entire_width (layout : option PanelGroup.layout_arg)
    (panels : list positive) (y : option Z)
    (row_heights : option PanelGroup.row_heights_arg) (row : option positive)
    (self : PanelGroup.t) (st st' : gmap positive GridPos.t) (r : nat) (hgt k : Z) :
  PanelGroup.__init__ layout panels y row_heights row st = (OK self, st') ->
  NoDup (objects self) ->
  Forall (fun sizes => (length sizes <= 6)%nat) (PanelGroup._layout self) ->
  PanelGroup.row_heights self !! r = Some hgt ->
  0 <= k < 24 ->
  exists p gp,
    p ∈ panels /\ st' !! p = Some gp /\
    GridPos.y gp = row_y self r /\ GridPos.h gp = hgt /\
    GridPos.x gp <= k < GridPos.x gp + GridPos.w gp.
Proof.
  intros Hinit Hnd Hsix Hhgt Hk.
  destruct (built_group _ _ _ _ _ _ _ _ Hinit)
    as (widths & Hall & Hpos & -> & Hobj & Hlen & _ & Hpanels & _).
  destruct (lookup_lt_is_Some_2 widths r) as [ws Hws];
    [rewrite Hlen; eapply lookup_lt_Some, Hhgt|].
  destruct (Forall2_lookup_r _ _ _ _ _ Hall Hws) as (sizes & Hsizes & Halloc).
  pose proof (proj1 (Forall_lookup _ _) Hpos r ws Hws) as Hws1.
  assert (H24 : sum ws = 24).
  { destruct sizes as [|size sizes'] eqn:Hs.
    - exfalso. vm_compute in Halloc. discriminate.
    - rewrite <- Hs in *.
      destruct (small_rows_have_fair_shares sizes ltac:(now rewrite Hs)
                  (proj1 (Forall_lookup _ _) Hsix _ _ Hsizes)) as (H1 & H2 & H3).
      destruct (fair_shares _ H1 H2 H3) as (res & Hres & _ & _ & Hsum).
      rewrite Halloc in Hres. now injection Hres as <-. }
  destruct (widths_cover ws k Hws1 ltac:(lia)) as (c & width & Hc & Hcover).
  pose proof (positions_lookup self widths r c ws width hgt Hws Hc Hhgt) as Hp.
  destruct (lookup_lt_is_Some_2 (PanelGroup.panels self)
              (length (concat (take r widths)) + c)) as [p Hpanel].
  { apply lookup_lt_Some in Hp. rewrite positions_length in Hp.
    destruct (init_inv _ _ _ _ _ _ _ _ Hinit) as (Hattr & _).
    destruct (attributes_inv _ _ _ _ _ _ Hattr) as (_ & _ & _ & Hcount & _).
    destruct (allocated_length _ _ Hall) as [_ Hcat].
    rewrite Hpanels. lia. }
  exists p, (GridPos.mk (sum (take c ws)) (row_y self r) width hgt).
  split; [rewrite <- Hpanels; eapply list_elem_of_lookup_2, Hpanel|].
  split; [|cbn; repeat split; lia].
  apply write_all_in; [now rewrite Hobj|].
  unfold writes. apply elem_of_app. right.
  eapply list_elem_of_lookup_2. apply lookup_zip_with_Some.
  eexists _, _. split; [reflexivity|]. split; [exact Hpanel|exact Hp].
Qed.

Lemma rows_use_the_entire_width_witness :
  NoDup (objects example_group) /\
  Forall (fun sizes => (length sizes <= 6)%nat) (PanelGroup._layout example_group) /\
  PanelGroup.row_heights example_group !! 1%nat = Some 8 /\
  0 <= 13 < 24 /\
  exists p gp,
    p ∈ [1; 2; 3; 4]%positive /\
    (<[4%positive := GridPos.mk 12 9 12 8]>
     (<[3%positive := GridPos.mk 0 9 12 8]>
     (<[2%positive := GridPos.mk 15 0 9 8]>
     (<[1%positive := GridPos.mk 0 0 15 8]> (∅ : gmap positive GridPos.t))))) !! p = Some gp /\
    GridPos.y gp = row_y example_group 1 /\ GridPos.h gp = 8 /\
    GridPos.x gp <= 13 < GridPos.x gp + GridPos.w gp.
Proof.
  assert (H1 : Forall (fun sizes => (length sizes <= 6)%nat) (PanelGroup._layout example_group))
    by (repeat constructor; cbn; lia).
  assert (H2 : PanelGroup.row_heights example_group !! 1%nat = Some 8) by reflexivity.
  assert (H3 : 0 <= 13 < 24) by lia.
  split; [exact example_group_distinct|]. split; [exact H1|]. split; [exact H2|].
  split; [exact H3|].
  exact (rows_use_the_entire_width _ _ _ _ _ _ _ _ 1 8 13 example_group_built
           example_group_distinct H1 H2 H3).
Defined.
